(** * GKeyLib: a shallow embedding of the Gordon Key codec

    The development embeds, function by function, the C sources of GKeyLib:

    - [GKey.c]        : [GKey_get_read_size_bits]
    - [RingBuffer.c]  : [RingBuffer_reset], [RingBuffer_write], [RingBuffer_copy]
    - [RingSearch.c]  : [RingBuffer_read_char], [RingBuffer_find_char],
                        [RingBuffer_compare]
    - [GKeyDecomp.c]  : [read_bits], [ring_writer], [gkeydecomp_decompress]
    - [GKeyComp.c]    : [write_bits], [ring_writer], [find_sequence],
                        [gkeycomp_compress]

    Modelling conventions.

    - Values of type [size_t], [unsigned int] and [char] (when used as a small
      counter) are integers of [Z].  The well-formedness predicates below keep
      every such value non-negative and far below [SIZE_MAX]; no subtraction
      of the model is taken below zero on well-formed states, so the wrap
      around of these types is not written at each operation.  The one
      value they do not bound is [out_size] in a call without output buffer,
      which such a call only adds to: what is stated of these calls is
      stated for counts that do not exceed [SIZE_MAX].  The
      accumulators have type [unsigned long]; the code only relies on
      [ULongMinBit = 32] bits, and the model truncates to that width wherever
      the code shifts bits into an accumulator.
    - An [unsigned char] is a [byte]; [byte.unsigned] and [byte.of_Z] are the
      conversions to and from the integer types.
    - A pointer into caller memory is an offset into a block of bytes (a list);
      a pointer into the ring's own storage is an offset into [buffer].
    - A loop whose number of iterations is bounded by a quantity of the state
      recurses on that quantity; the other loops take fuel and return [None]
      when it runs out.  Totality lemmas show the fuel chosen by the top-level
      functions is enough on well-formed states. *)

From Stdlib Require Import ZArith List Bool Lia.
From Stdlib Require Strings.Byte.
From coqutil Require Import Byte Word.LittleEndianList.
Import ListNotations.

Local Open Scope Z_scope.

(** ** Option monad for the fuelled loops *)

Definition obind {A B} (m : option A) (f : A -> option B) : option B :=
  match m with
  | Some a => f a
  | None => None
  end.

Notation "x <- m ;; k" := (obind m (fun x => k))
  (at level 61, m at next level, right associativity).
Notation "' p <- m ;; k" := (obind m (fun x => match x with p => k end))
  (at level 61, p pattern, m at next level, right associativity).

(** ** Memory blocks *)

Definition LOWEST (a b : Z) : Z := if a <? b then a else b.

(** [mem_read m pos n]: the [n] bytes of block [m] from offset [pos]. *)
Definition mem_read (m : list byte) (pos n : Z) : list byte :=
  firstn (Z.to_nat n) (skipn (Z.to_nat pos) m).

(** [mem_write m pos data]: block [m] after [data] was stored from offset
    [pos] on ([memcpy]/[memmove] into the block). *)
Definition mem_write (m : list byte) (pos : Z) (data : list byte) : list byte :=
  firstn (Z.to_nat pos) m ++ data ++ skipn (Z.to_nat pos + length data) m.

Definition mem_load (m : list byte) (pos : Z) : byte :=
  nth (Z.to_nat pos) m Byte.x00.

(** [memchr]: position of the first byte equal to [(unsigned char)c] among
    the [n] bytes of [m] that start at [start]. *)
Fixpoint memchr_from (l : list byte) (c : byte) (n : nat) (pos : Z) : option Z :=
  match n, l with
  | S n', b :: l' =>
      if Byte.eqb b c then Some pos else memchr_from l' c n' (pos + 1)
  | _, _ => None
  end.

Definition memchr (m : list byte) (start c n : Z) : option Z :=
  memchr_from (skipn (Z.to_nat start) m) (byte.of_Z c) (Z.to_nat n) start.

(** [memcmp]: zero for equal ranges; otherwise ISO C fixes only the sign of
    the result, which is that of the difference of the first pair of bytes
    (as unsigned chars) that differ.  [memcmp_list] returns this difference
    itself, as a byte-wise implementation does; [find_sequence] only tests
    the result of [RingBuffer_compare] for zero, and what is stated of
    [RingBuffer_compare] is stated of the sign. *)
Fixpoint memcmp_list (l1 l2 : list byte) : Z :=
  match l1, l2 with
  | b1 :: l1', b2 :: l2' =>
      if Byte.eqb b1 b2 then memcmp_list l1' l2'
      else byte.unsigned b1 - byte.unsigned b2
  | _, _ => 0
  end.

Definition memcmp (m : list byte) (p1 p2 n : Z) : Z :=
  memcmp_list (mem_read m p1 n) (mem_read m p2 n).

(** ** GKey.h / GKey.c *)

Inductive GKeyStatus : Type :=
| GKeyStatus_OK
| GKeyStatus_BadInput
| GKeyStatus_TruncatedInput
| GKeyStatus_BufferOverflow
| GKeyStatus_Aborted
| GKeyStatus_Finished.

Definition GKeyStatus_eqb (a b : GKeyStatus) : bool :=
  match a, b with
  | GKeyStatus_OK, GKeyStatus_OK
  | GKeyStatus_BadInput, GKeyStatus_BadInput
  | GKeyStatus_TruncatedInput, GKeyStatus_TruncatedInput
  | GKeyStatus_BufferOverflow, GKeyStatus_BufferOverflow
  | GKeyStatus_Aborted, GKeyStatus_Aborted
  | GKeyStatus_Finished, GKeyStatus_Finished => true
  | _, _ => false
  end.

(** The progress callback sees the two running totals. *)
Definition GKeyProgressFn : Type := Z -> Z -> bool.

(** The parameter block.  [in_mem] and [out_mem] are the caller's memory
    blocks; [in_buffer] and [out_buffer] are the pointers of the C struct, as
    offsets into these blocks ([out_buffer = None] is the null pointer). *)
Record GKeyParameters : Type := mkParams {
  in_mem : list byte;
  in_buffer : Z;
  in_size : Z;
  out_mem : list byte;
  out_buffer : option Z;
  out_size : Z;
  prog_cb : option GKeyProgressFn
}.

Definition ULongMinBit : Z := 32.
Definition CHAR_BIT : Z := 8.
Definition MaxHistoryLog2 : Z := ULongMinBit - CHAR_BIT.
Definition SIZE_MAX : Z := 2 ^ 64 - 1.
Definition UINT_MAX : Z := 2 ^ 32 - 1.

(** Truncation to the width of the accumulator. *)
Definition ulong (z : Z) : Z := z mod 2 ^ ULongMinBit.

Definition GKey_get_read_size_bits (history_log_2 read_offset : Z) : Z :=
  if (history_log_2 >? 0) && (read_offset >=? Z.shiftl 1 (history_log_2 - 1))
  then history_log_2 - 1
  else history_log_2.

(** ** Internal/RingBuffer.h, RingBuffer.c, RingSearch.c *)

Record RingBuffer : Type := mkRing {
  size : Z;
  write_pos : Z;
  filled : bool;
  size_log_2 : Z;
  buffer : list byte
}.

Definition RingBuffer_reset (ring : RingBuffer) : RingBuffer :=
  {| size := size ring;
     write_pos := 0;
     filled := false;
     size_log_2 := size_log_2 ring;
     buffer := repeat Byte.x00 (Z.to_nat (size ring)) |}.

Definition RingBuffer_init (size_log_2 : Z) : RingBuffer :=
  RingBuffer_reset
    {| size := Z.shiftl 1 size_log_2;
       write_pos := 0;
       filled := false;
       size_log_2 := size_log_2;
       buffer := [] |}.

Definition RingBuffer_make (size_log_2 : Z) : RingBuffer :=
  RingBuffer_init size_log_2.

(** The source of a [RingBuffer_write]: a pointer into caller memory, or a
    pointer into the ring's own storage (as [RingBuffer_copy] passes). *)
Inductive src_ptr : Type :=
| SrcMem (m : list byte) (pos : Z)
| SrcRing (pos : Z).

Definition src_read (buf : list byte) (s : src_ptr) (n : Z) : list byte :=
  match s with
  | SrcMem m pos => mem_read m pos n
  | SrcRing pos => mem_read buf pos n
  end.

Definition src_advance (s : src_ptr) (n : Z) : src_ptr :=
  match s with
  | SrcMem m pos => SrcMem m (pos + n)
  | SrcRing pos => SrcRing (pos + n)
  end.

(** The loop of [RingBuffer_write]; [write_pos] is the local copy, [buf] and
    [fill] are [ring->buffer] and [ring->filled]. *)
Fixpoint RingBuffer_write_loop (fuel : nat) (ring_size : Z)
    (buf : list byte) (fill : bool) (write_pos : Z) (s : src_ptr) (nleft : Z)
  : option (list byte * bool * Z) :=
  if nleft =? 0 then Some (buf, fill, write_pos)
  else
    match fuel with
    | O => None
    | S fuel' =>
        let to_copy := ring_size - write_pos in
        let to_copy := if to_copy >? nleft then nleft else to_copy in
        let buf := mem_write buf write_pos (src_read buf s to_copy) in
        let s := src_advance s to_copy in
        let write_pos := write_pos + to_copy in
        let '(write_pos, fill) :=
          if write_pos >=? ring_size then (0, true) else (write_pos, fill) in
        RingBuffer_write_loop fuel' ring_size buf fill write_pos s
          (nleft - to_copy)
    end.

Definition RingBuffer_write (ring : RingBuffer) (s : src_ptr) (n : Z)
  : option RingBuffer :=
  '(buf, fill, wp) <-
    RingBuffer_write_loop (S (Z.to_nat n)) (size ring) (buffer ring)
      (filled ring) (write_pos ring) s n ;;
  Some {| size := size ring;
          write_pos := wp;
          filled := fill;
          size_log_2 := size_log_2 ring;
          buffer := buf |}.

(** [RingBufferWriteFn]: the callback receives its argument (a state of type
    [St] here) and the address range [(s, n)], modelled as the [n] bytes at
    [s]; it returns the number of bytes it accepted. *)
Definition RingBufferWriteFn (St : Type) : Type := St -> list byte -> St * Z.

Fixpoint RingBuffer_copy_loop {St : Type} (fuel : nat)
    (write_cb : option (RingBufferWriteFn St)) (offset n : Z)
    (ring : RingBuffer) (cb_arg : St) (copied to_copy total : Z)
  : option (RingBuffer * St * Z) :=
  if (total <? n) && (copied >=? to_copy) then
    match fuel with
    | O => None
    | S fuel' =>
        let read_pos := Z.land (write_pos ring + offset) (size ring - 1) in
        let to_copy := size ring - read_pos in
        let to_copy := if to_copy >? n - total then n - total else to_copy in
        let '(cb_arg, copied) :=
          match write_cb with
          | Some cb => cb cb_arg (mem_read (buffer ring) read_pos to_copy)
          | None => (cb_arg, to_copy)
          end in
        ring <- RingBuffer_write ring (SrcRing read_pos) copied ;;
        RingBuffer_copy_loop fuel' write_cb offset n ring cb_arg copied
          to_copy (total + copied)
    end
  else Some (ring, cb_arg, total).

Definition RingBuffer_copy {St : Type} (ring : RingBuffer)
    (write_cb : option (RingBufferWriteFn St)) (cb_arg : St) (offset n : Z)
  : option (RingBuffer * St * Z) :=
  RingBuffer_copy_loop (S (Z.to_nat n)) write_cb offset n ring cb_arg 0 0 0.

Definition RingBuffer_read_char (ring : RingBuffer) (offset : Z) : Z :=
  let offset := Z.land (write_pos ring + offset) (size ring - 1) in
  byte.unsigned (mem_load (buffer ring) offset).

Definition RingBuffer_find_char (ring : RingBuffer) (offset n c : Z) : Z :=
  let abs_read := Z.land (write_pos ring + offset) (size ring - 1) in
  let start := abs_read in
  let '(to_search, search) :=
    if write_pos ring >? abs_read
    then (write_pos ring - abs_read, true)
    else (size ring - abs_read, filled ring) in
  let '(to_search, found_at) :=
    if search
    then
      let to_search := LOWEST to_search n in
      (to_search, memchr (buffer ring) start c to_search)
    else
      (to_search, if c =? 0 then Some start else None) in
  let '(start, offset, found_at) :=
    match found_at with
    | None =>
        if n >? to_search then
          let offset := offset + to_search in
          let n := n - to_search in
          let start := 0 in
          let to_search := LOWEST (write_pos ring) n in
          (start, offset, memchr (buffer ring) start c to_search)
        else (start, offset, None)
    | Some _ => (start, offset, found_at)
    end in
  match found_at with
  | Some m => m - start + offset
  | None => SIZE_MAX
  end.

(** The loop of [RingBuffer_compare]; [start1], [start2] are offsets into
    [buffer]. *)
Fixpoint RingBuffer_compare_loop (fuel : nat) (ring : RingBuffer)
    (start1 len1 start2 len2 nleft : Z) : option Z :=
  if nleft =? 0 then Some 0
  else
    match fuel with
    | O => None
    | S fuel' =>
        let to_compare := LOWEST (LOWEST len1 len2) nleft in
        let diff := memcmp (buffer ring) start1 start2 to_compare in
        if negb (diff =? 0) then Some diff
        else
          let len1 := len1 - to_compare in
          let '(start1, len1) :=
            if len1 =? 0 then (0, write_pos ring)
            else (start1 + to_compare, len1) in
          let len2 := len2 - to_compare in
          let '(start2, len2) :=
            if len2 =? 0 then (0, write_pos ring)
            else (start2 + to_compare, len2) in
          RingBuffer_compare_loop fuel' ring start1 len1 start2 len2
            (nleft - to_compare)
    end.

Definition RingBuffer_compare (ring : RingBuffer) (offset1 offset2 n : Z)
  : option Z :=
  let abs_read1 := Z.land (write_pos ring + offset1) (size ring - 1) in
  let abs_read2 := Z.land (write_pos ring + offset2) (size ring - 1) in
  let start1 := abs_read1 in
  let start2 := abs_read2 in
  if n =? 1 then
    Some (byte.unsigned (mem_load (buffer ring) start1)
          - byte.unsigned (mem_load (buffer ring) start2))
  else
    let len1 :=
      if write_pos ring >? abs_read1 then write_pos ring - abs_read1
      else size ring - abs_read1 in
    let len2 :=
      if write_pos ring >? abs_read2 then write_pos ring - abs_read2
      else size ring - abs_read2 in
    RingBuffer_compare_loop (Z.to_nat n) ring start1 len1 start2 len2 n.

(** ** GKeyDecomp.c *)

Module GKeyDecomp.

Inductive GKeyDecompState : Type :=
| GKeyDecompState_Progress
| GKeyDecompState_GetType
| GKeyDecompState_GetOffset
| GKeyDecompState_GetSize
| GKeyDecompState_CopyData
| GKeyDecompState_GetByte
| GKeyDecompState_PutByte.

Definition state_eqb (a b : GKeyDecompState) : bool :=
  match a, b with
  | GKeyDecompState_Progress, GKeyDecompState_Progress
  | GKeyDecompState_GetType, GKeyDecompState_GetType
  | GKeyDecompState_GetOffset, GKeyDecompState_GetOffset
  | GKeyDecompState_GetSize, GKeyDecompState_GetSize
  | GKeyDecompState_CopyData, GKeyDecompState_CopyData
  | GKeyDecompState_GetByte, GKeyDecompState_GetByte
  | GKeyDecompState_PutByte, GKeyDecompState_PutByte => true
  | _, _ => false
  end.

Record GKeyDecomp : Type := mkDecomp {
  state : GKeyDecompState;
  in_total : Z;
  out_total : Z;
  read_offset : Z;
  read_size : Z;
  acc : Z;
  acc_nbits : Z;
  literal : byte;
  history_log_2 : Z;
  history : RingBuffer
}.

Definition set_state (d : GKeyDecomp) (v : GKeyDecompState) : GKeyDecomp :=
  mkDecomp v (in_total d) (out_total d) (read_offset d) (read_size d) (acc d)
    (acc_nbits d) (literal d) (history_log_2 d) (history d).
Definition set_out_total (d : GKeyDecomp) (v : Z) : GKeyDecomp :=
  mkDecomp (state d) (in_total d) v (read_offset d) (read_size d) (acc d)
    (acc_nbits d) (literal d) (history_log_2 d) (history d).
Definition set_read_offset (d : GKeyDecomp) (v : Z) : GKeyDecomp :=
  mkDecomp (state d) (in_total d) (out_total d) v (read_size d) (acc d)
    (acc_nbits d) (literal d) (history_log_2 d) (history d).
Definition set_read_size (d : GKeyDecomp) (v : Z) : GKeyDecomp :=
  mkDecomp (state d) (in_total d) (out_total d) (read_offset d) v (acc d)
    (acc_nbits d) (literal d) (history_log_2 d) (history d).
Definition set_literal (d : GKeyDecomp) (v : byte) : GKeyDecomp :=
  mkDecomp (state d) (in_total d) (out_total d) (read_offset d) (read_size d)
    (acc d) (acc_nbits d) v (history_log_2 d) (history d).
Definition set_history (d : GKeyDecomp) (v : RingBuffer) : GKeyDecomp :=
  mkDecomp (state d) (in_total d) (out_total d) (read_offset d) (read_size d)
    (acc d) (acc_nbits d) (literal d) (history_log_2 d) v.
(** The fields [read_bits] writes back. *)
Definition set_input (d : GKeyDecomp) (total a n : Z) : GKeyDecomp :=
  mkDecomp (state d) total (out_total d) (read_offset d) (read_size d) a n
    (literal d) (history_log_2 d) (history d).

(** [ring_writer]: the argument is the pair of objects [RingWriterParams]
    points to; [src] is the address range [(src, n)].  Without an output
    buffer [out_size] counts the bytes; the count is taken in [Z], and is
    the code's [size_t] count as long as it does not exceed [SIZE_MAX]. *)
Definition ring_writer (rwp : GKeyDecomp * GKeyParameters) (src : list byte)
  : GKeyDecomp * GKeyParameters * Z :=
  let '(decomp, params) := rwp in
  let n := Z.of_nat (length src) in
  let '(params, n) :=
    match out_buffer params with
    | None =>
        (mkParams (in_mem params) (in_buffer params) (in_size params)
           (out_mem params) None (out_size params + n) (prog_cb params), n)
    | Some ob =>
        let n := if out_size params <? n then out_size params else n in
        (mkParams (in_mem params) (in_buffer params) (in_size params)
           (mem_write (out_mem params) ob (firstn (Z.to_nat n) src))
           (Some (ob + n)) (out_size params - n) (prog_cb params), n)
    end in
  (set_out_total decomp (out_total decomp + n), params, n).

(** The [while] loop of [read_bits] on its local variables.  Each iteration
    adds [CHAR_BIT] to [acc_nbits], so [nbits - acc_nbits] bounds the number
    of iterations and the loop recurses on it. *)
Fixpoint read_bits_loop (fuel : nat) (nbits : Z) (mem : list byte)
    (in_buffer in_size in_total acc acc_nbits : Z)
  : bool * (Z * Z * Z * Z * Z) :=
  match fuel with
  | O => (true, (in_buffer, in_size, in_total, acc, acc_nbits))
  | S fuel' =>
      if acc_nbits <? nbits then
        if in_size =? 0 then
          (false, (in_buffer, in_size, in_total, acc, acc_nbits))
        else
          let byte := byte.unsigned (mem_load mem in_buffer) in
          read_bits_loop fuel' nbits mem (in_buffer + 1) (in_size - 1)
            (in_total + 1) (ulong (Z.lor acc (Z.shiftl byte acc_nbits)))
            (acc_nbits + CHAR_BIT)
      else (true, (in_buffer, in_size, in_total, acc, acc_nbits))
  end.

(** [read_bits] returns [success], the value stored through [out] (left
    at 0 here when the code does not assign it), and the updated objects. *)
Definition read_bits (decomp : GKeyDecomp) (params : GKeyParameters)
    (nbits : Z) : bool * Z * GKeyDecomp * GKeyParameters :=
  let '(success, (in_buffer, in_size, in_total, acc, acc_nbits)) :=
    read_bits_loop (Z.to_nat (nbits - acc_nbits decomp)) nbits
      (in_mem params) (in_buffer params) (in_size params) (in_total decomp)
      (acc decomp) (acc_nbits decomp) in
  let params :=
    mkParams (in_mem params) in_buffer in_size (out_mem params)
      (out_buffer params) (out_size params) (prog_cb params) in
  let '(out, acc, acc_nbits) :=
    if acc_nbits >=? nbits then
      let mask := Z.shiftl 1 nbits - 1 in
      (Z.land acc mask, Z.shiftr acc nbits, acc_nbits - nbits)
    else (0, acc, acc_nbits) in
  (success, out, set_input decomp in_total acc acc_nbits, params).

(** The local variables of [gkeydecomp_decompress] that survive one pass
    through the [switch]. *)
Record pass : Type := mkPass {
  p_status : GKeyStatus;
  p_state : GKeyDecompState;
  p_stop : bool;
  p_decomp : GKeyDecomp;
  p_params : GKeyParameters
}.

Definition case_CopyData (status : GKeyStatus) (stop : bool)
    (decomp : GKeyDecomp) (params : GKeyParameters) : option pass :=
  '(ring, (decomp, params), copied) <-
    RingBuffer_copy (history decomp) (Some ring_writer) (decomp, params)
      (read_offset decomp) (read_size decomp) ;;
  let decomp := set_history decomp ring in
  if copied >=? read_size decomp then
    Some (mkPass status GKeyDecompState_Progress stop decomp params)
  else
    Some (mkPass GKeyStatus_BufferOverflow GKeyDecompState_CopyData stop
            (set_read_size decomp (read_size decomp - copied)) params).

Definition case_GetSize (status : GKeyStatus) (stop : bool)
    (decomp : GKeyDecomp) (params : GKeyParameters) : option pass :=
  let nbits :=
    GKey_get_read_size_bits (history_log_2 decomp) (read_offset decomp) in
  let '(ok, bits, decomp, params) := read_bits decomp params nbits in
  if ok then
    if (bits =? 0)
       || (read_offset decomp + bits >? Z.shiftl 1 (history_log_2 decomp))
    then
      Some (mkPass GKeyStatus_BadInput GKeyDecompState_GetSize stop decomp
              params)
    else
      case_CopyData status stop (set_read_size decomp bits) params
  else
    Some (mkPass GKeyStatus_TruncatedInput GKeyDecompState_GetSize stop decomp
            params).

Definition case_GetOffset (status : GKeyStatus) (stop : bool)
    (decomp : GKeyDecomp) (params : GKeyParameters) : option pass :=
  let '(ok, bits, decomp, params) :=
    read_bits decomp params (history_log_2 decomp) in
  if ok then
    case_GetSize status stop (set_read_offset decomp bits) params
  else
    Some (mkPass GKeyStatus_TruncatedInput GKeyDecompState_GetOffset stop
            decomp params).

Definition case_GetType (status : GKeyStatus) (stop : bool)
    (decomp : GKeyDecomp) (params : GKeyParameters) : option pass :=
  let '(ok, bits, decomp, params) := read_bits decomp params 1 in
  if ok then
    if negb (bits =? 0) then case_GetOffset status stop decomp params
    else Some (mkPass status GKeyDecompState_GetByte stop decomp params)
  else
    Some (mkPass status GKeyDecompState_GetType true decomp params).

Definition case_Progress (status : GKeyStatus) (stop : bool)
    (decomp : GKeyDecomp) (params : GKeyParameters) : option pass :=
  match prog_cb params with
  | Some cb =>
      if cb (in_total decomp) (out_total decomp)
      then case_GetType status stop decomp params
      else Some (mkPass GKeyStatus_Aborted GKeyDecompState_Progress stop
                   decomp params)
  | None => case_GetType status stop decomp params
  end.

Definition case_PutByte (status : GKeyStatus) (stop : bool)
    (decomp : GKeyDecomp) (params : GKeyParameters) : option pass :=
  let '(decomp, params, n) := ring_writer (decomp, params) [literal decomp] in
  if n =? 1 then
    ring <- RingBuffer_write (history decomp) (SrcMem [literal decomp] 0) 1 ;;
    Some (mkPass status GKeyDecompState_Progress stop
            (set_history decomp ring) params)
  else
    Some (mkPass GKeyStatus_BufferOverflow GKeyDecompState_PutByte stop decomp
            params).

Definition case_GetByte (status : GKeyStatus) (stop : bool)
    (decomp : GKeyDecomp) (params : GKeyParameters) : option pass :=
  let '(ok, bits, decomp, params) := read_bits decomp params CHAR_BIT in
  if ok then
    case_PutByte status stop (set_literal decomp (byte.of_Z bits)) params
  else if acc decomp =? 0 then
    Some (mkPass status GKeyDecompState_GetByte true decomp params)
  else
    Some (mkPass GKeyStatus_TruncatedInput GKeyDecompState_GetByte stop decomp
            params).

(** One pass through the [switch], from the case label of [state] down the
    fall-through chain to the first [break]. *)
Definition switch (state : GKeyDecompState) (status : GKeyStatus)
    (stop : bool) (decomp : GKeyDecomp) (params : GKeyParameters)
  : option pass :=
  match state with
  | GKeyDecompState_Progress => case_Progress status stop decomp params
  | GKeyDecompState_GetType => case_GetType status stop decomp params
  | GKeyDecompState_GetOffset => case_GetOffset status stop decomp params
  | GKeyDecompState_GetSize => case_GetSize status stop decomp params
  | GKeyDecompState_CopyData => case_CopyData status stop decomp params
  | GKeyDecompState_GetByte => case_GetByte status stop decomp params
  | GKeyDecompState_PutByte => case_PutByte status stop decomp params
  end.

(** The [do ... while (status == GKeyStatus_OK && !stop)] loop. *)
Fixpoint decompress_loop (fuel : nat) (state : GKeyDecompState)
    (decomp : GKeyDecomp) (params : GKeyParameters) : option pass :=
  match fuel with
  | O => None
  | S fuel' =>
      r <- switch state GKeyStatus_OK false decomp params ;;
      if GKeyStatus_eqb (p_status r) GKeyStatus_OK && negb (p_stop r)
      then decompress_loop fuel' (p_state r) (p_decomp r) (p_params r)
      else Some r
  end.

(** Every pass that lets the loop go on takes at least one bit from the
    accumulator or the input, except a pass that starts in the middle of a
    token; hence the fuel. *)
Definition decompress_fuel (decomp : GKeyDecomp) (params : GKeyParameters)
  : nat :=
  Z.to_nat (acc_nbits decomp + CHAR_BIT * in_size params) + 2.

Definition gkeydecomp_make (history_log_2 : Z) : GKeyDecomp :=
  mkDecomp GKeyDecompState_Progress 0 0 0 0 0 0 Byte.x00 history_log_2
    (RingBuffer_make history_log_2).

Definition gkeydecomp_reset (decomp : GKeyDecomp) : GKeyDecomp :=
  mkDecomp GKeyDecompState_Progress 0 0 0 0 0 0 Byte.x00
    (history_log_2 decomp) (RingBuffer_reset (history decomp)).

Definition gkeydecomp_decompress (decomp : GKeyDecomp)
    (params : GKeyParameters)
  : option (GKeyStatus * GKeyDecomp * GKeyParameters) :=
  r <- decompress_loop (decompress_fuel decomp params) (state decomp) decomp
         params ;;
  Some (p_status r, set_state (p_decomp r) (p_state r), p_params r).

End GKeyDecomp.

(** ** GKeyComp.c (compiled with [FOURTH_DIMENSION] defined) *)

Module GKeyComp.

Inductive GKeyCompState : Type :=
| GKeyCompState_NextSequence
| GKeyCompState_Progress
| GKeyCompState_FindSequence
| GKeyCompState_PutOffset
| GKeyCompState_PutSize
| GKeyCompState_PutByte
| GKeyCompState_PutBytes
| GKeyCompState_Flush.

Record GKeyComp : Type := mkComp {
  state : GKeyCompState;
  in_total : Z;
  out_total : Z;
  out_pos : Z;
  max_read_size : Z;
  best_read_offset : Z;
  best_read_size : Z;
  read_offset : Z;
  read_size : Z;
  acc : Z;
  acc_nbits : Z;
  history_log_2 : Z;
  history : RingBuffer
}.

Definition set_state (c : GKeyComp) (v : GKeyCompState) : GKeyComp :=
  mkComp v (in_total c) (out_total c) (out_pos c) (max_read_size c)
    (best_read_offset c) (best_read_size c) (read_offset c) (read_size c)
    (acc c) (acc_nbits c) (history_log_2 c) (history c).
Definition set_in_total (c : GKeyComp) (v : Z) : GKeyComp :=
  mkComp (state c) v (out_total c) (out_pos c) (max_read_size c)
    (best_read_offset c) (best_read_size c) (read_offset c) (read_size c)
    (acc c) (acc_nbits c) (history_log_2 c) (history c).
Definition set_read_size (c : GKeyComp) (v : Z) : GKeyComp :=
  mkComp (state c) (in_total c) (out_total c) (out_pos c) (max_read_size c)
    (best_read_offset c) (best_read_size c) (read_offset c) v
    (acc c) (acc_nbits c) (history_log_2 c) (history c).
Definition set_history (c : GKeyComp) (v : RingBuffer) : GKeyComp :=
  mkComp (state c) (in_total c) (out_total c) (out_pos c) (max_read_size c)
    (best_read_offset c) (best_read_size c) (read_offset c) (read_size c)
    (acc c) (acc_nbits c) (history_log_2 c) v.
(** The fields [write_bits] writes back. *)
Definition set_output (c : GKeyComp) (total a n : Z) : GKeyComp :=
  mkComp (state c) (in_total c) total (out_pos c) (max_read_size c)
    (best_read_offset c) (best_read_size c) (read_offset c) (read_size c)
    a n (history_log_2 c) (history c).
(** The fields [find_sequence] writes back. *)
Definition set_sequence (c : GKeyComp) (total max_size best_offset best_size
    offset sz : Z) : GKeyComp :=
  mkComp (state c) total (out_total c) (out_pos c) max_size best_offset
    best_size offset sz (acc c) (acc_nbits c) (history_log_2 c) (history c).
(** The fields the case [NextSequence] clears. *)
Definition clear_sequence (c : GKeyComp) : GKeyComp :=
  mkComp (state c) (in_total c) (out_total c) (out_pos c) (max_read_size c)
    0 0 0 0 (acc c) (acc_nbits c) (history_log_2 c) (history c).

(** The [while] loop of [write_bits] on its local variables; it takes
    [CHAR_BIT] bits from [acc_nbits] in each iteration and recurses on
    [acc_nbits].  Without an output buffer [out_size] counts the bytes; the
    count is taken in [Z], and is the code's [size_t] count as long as it
    does not exceed [SIZE_MAX]. *)
Fixpoint write_bits_loop (fuel : nat) (mem : list byte)
    (out_buffer : option Z) (out_size out_total acc acc_nbits : Z)
  : bool * (list byte * option Z * Z * Z * Z * Z) :=
  match fuel with
  | O => (true, (mem, out_buffer, out_size, out_total, acc, acc_nbits))
  | S fuel' =>
      if acc_nbits >=? CHAR_BIT then
        match out_buffer with
        | Some ob =>
            if out_size =? 0 then
              (false, (mem, out_buffer, out_size, out_total, acc, acc_nbits))
            else
              write_bits_loop fuel' (mem_write mem ob [byte.of_Z acc])
                (Some (ob + 1)) (out_size - 1) (out_total + 1)
                (Z.shiftr acc CHAR_BIT) (acc_nbits - CHAR_BIT)
        | None =>
            write_bits_loop fuel' mem None (out_size + 1) (out_total + 1)
              (Z.shiftr acc CHAR_BIT) (acc_nbits - CHAR_BIT)
        end
      else (true, (mem, out_buffer, out_size, out_total, acc, acc_nbits))
  end.

Definition write_bits (comp : GKeyComp) (params : GKeyParameters)
    (nbits bits : Z) : bool * GKeyComp * GKeyParameters :=
  let acc_nbits := acc_nbits comp in
  let '(nbits, acc_nbits) :=
    if nbits =? UINT_MAX then
      (0,
       if negb (acc_nbits mod CHAR_BIT =? 0)
       then acc_nbits + (CHAR_BIT - acc_nbits mod CHAR_BIT)
       else acc_nbits)
    else (nbits, acc_nbits) in
  let '(success, (mem, out_buffer, out_size, out_total, acc, acc_nbits)) :=
    write_bits_loop (Z.to_nat acc_nbits) (out_mem params) (out_buffer params)
      (out_size params) (out_total comp) (acc comp) acc_nbits in
  let '(acc, acc_nbits) :=
    if success
    then (ulong (Z.lor acc (Z.shiftl bits acc_nbits)), acc_nbits + nbits)
    else (acc, acc_nbits) in
  (success,
   set_output comp out_total acc acc_nbits,
   mkParams (in_mem params) (in_buffer params) (in_size params) mem
     out_buffer out_size (prog_cb params)).

(** [ring_writer]: one [write_bits] per byte of the range, until one fails;
    the loop over [nout < n] recurses on the range. *)
Fixpoint ring_writer_loop (comp : GKeyComp) (params : GKeyParameters)
    (literals : list byte) (nout : Z) : GKeyComp * GKeyParameters * Z :=
  match literals with
  | [] => (comp, params, nout)
  | b :: rest =>
      let '(ok, comp', params') :=
        write_bits comp params (CHAR_BIT + 1) (Z.shiftl (byte.unsigned b) 1) in
      if ok then ring_writer_loop comp' params' rest (nout + 1)
      else (comp', params', nout)
  end.

Definition ring_writer (rwp : GKeyComp * GKeyParameters) (src : list byte)
  : GKeyComp * GKeyParameters * Z :=
  let '(comp, params) := rwp in
  ring_writer_loop comp params src 0.

(** The local variables of [find_sequence]; [fs_best_read_offset] is
    [comp->best_read_offset], which the loop writes directly. *)
Record fs_vars : Type := mkFs {
  fs_read_offset : Z;
  fs_read_size : Z;
  fs_max_read_size : Z;
  fs_best_read_size : Z;
  fs_best_read_offset : Z;
  fs_consumed : Z
}.

(** The inner [for (; read_size < max_read_size; ++read_size)] loop, which
    recurses on [max_read_size - read_size].  The boolean is true when the
    loop left through [goto finished]. *)
Fixpoint extend_loop (fuel : nat) (ring : RingBuffer)
    (params : GKeyParameters) (read_offset read_size consumed : Z)
  : bool * Z * Z :=
  match fuel with
  | O => (false, read_size, consumed)
  | S fuel' =>
      if consumed >=? in_size params then (true, read_size, consumed)
      else
        let new_byte :=
          byte.unsigned (mem_load (in_mem params)
                           (in_buffer params + consumed)) in
        let old_byte := RingBuffer_read_char ring (read_offset + read_size) in
        if negb (new_byte =? old_byte) then (false, read_size, consumed)
        else extend_loop fuel' ring params read_offset (read_size + 1)
               (consumed + 1)
  end.

(** What the first part of the body of the outer loop (the block guarded by
    [read_size == 0]) leads to. *)
Inductive fs_branch : Type :=
| FsBreak (v : fs_vars)
| FsContinue (v : fs_vars)
| FsExtend (v : fs_vars).

Definition search_start (history_log_2 : Z) (ring : RingBuffer)
    (params : GKeyParameters) (v : fs_vars) : option fs_branch :=
  let max_read_size := Z.shiftl 1 history_log_2 - fs_read_offset v in
  let max_read_size :=
    if max_read_size >? 0 then max_read_size - 1 else max_read_size in
  let v := mkFs (fs_read_offset v) (fs_read_size v) max_read_size
             (fs_best_read_size v) (fs_best_read_offset v) (fs_consumed v) in
  if fs_best_read_size v >=? max_read_size then Some (FsBreak v)
  else if (fs_best_read_size v =? 0) && (fs_consumed v >=? in_size params)
  then Some (FsBreak v)
  else
    let new_byte :=
      if fs_best_read_size v =? 0
      then byte.unsigned (mem_load (in_mem params)
                            (in_buffer params + fs_consumed v))
      else RingBuffer_read_char ring (fs_best_read_offset v) in
    let old_read_offset := fs_read_offset v in
    let read_offset :=
      RingBuffer_find_char ring (fs_read_offset v)
        (max_read_size - fs_best_read_size v) new_byte in
    if read_offset =? SIZE_MAX then
      Some (FsBreak (mkFs read_offset (fs_read_size v) 0
                       (fs_best_read_size v) (fs_best_read_offset v)
                       (fs_consumed v)))
    else
      let consumed :=
        if fs_read_size v >=? fs_best_read_size v
        then fs_consumed v + 1 else fs_consumed v in
      let read_size := fs_read_size v + 1 in
      let max_read_size := max_read_size - (read_offset - old_read_offset) in
      let v := mkFs read_offset read_size max_read_size
                 (fs_best_read_size v) (fs_best_read_offset v) consumed in
      if read_size <? fs_best_read_size v then
        diff <- RingBuffer_compare ring (read_offset + read_size)
                  (fs_best_read_offset v + read_size)
                  (fs_best_read_size v - read_size) ;;
        if negb (diff =? 0) then Some (FsContinue v)
        else Some (FsExtend
                     (mkFs read_offset (fs_best_read_size v) max_read_size
                        (fs_best_read_size v) (fs_best_read_offset v)
                        consumed))
      else Some (FsExtend v).

(** The second part of the body: the inner loop, then the update of the best
    match.  The boolean is true when the inner loop left through
    [goto finished]. *)
Definition extend_match (ring : RingBuffer) (params : GKeyParameters)
    (v : fs_vars) : bool * fs_vars :=
  let '(stalled, read_size, consumed) :=
    extend_loop (Z.to_nat (fs_max_read_size v - fs_read_size v)) ring
      params (fs_read_offset v) (fs_read_size v) (fs_consumed v) in
  let v := mkFs (fs_read_offset v) read_size (fs_max_read_size v)
             (fs_best_read_size v) (fs_best_read_offset v) consumed in
  if stalled then (true, v)
  else if read_size >? fs_best_read_size v then
    (false, mkFs (fs_read_offset v) read_size (fs_max_read_size v)
              read_size (fs_read_offset v) consumed)
  else (false, v).

(** The increment [++read_offset, read_size = 0] of the outer loop. *)
Definition fs_next (v : fs_vars) : fs_vars :=
  mkFs (fs_read_offset v + 1) 0 (fs_max_read_size v) (fs_best_read_size v)
    (fs_best_read_offset v) (fs_consumed v).

(** The outer [for (consumed = 0; ; ++read_offset, read_size = 0)] loop; it
    returns the variables at the label [finished]. *)
Fixpoint find_sequence_loop (fuel : nat) (history_log_2 : Z)
    (ring : RingBuffer) (params : GKeyParameters) (v : fs_vars)
  : option fs_vars :=
  match fuel with
  | O => None
  | S fuel' =>
      let extend (v : fs_vars) :=
        let '(stalled, v) := extend_match ring params v in
        if stalled then Some v
        else find_sequence_loop fuel' history_log_2 ring params (fs_next v) in
      if fs_read_size v =? 0 then
        b <- search_start history_log_2 ring params v ;;
        match b with
        | FsBreak v => Some v
        | FsContinue v =>
            find_sequence_loop fuel' history_log_2 ring params (fs_next v)
        | FsExtend v => extend v
        end
      else extend v
  end.

Definition find_sequence (comp : GKeyComp) (params : GKeyParameters)
  : option (bool * GKeyComp * GKeyParameters) :=
  v <- find_sequence_loop
         (Z.to_nat (Z.shiftl 1 (history_log_2 comp) - read_offset comp) + 2)
         (history_log_2 comp) (history comp) params
         (mkFs (read_offset comp) (read_size comp) (max_read_size comp)
            (best_read_size comp) (best_read_offset comp) 0) ;;
  let consumed := fs_consumed v in
  let params' :=
    mkParams (in_mem params) (in_buffer params + consumed)
      (in_size params - consumed) (out_mem params) (out_buffer params)
      (out_size params) (prog_cb params) in
  let total := in_total comp + consumed in
  if fs_best_read_size v >=? fs_max_read_size v then
    Some (true,
          set_sequence comp total (fs_max_read_size v)
            (fs_best_read_offset v) (fs_best_read_size v)
            (fs_best_read_offset v) (fs_best_read_size v),
          params')
  else
    Some (false,
          set_sequence comp total (fs_max_read_size v)
            (fs_best_read_offset v) (fs_best_read_size v)
            (fs_read_offset v) (fs_read_size v),
          params').

(** The local variables of [gkeycomp_compress] that survive one pass
    through the [switch]. *)
Record pass : Type := mkPass {
  p_status : GKeyStatus;
  p_state : GKeyCompState;
  p_input : bool;
  p_comp : GKeyComp;
  p_params : GKeyParameters
}.

Definition case_PutSize (status : GKeyStatus) (input : bool)
    (comp : GKeyComp) (params : GKeyParameters) : option pass :=
  let nbits :=
    GKey_get_read_size_bits (history_log_2 comp) (read_offset comp) in
  let '(ok, comp, params) := write_bits comp params nbits (read_size comp) in
  if ok then
    '(ring, _, copied) <-
      RingBuffer_copy (history comp) None tt (read_offset comp)
        (read_size comp) ;;
    Some (mkPass status GKeyCompState_NextSequence input
            (set_history comp ring) params)
  else
    Some (mkPass GKeyStatus_BufferOverflow GKeyCompState_PutSize input comp
            params).

Definition case_PutOffset (status : GKeyStatus) (input : bool)
    (comp : GKeyComp) (params : GKeyParameters) : option pass :=
  let '(ok, comp, params) :=
    write_bits comp params (history_log_2 comp + 1)
      (Z.lor (ulong (Z.shiftl (read_offset comp) 1)) 1) in
  if ok then case_PutSize status input comp params
  else
    Some (mkPass GKeyStatus_BufferOverflow GKeyCompState_PutOffset input comp
            params).

(** The case [FindSequence]; [state] is the value of the local variable on
    entry, which is kept when the search stalls. *)
Definition case_FindSequence (flush : bool) (state : GKeyCompState)
    (status : GKeyStatus) (input : bool) (comp : GKeyComp)
    (params : GKeyParameters) : option pass :=
  '(found, comp, params) <-
    (if flush then Some (true, comp, params)
     else find_sequence comp params) ;;
  if found then
    if read_size comp =? 0 then
      if in_size params >? 0 then
        Some (mkPass status GKeyCompState_PutByte input comp params)
      else if flush then
        Some (mkPass status GKeyCompState_Flush input comp params)
      else
        Some (mkPass status state false comp params)
    else
      let nbits :=
        GKey_get_read_size_bits (history_log_2 comp) (read_offset comp) in
      if read_size comp * (CHAR_BIT + 1) <? history_log_2 comp + nbits + 1
      then Some (mkPass status GKeyCompState_PutBytes input comp params)
      else case_PutOffset status input comp params
  else
    Some (mkPass status state false comp params).

(** The case [Progress]; on entry [state] is [Progress], or [NextSequence]
    when the case above fell through. *)
Definition case_Progress (flush : bool) (state : GKeyCompState)
    (status : GKeyStatus) (input : bool) (comp : GKeyComp)
    (params : GKeyParameters) : option pass :=
  match prog_cb params with
  | Some cb =>
      if cb (in_total comp) (out_total comp)
      then case_FindSequence flush GKeyCompState_FindSequence status input
             comp params
      else Some (mkPass GKeyStatus_Aborted state input comp params)
  | None =>
      case_FindSequence flush GKeyCompState_FindSequence status input comp
        params
  end.

Definition case_NextSequence (flush : bool) (status : GKeyStatus)
    (input : bool) (comp : GKeyComp) (params : GKeyParameters)
  : option pass :=
  case_Progress flush GKeyCompState_NextSequence status input
    (clear_sequence comp) params.

Definition case_PutByte (status : GKeyStatus) (input : bool)
    (comp : GKeyComp) (params : GKeyParameters) : option pass :=
  let in_ptr := in_buffer params in
  let '(ok, comp, params) :=
    write_bits comp params (CHAR_BIT + 1)
      (Z.shiftl (byte.unsigned (mem_load (in_mem params) in_ptr)) 1) in
  if ok then
    ring <- RingBuffer_write (history comp)
              (SrcMem (in_mem params) (in_buffer params)) 1 ;;
    Some (mkPass status GKeyCompState_NextSequence input
            (set_in_total (set_history comp ring) (in_total comp + 1))
            (mkParams (in_mem params) (in_ptr + 1) (in_size params - 1)
               (out_mem params) (out_buffer params) (out_size params)
               (prog_cb params)))
  else
    Some (mkPass GKeyStatus_BufferOverflow GKeyCompState_PutByte input comp
            params).

Definition case_PutBytes (status : GKeyStatus) (input : bool)
    (comp : GKeyComp) (params : GKeyParameters) : option pass :=
  '(ring, (comp, params), copied) <-
    RingBuffer_copy (history comp) (Some ring_writer) (comp, params)
      (read_offset comp) (read_size comp) ;;
  let comp := set_history comp ring in
  if copied >=? read_size comp then
    Some (mkPass status GKeyCompState_NextSequence input comp params)
  else
    Some (mkPass GKeyStatus_BufferOverflow GKeyCompState_PutBytes input
            (set_read_size comp (read_size comp - copied)) params).

Definition case_Flush (status : GKeyStatus) (input : bool)
    (comp : GKeyComp) (params : GKeyParameters) : option pass :=
  let '(ok, comp, params) := write_bits comp params UINT_MAX 0 in
  if ok then
    Some (mkPass GKeyStatus_Finished GKeyCompState_Flush input comp params)
  else
    Some (mkPass GKeyStatus_BufferOverflow GKeyCompState_Flush input comp
            params).

(** One pass through the [switch], from the case label of [state] down the
    fall-through chain to the first [break]. *)
Definition switch (flush : bool) (state : GKeyCompState)
    (status : GKeyStatus) (input : bool) (comp : GKeyComp)
    (params : GKeyParameters) : option pass :=
  match state with
  | GKeyCompState_NextSequence =>
      case_NextSequence flush status input comp params
  | GKeyCompState_Progress =>
      case_Progress flush GKeyCompState_Progress status input comp params
  | GKeyCompState_FindSequence =>
      case_FindSequence flush GKeyCompState_FindSequence status input comp
        params
  | GKeyCompState_PutOffset => case_PutOffset status input comp params
  | GKeyCompState_PutSize => case_PutSize status input comp params
  | GKeyCompState_PutByte => case_PutByte status input comp params
  | GKeyCompState_PutBytes => case_PutBytes status input comp params
  | GKeyCompState_Flush => case_Flush status input comp params
  end.

(** The [do ... while (status == GKeyStatus_OK && input)] loop. *)
Fixpoint compress_loop (fuel : nat) (flush : bool) (state : GKeyCompState)
    (comp : GKeyComp) (params : GKeyParameters) : option pass :=
  match fuel with
  | O => None
  | S fuel' =>
      r <- switch flush state GKeyStatus_OK true comp params ;;
      if GKeyStatus_eqb (p_status r) GKeyStatus_OK && p_input r
      then compress_loop fuel' flush (p_state r) (p_comp r) (p_params r)
      else Some r
  end.

(** A pass that lets the loop go on either consumes input or moves from the
    search to an emitting state; hence the fuel. *)
Definition compress_fuel (params : GKeyParameters) : nat :=
  2 * Z.to_nat (in_size params) + 4.

Definition gkeycomp_make (history_log_2 : Z) : GKeyComp :=
  mkComp GKeyCompState_Progress 0 0 0 0 0 0 0 0 0 0 history_log_2
    (RingBuffer_make history_log_2).

Definition gkeycomp_reset (comp : GKeyComp) : GKeyComp :=
  mkComp GKeyCompState_Progress 0 0 0 0 0 0 0 0 0 0 (history_log_2 comp)
    (RingBuffer_reset (history comp)).

Definition gkeycomp_compress (comp : GKeyComp) (params : GKeyParameters)
  : option (GKeyStatus * GKeyComp * GKeyParameters) :=
  let flush := in_size params =? 0 in
  r <- compress_loop (compress_fuel params) flush (state comp) comp params ;;
  Some (p_status r, set_state (p_comp r) (p_state r), p_params r).

End GKeyComp.

(** ** Running the codecs on whole streams *)

(** A parameter block over an input block and a zeroed output block of
    [room] bytes, without progress callback. *)
Definition stream_params (input : list byte) (room : Z) : GKeyParameters :=
  mkParams input 0 (Z.of_nat (length input))
    (repeat Byte.x00 (Z.to_nat room)) (Some 0) room None.

(** The bytes stored in the output block so far. *)
Definition written (params : GKeyParameters) : list byte :=
  match out_buffer params with
  | Some ob => firstn (Z.to_nat ob) (out_mem params)
  | None => []
  end.

(** [compress_stream k X room]: a compressor made for history size [k] is
    given all of [X], then called with no input until the flush is over; the
    result is the content of the output block when the last call returned
    [Finished]. *)
Definition compress_stream (k : Z) (X : list byte) (room : Z)
  : option (list byte) :=
  '(status, comp, params) <-
    GKeyComp.gkeycomp_compress (GKeyComp.gkeycomp_make k)
      (stream_params X room) ;;
  '(status, comp, params) <-
    (match status with
     | GKeyStatus_OK =>
         GKeyComp.gkeycomp_compress comp
           (mkParams (in_mem params) (in_buffer params) 0 (out_mem params)
              (out_buffer params) (out_size params) None)
     | _ => Some (status, comp, params)
     end) ;;
  match status with
  | GKeyStatus_Finished => Some (written params)
  | _ => None
  end.

(** [decompress_stream k Y room]: a decompressor made for history size [k]
    is given all of [Y]; the result is the content of the output block when
    the call returned [OK] (this is how the decompressor reports that it
    stopped at the end of its input). *)
Definition decompress_stream (k : Z) (Y : list byte) (room : Z)
  : option (list byte) :=
  '(status, decomp, params) <-
    GKeyDecomp.gkeydecomp_decompress (GKeyDecomp.gkeydecomp_make k)
      (stream_params Y room) ;;
  match status with
  | GKeyStatus_OK => Some (written params)
  | _ => None
  end.

(** ** Notions used to state the properties *)

(** The byte [off] positions past the write position, and the window of [n]
    bytes from there, in ring order. *)
Definition ring_at (r : RingBuffer) (off : Z) : byte :=
  mem_load (buffer r) ((write_pos r + off) mod size r).

Definition ring_window (r : RingBuffer) (off n : Z) : list byte :=
  map (fun i => ring_at r (off + Z.of_nat i)) (seq 0 (Z.to_nat n)).

(** The ring after one byte, and after a list of bytes, was appended at the
    write position. *)
Definition ring_push (r : RingBuffer) (b : byte) : RingBuffer :=
  {| size := size r;
     write_pos := if write_pos r + 1 >=? size r then 0 else write_pos r + 1;
     filled := if write_pos r + 1 >=? size r then true else filled r;
     size_log_2 := size_log_2 r;
     buffer := mem_write (buffer r) (write_pos r) [b] |}.

Definition ring_append (r : RingBuffer) (l : list byte) : RingBuffer :=
  fold_left ring_push l r.

(** Well-formed rings of capacity [1 << k]: the write position is inside the
    storage, and until the write position has wrapped every byte from it to
    the end of the storage is zero. *)
Definition ring_wf (k : Z) (r : RingBuffer) : Prop :=
  0 <= k
  /\ size r = 2 ^ k
  /\ 0 <= write_pos r < size r
  /\ Z.of_nat (length (buffer r)) = size r
  /\ (filled r = false ->
      forall i, write_pos r <= i < size r ->
                mem_load (buffer r) i = Byte.x00).

(** A callback of [RingBuffer_copy] that accepts a prefix of each range, and
    treats a range offered in two parts as it treats the whole. *)
Definition accept_all {St : Type} : RingBufferWriteFn St :=
  fun st l => (st, Z.of_nat (length l)).

Definition cb_or_all {St : Type} (write_cb : option (RingBufferWriteFn St))
  : RingBufferWriteFn St :=
  match write_cb with
  | Some cb => cb
  | None => accept_all
  end.

Definition cb_sequential {St : Type} (I : St -> Prop)
    (cb : RingBufferWriteFn St) : Prop :=
  (forall st l,
      I st -> I (fst (cb st l)) /\ 0 <= snd (cb st l) <= Z.of_nat (length l))
  /\ (forall st l1 l2,
         I st ->
         cb st (l1 ++ l2)
         = let '(st1, k1) := cb st l1 in
           if k1 =? Z.of_nat (length l1)
           then let '(st2, k2) := cb st1 l2 in (st2, k1 + k2)
           else (st1, k1)).

(** The output window of a parameter block lies inside the output block. *)
Definition out_window_ok (p : GKeyParameters) : Prop :=
  match out_buffer p with
  | Some ob =>
      0 <= ob /\ 0 <= out_size p
      /\ ob + out_size p <= Z.of_nat (length (out_mem p))
  | None => True
  end.

(** Notions for the match search.  [fs_pending] is the number of input bytes
    consumed for the match in progress; [base] is where these bytes start in
    the input block. *)
Definition fs_pending (v : GKeyComp.fs_vars) : Z :=
  Z.max (GKeyComp.fs_read_size v) (GKeyComp.fs_best_read_size v).

Definition fs_extending (k : Z) (v : GKeyComp.fs_vars) : Prop :=
  0 < GKeyComp.fs_read_size v
  /\ GKeyComp.fs_best_read_size v <= GKeyComp.fs_read_size v
     <= GKeyComp.fs_max_read_size v
  /\ GKeyComp.fs_read_offset v + GKeyComp.fs_max_read_size v = 2 ^ k - 1.

Definition fs_common (k : Z) (p : GKeyParameters) (base : Z)
    (v : GKeyComp.fs_vars) : Prop :=
  0 <= GKeyComp.fs_consumed v <= in_size p
  /\ in_buffer p + GKeyComp.fs_consumed v - fs_pending v = base
  /\ 0 <= GKeyComp.fs_best_read_size v
  /\ 0 <= GKeyComp.fs_best_read_offset v
  /\ GKeyComp.fs_best_read_offset v + GKeyComp.fs_best_read_size v
     <= 2 ^ k - 1
  /\ 0 <= GKeyComp.fs_read_offset v.

(** At the head of the outer loop. *)
Definition fs_num (k : Z) (p : GKeyParameters) (base : Z)
    (v : GKeyComp.fs_vars) : Prop :=
  fs_common k p base v
  /\ (GKeyComp.fs_read_size v = 0 \/ fs_extending k v).

(** At the label [finished]: the search is over, or it stalled with all the
    input consumed. *)
Definition fs_post (k : Z) (p : GKeyParameters) (base : Z)
    (v : GKeyComp.fs_vars) : Prop :=
  fs_common k p base v
  /\ ((GKeyComp.fs_best_read_size v >= GKeyComp.fs_max_read_size v
       /\ GKeyComp.fs_read_size v = 0)
      \/ (GKeyComp.fs_best_read_size v < GKeyComp.fs_max_read_size v
          /\ GKeyComp.fs_consumed v = in_size p
          /\ ((GKeyComp.fs_read_size v = 0
               /\ GKeyComp.fs_best_read_size v = 0)
              \/ fs_extending k v))).

(** The matches recorded are occurrences, in the history, of the pending
    input bytes. *)
Definition fs_cont (r : RingBuffer) (p : GKeyParameters) (base : Z)
    (v : GKeyComp.fs_vars) : Prop :=
  0 <= base
  /\ in_buffer p + in_size p <= Z.of_nat (length (in_mem p))
  /\ ring_window r (GKeyComp.fs_best_read_offset v)
       (GKeyComp.fs_best_read_size v)
     = mem_read (in_mem p) base (GKeyComp.fs_best_read_size v)
  /\ (0 < GKeyComp.fs_read_size v ->
      ring_window r (GKeyComp.fs_read_offset v) (GKeyComp.fs_read_size v)
      = mem_read (in_mem p) base (GKeyComp.fs_read_size v)).

(** The search variables as stored in the compressor between calls. *)
Definition comp_fs (c : GKeyComp.GKeyComp) : GKeyComp.fs_vars :=
  GKeyComp.mkFs (GKeyComp.read_offset c) (GKeyComp.read_size c)
    (GKeyComp.max_read_size c) (GKeyComp.best_read_size c)
    (GKeyComp.best_read_offset c) 0.

(** The input window of a parameter block lies inside the input block. *)
Definition in_window_ok (p : GKeyParameters) : Prop :=
  0 <= in_buffer p /\ 0 <= in_size p
  /\ in_buffer p + in_size p <= Z.of_nat (length (in_mem p)).

(** ** Notions for whole calls *)

(** The accounting of a call.  For the output window: what the window lost,
    the output total gained; without an output buffer the output size grows
    with the output total instead. *)
Definition out_accounted (ob : option Z) (os ot : Z) (ob' : option Z)
    (os' ot' : Z) : Prop :=
  match ob with
  | Some o =>
      exists o', ob' = Some o' /\ o' - o = os - os' /\ os - os' = ot' - ot
  | None => ob' = None /\ os' - os = ot' - ot
  end.

(** [p], [it], [ot] are the parameter block and the codec's totals before
    the call, the primed ones after. *)
Definition accounted (p : GKeyParameters) (it ot : Z) (p' : GKeyParameters)
    (it' ot' : Z) : Prop :=
  in_buffer p' - in_buffer p = in_size p - in_size p'
  /\ in_size p - in_size p' = it' - it
  /\ out_accounted (out_buffer p) (out_size p) ot (out_buffer p')
       (out_size p') ot'.

Definition comp_accounted (c : GKeyComp.GKeyComp) (p : GKeyParameters)
    (c' : GKeyComp.GKeyComp) (p' : GKeyParameters) : Prop :=
  accounted p (GKeyComp.in_total c) (GKeyComp.out_total c) p'
    (GKeyComp.in_total c') (GKeyComp.out_total c').

Definition decomp_accounted (d : GKeyDecomp.GKeyDecomp) (p : GKeyParameters)
    (d' : GKeyDecomp.GKeyDecomp) (p' : GKeyParameters) : Prop :=
  accounted p (GKeyDecomp.in_total d) (GKeyDecomp.out_total d) p'
    (GKeyDecomp.in_total d') (GKeyDecomp.out_total d').

(** A range of the history that can be copied to the write position. *)
Definition copy_range_ok (k ro rs : Z) : Prop :=
  0 <= ro /\ 0 < rs /\ ro + rs <= 2 ^ k.

(** What the compressor relies on when the [switch] is entered in state
    [st]. *)
Definition comp_ok (k : Z) (st : GKeyComp.GKeyCompState)
    (c : GKeyComp.GKeyComp) (p : GKeyParameters) : Prop :=
  GKeyComp.history_log_2 c = k /\ k <= MaxHistoryLog2
  /\ ring_wf k (GKeyComp.history c)
  /\ in_window_ok p
  /\ match st with
     | GKeyComp.GKeyCompState_NextSequence
     | GKeyComp.GKeyCompState_Flush => True
     | GKeyComp.GKeyCompState_Progress
     | GKeyComp.GKeyCompState_FindSequence =>
         fs_num k p (in_buffer p - fs_pending (comp_fs c)) (comp_fs c)
     | GKeyComp.GKeyCompState_PutOffset
     | GKeyComp.GKeyCompState_PutSize
     | GKeyComp.GKeyCompState_PutBytes =>
         copy_range_ok k (GKeyComp.read_offset c) (GKeyComp.read_size c)
     | GKeyComp.GKeyCompState_PutByte => 0 < in_size p
     end.

Definition comp_wf (k : Z) (c : GKeyComp.GKeyComp) (p : GKeyParameters)
  : Prop :=
  comp_ok k (GKeyComp.state c) c p.

(** A bound on the number of passes the compressor still makes in a call. *)
Definition comp_potential (st : GKeyComp.GKeyCompState) (n : Z) : Z :=
  match st with
  | GKeyComp.GKeyCompState_NextSequence => 2 * n + 2
  | GKeyComp.GKeyCompState_Progress
  | GKeyComp.GKeyCompState_FindSequence => 2 * n + 4
  | GKeyComp.GKeyCompState_PutOffset
  | GKeyComp.GKeyCompState_PutSize
  | GKeyComp.GKeyCompState_PutBytes => 2 * n + 3
  | GKeyComp.GKeyCompState_PutByte => 2 * n + 1
  | GKeyComp.GKeyCompState_Flush => 1
  end.

(** The same for the decompressor. *)
Definition decomp_base (k : Z) (d : GKeyDecomp.GKeyDecomp)
    (p : GKeyParameters) : Prop :=
  GKeyDecomp.history_log_2 d = k /\ 0 <= k <= MaxHistoryLog2
  /\ ring_wf k (GKeyDecomp.history d)
  /\ 0 <= GKeyDecomp.acc_nbits d
  /\ in_window_ok p /\ out_window_ok p.

Definition decomp_ok (k : Z) (st : GKeyDecomp.GKeyDecompState)
    (d : GKeyDecomp.GKeyDecomp) (p : GKeyParameters) : Prop :=
  decomp_base k d p
  /\ match st with
     | GKeyDecomp.GKeyDecompState_CopyData =>
         copy_range_ok k (GKeyDecomp.read_offset d) (GKeyDecomp.read_size d)
     | GKeyDecomp.GKeyDecompState_GetSize => 0 <= GKeyDecomp.read_offset d
     | _ => True
     end.

Definition decomp_wf (k : Z) (d : GKeyDecomp.GKeyDecomp)
    (p : GKeyParameters) : Prop :=
  decomp_ok k (GKeyDecomp.state d) d p.

Definition decomp_bits (d : GKeyDecomp.GKeyDecomp) (p : GKeyParameters) : Z :=
  GKeyDecomp.acc_nbits d + CHAR_BIT * in_size p.

Definition decomp_potential (st : GKeyDecomp.GKeyDecompState)
    (d : GKeyDecomp.GKeyDecomp) (p : GKeyParameters) : Z :=
  decomp_bits d p
  + match st with
    | GKeyDecomp.GKeyDecompState_Progress
    | GKeyDecomp.GKeyDecompState_GetType
    | GKeyDecomp.GKeyDecompState_GetByte => 0
    | _ => 1
    end.

(** What a pass of the compressor's [switch] establishes, where [n] is the
    input size on entry and [bound] exceeds the potential of a result that
    lets the loop go on. *)
Definition comp_step (k n : Z) (r : GKeyComp.pass) (bound : Z) : Prop :=
  comp_ok k (GKeyComp.p_state r) (GKeyComp.p_comp r) (GKeyComp.p_params r)
  /\ in_size (GKeyComp.p_params r) <= n
  /\ (GKeyComp.p_status r = GKeyStatus_OK -> GKeyComp.p_input r = true ->
      comp_potential (GKeyComp.p_state r) (in_size (GKeyComp.p_params r))
      < bound).

(** What a pass of the decompressor's [switch] establishes; [bound] exceeds
    the potential of a result that lets the loop go on. *)
Definition decomp_step (k : Z) (r : GKeyDecomp.pass) (bound : Z) : Prop :=
  decomp_ok k (GKeyDecomp.p_state r) (GKeyDecomp.p_decomp r)
    (GKeyDecomp.p_params r)
  /\ (GKeyDecomp.p_status r = GKeyStatus_OK ->
      GKeyDecomp.p_stop r = false ->
      decomp_potential (GKeyDecomp.p_state r) (GKeyDecomp.p_decomp r)
        (GKeyDecomp.p_params r) < bound).

(** ** Tokens and bit strings *)

(** A bit string is given by its value, first bit least significant, and
    its length.  A token is a literal byte or the copy of [len] bytes found
    [off] bytes past the write position of the history. *)
Inductive token : Type :=
| TLit (b : byte)
| TCopy (off len : Z).

Definition token_bits (k : Z) (t : token) : Z * Z :=
  match t with
  | TLit b => (2 * byte.unsigned b, 9)
  | TCopy off len =>
      (1 + 2 * off + 2 ^ (k + 1) * len,
       1 + k + GKey_get_read_size_bits k off)
  end.

(** The bit string [b1] followed by the bit string [b2]. *)
Definition bits_app (b1 b2 : Z * Z) : Z * Z :=
  (fst b1 + 2 ^ snd b1 * fst b2, snd b1 + snd b2).

Fixpoint tokens_bits (k : Z) (ts : list token) : Z * Z :=
  match ts with
  | [] => (0, 0)
  | t :: ts' => bits_app (token_bits k t) (tokens_bits k ts')
  end.

Definition token_out (r : RingBuffer) (t : token) : list byte :=
  match t with
  | TLit b => [b]
  | TCopy off len => ring_window r off len
  end.

Fixpoint tokens_out (r : RingBuffer) (ts : list token) : list byte :=
  match ts with
  | [] => []
  | t :: ts' =>
      token_out r t ++ tokens_out (ring_append r (token_out r t)) ts'
  end.

Definition token_ok (k : Z) (t : token) : Prop :=
  match t with
  | TLit _ => True
  | TCopy off len => 0 <= off /\ 0 < len /\ off + len <= 2 ^ k - 1
  end.

(** The bit string a compressor has put so far into an output block of [M]
    bytes: the bytes stored, then the accumulator. *)
Definition comp_out (M : Z) (c : GKeyComp.GKeyComp) (p : GKeyParameters)
    (v l : Z) : Prop :=
  exists ob,
    out_buffer p = Some ob /\ 0 <= ob /\ 0 <= out_size p
    /\ ob + out_size p = M /\ Z.of_nat (length (out_mem p)) = M
    /\ 0 <= GKeyComp.acc_nbits c
    /\ 0 <= GKeyComp.acc c < 2 ^ GKeyComp.acc_nbits c
    /\ le_combine (written p) + GKeyComp.acc c * 2 ^ (8 * ob) = v
    /\ 8 * ob + GKeyComp.acc_nbits c = l.

(** The bit string a decompressor has still to read: the accumulator, then
    the bytes of the input window. *)
Definition decomp_in (d : GKeyDecomp.GKeyDecomp) (p : GKeyParameters)
    (v l : Z) : Prop :=
  in_window_ok p
  /\ 0 <= GKeyDecomp.acc_nbits d
  /\ 0 <= GKeyDecomp.acc d < 2 ^ GKeyDecomp.acc_nbits d
  /\ GKeyDecomp.acc d
     + 2 ^ GKeyDecomp.acc_nbits d
       * le_combine (mem_read (in_mem p) (in_buffer p) (in_size p)) = v
  /\ GKeyDecomp.acc_nbits d + 8 * in_size p = l.

Definition comp_holds (M : Z) (c : GKeyComp.GKeyComp) (p : GKeyParameters)
    (B : Z * Z) : Prop :=
  comp_out M c p (fst B) (snd B).

Definition decomp_holds (d : GKeyDecomp.GKeyDecomp) (p : GKeyParameters)
    (B : Z * Z) : Prop :=
  decomp_in d p (fst B) (snd B).

(** ** The compressor on a whole input *)

(** The number of input bytes taken from the window for the match at hand
    and not yet put, by state. *)
Definition comp_pending (st : GKeyComp.GKeyCompState)
    (c : GKeyComp.GKeyComp) : Z :=
  match st with
  | GKeyComp.GKeyCompState_NextSequence
  | GKeyComp.GKeyCompState_PutByte
  | GKeyComp.GKeyCompState_Flush => 0
  | GKeyComp.GKeyCompState_Progress
  | GKeyComp.GKeyCompState_FindSequence => fs_pending (comp_fs c)
  | GKeyComp.GKeyCompState_PutOffset
  | GKeyComp.GKeyCompState_PutSize
  | GKeyComp.GKeyCompState_PutBytes => GKeyComp.read_size c
  end.

(** What holds of a compressor made for history size [k] that is given the
    input [X] and an output block of [M] bytes, when the [switch] is entered
    in state [st]: the tokens put so far stand for the input up to the
    pending bytes, and the history is what these bytes left in a fresh
    ring. *)
Definition comp_inv (k M : Z) (X : list byte) (st : GKeyComp.GKeyCompState)
    (c : GKeyComp.GKeyComp) (p : GKeyParameters) : Prop :=
  comp_ok k st c p
  /\ in_mem p = X
  /\ in_buffer p + in_size p = Z.of_nat (length X)
  /\ prog_cb p = None
  /\ 0 <= in_buffer p - comp_pending st c
  /\ (exists ts,
         Forall (token_ok k) ts
         /\ tokens_out (RingBuffer_make k) ts
            = mem_read X 0 (in_buffer p - comp_pending st c)
         /\ GKeyComp.history c
            = ring_append (RingBuffer_make k)
                (mem_read X 0 (in_buffer p - comp_pending st c))
         /\ comp_holds M c p (tokens_bits k ts)
         /\ snd (tokens_bits k ts)
            <= 9 * (in_buffer p - comp_pending st c))
  /\ match st with
     | GKeyComp.GKeyCompState_Progress
     | GKeyComp.GKeyCompState_FindSequence =>
         fs_cont (GKeyComp.history c) p
           (in_buffer p - fs_pending (comp_fs c)) (comp_fs c)
         /\ ((GKeyComp.read_size c = 0 /\ GKeyComp.best_read_size c = 0)
             \/ fs_extending k (comp_fs c))
     | GKeyComp.GKeyCompState_PutOffset =>
         GKeyComp.read_offset c + GKeyComp.read_size c <= 2 ^ k - 1
         /\ ring_window (GKeyComp.history c) (GKeyComp.read_offset c)
              (GKeyComp.read_size c)
            = mem_read X (in_buffer p - GKeyComp.read_size c)
                (GKeyComp.read_size c)
         /\ 1 + k + GKey_get_read_size_bits k (GKeyComp.read_offset c)
            <= 9 * GKeyComp.read_size c
     | GKeyComp.GKeyCompState_PutBytes =>
         ring_window (GKeyComp.history c) (GKeyComp.read_offset c)
           (GKeyComp.read_size c)
         = mem_read X (in_buffer p - GKeyComp.read_size c)
             (GKeyComp.read_size c)
     | GKeyComp.GKeyCompState_PutSize => False
     | GKeyComp.GKeyCompState_Flush => in_size p = 0
     | _ => True
     end.

(** A pass that leaves the compressor going, and a pass that ends the
    stream. *)
Definition comp_goes (k M : Z) (X : list byte) (flush : bool)
    (r : GKeyComp.pass) : Prop :=
  GKeyComp.p_status r = GKeyStatus_OK
  /\ comp_inv k M X (GKeyComp.p_state r) (GKeyComp.p_comp r)
       (GKeyComp.p_params r)
  /\ (GKeyComp.p_input r = false ->
      flush = false /\ in_size (GKeyComp.p_params r) = 0)
  /\ (GKeyComp.p_state r = GKeyComp.GKeyCompState_Flush -> flush = true).

Definition stream_of (k : Z) (X Y : list byte) : Prop :=
  exists ts,
    Forall (token_ok k) ts
    /\ tokens_out (RingBuffer_make k) ts = X
    /\ le_combine Y = fst (tokens_bits k ts)
    /\ snd (tokens_bits k ts) <= 8 * Z.of_nat (length Y)
       < snd (tokens_bits k ts) + 8.

Definition comp_final (k : Z) (X : list byte) (r : GKeyComp.pass) : Prop :=
  GKeyComp.p_status r = GKeyStatus_Finished
  /\ stream_of k X (written (GKeyComp.p_params r)).

(** ** The decompressor on a whole stream *)

(** What holds of a decompressor made for history size [k] between two
    tokens, when the tokens [ts] are still to be read and the output window
    has room for what they stand for. *)
Definition decomp_inv (k : Z) (ts : list token) (d : GKeyDecomp.GKeyDecomp)
    (p : GKeyParameters) : Prop :=
  GKeyDecomp.history_log_2 d = k
  /\ ring_wf k (GKeyDecomp.history d)
  /\ out_window_ok p
  /\ prog_cb p = None
  /\ (exists ob, out_buffer p = Some ob)
  /\ Forall (token_ok k) ts
  /\ Z.of_nat (length (tokens_out (GKeyDecomp.history d) ts)) <= out_size p
  /\ exists L,
       decomp_holds d p (fst (tokens_bits k ts), L)
       /\ snd (tokens_bits k ts) <= L < snd (tokens_bits k ts) + 8.

(** ** What a status says *)

(** Where a pass of the decompressor stopped, by the status it gives: the
    resource that ran out and the state the decompressor is left in. *)
Definition decomp_reason (r : GKeyDecomp.pass) : Prop :=
  let d := GKeyDecomp.p_decomp r in
  let p := GKeyDecomp.p_params r in
  let st := GKeyDecomp.p_state r in
  match GKeyDecomp.p_status r with
  | GKeyStatus_OK =>
      GKeyDecomp.p_stop r = true ->
      in_size p = 0
      /\ (st = GKeyDecomp.GKeyDecompState_GetType
          \/ (st = GKeyDecomp.GKeyDecompState_GetByte
              /\ GKeyDecomp.acc d = 0))
  | GKeyStatus_TruncatedInput =>
      in_size p = 0
      /\ (st = GKeyDecomp.GKeyDecompState_GetOffset
          \/ st = GKeyDecomp.GKeyDecompState_GetSize
          \/ (st = GKeyDecomp.GKeyDecompState_GetByte
              /\ GKeyDecomp.acc d <> 0))
  | GKeyStatus_BufferOverflow =>
      (exists ob, out_buffer p = Some ob) /\ out_size p = 0
      /\ (st = GKeyDecomp.GKeyDecompState_CopyData
          \/ st = GKeyDecomp.GKeyDecompState_PutByte)
  | GKeyStatus_BadInput => st = GKeyDecomp.GKeyDecompState_GetSize
  | GKeyStatus_Aborted =>
      prog_cb p <> None /\ st = GKeyDecomp.GKeyDecompState_Progress
  | GKeyStatus_Finished => False
  end.

(** The same for a pass of the compressor; [flush] tells whether the call
    was made without input. *)
Definition comp_reason (flush : bool) (r : GKeyComp.pass) : Prop :=
  let p := GKeyComp.p_params r in
  let st := GKeyComp.p_state r in
  match GKeyComp.p_status r with
  | GKeyStatus_OK =>
      GKeyComp.p_input r = false ->
      flush = false /\ in_size p = 0
      /\ st = GKeyComp.GKeyCompState_FindSequence
  | GKeyStatus_BufferOverflow =>
      (exists ob, out_buffer p = Some ob) /\ out_size p = 0
      /\ (st = GKeyComp.GKeyCompState_PutOffset
          \/ st = GKeyComp.GKeyCompState_PutSize
          \/ st = GKeyComp.GKeyCompState_PutByte
          \/ st = GKeyComp.GKeyCompState_PutBytes
          \/ st = GKeyComp.GKeyCompState_Flush)
  | GKeyStatus_Aborted =>
      prog_cb p <> None
      /\ (st = GKeyComp.GKeyCompState_Progress
          \/ st = GKeyComp.GKeyCompState_NextSequence)
  | GKeyStatus_Finished => st = GKeyComp.GKeyCompState_Flush
  | GKeyStatus_BadInput | GKeyStatus_TruncatedInput => False
  end.

(** ** Calls on a longer input window *)

(** The parameter block with [n] more bytes in the input window. *)
Definition more_input (p : GKeyParameters) (n : Z) : GKeyParameters :=
  mkParams (in_mem p) (in_buffer p) (in_size p + n) (out_mem p)
    (out_buffer p) (out_size p) (prog_cb p).

(** A pass of the decompressor that stopped for want of input. *)
Definition decomp_starved (r : GKeyDecomp.pass) : bool :=
  match GKeyDecomp.p_status r with
  | GKeyStatus_TruncatedInput => true
  | GKeyStatus_OK => GKeyDecomp.p_stop r
  | _ => false
  end.

(** The result of a pass, with [n] more bytes in the input window, and with
    another value in the field [state] of the decompressor. *)
Definition decomp_pass_more (n : Z) (r : GKeyDecomp.pass) : GKeyDecomp.pass :=
  GKeyDecomp.mkPass (GKeyDecomp.p_status r) (GKeyDecomp.p_state r)
    (GKeyDecomp.p_stop r) (GKeyDecomp.p_decomp r)
    (more_input (GKeyDecomp.p_params r) n).

Definition decomp_pass_state (s : GKeyDecomp.GKeyDecompState)
    (r : GKeyDecomp.pass) : GKeyDecomp.pass :=
  GKeyDecomp.mkPass (GKeyDecomp.p_status r) (GKeyDecomp.p_state r)
    (GKeyDecomp.p_stop r) (GKeyDecomp.set_state (GKeyDecomp.p_decomp r) s)
    (GKeyDecomp.p_params r).

(** ** What a call may write *)

(** [p'] is [p] after a call: the input block is the same, the output block
    has kept its length, the output pointer has only advanced within the
    window, and the output block has changed only between the old and the
    new output pointer. *)
Definition out_frame (p p' : GKeyParameters) : Prop :=
  in_mem p' = in_mem p
  /\ length (out_mem p') = length (out_mem p)
  /\ match out_buffer p with
     | Some ob =>
         exists ob',
           out_buffer p' = Some ob' /\ ob <= ob'
           /\ ob' + out_size p' = ob + out_size p
           /\ forall i, 0 <= i -> i < ob \/ ob' <= i ->
                        mem_load (out_mem p') i = mem_load (out_mem p) i
     | None => out_buffer p' = None /\ out_mem p' = out_mem p
     end.

(** The same, for a parameter block whose output window is in order. *)
Definition framed (p p' : GKeyParameters) : Prop :=
  out_window_ok p' /\ out_frame p p'.

(** The parameter block with [n] more bytes in the output window. *)
Definition more_output (p : GKeyParameters) (n : Z) : GKeyParameters :=
  mkParams (in_mem p) (in_buffer p) (in_size p) (out_mem p) (out_buffer p)
    (out_size p + n) (prog_cb p).

(** The result of a pass of the compressor, with [n] more bytes in the
    output window, and with another value in the field [state] or in the
    field [read_size] of the compressor. *)
Definition comp_pass_more (n : Z) (r : GKeyComp.pass) : GKeyComp.pass :=
  GKeyComp.mkPass (GKeyComp.p_status r) (GKeyComp.p_state r)
    (GKeyComp.p_input r) (GKeyComp.p_comp r)
    (more_output (GKeyComp.p_params r) n).

Definition comp_pass_state (s : GKeyComp.GKeyCompState) (r : GKeyComp.pass)
  : GKeyComp.pass :=
  GKeyComp.mkPass (GKeyComp.p_status r) (GKeyComp.p_state r)
    (GKeyComp.p_input r) (GKeyComp.set_state (GKeyComp.p_comp r) s)
    (GKeyComp.p_params r).

Definition comp_pass_size (x : Z) (r : GKeyComp.pass) : GKeyComp.pass :=
  GKeyComp.mkPass (GKeyComp.p_status r) (GKeyComp.p_state r)
    (GKeyComp.p_input r) (GKeyComp.set_read_size (GKeyComp.p_comp r) x)
    (GKeyComp.p_params r).

(** A parameter block with an output buffer whose window is in order. *)
Definition out_buffered (p : GKeyParameters) : Prop :=
  out_window_ok p /\ exists ob, out_buffer p = Some ob.

(** A change of the compressor that [write_bits] does not see. *)
Definition comp_blind (f : GKeyComp.GKeyComp -> GKeyComp.GKeyComp) : Prop :=
  forall c,
    GKeyComp.acc (f c) = GKeyComp.acc c
    /\ GKeyComp.acc_nbits (f c) = GKeyComp.acc_nbits c
    /\ GKeyComp.out_total (f c) = GKeyComp.out_total c
    /\ forall ot a nb,
         GKeyComp.set_output (f c) ot a nb = f (GKeyComp.set_output c ot a nb).

(** [res] is the result of a pass of the compressor with [n] more bytes in
    the output window, where [r] is its result without them: a pass that
    stopped on a full window is taken up where it stopped, up to the field
    [read_size] when it ends in [NextSequence], which clears the field; any
    other pass is the same. *)
Definition comp_resumed (flush : bool) (n : Z) (r : GKeyComp.pass)
    (res : option GKeyComp.pass) : Prop :=
  match GKeyComp.p_status r with
  | GKeyStatus_BufferOverflow =>
      forall r',
        GKeyComp.switch flush (GKeyComp.p_state r) GKeyStatus_OK true
          (GKeyComp.p_comp r) (more_output (GKeyComp.p_params r) n)
        = Some r' ->
        res = Some r'
        \/ (GKeyComp.p_status r' = GKeyStatus_OK
            /\ GKeyComp.p_input r' = true
            /\ GKeyComp.p_state r' = GKeyComp.GKeyCompState_NextSequence
            /\ exists x, res = Some (comp_pass_size x r'))
  | _ => res = Some (comp_pass_more n r)
  end.

(** The parameter block of a call that only measures: the same input window
    and progress callback, no output buffer, [size] in [out_size]; [m] is
    the output block, which such a call does not use. *)
Definition unbuffered (p : GKeyParameters) (m : list byte) (size : Z)
  : GKeyParameters :=
  mkParams (in_mem p) (in_buffer p) (in_size p) m None size (prog_cb p).

(** The measuring counterpart of a parameter block with an output buffer:
    what the window has lost, [out_size] has gained. *)
Definition measure (m : list byte) (total : Z) (p : GKeyParameters)
  : GKeyParameters :=
  unbuffered p m (total - out_size p).

Definition decomp_pass_measure (m : list byte) (total : Z)
    (r : GKeyDecomp.pass) : GKeyDecomp.pass :=
  GKeyDecomp.mkPass (GKeyDecomp.p_status r) (GKeyDecomp.p_state r)
    (GKeyDecomp.p_stop r) (GKeyDecomp.p_decomp r)
    (measure m total (GKeyDecomp.p_params r)).

Definition comp_pass_measure (m : list byte) (total : Z)
    (r : GKeyComp.pass) : GKeyComp.pass :=
  GKeyComp.mkPass (GKeyComp.p_status r) (GKeyComp.p_state r)
    (GKeyComp.p_input r) (GKeyComp.p_comp r)
    (measure m total (GKeyComp.p_params r)).

(** * Properties *)

(** ** Small tactics *)

Ltac boolify :=
  repeat match goal with
  | H : (_ && _)%bool = true |- _ => apply andb_true_iff in H; destruct H
  | H : (_ && _)%bool = false |- _ => apply andb_false_iff in H
  | H : (_ || _)%bool = true |- _ => apply orb_true_iff in H
  | H : (_ || _)%bool = false |- _ => apply orb_false_iff in H; destruct H
  | H : negb _ = true |- _ => apply negb_true_iff in H
  | H : negb _ = false |- _ => apply negb_false_iff in H
  | H : (_ =? _) = true |- _ => apply Z.eqb_eq in H
  | H : (_ =? _) = false |- _ => apply Z.eqb_neq in H
  | H : (_ <? _) = true |- _ => apply Z.ltb_lt in H
  | H : (_ <? _) = false |- _ => apply Z.ltb_ge in H
  | H : (_ <=? _) = true |- _ => apply Z.leb_le in H
  | H : (_ <=? _) = false |- _ => apply Z.leb_gt in H
  | H : (_ >? _) = true |- _ => rewrite Z.gtb_ltb in H
  | H : (_ >? _) = false |- _ => rewrite Z.gtb_ltb in H
  | H : (_ >=? _) = true |- _ => rewrite Z.geb_leb in H
  | H : (_ >=? _) = false |- _ => rewrite Z.geb_leb in H
  end.

(** ** The copy-length bit width (GKey.c) *)

(** C5.  The number of size bits is [k - 1] exactly when [k > 0] and the
    offset is at least [1 << (k - 1)], and [k] in every other case; with
    [k = 9] the offset 256 already gets 8 bits and the offset 255 still 9. *)
Theorem read_size_bits_format (k r : Z) :
  (GKey_get_read_size_bits k r = k - 1
   <-> (k > 0 /\ r >= Z.shiftl 1 (k - 1)))
  /\ (GKey_get_read_size_bits k r = k - 1 \/ GKey_get_read_size_bits k r = k)
  /\ GKey_get_read_size_bits 9 256 = 8
  /\ GKey_get_read_size_bits 9 255 = 9.
Proof.
  unfold GKey_get_read_size_bits.
  repeat split; try reflexivity.
  - destruct ((k >? 0) && (r >=? Z.shiftl 1 (k - 1)))%bool eqn:E;
      boolify; intros; lia.
  - destruct ((k >? 0) && (r >=? Z.shiftl 1 (k - 1)))%bool eqn:E;
      boolify; intros; lia.
  - intros [Hk Hr].
    destruct ((k >? 0) && (r >=? Z.shiftl 1 (k - 1)))%bool eqn:E;
      boolify; lia.
  - destruct ((k >? 0) && (r >=? Z.shiftl 1 (k - 1)))%bool; auto.
Qed.

(** ** The decoder at the end of its input (GKeyDecomp.c) *)

Section DecoderEndOfInput.
Import GKeyDecomp.

Lemma set_input_same (d : GKeyDecomp) :
  set_input d (in_total d) (acc d) (acc_nbits d) = d.
Proof. destruct d; reflexivity. Qed.

Lemma set_state_same (d : GKeyDecomp) : set_state d (state d) = d.
Proof. destruct d; reflexivity. Qed.

Lemma params_same (p : GKeyParameters) :
  mkParams (in_mem p) (in_buffer p) (in_size p) (out_mem p) (out_buffer p)
    (out_size p) (prog_cb p) = p.
Proof. destruct p; reflexivity. Qed.

Lemma decompress_fuel_S (d : GKeyDecomp) (p : GKeyParameters) :
  exists n, decompress_fuel d p = S n.
Proof.
  unfold decompress_fuel. rewrite Nat.add_comm. simpl. eauto.
Qed.

(** A read of [nbits] bits that finds the accumulator short and the input
    empty fails and leaves both objects as they were. *)
Lemma read_bits_underflow (d : GKeyDecomp) (p : GKeyParameters) (nbits : Z) :
  in_size p = 0 -> acc_nbits d < nbits ->
  read_bits d p nbits = (false, 0, d, p).
Proof.
  intros Hin Hn. unfold read_bits.
  destruct (Z.to_nat (nbits - acc_nbits d)) eqn:F; [lia|].
  cbn [read_bits_loop].
  replace (acc_nbits d <? nbits) with true by (symmetry; apply Z.ltb_lt; lia).
  destruct p as [im ib isz om ob osz cb]; cbn in Hin |- *; subst isz. cbn.
  replace (acc_nbits d >=? nbits) with false
    by (symmetry; rewrite Z.geb_leb; apply Z.leb_gt; lia).
  rewrite set_input_same. reflexivity.
Qed.

(** C2 (amended).  With the input exhausted, a decoder that needs a type bit
    and has none in the accumulator stops and returns [OK]; a decoder that
    needs a literal byte and has fewer than 8 bits returns [OK] when the
    accumulator is exactly zero and [TruncatedInput] otherwise.  The decoder
    and the parameter block are left as they were. *)
Theorem decoder_end_of_input (d : GKeyDecomp) (p : GKeyParameters) :
  in_size p = 0 ->
  (state d = GKeyDecompState_GetType /\ acc_nbits d < 1)
  \/ (state d = GKeyDecompState_GetByte /\ acc_nbits d < CHAR_BIT) ->
  gkeydecomp_decompress d p =
  Some (match state d with
        | GKeyDecompState_GetByte =>
            if acc d =? 0 then GKeyStatus_OK else GKeyStatus_TruncatedInput
        | _ => GKeyStatus_OK
        end, d, p).
Proof.
  intros Hin Hst. unfold gkeydecomp_decompress.
  destruct (decompress_fuel_S d p) as [n ->].
  cbn [decompress_loop].
  destruct Hst as [[Hs Hn] | [Hs Hn]]; rewrite Hs; cbn [switch].
  - unfold case_GetType. rewrite read_bits_underflow by assumption.
    cbn. rewrite <- Hs, set_state_same. reflexivity.
  - unfold case_GetByte. rewrite read_bits_underflow by assumption.
    destruct (acc d =? 0); cbn; rewrite <- Hs, set_state_same; reflexivity.
Qed.

Lemma decoder_end_of_input_witness :
  gkeydecomp_decompress
    (mkDecomp GKeyDecompState_GetByte 2 1 0 0 5 3 Byte.x41 9
       (RingBuffer_make 9))
    (stream_params [] 4)
  = Some (GKeyStatus_TruncatedInput,
          mkDecomp GKeyDecompState_GetByte 2 1 0 0 5 3 Byte.x41 9
            (RingBuffer_make 9),
          stream_params [] 4).
Proof.
  apply (decoder_end_of_input
           (mkDecomp GKeyDecompState_GetByte 2 1 0 0 5 3 Byte.x41 9
              (RingBuffer_make 9))
           (stream_params [] 4)).
  - reflexivity.
  - right. split; [reflexivity | unfold CHAR_BIT; simpl; lia].
Defined.

(** C2 as stated fails: a fresh decoder that needs a type bit, with an empty
    accumulator and no input, does not return [Finished] (it returns [OK]). *)
Lemma decoder_end_of_input_not_finished :
  gkeydecomp_decompress
    (set_state (gkeydecomp_make 9) GKeyDecompState_GetType)
    (stream_params [] 4)
  = Some (GKeyStatus_OK,
          set_state (gkeydecomp_make 9) GKeyDecompState_GetType,
          stream_params [] 4)
  /\ ~ (exists d' p',
          gkeydecomp_decompress
            (set_state (gkeydecomp_make 9) GKeyDecompState_GetType)
            (stream_params [] 4)
          = Some (GKeyStatus_Finished, d', p')).
Proof.
  assert (E : gkeydecomp_decompress
                (set_state (gkeydecomp_make 9) GKeyDecompState_GetType)
                (stream_params [] 4)
              = Some (GKeyStatus_OK,
                      set_state (gkeydecomp_make 9) GKeyDecompState_GetType,
                      stream_params [] 4)) by (vm_compute; reflexivity).
  split; [exact E|].
  intros (d' & p' & H). rewrite E in H. discriminate H.
Qed.

(** ** Validation of a copy token (GKeyDecomp.c, case [GetSize]) *)

Lemma read_bits_read_offset (d : GKeyDecomp) (p : GKeyParameters) (n : Z)
    ok bits d' p' :
  read_bits d p n = (ok, bits, d', p') ->
  read_offset d' = read_offset d /\ history_log_2 d' = history_log_2 d.
Proof.
  unfold read_bits.
  destruct (read_bits_loop _ _ _ _ _ _ _ _) as [s [[[[a b] c] e] f]].
  destruct (f >=? n); intros H; inversion H; subst; split; reflexivity.
Qed.

(** C3.  Once the size field was read in state [GetSize], the pass ends
    with [BadInput] exactly when the size is 0 or offset plus size exceeds
    [1 << k]; otherwise the size is stored in [read_size] and control falls
    through to the copy, which never ends with [BadInput] itself. *)
Theorem get_size_validation (stop : bool) (d : GKeyDecomp)
    (p : GKeyParameters) (bits : Z) (d' : GKeyDecomp) (p' : GKeyParameters) :
  read_bits d p
    (GKey_get_read_size_bits (history_log_2 d) (read_offset d))
  = (true, bits, d', p') ->
  (bits = 0 \/ read_offset d + bits > Z.shiftl 1 (history_log_2 d) ->
   case_GetSize GKeyStatus_OK stop d p
   = Some (mkPass GKeyStatus_BadInput GKeyDecompState_GetSize stop d' p'))
  /\ (~ (bits = 0 \/ read_offset d + bits > Z.shiftl 1 (history_log_2 d)) ->
      case_GetSize GKeyStatus_OK stop d p
      = case_CopyData GKeyStatus_OK stop (set_read_size d' bits) p'
      /\ read_size (set_read_size d' bits) = bits
      /\ forall r, case_GetSize GKeyStatus_OK stop d p = Some r ->
                   p_status r <> GKeyStatus_BadInput).
Proof.
  intros Hr. pose proof (read_bits_read_offset _ _ _ _ _ _ _ Hr) as [Ho Hk].
  unfold case_GetSize. rewrite Hr. rewrite Ho, Hk.
  split.
  - intros Hbad.
    replace ((bits =? 0)
             || (read_offset d + bits >? Z.shiftl 1 (history_log_2 d)))%bool
      with true; [reflexivity|].
    symmetry. apply orb_true_iff. rewrite Z.eqb_eq, Z.gtb_ltb, Z.ltb_lt. lia.
  - intros Hgood.
    replace ((bits =? 0)
             || (read_offset d + bits >? Z.shiftl 1 (history_log_2 d)))%bool
      with false.
    2:{ symmetry. apply orb_false_iff. rewrite Z.eqb_neq, Z.gtb_ltb, Z.ltb_ge.
        lia. }
    split; [reflexivity|]. split; [reflexivity|].
    intros r. unfold case_CopyData.
    destruct (RingBuffer_copy _ _ _ _ _) as [[[ring [d2 p2]] copied]|];
      cbn; [|discriminate].
    destruct (copied >=? _); intros H; inversion H; subst; cbn; discriminate.
Qed.

Lemma get_size_validation_witness :
  case_GetSize GKeyStatus_OK false
    (mkDecomp GKeyDecompState_GetSize 3 0 7 0 0 9 Byte.x00 9
       (RingBuffer_make 9))
    (stream_params [] 4)
  = Some (mkPass GKeyStatus_BadInput GKeyDecompState_GetSize false
            (mkDecomp GKeyDecompState_GetSize 3 0 7 0 0 0 Byte.x00 9
               (RingBuffer_make 9))
            (stream_params [] 4)).
Proof.
  apply (proj1 (get_size_validation false
                  (mkDecomp GKeyDecompState_GetSize 3 0 7 0 0 9 Byte.x00 9
                     (RingBuffer_make 9))
                  (stream_params [] 4) 0
                  (mkDecomp GKeyDecompState_GetSize 3 0 7 0 0 0 Byte.x00 9
                     (RingBuffer_make 9))
                  (stream_params [] 4) eq_refl)).
  left. reflexivity.
Defined.

End DecoderEndOfInput.

(** ** The encoder: choice of the token, flush (GKeyComp.c) *)

Section EncoderCases.
Import GKeyComp.

(** When the search is over (forced by a flush or reported by
    [find_sequence]) with a match of length [read_size > 0], the next state
    is [PutBytes] exactly when
    [read_size * 9 < 1 + k + size_bits k read_offset]; otherwise, equality
    included, control falls through to the case [PutOffset]. *)
Lemma search_commits (flush : bool) (state : GKeyCompState) (input : bool)
    (c : GKeyComp) (p : GKeyParameters) (c' : GKeyComp)
    (p' : GKeyParameters) :
  (if flush then Some (true, c, p) else find_sequence c p)
  = Some (true, c', p') ->
  read_size c' > 0 ->
  (read_size c' * 9
   < 1 + history_log_2 c'
     + GKey_get_read_size_bits (history_log_2 c') (read_offset c') ->
   case_FindSequence flush state GKeyStatus_OK input c p
   = Some (mkPass GKeyStatus_OK GKeyCompState_PutBytes input c' p'))
  /\ (read_size c' * 9
      >= 1 + history_log_2 c'
         + GKey_get_read_size_bits (history_log_2 c') (read_offset c') ->
      case_FindSequence flush state GKeyStatus_OK input c p
      = case_PutOffset GKeyStatus_OK input c' p').
Proof.
  intros Hfound Hpos. unfold case_FindSequence. rewrite Hfound. cbn [obind].
  replace (read_size c' =? 0) with false by (symmetry; apply Z.eqb_neq; lia).
  unfold CHAR_BIT.
  split; intros Hcost.
  - replace (read_size c' * (8 + 1) <? _) with true; [reflexivity|].
    symmetry. apply Z.ltb_lt. lia.
  - replace (read_size c' * (8 + 1) <? _) with false; [reflexivity|].
    symmetry. apply Z.ltb_ge. lia.
Qed.

Lemma ulong_idem (z : Z) : ulong (ulong z) = ulong z.
Proof. unfold ulong. apply Z.mod_mod. discriminate. Qed.

Lemma comp_set_state_same (c : GKeyComp) : set_state c (state c) = c.
Proof. destruct c; reflexivity. Qed.

(** The drain loop of [write_bits] leaves fewer than [CHAR_BIT] bits when
    it succeeds. *)
Lemma write_bits_loop_exit :
  forall fuel mem ob osz tot a n mem' ob' osz' tot' a' n',
    (Z.to_nat n <= fuel)%nat ->
    write_bits_loop fuel mem ob osz tot a n
    = (true, (mem', ob', osz', tot', a', n')) ->
    n' < CHAR_BIT /\ (n - n') mod CHAR_BIT = 0 /\ n' <= n.
Proof.
  unfold CHAR_BIT.
  induction fuel as [|fuel IH]; intros mem ob osz tot a n mem' ob' osz' tot'
    a' n' Hf; cbn [write_bits_loop].
  - intros H; inversion H; subst. rewrite Z.sub_diag. split; [lia|].
    split; [reflexivity | lia].
  - unfold CHAR_BIT. destruct (n >=? 8) eqn:E; boolify.
    + destruct ob as [ob|].
      * destruct (osz =? 0); [discriminate|].
        intros H. apply IH in H; [|lia]. destruct H as (H1 & H2 & H3).
        split; [exact H1|]. split; [|lia].
        replace (n - n') with ((n - 8 - n') + 1 * 8) by lia.
        rewrite Z.mod_add by lia. exact H2.
      * intros H. apply IH in H; [|lia]. destruct H as (H1 & H2 & H3).
        split; [exact H1|]. split; [|lia].
        replace (n - n') with ((n - 8 - n') + 1 * 8) by lia.
        rewrite Z.mod_add by lia. exact H2.
    + intros H; inversion H; subst. rewrite Z.sub_diag.
      split; [lia|]. split; [reflexivity | lia].
Qed.

(** After a flush that succeeded the accumulator holds a multiple of
    [CHAR_BIT] bits below [CHAR_BIT], and a second flush changes nothing. *)
Lemma flush_again (c : GKeyComp) (p : GKeyParameters) (c' : GKeyComp)
    (p' p2 : GKeyParameters) :
  write_bits c p UINT_MAX 0 = (true, c', p') ->
  write_bits c' p2 UINT_MAX 0 = (true, c', p2).
Proof.
  unfold write_bits. rewrite Z.eqb_refl.
  set (n0 := if negb (acc_nbits c mod CHAR_BIT =? 0)
             then acc_nbits c + (CHAR_BIT - acc_nbits c mod CHAR_BIT)
             else acc_nbits c).
  assert (Hn0 : n0 mod CHAR_BIT = 0).
  { unfold n0, CHAR_BIT.
    destruct (acc_nbits c mod 8 =? 0) eqn:E; boolify; cbn [negb]; [exact E|].
    pose proof (Z.mod_pos_bound (acc_nbits c) 8 ltac:(lia)).
    rewrite (Z.div_mod (acc_nbits c) 8) at 1 by lia.
    replace (8 * (acc_nbits c / 8) + acc_nbits c mod 8
             + (8 - acc_nbits c mod 8))
      with (0 + (acc_nbits c / 8 + 1) * 8) by lia.
    rewrite Z.mod_add by lia. reflexivity. }
  destruct (write_bits_loop (Z.to_nat n0) _ _ _ _ _ _)
    as [s [[[[[m ob] osz] tot] a] n]] eqn:L.
  destruct s; [|intros H; discriminate H].
  apply write_bits_loop_exit in L; [|lia]. destruct L as (L1 & L2 & L3).
  intros H. inversion H; subst c' p'. clear H. cbn.
  rewrite Z.add_0_r.
  assert (Hn : n mod CHAR_BIT = 0).
  { unfold CHAR_BIT in *.
    pose proof (Z.div_mod (n0 - n) 8 ltac:(lia)) as D. rewrite L2 in D.
    pose proof (Z.div_mod n0 8 ltac:(lia)) as D0. rewrite Hn0 in D0.
    replace n with (0 + (n0 / 8 - (n0 - n) / 8) * 8) by lia.
    rewrite Z.mod_add by lia. reflexivity. }
  rewrite Hn. cbn [Z.eqb negb].
  assert (Hle : n <= 0).
  { unfold CHAR_BIT in *. pose proof (Z.div_mod n 8 ltac:(lia)) as D.
    rewrite Hn in D. lia. }
  replace (Z.to_nat n) with O by lia. cbn [write_bits_loop].
  rewrite !Z.shiftl_0_l, !Z.lor_0_r, ulong_idem, Z.add_0_r.
  unfold set_output; cbn. rewrite params_same.
  reflexivity.
Qed.

Lemma write_bits_set_state (c : GKeyComp) (s : GKeyCompState)
    (p : GKeyParameters) (n b : Z) :
  write_bits (set_state c s) p n b
  = let '(ok, c', p') := write_bits c p n b in (ok, set_state c' s, p').
Proof.
  unfold write_bits. cbn [set_state acc_nbits acc out_total].
  destruct (if n =? UINT_MAX then _ else _) as [n1 a1].
  destruct (write_bits_loop _ _ _ _ _ _ _) as [ok [[[[[m ob] osz] tot] a] k]].
  destruct ok; reflexivity.
Qed.

Lemma flush_pass_again (input : bool) (c : GKeyComp) (p : GKeyParameters)
    (r : pass) (s : GKeyCompState) (p2 : GKeyParameters) :
  case_Flush GKeyStatus_OK input c p = Some r ->
  p_status r = GKeyStatus_Finished ->
  case_Flush GKeyStatus_OK true (set_state (p_comp r) s) p2
  = Some (mkPass GKeyStatus_Finished GKeyCompState_Flush true
            (set_state (p_comp r) s) p2).
Proof.
  unfold case_Flush.
  destruct (write_bits c p UINT_MAX 0) as [[ok c1] p1] eqn:W.
  destruct ok; intros H; inversion H; subst r; cbn [p_comp p_status];
    [|discriminate].
  intros _. rewrite write_bits_set_state, (flush_again _ _ _ _ p2 W).
  reflexivity.
Qed.

(** Status of the passes that start below the search. *)
Lemma case_PutSize_status (input : bool) (c : GKeyComp) (p : GKeyParameters)
    (r : pass) :
  case_PutSize GKeyStatus_OK input c p = Some r ->
  p_status r = GKeyStatus_OK \/ p_status r = GKeyStatus_BufferOverflow.
Proof.
  unfold case_PutSize.
  destruct (write_bits _ _ _ _) as [[ok c1] p1].
  destruct ok.
  - destruct (RingBuffer_copy _ _ _ _ _) as [[[ring u] copied]|]; cbn;
      [|discriminate].
    intros H; inversion H; subst; cbn; auto.
  - intros H; inversion H; subst; cbn; auto.
Qed.

Lemma case_PutOffset_status (input : bool) (c : GKeyComp)
    (p : GKeyParameters) (r : pass) :
  case_PutOffset GKeyStatus_OK input c p = Some r ->
  p_status r = GKeyStatus_OK \/ p_status r = GKeyStatus_BufferOverflow.
Proof.
  unfold case_PutOffset.
  destruct (write_bits _ _ _ _) as [[ok c1] p1].
  destruct ok.
  - apply case_PutSize_status.
  - intros H; inversion H; subst; cbn; auto.
Qed.

Lemma case_FindSequence_status (flush : bool) (st : GKeyCompState)
    (input : bool) (c : GKeyComp) (p : GKeyParameters) (r : pass) :
  case_FindSequence flush st GKeyStatus_OK input c p = Some r ->
  p_status r = GKeyStatus_OK \/ p_status r = GKeyStatus_BufferOverflow.
Proof.
  unfold case_FindSequence.
  destruct (if flush then _ else _) as [[[found c1] p1]|]; cbn;
    [|discriminate].
  destruct found.
  - destruct (read_size c1 =? 0).
    + destruct (in_size p1 >? 0); [intros H; inversion H; subst; cbn; auto|].
      destruct flush; intros H; inversion H; subst; cbn; auto.
    + destruct (_ <? _); [intros H; inversion H; subst; cbn; auto|].
      apply case_PutOffset_status.
  - intros H; inversion H; subst; cbn; auto.
Qed.

Lemma case_Progress_status (flush : bool) (st : GKeyCompState)
    (input : bool) (c : GKeyComp) (p : GKeyParameters) (r : pass) :
  case_Progress flush st GKeyStatus_OK input c p = Some r ->
  p_status r = GKeyStatus_OK \/ p_status r = GKeyStatus_BufferOverflow
  \/ p_status r = GKeyStatus_Aborted.
Proof.
  unfold case_Progress.
  destruct (prog_cb p) as [cb|].
  - destruct (cb _ _).
    + intros H; apply case_FindSequence_status in H; tauto.
    + intros H; inversion H; subst; cbn; auto.
  - intros H; apply case_FindSequence_status in H; tauto.
Qed.

Lemma case_PutByte_status (input : bool) (c : GKeyComp) (p : GKeyParameters)
    (r : pass) :
  case_PutByte GKeyStatus_OK input c p = Some r ->
  p_status r = GKeyStatus_OK \/ p_status r = GKeyStatus_BufferOverflow.
Proof.
  unfold case_PutByte.
  destruct (write_bits _ _ _ _) as [[ok c1] p1].
  destruct ok.
  - destruct (RingBuffer_write _ _ _); cbn; [|discriminate].
    intros H; inversion H; subst; cbn; auto.
  - intros H; inversion H; subst; cbn; auto.
Qed.

Lemma case_PutBytes_status (input : bool) (c : GKeyComp) (p : GKeyParameters)
    (r : pass) :
  case_PutBytes GKeyStatus_OK input c p = Some r ->
  p_status r = GKeyStatus_OK \/ p_status r = GKeyStatus_BufferOverflow.
Proof.
  unfold case_PutBytes.
  destruct (RingBuffer_copy _ _ _ _ _) as [[[ring [c1 p1]] copied]|]; cbn;
    [|discriminate].
  destruct (copied >=? _); intros H; inversion H; subst; cbn; auto.
Qed.

Lemma case_Flush_status (input : bool) (c : GKeyComp) (p : GKeyParameters)
    (r : pass) :
  case_Flush GKeyStatus_OK input c p = Some r ->
  (p_status r = GKeyStatus_Finished \/ p_status r = GKeyStatus_BufferOverflow)
  /\ p_state r = GKeyCompState_Flush.
Proof.
  unfold case_Flush.
  destruct (write_bits _ _ _ _) as [[ok c1] p1].
  destruct ok; intros H; inversion H; subst; cbn; auto.
Qed.

(** The status of one pass, by the state it starts in. *)
Lemma switch_status (flush : bool) (st : GKeyCompState) (input : bool)
    (c : GKeyComp) (p : GKeyParameters) (r : pass) :
  switch flush st GKeyStatus_OK input c p = Some r ->
  (st <> GKeyCompState_Flush ->
   p_status r = GKeyStatus_OK \/ p_status r = GKeyStatus_BufferOverflow
   \/ p_status r = GKeyStatus_Aborted)
  /\ (st = GKeyCompState_Flush ->
      (p_status r = GKeyStatus_Finished
       \/ p_status r = GKeyStatus_BufferOverflow)
      /\ p_state r = GKeyCompState_Flush).
Proof.
  destruct st; cbn [switch]; intros H;
    (split; [intros NE | intros E; try discriminate E]).
  - apply case_Progress_status in H. tauto.
  - apply case_Progress_status in H. tauto.
  - apply case_FindSequence_status in H. tauto.
  - apply case_PutOffset_status in H. tauto.
  - apply case_PutSize_status in H. tauto.
  - apply case_PutByte_status in H. tauto.
  - apply case_PutBytes_status in H. tauto.
  - exfalso. apply NE. reflexivity.
  - apply case_Flush_status in H. tauto.
Qed.

Lemma compress_fuel_S (p : GKeyParameters) :
  exists n, compress_fuel p = S n.
Proof.
  unfold compress_fuel. rewrite Nat.add_comm. simpl. eauto.
Qed.

Lemma compress_loop_finished :
  forall fuel flush st c p r,
    compress_loop fuel flush st c p = Some r ->
    p_status r = GKeyStatus_Finished ->
    p_state r = GKeyCompState_Flush
    /\ exists input c0 p0, case_Flush GKeyStatus_OK input c0 p0 = Some r.
Proof.
  induction fuel as [|fuel IH]; intros flush st c p r; cbn [compress_loop];
    [discriminate|].
  destruct (switch flush st GKeyStatus_OK true c p) as [r1|] eqn:S1; cbn;
    [|discriminate].
  destruct (GKeyStatus_eqb (p_status r1) GKeyStatus_OK && p_input r1)%bool
    eqn:E.
  - apply IH.
  - intros H; inversion H; subst r1. intros HF.
    pose proof (switch_status _ _ _ _ _ _ S1) as [H1 H2].
    assert (st = GKeyCompState_Flush) as ->.
    { destruct st; try reflexivity;
        (destruct H1 as [H1|[H1|H1]]; [discriminate| | |];
         rewrite HF in H1; discriminate H1). }
    split; [apply H2; reflexivity|]. cbn [switch] in S1. eauto.
Qed.

(** C8.  Once [gkeycomp_compress] has returned [Finished], every later call
    on the compressor it left, whatever the parameter block, returns
    [Finished] and leaves the compressor (its totals included) and the
    parameter block (its output block included) as they were. *)
Theorem flush_idempotent (c : GKeyComp) (p : GKeyParameters) (c' : GKeyComp)
    (p' : GKeyParameters) :
  gkeycomp_compress c p = Some (GKeyStatus_Finished, c', p') ->
  forall p2 : GKeyParameters,
    gkeycomp_compress c' p2 = Some (GKeyStatus_Finished, c', p2).
Proof.
  unfold gkeycomp_compress.
  destruct (compress_loop _ _ _ _ _) as [r|] eqn:L; cbn [obind];
    [|discriminate].
  intros H p2. inversion H as [[HS HC HP]]. clear H.
  destruct (compress_loop_finished _ _ _ _ _ _ L HS)
    as (Hst & input & c0 & p0 & HF).
  destruct (compress_fuel_S p2) as [n ->].
  cbn [compress_loop]. rewrite Hst. cbn [set_state state switch].
  rewrite (flush_pass_again _ _ _ _ GKeyCompState_Flush p2 HF HS).
  cbn. rewrite HS. reflexivity.
Qed.

Lemma flush_idempotent_witness :
  gkeycomp_compress
    (mkComp GKeyCompState_Flush 1 2 0 0 0 0 0 0 0 0 9 (RingBuffer_make 9))
    (stream_params [Byte.x41; Byte.x42] 0)
  = Some (GKeyStatus_Finished,
          mkComp GKeyCompState_Flush 1 2 0 0 0 0 0 0 0 0 9
            (RingBuffer_make 9),
          stream_params [Byte.x41; Byte.x42] 0).
Proof.
  apply (flush_idempotent
           (mkComp GKeyCompState_FindSequence 1 0 0 0 0 0 0 0 65 9 9
              (RingBuffer_make 9))
           (stream_params [] 4)
           (mkComp GKeyCompState_Flush 1 2 0 0 0 0 0 0 0 0 9
              (RingBuffer_make 9))
           (mkParams [] 0 0 [Byte.x41; Byte.x00; Byte.x00; Byte.x00]
              (Some 2) 2 None)).
  vm_compute. reflexivity.
Defined.

End EncoderCases.

(** ** Memory blocks *)

Section Memory.

Lemma length_mem_read (m : list byte) (pos n : Z) :
  0 <= pos -> 0 <= n -> pos + n <= Z.of_nat (length m) ->
  length (mem_read m pos n) = Z.to_nat n.
Proof.
  intros. unfold mem_read. rewrite length_firstn, length_skipn. lia.
Qed.

Lemma nth_mem_read (m : list byte) (pos n : Z) (i : nat) :
  0 <= pos -> (i < Z.to_nat n)%nat ->
  nth i (mem_read m pos n) Byte.x00 = mem_load m (pos + Z.of_nat i).
Proof.
  intros. unfold mem_read, mem_load.
  rewrite nth_firstn.
  destruct (Nat.ltb_spec i (Z.to_nat n)); [|lia].
  rewrite nth_skipn. f_equal. lia.
Qed.

Lemma mem_read_0 (m : list byte) (pos : Z) : mem_read m pos 0 = [].
Proof. reflexivity. Qed.

Lemma firstn_add {A : Type} (a b : nat) :
  forall l : list A,
    firstn (a + b) l = firstn a l ++ firstn b (skipn a l).
Proof.
  induction a as [|a IH]; intros l; [reflexivity|].
  destruct l as [|x l]; cbn [Nat.add firstn skipn app].
  - rewrite firstn_nil. reflexivity.
  - rewrite IH. reflexivity.
Qed.

Lemma mem_read_split (m : list byte) (pos a b : Z) :
  0 <= pos -> 0 <= a -> 0 <= b ->
  mem_read m pos (a + b) = mem_read m pos a ++ mem_read m (pos + a) b.
Proof.
  intros. unfold mem_read.
  rewrite Z2Nat.inj_add by lia. rewrite firstn_add. f_equal.
  rewrite skipn_skipn. do 2 f_equal. lia.
Qed.

Lemma length_mem_write (m : list byte) (pos : Z) (data : list byte) :
  0 <= pos -> pos + Z.of_nat (length data) <= Z.of_nat (length m) ->
  length (mem_write m pos data) = length m.
Proof.
  intros. unfold mem_write.
  rewrite !length_app, length_firstn, length_skipn. lia.
Qed.

Lemma mem_load_write (m : list byte) (pos : Z) (data : list byte) (i : Z) :
  0 <= pos -> pos + Z.of_nat (length data) <= Z.of_nat (length m) ->
  0 <= i ->
  mem_load (mem_write m pos data) i
  = if (pos <=? i) && (i <? pos + Z.of_nat (length data))
    then nth (Z.to_nat (i - pos)) data Byte.x00
    else mem_load m i.
Proof.
  intros Hp Hl Hi. unfold mem_write, mem_load.
  destruct (Z.leb_spec pos i); cbn [andb].
  - rewrite app_nth2 by (rewrite length_firstn; lia).
    rewrite length_firstn.
    replace (Z.to_nat i - Init.Nat.min (Z.to_nat pos) (length m))%nat
      with (Z.to_nat (i - pos)) by lia.
    destruct (Z.ltb_spec i (pos + Z.of_nat (length data))).
    + apply app_nth1. lia.
    + rewrite app_nth2 by lia. rewrite nth_skipn. f_equal. lia.
  - rewrite app_nth1 by (rewrite length_firstn; lia).
    rewrite nth_firstn.
    destruct (Nat.ltb_spec (Z.to_nat i) (Z.to_nat pos)); [reflexivity | lia].
Qed.

Lemma mem_write_nil (m : list byte) (pos : Z) : mem_write m pos [] = m.
Proof.
  unfold mem_write. cbn [length app]. rewrite Nat.add_0_r.
  apply firstn_skipn.
Qed.

Lemma mem_ext (a b : list byte) :
  length a = length b ->
  (forall i, 0 <= i < Z.of_nat (length a) -> mem_load a i = mem_load b i) ->
  a = b.
Proof.
  intros Hl H. apply (nth_ext a b Byte.x00 Byte.x00 Hl).
  intros n Hn. specialize (H (Z.of_nat n) ltac:(lia)).
  unfold mem_load in H. rewrite Nat2Z.id in H. exact H.
Qed.

Lemma mem_write_app (m : list byte) (pos : Z) (a b : list byte) :
  0 <= pos ->
  pos + Z.of_nat (length a) + Z.of_nat (length b) <= Z.of_nat (length m) ->
  mem_write (mem_write m pos a) (pos + Z.of_nat (length a)) b
  = mem_write m pos (a ++ b).
Proof.
  intros Hp Hl.
  apply mem_ext.
  - rewrite !length_mem_write; try lia.
    + rewrite length_app. lia.
    + rewrite length_mem_write; lia.
  - intros i Hi.
    rewrite length_mem_write in Hi by (try rewrite length_mem_write; lia).
    rewrite length_mem_write in Hi by lia.
    rewrite !mem_load_write; try lia.
    2:{ rewrite length_app. lia. }
    2:{ rewrite length_mem_write; lia. }
    rewrite length_app, Nat2Z.inj_add.
    destruct (Z.leb_spec (pos + Z.of_nat (length a)) i); cbn [andb].
    + destruct (Z.ltb_spec i (pos + Z.of_nat (length a) + Z.of_nat (length b))).
      * destruct (Z.leb_spec pos i); [|lia]. cbn [andb].
        destruct (Z.ltb_spec i (pos + (Z.of_nat (length a)
                                        + Z.of_nat (length b)))); [|lia].
        rewrite app_nth2 by lia. f_equal. lia.
      * destruct (Z.leb_spec pos i); [|lia]. cbn [andb].
        destruct (Z.ltb_spec i (pos + Z.of_nat (length a))); [lia|].
        destruct (Z.ltb_spec i (pos + (Z.of_nat (length a)
                                        + Z.of_nat (length b)))); [lia|].
        reflexivity.
    + destruct (Z.leb_spec pos i); cbn [andb]; [|reflexivity].
      destruct (Z.ltb_spec i (pos + Z.of_nat (length a))); [|lia].
      destruct (Z.ltb_spec i (pos + (Z.of_nat (length a)
                                      + Z.of_nat (length b)))); [|lia].
      rewrite app_nth1 by lia. reflexivity.
Qed.

(** Reading a range that a write did not touch. *)
Lemma mem_read_write_disjoint (m : list byte) (pos : Z) (data : list byte)
    (p n : Z) :
  0 <= pos -> pos + Z.of_nat (length data) <= Z.of_nat (length m) ->
  0 <= p -> 0 <= n -> p + n <= Z.of_nat (length m) ->
  p + n <= pos \/ pos + Z.of_nat (length data) <= p ->
  mem_read (mem_write m pos data) p n = mem_read m p n.
Proof.
  intros Hp Hl Hp0 Hn Hpn Hd.
  apply (nth_ext _ _ Byte.x00 Byte.x00).
  - rewrite !length_mem_read; try lia. rewrite length_mem_write; lia.
  - intros i Hi.
    rewrite length_mem_read in Hi
      by (try rewrite length_mem_write; lia).
    rewrite !nth_mem_read by lia.
    rewrite mem_load_write by lia.
    destruct (Z.leb_spec pos (p + Z.of_nat i)); cbn [andb]; [|reflexivity].
    destruct (Z.ltb_spec (p + Z.of_nat i) (pos + Z.of_nat (length data)));
      [lia | reflexivity].
Qed.

End Memory.

(** ** The ring: append, windows *)

Section Ring.

Lemma land_size (k x : Z) : 0 <= k -> Z.land x (2 ^ k - 1) = x mod 2 ^ k.
Proof.
  intros. replace (2 ^ k - 1) with (Z.ones k) by (rewrite Z.ones_equiv; lia).
  apply Z.land_ones. assumption.
Qed.

Lemma mod_twice (x s : Z) :
  0 <= x < 2 * s -> x mod s = if x <? s then x else x - s.
Proof.
  intros H. destruct (Z.ltb_spec x s).
  - apply Z.mod_small. lia.
  - replace x with (x - s + 1 * s) at 1 by lia.
    rewrite Z.mod_add by lia. apply Z.mod_small. lia.
Qed.

Lemma ring_wf_size_pos (k : Z) (r : RingBuffer) : ring_wf k r -> 0 < size r.
Proof. intros (Hk & Hs & Hw & _). lia. Qed.

Lemma ring_push_size (r : RingBuffer) (b : byte) :
  size (ring_push r b) = size r.
Proof. reflexivity. Qed.

Lemma ring_append_size (l : list byte) :
  forall r, size (ring_append r l) = size r.
Proof.
  induction l as [|b l IH]; intros r; [reflexivity|].
  cbn [ring_append fold_left]. fold (ring_append (ring_push r b) l).
  rewrite IH. reflexivity.
Qed.

Lemma ring_append_app (r : RingBuffer) (a b : list byte) :
  ring_append r (a ++ b) = ring_append (ring_append r a) b.
Proof. unfold ring_append. apply fold_left_app. Qed.

Lemma ring_append_cons (r : RingBuffer) (b : byte) (l : list byte) :
  ring_append r (b :: l) = ring_append (ring_push r b) l.
Proof. reflexivity. Qed.

Lemma ring_push_wf (k : Z) (r : RingBuffer) (b : byte) :
  ring_wf k r -> ring_wf k (ring_push r b).
Proof.
  intros (Hk & Hs & Hw & Hl & Hz).
  unfold ring_wf, ring_push; cbn [size write_pos filled buffer].
  split; [exact Hk|]. split; [exact Hs|].
  split.
  { destruct (Z.geb_spec (write_pos r + 1) (size r)); lia. }
  split.
  { rewrite length_mem_write; cbn [length]; lia. }
  destruct (Z.geb_spec (write_pos r + 1) (size r)); [discriminate|].
  intros Hf i Hi.
  rewrite mem_load_write by (cbn [length]; lia).
  cbn [length].
  destruct (Z.leb_spec (write_pos r) i); cbn [andb].
  - destruct (Z.ltb_spec i (write_pos r + Z.of_nat 1)); [lia|].
    apply Hz; [exact Hf | lia].
  - apply Hz; [exact Hf | lia].
Qed.

Lemma ring_append_wf (k : Z) (l : list byte) :
  forall r, ring_wf k r -> ring_wf k (ring_append r l).
Proof.
  induction l as [|b l IH]; intros r H; [exact H|].
  rewrite ring_append_cons. apply IH, ring_push_wf, H.
Qed.

(** After a push, the byte at offset [j] is the byte that was at [j + 1],
    and the last offset holds the byte pushed. *)
Lemma ring_at_push (k : Z) (r : RingBuffer) (b : byte) (j : Z) :
  ring_wf k r -> 0 <= j < size r ->
  ring_at (ring_push r b) j
  = if j =? size r - 1 then b else ring_at r (j + 1).
Proof.
  intros (Hk & Hs & Hw & Hl & Hz) Hj.
  unfold ring_at, ring_push; cbn [size write_pos buffer].
  assert (E : ((if write_pos r + 1 >=? size r then 0 else write_pos r + 1)
               + j) mod size r = (write_pos r + (j + 1)) mod size r).
  { destruct (Z.geb_spec (write_pos r + 1) (size r)).
    - replace (write_pos r + (j + 1)) with (0 + j + 1 * size r) by lia.
      rewrite Z.mod_add by lia. reflexivity.
    - f_equal. lia. }
  rewrite E.
  pose proof (Z.mod_pos_bound (write_pos r + (j + 1)) (size r) ltac:(lia)).
  rewrite mem_load_write by (cbn [length]; lia).
  cbn [length].
  rewrite (mod_twice (write_pos r + (j + 1))) by lia.
  destruct (Z.ltb_spec (write_pos r + (j + 1)) (size r)).
  - destruct (Z.leb_spec (write_pos r) (write_pos r + (j + 1))); [|lia].
    cbn [andb].
    destruct (Z.ltb_spec (write_pos r + (j + 1)) (write_pos r + Z.of_nat 1));
      [lia|].
    destruct (Z.eqb_spec j (size r - 1)); [lia | reflexivity].
  - destruct (Z.eqb_spec j (size r - 1)).
    + subst j.
      replace (write_pos r + (size r - 1 + 1) - size r) with (write_pos r)
        by lia.
      rewrite Z.leb_refl. cbn [andb].
      destruct (Z.ltb_spec (write_pos r) (write_pos r + Z.of_nat 1)); [|lia].
      rewrite Z.sub_diag. reflexivity.
    + destruct (Z.leb_spec (write_pos r)
                  (write_pos r + (j + 1) - size r)); [lia|].
      reflexivity.
Qed.

(** After appending [l], the old bytes have moved down by [length l] and the
    top offsets hold [l]. *)
Lemma ring_at_append (k : Z) (l : list byte) :
  forall (r : RingBuffer) (j : Z),
    ring_wf k r -> 0 <= j < size r ->
    ring_at (ring_append r l) j
    = if j + Z.of_nat (length l) <? size r
      then ring_at r (j + Z.of_nat (length l))
      else nth (Z.to_nat (j + Z.of_nat (length l) - size r)) l Byte.x00.
Proof.
  induction l as [|b l IH]; intros r j Hwf Hj.
  - cbn [ring_append fold_left length Z.of_nat]. rewrite Z.add_0_r.
    destruct (Z.ltb_spec j (size r)); [reflexivity | lia].
  - rewrite ring_append_cons.
    rewrite IH by (try apply ring_push_wf; try rewrite ring_push_size;
                   assumption).
    rewrite ring_push_size. cbn [length]. rewrite Nat2Z.inj_succ.
    destruct (Z.ltb_spec (j + Z.of_nat (length l)) (size r)).
    + rewrite (ring_at_push k) by (try assumption; lia).
      destruct (Z.eqb_spec (j + Z.of_nat (length l)) (size r - 1)).
      * destruct (Z.ltb_spec (j + Z.succ (Z.of_nat (length l))) (size r));
          [lia|].
        replace (j + Z.succ (Z.of_nat (length l)) - size r) with 0 by lia.
        reflexivity.
      * destruct (Z.ltb_spec (j + Z.succ (Z.of_nat (length l))) (size r));
          [|lia].
        f_equal. lia.
    + destruct (Z.ltb_spec (j + Z.succ (Z.of_nat (length l))) (size r));
        [lia|].
      replace (Z.to_nat (j + Z.succ (Z.of_nat (length l)) - size r))
        with (S (Z.to_nat (j + Z.of_nat (length l) - size r))) by lia.
      reflexivity.
Qed.

Lemma length_ring_window (r : RingBuffer) (off n : Z) :
  length (ring_window r off n) = Z.to_nat n.
Proof. unfold ring_window. rewrite length_map, length_seq. reflexivity. Qed.

Lemma nth_ring_window (r : RingBuffer) (off n : Z) (i : nat) :
  (i < Z.to_nat n)%nat ->
  nth i (ring_window r off n) Byte.x00 = ring_at r (off + Z.of_nat i).
Proof.
  intros Hi. unfold ring_window.
  set (f := fun i => ring_at r (off + Z.of_nat i)).
  rewrite (nth_indep _ Byte.x00 (f O))
    by (rewrite length_map, length_seq; exact Hi).
  rewrite map_nth. rewrite seq_nth by exact Hi. reflexivity.
Qed.

Lemma ring_window_split (r : RingBuffer) (off a b : Z) :
  0 <= a -> 0 <= b ->
  ring_window r off (a + b) = ring_window r off a ++ ring_window r (off + a) b.
Proof.
  intros Ha Hb.
  apply (nth_ext _ _ Byte.x00 Byte.x00).
  - rewrite length_app, !length_ring_window. lia.
  - intros i Hi. rewrite length_ring_window in Hi.
    rewrite nth_ring_window by lia.
    destruct (Nat.lt_ge_cases i (Z.to_nat a)).
    + rewrite app_nth1 by (rewrite length_ring_window; lia).
      rewrite nth_ring_window by lia. reflexivity.
    + rewrite app_nth2 by (rewrite length_ring_window; lia).
      rewrite length_ring_window, nth_ring_window by lia. f_equal. lia.
Qed.

End Ring.

Section RingWrite.

Lemma ring_append_size_log_2 (l : list byte) :
  forall r, size_log_2 (ring_append r l) = size_log_2 r.
Proof.
  induction l as [|b l IH]; intros r; [reflexivity|].
  rewrite ring_append_cons, IH. reflexivity.
Qed.

Lemma ring_append_eta (r : RingBuffer) (l : list byte) :
  mkRing (size r) (write_pos (ring_append r l)) (filled (ring_append r l))
    (size_log_2 r) (buffer (ring_append r l))
  = ring_append r l.
Proof.
  rewrite <- (ring_append_size l r) at 1.
  rewrite <- (ring_append_size_log_2 l r) at 1.
  destruct (ring_append r l); reflexivity.
Qed.

(** A window that does not cross the physical end of the storage is a
    contiguous range of [buffer]. *)
Lemma window_contiguous (k : Z) (r : RingBuffer) (off n : Z) :
  ring_wf k r -> 0 <= off -> 0 <= n ->
  (write_pos r + off) mod size r + n <= size r ->
  mem_read (buffer r) ((write_pos r + off) mod size r) n
  = ring_window r off n.
Proof.
  intros Hwf Ho Hn Hc. pose proof Hwf as (Hk & Hs & Hw & Hl & Hz).
  pose proof (Z.mod_pos_bound (write_pos r + off) (size r) ltac:(lia)).
  apply (nth_ext _ _ Byte.x00 Byte.x00).
  - rewrite length_mem_read, length_ring_window by lia. reflexivity.
  - intros i Hi. rewrite length_mem_read in Hi by lia.
    rewrite nth_mem_read, nth_ring_window by lia.
    unfold ring_at. f_equal.
    rewrite Z.add_assoc.
    rewrite <- (Z.add_mod_idemp_l (write_pos r + off)) by lia.
    symmetry. apply Z.mod_small. lia.
Qed.

(** Appending bytes moves the window base: what was at [off + length l] is
    now at [off]. *)
Lemma window_after_append (k : Z) (r : RingBuffer) (l : list byte)
    (off n : Z) :
  ring_wf k r -> 0 <= off -> 0 <= n ->
  off + Z.of_nat (length l) + n <= size r ->
  ring_window (ring_append r l) off n
  = ring_window r (off + Z.of_nat (length l)) n.
Proof.
  intros Hwf Ho Hn Hc.
  apply (nth_ext _ _ Byte.x00 Byte.x00).
  - rewrite !length_ring_window. reflexivity.
  - intros i Hi. rewrite length_ring_window in Hi.
    rewrite !nth_ring_window by lia.
    rewrite (ring_at_append k) by (try assumption; lia).
    destruct (Z.ltb_spec (off + Z.of_nat i + Z.of_nat (length l)) (size r));
      [|lia].
    f_equal. lia.
Qed.

Lemma firstn_ring_window (r : RingBuffer) (off n m : Z) :
  0 <= m <= n -> firstn (Z.to_nat m) (ring_window r off n) = ring_window r off m.
Proof.
  intros H. replace n with (m + (n - m)) by lia.
  rewrite ring_window_split by lia.
  rewrite firstn_app, length_ring_window, Nat.sub_diag, firstn_O, app_nil_r.
  apply firstn_all2. rewrite length_ring_window. lia.
Qed.

Lemma skipn_ring_window (r : RingBuffer) (off n m : Z) :
  0 <= m <= n ->
  skipn (Z.to_nat m) (ring_window r off n) = ring_window r (off + m) (n - m).
Proof.
  intros H. replace n with (m + (n - m)) at 1 by lia.
  rewrite ring_window_split by lia.
  rewrite skipn_app, length_ring_window, Nat.sub_diag, skipn_O.
  rewrite skipn_all2 by (rewrite length_ring_window; lia).
  reflexivity.
Qed.

(** Appending a block that fits before the physical end is one block
    write. *)
Lemma ring_append_chunk (k : Z) (data : list byte) :
  forall r : RingBuffer,
    ring_wf k r -> data <> [] ->
    write_pos r + Z.of_nat (length data) <= size r ->
    ring_append r data
    = mkRing (size r)
        (if write_pos r + Z.of_nat (length data) >=? size r then 0
         else write_pos r + Z.of_nat (length data))
        (if write_pos r + Z.of_nat (length data) >=? size r then true
         else filled r)
        (size_log_2 r)
        (mem_write (buffer r) (write_pos r) data).
Proof.
  induction data as [|b data IH]; intros r Hwf Hne Hfit; [congruence|].
  pose proof Hwf as (Hk & Hs & Hw & Hl & Hz).
  rewrite ring_append_cons.
  destruct data as [|b' data].
  - cbn [ring_append fold_left length]. unfold ring_push.
    change (Z.of_nat 1) with 1. reflexivity.
  - cbn [length] in Hfit. rewrite !Nat2Z.inj_succ in Hfit.
    rewrite IH; [|apply ring_push_wf, Hwf|discriminate|].
    + unfold ring_push; cbn [size write_pos filled size_log_2 buffer].
      destruct (Z.geb_spec (write_pos r + 1) (size r)); [lia|].
      cbn [length]. rewrite !Nat2Z.inj_succ.
      f_equal.
      * destruct (Z.geb_spec (write_pos r + 1
                              + Z.succ (Z.of_nat (length data))) (size r));
          destruct (Z.geb_spec (write_pos r
                                + Z.succ (Z.succ (Z.of_nat (length data))))
                      (size r)); lia.
      * destruct (Z.geb_spec (write_pos r + 1
                              + Z.succ (Z.of_nat (length data))) (size r));
          destruct (Z.geb_spec (write_pos r
                                + Z.succ (Z.succ (Z.of_nat (length data))))
                      (size r)); try lia; reflexivity.
      * change (write_pos r + 1) with (write_pos r + Z.of_nat (length [b])).
        rewrite mem_write_app; [reflexivity | lia |].
        cbn [length]. rewrite !Nat2Z.inj_succ. change (Z.of_nat 0) with 0.
        lia.
    + unfold ring_push; cbn [size write_pos].
      destruct (Z.geb_spec (write_pos r + 1) (size r)); [lia|].
      cbn [length]. rewrite !Nat2Z.inj_succ. lia.
Qed.

(** What one iteration of [RingBuffer_write] stores is the append of the
    block it copied. *)
Lemma write_iteration (k : Z) (r : RingBuffer) (data : list byte) :
  ring_wf k r -> data <> [] ->
  write_pos r + Z.of_nat (length data) <= size r ->
  let wp := write_pos r + Z.of_nat (length data) in
  (mem_write (buffer r) (write_pos r) data,
   snd (if wp >=? size r then (0, true) else (wp, filled r)),
   fst (if wp >=? size r then (0, true) else (wp, filled r)))
  = (buffer (ring_append r data), filled (ring_append r data),
     write_pos (ring_append r data)).
Proof.
  intros Hwf Hne Hfit wp. rewrite (ring_append_chunk k) by assumption.
  cbn [buffer filled write_pos]. fold wp.
  destruct (wp >=? size r); reflexivity.
Qed.

Lemma write_loop_step (fuel : nat) (sz : Z) (buf : list byte) (fill : bool)
    (wp : Z) (s : src_ptr) (nleft : Z) :
  nleft <> 0 ->
  RingBuffer_write_loop (S fuel) sz buf fill wp s nleft
  = let tc := if sz - wp >? nleft then nleft else sz - wp in
    RingBuffer_write_loop fuel sz (mem_write buf wp (src_read buf s tc))
      (snd (if wp + tc >=? sz then (0, true) else (wp + tc, fill)))
      (fst (if wp + tc >=? sz then (0, true) else (wp + tc, fill)))
      (src_advance s tc) (nleft - tc).
Proof.
  intros Hn. cbn [RingBuffer_write_loop].
  destruct (Z.eqb_spec nleft 0); [contradiction|].
  cbv zeta.
  destruct (wp + (if sz - wp >? nleft then nleft else sz - wp) >=? sz);
    reflexivity.
Qed.

(** [RingBuffer_write] appends the bytes it reads, whether they come from
    caller memory or from a range of the ring's own storage that the write
    does not reach before it has read it. *)
Lemma write_loop_spec (k : Z) :
  forall (fuel : nat) (r : RingBuffer) (s : src_ptr) (n sz : Z),
    sz = size r -> ring_wf k r -> 0 <= n ->
    match s with
    | SrcMem m pos => 0 <= pos /\ pos + n <= Z.of_nat (length m)
    | SrcRing pos =>
        0 <= pos /\ pos + n <= size r
        /\ (n <= size r - write_pos r \/ pos + n <= write_pos r)
    end ->
    (Z.to_nat n < fuel)%nat ->
    RingBuffer_write_loop fuel sz (buffer r) (filled r) (write_pos r) s n
    = Some (buffer (ring_append r (src_read (buffer r) s n)),
            filled (ring_append r (src_read (buffer r) s n)),
            write_pos (ring_append r (src_read (buffer r) s n))).
Proof.
  induction fuel as [|fuel IH]; intros r s n sz Hsz Hwf Hn Hs Hf; [lia|].
  pose proof Hwf as (Hk & Hsize & Hw & Hl & Hz).
  destruct (Z.eq_dec n 0) as [->|Hn0].
  { cbn [RingBuffer_write_loop Z.eqb].
    destruct s; cbn [src_read]; rewrite mem_read_0; reflexivity. }
  rewrite write_loop_step by assumption. cbv zeta. subst sz.
  set (tc := if size r - write_pos r >? n then n else size r - write_pos r).
  assert (Htc : 0 < tc <= n /\ write_pos r + tc <= size r).
  { unfold tc. destruct (Z.gtb_spec (size r - write_pos r) n); lia. }
  remember (src_read (buffer r) s tc) as data eqn:Hdata.
  assert (Hlen : Z.of_nat (length data) = tc).
  { subst data. destruct s as [m pos | pos]; cbn [src_read];
      rewrite length_mem_read; lia. }
  assert (Hne : data <> []).
  { intros E. rewrite E in Hlen. cbn in Hlen. lia. }
  pose proof (write_iteration k r data Hwf Hne ltac:(lia)) as E.
  cbv zeta in E. rewrite Hlen in E. injection E as E1 E2 E3.
  rewrite E1, E2, E3.
  assert (Hsplit : src_read (buffer r) s n
                   = data ++ src_read (buffer (ring_append r data))
                               (src_advance s tc) (n - tc)).
  { destruct s as [m pos | pos]; cbn [src_read src_advance] in Hdata |- *.
    - replace n with (tc + (n - tc)) at 1 by lia.
      rewrite mem_read_split by lia. rewrite <- Hdata. reflexivity.
    - replace n with (tc + (n - tc)) at 1 by lia.
      rewrite mem_read_split by lia. rewrite <- Hdata. f_equal.
      destruct (Z.eq_dec tc n) as [Heq|Hlt].
      + rewrite Heq, Z.sub_diag, !mem_read_0. reflexivity.
      + rewrite <- E1. symmetry.
        assert (tc = size r - write_pos r /\ size r - write_pos r <= n)
          as [Htc1 Htc2].
        { unfold tc in Hlt |- *.
          destruct (Z.gtb_spec (size r - write_pos r) n); lia. }
        apply mem_read_write_disjoint; lia. }
  rewrite Hsplit, ring_append_app.
  apply IH.
  - symmetry. apply ring_append_size.
  - apply ring_append_wf, Hwf.
  - lia.
  - rewrite ring_append_size.
    destruct s as [m pos | pos]; cbn [src_advance]; [lia|].
    split; [lia|]. split; [lia|].
    left.
    rewrite (ring_append_chunk k) by (try assumption; lia).
    cbn [write_pos]. rewrite Hlen.
    destruct (Z.geb_spec (write_pos r + tc) (size r)).
    + lia.
    + unfold tc in *.
      destruct (Z.gtb_spec (size r - write_pos r) n); lia.
  - lia.
Qed.

Lemma RingBuffer_write_spec (k : Z) (r : RingBuffer) (s : src_ptr) (n : Z) :
  ring_wf k r -> 0 <= n ->
  match s with
  | SrcMem m pos => 0 <= pos /\ pos + n <= Z.of_nat (length m)
  | SrcRing pos =>
      0 <= pos /\ pos + n <= size r
      /\ (n <= size r - write_pos r \/ pos + n <= write_pos r)
  end ->
  RingBuffer_write r s n = Some (ring_append r (src_read (buffer r) s n)).
Proof.
  intros Hwf Hn Hs. unfold RingBuffer_write.
  rewrite (write_loop_spec k) by (try assumption; try reflexivity; lia).
  cbn [obind]. rewrite ring_append_eta. reflexivity.
Qed.

End RingWrite.

Section RingCopy.

Context {St : Type}.

Lemma copy_loop_exit (fuel : nat) (write_cb : option (RingBufferWriteFn St))
    (off n : Z) (r : RingBuffer) (st : St) (copied to_copy total : Z) :
  n <= total \/ copied < to_copy ->
  RingBuffer_copy_loop fuel write_cb off n r st copied to_copy total
  = Some (r, st, total).
Proof.
  intros H.
  assert (E : ((total <? n) && (copied >=? to_copy))%bool = false).
  { apply andb_false_iff. rewrite Z.ltb_ge, Z.geb_leb, Z.leb_gt. lia. }
  destruct fuel; cbn [RingBuffer_copy_loop]; rewrite E; reflexivity.
Qed.

Lemma copy_loop_step (k : Z) (fuel : nat)
    (write_cb : option (RingBufferWriteFn St))
    (off n : Z) (r : RingBuffer) (st : St) (copied to_copy total : Z) :
  ring_wf k r -> 0 <= off -> 0 <= total < n -> off + (n - total) <= size r ->
  copied >= to_copy ->
  let read_pos := (write_pos r + off) mod size r in
  let tc := if size r - read_pos >? n - total then n - total
            else size r - read_pos in
  0 < tc <= n - total
  /\ mem_read (buffer r) read_pos tc = ring_window r off tc
  /\ RingBuffer_copy_loop (S fuel) write_cb off n r st copied to_copy total
     = (let '(st1, k1) := cb_or_all write_cb st (ring_window r off tc) in
        ring <- RingBuffer_write r (SrcRing read_pos) k1 ;;
        RingBuffer_copy_loop fuel write_cb off n ring st1 k1 tc (total + k1)).
Proof.
  intros Hwf Ho Ht Hfit Hc read_pos tc.
  pose proof Hwf as (Hk & Hs & Hw & Hl & Hz).
  pose proof (Z.mod_pos_bound (write_pos r + off) (size r) ltac:(lia)) as Hrp.
  fold read_pos in Hrp.
  assert (Htc : 0 < tc <= n - total /\ read_pos + tc <= size r).
  { unfold tc. destruct (Z.gtb_spec (size r - read_pos) (n - total)); lia. }
  assert (Hwin : mem_read (buffer r) read_pos tc = ring_window r off tc).
  { apply (window_contiguous k); try assumption; fold read_pos; lia. }
  split; [lia|]. split; [exact Hwin|].
  cbn [RingBuffer_copy_loop].
  replace ((total <? n) && (copied >=? to_copy))%bool with true.
  2:{ symmetry. apply andb_true_iff. rewrite Z.ltb_lt, Z.geb_leb, Z.leb_le.
      lia. }
  replace (Z.land (write_pos r + off) (size r - 1)) with read_pos
    by (unfold read_pos; rewrite Hs; symmetry; apply land_size, Hk).
  cbv zeta. fold tc. rewrite Hwin.
  destruct write_cb as [cb|]; cbn [cb_or_all].
  - reflexivity.
  - unfold accept_all. rewrite length_ring_window.
    rewrite Z2Nat.id by lia. reflexivity.
Qed.

(** [RingBuffer_copy] offers the window of [n] bytes at [offset] to the
    callback and appends to the ring the prefix the callback accepted. *)
Lemma copy_loop_spec (k : Z) (I : St -> Prop)
    (write_cb : option (RingBufferWriteFn St)) (off n : Z) :
  cb_sequential I (cb_or_all write_cb) ->
  forall (fuel : nat) (r : RingBuffer) (st : St) (copied to_copy total : Z),
    I st -> ring_wf k r -> 0 <= off -> 0 <= total < n ->
    off + (n - total) <= size r -> copied >= to_copy ->
    (Z.to_nat (n - total) < fuel)%nat ->
    RingBuffer_copy_loop fuel write_cb off n r st copied to_copy total
    = let '(st', m) := cb_or_all write_cb st (ring_window r off (n - total)) in
      Some (ring_append r
              (firstn (Z.to_nat m) (ring_window r off (n - total))),
            st', total + m).
Proof.
  intros [Hbound Hseq].
  induction fuel as [|fuel IH];
    intros r st copied to_copy total HI Hwf Ho Ht Hfit Hc Hf; [lia|].
  pose proof Hwf as (Hk & Hs & Hw & Hl & Hz).
  destruct (copy_loop_step k fuel write_cb off n r st copied to_copy total
              Hwf Ho Ht Hfit Hc) as (Htc & Hwin & ->).
  set (read_pos := (write_pos r + off) mod size r) in *.
  set (tc := if size r - read_pos >? n - total then n - total
             else size r - read_pos) in *.
  pose proof (Z.mod_pos_bound (write_pos r + off) (size r) ltac:(lia)) as Hrp.
  fold read_pos in Hrp.
  assert (Htc2 : read_pos + tc <= size r).
  { unfold tc. destruct (Z.gtb_spec (size r - read_pos) (n - total)); lia. }
  (* the window is the chunk offered now followed by the rest *)
  set (W := ring_window r off (n - total)).
  set (chunk := ring_window r off tc).
  set (rest := ring_window r (off + tc) (n - total - tc)).
  assert (HW : W = chunk ++ rest).
  { unfold W, chunk, rest. replace (n - total) with (tc + (n - total - tc))
      at 1 by lia. apply ring_window_split; lia. }
  assert (Hlc : Z.of_nat (length chunk) = tc).
  { unfold chunk. rewrite length_ring_window. lia. }
  specialize (Hseq st chunk rest HI). rewrite <- HW in Hseq.
  pose proof (Hbound st chunk HI) as [HI1 Hb1].
  destruct (cb_or_all write_cb st chunk) as [st1 k1] eqn:E1.
  cbn [fst snd] in HI1, Hb1. rewrite Hlc in Hb1, Hseq.
  (* the write appends the accepted prefix *)
  assert (Hread : mem_read (buffer r) read_pos k1
                  = firstn (Z.to_nat k1) chunk).
  { unfold chunk. rewrite firstn_ring_window by lia.
    apply (window_contiguous k); try assumption; fold read_pos; lia. }
  assert (Hpre : firstn (Z.to_nat k1) chunk = firstn (Z.to_nat k1) W).
  { rewrite HW, firstn_app.
    replace (Z.to_nat k1 - length chunk)%nat with O by lia.
    rewrite firstn_O, app_nil_r. reflexivity. }
  assert (Hwrite : RingBuffer_write r (SrcRing read_pos) k1
                   = Some (ring_append r (mem_read (buffer r) read_pos k1))).
  { apply (RingBuffer_write_spec k r (SrcRing read_pos) k1 Hwf); [lia|].
    split; [lia|]. split; [lia|].
    unfold tc, read_pos in *.
    rewrite (mod_twice (write_pos r + off)) in * by lia.
    destruct (Z.ltb_spec (write_pos r + off) (size r)); lia. }
  rewrite Hwrite.
  cbn [obind]. rewrite Hread.
  destruct (Z.eqb_spec k1 tc) as [Hfull|Hpart].
  - (* the chunk was accepted whole *)
    subst k1.
    rewrite firstn_all2 by lia.
    destruct (Z.eq_dec tc (n - total)) as [Hlast|Hmore].
    + rewrite copy_loop_exit by lia.
      assert (rest = []) as Hr0.
      { unfold rest. rewrite Hlast, Z.sub_diag. reflexivity. }
      rewrite Hr0, app_nil_r in HW.
      subst W. rewrite HW. rewrite E1.
      rewrite firstn_all2 by lia. reflexivity.
    + rewrite IH; try lia.
      * replace (n - (total + tc)) with (n - total - tc) by lia.
        rewrite (window_after_append k) by (try assumption; lia).
        rewrite Hlc. fold rest.
        rewrite Hseq.
        destruct (cb_or_all write_cb st1 rest) as [st2 k2] eqn:E2.
        pose proof (Hbound st1 rest HI1) as [_ Hb2]. rewrite E2 in Hb2.
        cbn [snd] in Hb2.
        rewrite <- ring_append_app. rewrite HW.
        rewrite firstn_app.
        rewrite (firstn_all2 (n := Z.to_nat (tc + k2)) chunk) by lia.
        replace (Z.to_nat (tc + k2) - length chunk)%nat with (Z.to_nat k2)
          by lia.
        rewrite Z.add_assoc. reflexivity.
      * exact HI1.
      * apply ring_append_wf, Hwf.
      * rewrite ring_append_size. lia.
  - (* the callback truncated the chunk *)
    rewrite copy_loop_exit by lia.
    rewrite Hseq. rewrite Hpre. reflexivity.
Qed.

Lemma RingBuffer_copy_spec (k : Z) (I : St -> Prop)
    (write_cb : option (RingBufferWriteFn St))
    (r : RingBuffer) (st : St) (off n : Z) :
  cb_sequential I (cb_or_all write_cb) ->
  I st -> ring_wf k r -> 0 <= off -> 0 < n -> off + n <= size r ->
  RingBuffer_copy r write_cb st off n
  = let '(st', m) := cb_or_all write_cb st (ring_window r off n) in
    Some (ring_append r (firstn (Z.to_nat m) (ring_window r off n)), st', m).
Proof.
  intros Hseq HI Hwf Ho Hn Hfit. unfold RingBuffer_copy.
  rewrite (copy_loop_spec k I) by (try assumption; lia).
  rewrite Z.sub_0_r.
  destruct (cb_or_all write_cb st (ring_window r off n)) as [st' m].
  reflexivity.
Qed.

End RingCopy.

Lemma accept_all_sequential {St : Type} :
  cb_sequential (fun _ => True) (@accept_all St).
Proof.
  split.
  - intros st l _. cbn. split; [exact I | lia].
  - intros st l1 l2 _. unfold accept_all. rewrite Z.eqb_refl.
    rewrite length_app, Nat2Z.inj_add. reflexivity.
Qed.

(** Without a callback the whole window is appended. *)
Lemma RingBuffer_copy_all (k : Z) (r : RingBuffer) (off n : Z) :
  ring_wf k r -> 0 <= off -> 0 < n -> off + n <= size r ->
  RingBuffer_copy r None tt off n
  = Some (ring_append r (ring_window r off n), tt, n).
Proof.
  intros Hwf Ho Hn Hfit.
  rewrite (RingBuffer_copy_spec k (fun _ => True)) by
    (try assumption; try exact I; apply accept_all_sequential).
  cbn [cb_or_all accept_all]. rewrite length_ring_window, Nat2Z.id.
  rewrite firstn_all2 by (rewrite length_ring_window; lia).
  rewrite Z2Nat.id by lia. reflexivity.
Qed.

(** ** The decoder's writer and the copy of a match (GKeyDecomp.c) *)

Section DecoderCopy.
Import GKeyDecomp.

Lemma write_pos_append (k : Z) (l : list byte) :
  forall r, ring_wf k r ->
            write_pos (ring_append r l)
            = (write_pos r + Z.of_nat (length l)) mod size r.
Proof.
  induction l as [|b l IH]; intros r Hwf.
  - pose proof Hwf as (Hk & Hs & Hw & _).
    cbn [ring_append fold_left length Z.of_nat]. rewrite Z.add_0_r.
    symmetry. apply Z.mod_small. lia.
  - pose proof Hwf as (Hk & Hs & Hw & _).
    rewrite ring_append_cons, IH by (apply ring_push_wf, Hwf).
    rewrite ring_push_size. unfold ring_push at 1. cbn [write_pos length].
    rewrite Nat2Z.inj_succ.
    destruct (Z.geb_spec (write_pos r + 1) (size r)).
    + replace (write_pos r + Z.succ (Z.of_nat (length l)))
        with (0 + Z.of_nat (length l) + 1 * size r) by lia.
      rewrite Z.mod_add by lia. reflexivity.
    + f_equal. lia.
Qed.

(** What [ring_writer] does with an output buffer: it stores the longest
    prefix of the range that fits. *)
Lemma ring_writer_buffer (d : GKeyDecomp) (p : GKeyParameters) (ob : Z)
    (src : list byte) :
  out_buffer p = Some ob ->
  let n := if out_size p <? Z.of_nat (length src) then out_size p
           else Z.of_nat (length src) in
  ring_writer (d, p) src
  = (set_out_total d (out_total d + n),
     mkParams (in_mem p) (in_buffer p) (in_size p)
       (mem_write (out_mem p) ob (firstn (Z.to_nat n) src))
       (Some (ob + n)) (out_size p - n) (prog_cb p),
     n).
Proof.
  intros Hob n. unfold ring_writer. rewrite Hob. reflexivity.
Qed.

Lemma written_after_write (p : GKeyParameters) (ob : Z) (data : list byte) :
  out_buffer p = Some ob -> out_window_ok p ->
  Z.of_nat (length data) <= out_size p ->
  forall im ib isz osz cb,
    written (mkParams im ib isz (mem_write (out_mem p) ob data)
               (Some (ob + Z.of_nat (length data))) osz cb)
    = written p ++ data.
Proof.
  intros Hob Hok Hlen im ib isz osz cb.
  unfold out_window_ok in Hok. rewrite Hob in Hok.
  unfold written; cbn [out_buffer out_mem]. rewrite Hob.
  unfold mem_write.
  rewrite Z2Nat.inj_add by lia. rewrite Nat2Z.id.
  rewrite firstn_app, length_firstn.
  replace (Init.Nat.min (Z.to_nat ob) (length (out_mem p))) with (Z.to_nat ob)
    by lia.
  rewrite firstn_firstn.
  replace (Init.Nat.min (Z.to_nat ob + length data) (Z.to_nat ob))
    with (Z.to_nat ob) by lia.
  f_equal.
  replace (Z.to_nat ob + length data - Z.to_nat ob)%nat with (length data)
    by lia.
  rewrite firstn_app, Nat.sub_diag, firstn_O, app_nil_r.
  apply firstn_all.
Qed.

Lemma ring_writer_sequential :
  cb_sequential (fun st : GKeyDecomp * GKeyParameters => out_window_ok (snd st))
    ring_writer.
Proof.
  split.
  - intros [d p] l Hok. cbn [snd] in Hok.
    unfold ring_writer, out_window_ok in *.
    destruct (out_buffer p) as [ob|] eqn:Hob; cbn [fst snd out_buffer
      out_size out_mem].
    + destruct (Z.ltb_spec (out_size p) (Z.of_nat (length l))).
      * split; [|lia]. rewrite length_mem_write; [lia|lia|].
        rewrite length_firstn. lia.
      * split; [|lia]. rewrite length_mem_write; [lia|lia|].
        rewrite length_firstn. lia.
    + split; [exact I | lia].
  - intros [d p] l1 l2 Hok. cbn [snd] in Hok.
    unfold ring_writer, out_window_ok in *.
    destruct (out_buffer p) as [ob|] eqn:Hob; cbn [out_buffer out_size
      out_mem out_total set_out_total in_mem in_buffer in_size prog_cb].
    + rewrite length_app, Nat2Z.inj_add.
      destruct (Z.ltb_spec (out_size p) (Z.of_nat (length l1))).
      * destruct (Z.eqb_spec (out_size p) (Z.of_nat (length l1))); [lia|].
        destruct (Z.ltb_spec (out_size p)
                    (Z.of_nat (length l1) + Z.of_nat (length l2))); [|lia].
        rewrite firstn_app.
        replace (Z.to_nat (out_size p) - length l1)%nat with O by lia.
        rewrite firstn_O, app_nil_r. reflexivity.
      * rewrite Z.eqb_refl.
        set (n2 := if out_size p - Z.of_nat (length l1) <? Z.of_nat (length l2)
                   then out_size p - Z.of_nat (length l1)
                   else Z.of_nat (length l2)).
        assert (Hn2 : 0 <= n2 <= Z.of_nat (length l2)
                      /\ n2 <= out_size p - Z.of_nat (length l1)).
        { unfold n2.
          destruct (Z.ltb_spec (out_size p - Z.of_nat (length l1))
                      (Z.of_nat (length l2))); lia. }
        assert (E : (if out_size p
                        <? Z.of_nat (length l1) + Z.of_nat (length l2)
                     then out_size p
                     else Z.of_nat (length l1) + Z.of_nat (length l2))
                    = Z.of_nat (length l1) + n2).
        { unfold n2.
          destruct (Z.ltb_spec (out_size p)
                      (Z.of_nat (length l1) + Z.of_nat (length l2)));
            destruct (Z.ltb_spec (out_size p - Z.of_nat (length l1))
                        (Z.of_nat (length l2))); lia. }
        rewrite E.
        rewrite Nat2Z.id, firstn_all.
        rewrite firstn_app.
        rewrite (firstn_all2 (n := Z.to_nat (Z.of_nat (length l1) + n2)) l1)
          by lia.
        replace (Z.to_nat (Z.of_nat (length l1) + n2) - length l1)%nat
          with (Z.to_nat n2) by lia.
        rewrite mem_write_app; [|lia|].
        2:{ rewrite length_firstn. lia. }
        rewrite !Z.add_assoc, Z.sub_add_distr. destruct d; reflexivity.
    + rewrite Z.eqb_refl.
      rewrite length_app, Nat2Z.inj_add.
      rewrite !Z.add_assoc. destruct d; reflexivity.
Qed.

(** The case [CopyData] with an output buffer: the first
    [min out_size read_size] bytes of the window are stored and appended to
    the history; the state says whether all of it went through. *)
Lemma case_CopyData_spec (k : Z) (stop : bool) (d : GKeyDecomp)
    (p : GKeyParameters) (ob : Z) :
  ring_wf k (history d) ->
  0 <= read_offset d -> 0 < read_size d ->
  read_offset d + read_size d <= size (history d) ->
  out_buffer p = Some ob -> out_window_ok p ->
  let W := ring_window (history d) (read_offset d) (read_size d) in
  let m := if out_size p <? read_size d then out_size p else read_size d in
  let p' := mkParams (in_mem p) (in_buffer p) (in_size p)
              (mem_write (out_mem p) ob (firstn (Z.to_nat m) W))
              (Some (ob + m)) (out_size p - m) (prog_cb p) in
  let d' := set_history (set_out_total d (out_total d + m))
              (ring_append (history d) (firstn (Z.to_nat m) W)) in
  case_CopyData GKeyStatus_OK stop d p
  = Some (if m >=? read_size d
          then mkPass GKeyStatus_OK GKeyDecompState_Progress stop d' p'
          else mkPass GKeyStatus_BufferOverflow GKeyDecompState_CopyData stop
                 (set_read_size d' (read_size d - m)) p').
Proof.
  intros Hwf Ho Hn Hfit Hob Hok W m p' d'.
  unfold case_CopyData.
  rewrite (RingBuffer_copy_spec k
             (fun st : GKeyDecomp * GKeyParameters => out_window_ok (snd st)))
    by (try assumption; apply ring_writer_sequential).
  cbn [cb_or_all]. fold W.
  rewrite (ring_writer_buffer d p ob W Hob). cbv zeta.
  assert (HlW : Z.of_nat (length W) = read_size d).
  { unfold W. rewrite length_ring_window. lia. }
  rewrite HlW. fold m. cbn [obind read_size set_history set_out_total].
  fold d'. fold p'.
  destruct (m >=? read_size d); reflexivity.
Qed.

(** C7.  A copy that stops because the output window is full returns
    [BufferOverflow] with [read_size] reduced by the number of bytes stored,
    [read_offset] unchanged and the ring's write position advanced by that
    number; the next pass, given enough room, stores exactly the remaining
    bytes of the window, and the history ends up as after the whole copy. *)
Theorem copy_resumes (k : Z) (d : GKeyDecomp) (p : GKeyParameters) (ob : Z)
    (p2 : GKeyParameters) (ob2 : Z) :
  state d = GKeyDecompState_CopyData ->
  ring_wf k (history d) ->
  0 <= read_offset d ->
  read_offset d + read_size d <= size (history d) ->
  out_buffer p = Some ob -> out_window_ok p ->
  out_size p < read_size d ->
  out_buffer p2 = Some ob2 -> out_window_ok p2 ->
  read_size d - out_size p <= out_size p2 ->
  let W := ring_window (history d) (read_offset d) (read_size d) in
  let m := out_size p in
  exists d1 p1,
    gkeydecomp_decompress d p = Some (GKeyStatus_BufferOverflow, d1, p1)
    /\ state d1 = GKeyDecompState_CopyData
    /\ read_size d1 = read_size d - m
    /\ read_offset d1 = read_offset d
    /\ out_total d1 = out_total d + m
    /\ written p1 = written p ++ firstn (Z.to_nat m) W
    /\ write_pos (history d1)
       = (write_pos (history d) + m) mod size (history d)
    /\ exists d2 p3,
         switch (state d1) GKeyStatus_OK false d1 p2
         = Some (mkPass GKeyStatus_OK GKeyDecompState_Progress false d2 p3)
         /\ written p3 = written p2 ++ skipn (Z.to_nat m) W
         /\ out_total d2 = out_total d1 + (read_size d - m)
         /\ history d2 = ring_append (history d) W.
Proof.
  intros Hst Hwf Ho Hfit Hob Hok Hshort Hob2 Hok2 Hroom W m.
  assert (Hm : 0 <= m < read_size d).
  { unfold m, out_window_ok in *. rewrite Hob in Hok. lia. }
  pose proof (case_CopyData_spec k false d p ob Hwf Ho ltac:(lia) Hfit Hob Hok)
    as E1.
  cbv zeta in E1. fold W in E1.
  replace (if out_size p <? read_size d then out_size p else read_size d)
    with m in E1
    by (unfold m; destruct (Z.ltb_spec (out_size p) (read_size d)); lia).
  replace (m >=? read_size d) with false in E1
    by (symmetry; rewrite Z.geb_leb; apply Z.leb_gt; lia).
  set (r1 := ring_append (history d) (firstn (Z.to_nat m) W)) in *.
  set (d1 := set_read_size
               (set_history (set_out_total d (out_total d + m)) r1)
               (read_size d - m)) in *.
  set (p1 := mkParams (in_mem p) (in_buffer p) (in_size p)
               (mem_write (out_mem p) ob (firstn (Z.to_nat m) W))
               (Some (ob + m)) (out_size p - m) (prog_cb p)) in *.
  assert (HlenW : length (firstn (Z.to_nat m) W) = Z.to_nat m).
  { rewrite length_firstn. unfold W. rewrite length_ring_window. lia. }
  exists (set_state d1 GKeyDecompState_CopyData), p1.
  split.
  { unfold gkeydecomp_decompress.
    destruct (decompress_fuel_S d p) as [f ->].
    cbn [decompress_loop]. rewrite Hst. cbn [switch]. rewrite E1.
    reflexivity. }
  split; [reflexivity|]. split; [reflexivity|]. split; [reflexivity|].
  split; [reflexivity|].
  split.
  { unfold p1.
    replace (ob + m) with (ob + Z.of_nat (length (firstn (Z.to_nat m) W)))
      by lia.
    apply written_after_write; try assumption. fold m. lia. }
  split.
  { cbn [set_state d1 set_read_size set_history history].
    unfold r1. rewrite (write_pos_append k) by assumption.
    rewrite HlenW, Z2Nat.id by lia. reflexivity. }
  (* the resumed pass *)
  assert (Hwf1 : ring_wf k r1) by (apply ring_append_wf, Hwf).
  assert (Hsz1 : size r1 = size (history d)) by apply ring_append_size.
  assert (HW1 : ring_window r1 (read_offset d) (read_size d - m)
                = skipn (Z.to_nat m) W).
  { unfold r1. rewrite (window_after_append k) by (try assumption; lia).
    rewrite HlenW, Z2Nat.id by lia.
    unfold W. rewrite skipn_ring_window by lia. reflexivity. }
  pose proof (case_CopyData_spec k false
                (set_state d1 GKeyDecompState_CopyData) p2 ob2) as E2.
  cbn [set_state d1 set_read_size set_history set_out_total history
       read_offset read_size out_total] in E2.
  specialize (E2 Hwf1 Ho ltac:(lia) ltac:(lia) Hob2 Hok2).
  cbv zeta in E2. rewrite HW1 in E2.
  replace (if out_size p2 <? read_size d - m then out_size p2
           else read_size d - m)
    with (read_size d - m) in E2
    by (fold m in Hroom;
        destruct (Z.ltb_spec (out_size p2) (read_size d - m)); lia).
  rewrite Z.geb_leb, Z.leb_refl in E2.
  assert (Hls : length (skipn (Z.to_nat m) W) = Z.to_nat (read_size d - m)).
  { rewrite length_skipn. unfold W. rewrite length_ring_window. lia. }
  rewrite firstn_all2 in E2 by lia.
  eexists. eexists.
  split.
  { cbn [state set_state switch]. exact E2. }
  split.
  { replace (ob2 + (read_size d - m))
      with (ob2 + Z.of_nat (length (skipn (Z.to_nat m) W))) by lia.
    apply written_after_write; try assumption. fold m in Hroom. lia. }
  split; [reflexivity|].
  cbn [history set_history]. unfold r1.
  rewrite <- ring_append_app, firstn_skipn. reflexivity.
Qed.

Lemma copy_resumes_witness :
  let d := mkDecomp GKeyDecompState_CopyData 3 4 1 3 0 0 Byte.x00 2
             (mkRing 4 1 true 2 [Byte.x61; Byte.x62; Byte.x63; Byte.x64]) in
  let p := mkParams [] 0 0 [Byte.x00; Byte.x00] (Some 0) 2 None in
  let p2 := mkParams [] 0 0 [Byte.x00; Byte.x00; Byte.x00] (Some 1) 2 None in
  exists d1 p1,
    gkeydecomp_decompress d p = Some (GKeyStatus_BufferOverflow, d1, p1)
    /\ read_size d1 = 1
    /\ read_offset d1 = 1
    /\ written p1 = [Byte.x63; Byte.x64]
    /\ exists d2 p3,
         switch (state d1) GKeyStatus_OK false d1 p2
         = Some (mkPass GKeyStatus_OK GKeyDecompState_Progress false d2 p3)
         /\ written p3 = [Byte.x00; Byte.x61].
Proof.
  intros d p p2.
  assert (Hwf : ring_wf 2 (history d)).
  { unfold ring_wf; cbn. repeat split; try lia; try discriminate. }
  destruct (copy_resumes 2 d p 0 p2 1 eq_refl Hwf
              ltac:(cbn; lia) ltac:(cbn; lia) eq_refl
              ltac:(unfold out_window_ok; cbn; lia) ltac:(cbn; lia) eq_refl
              ltac:(unfold out_window_ok; cbn; lia) ltac:(cbn; lia))
    as (d1 & p1 & H1 & H2 & H3 & H4 & H5 & H6 & H7 & d2 & p3 & H8 & H9 & H10).
  exists d1, p1.
  split; [exact H1|]. split; [exact H3|]. split; [exact H4|].
  split; [exact H6|].
  exists d2, p3. split; [exact H8 | exact H9].
Defined.

End DecoderCopy.

(** ** Search and compare in the ring (RingSearch.c) *)

Section RingSearch.

Lemma byte_eqb_unsigned (b : byte) (c : Z) :
  0 <= c < 256 ->
  Byte.eqb b (byte.of_Z c) = true <-> byte.unsigned b = c.
Proof.
  intros Hc. split.
  - intros H. apply Byte.byte_dec_bl in H. subst b.
    rewrite byte.unsigned_of_Z. unfold byte.wrap. apply Z.mod_small.
    change (2 ^ 8) with 256. lia.
  - intros H. apply Byte.byte_dec_lb. subst c.
    symmetry. apply byte.of_Z_unsigned.
Qed.

Lemma memchr_from_spec (c : Z) :
  0 <= c < 256 ->
  forall (n : nat) (l : list byte) (pos : Z),
    (n <= length l)%nat ->
    match memchr_from l (byte.of_Z c) n pos with
    | Some p =>
        pos <= p < pos + Z.of_nat n
        /\ byte.unsigned (nth (Z.to_nat (p - pos)) l Byte.x00) = c
        /\ forall q, pos <= q < p ->
                     byte.unsigned (nth (Z.to_nat (q - pos)) l Byte.x00) <> c
    | None =>
        forall q, pos <= q < pos + Z.of_nat n ->
                  byte.unsigned (nth (Z.to_nat (q - pos)) l Byte.x00) <> c
    end.
Proof.
  intros Hc. induction n as [|n IH]; intros l pos Hl.
  - destruct l; cbn [memchr_from]; intros q Hq; lia.
  - destruct l as [|b l]; [cbn in Hl; lia|].
    cbn [memchr_from].
    destruct (Byte.eqb b (byte.of_Z c)) eqn:E.
    + apply byte_eqb_unsigned in E; [|exact Hc].
      split; [lia|]. split.
      * rewrite Z.sub_diag. exact E.
      * intros q Hq. lia.
    + assert (Hb : byte.unsigned b <> c).
      { intros Hb. apply (byte_eqb_unsigned b c Hc) in Hb. congruence. }
      cbn [length] in Hl.
      specialize (IH l (pos + 1) ltac:(lia)).
      destruct (memchr_from l (byte.of_Z c) n (pos + 1)) as [p|].
      * destruct IH as (H1 & H2 & H3).
        split; [lia|]. split.
        -- replace (Z.to_nat (p - pos)) with (S (Z.to_nat (p - (pos + 1))))
             by lia.
           exact H2.
        -- intros q Hq. destruct (Z.eq_dec q pos) as [->|Hne].
           ++ rewrite Z.sub_diag. exact Hb.
           ++ replace (Z.to_nat (q - pos))
                with (S (Z.to_nat (q - (pos + 1)))) by lia.
              apply H3. lia.
      * intros q Hq. destruct (Z.eq_dec q pos) as [->|Hne].
        -- rewrite Z.sub_diag. exact Hb.
        -- replace (Z.to_nat (q - pos))
             with (S (Z.to_nat (q - (pos + 1)))) by lia.
           apply IH. lia.
Qed.

Lemma memchr_spec (m : list byte) (start c n : Z) :
  0 <= c < 256 -> 0 <= start -> 0 <= n ->
  start + n <= Z.of_nat (length m) ->
  match memchr m start c n with
  | Some p =>
      start <= p < start + n
      /\ byte.unsigned (mem_load m p) = c
      /\ forall q, start <= q < p -> byte.unsigned (mem_load m q) <> c
  | None =>
      forall q, start <= q < start + n -> byte.unsigned (mem_load m q) <> c
  end.
Proof.
  intros Hc Hs Hn Hfit. unfold memchr.
  pose proof (memchr_from_spec c Hc (Z.to_nat n) (skipn (Z.to_nat start) m)
                start) as H.
  rewrite length_skipn in H. specialize (H ltac:(lia)).
  assert (E : forall q, start <= q ->
                        nth (Z.to_nat (q - start)) (skipn (Z.to_nat start) m)
                          Byte.x00
                        = mem_load m q).
  { intros q Hq. rewrite nth_skipn. unfold mem_load. f_equal. lia. }
  destruct (memchr_from _ _ _ _) as [p|].
  - destruct H as (H1 & H2 & H3). split; [lia|]. split.
    + rewrite <- E by lia. exact H2.
    + intros q Hq. rewrite <- E by lia. apply H3. lia.
  - intros q Hq. rewrite <- E by lia. apply H. lia.
Qed.

(** Position in the storage of the byte at an offset from the write
    position. *)
Lemma ring_at_low (k : Z) (r : RingBuffer) (d : Z) :
  ring_wf k r -> 0 <= d -> write_pos r + d < size r ->
  ring_at r d = mem_load (buffer r) (write_pos r + d).
Proof.
  intros (Hk & Hs & Hw & _) Hd Hlt. unfold ring_at.
  rewrite Z.mod_small by lia. reflexivity.
Qed.

Lemma ring_at_high (k : Z) (r : RingBuffer) (d : Z) :
  ring_wf k r -> d < size r -> size r <= write_pos r + d ->
  ring_at r d = mem_load (buffer r) (write_pos r + d - size r).
Proof.
  intros (Hk & Hs & Hw & _) Hd Hge. unfold ring_at.
  rewrite mod_twice by lia.
  destruct (Z.ltb_spec (write_pos r + d) (size r)); [lia | reflexivity].
Qed.

(** [RingBuffer_find_char] on a non-empty range: the result is the least
    offset of the range whose byte is [c], or [SIZE_MAX] when the range has
    no such byte. *)
Lemma find_char_spec (k : Z) (r : RingBuffer) (offset n c : Z) :
  ring_wf k r -> 0 <= offset -> 0 < n -> offset + n <= size r ->
  0 <= c < 256 ->
  let f := RingBuffer_find_char r offset n c in
  (f = SIZE_MAX
   /\ forall d, offset <= d < offset + n -> byte.unsigned (ring_at r d) <> c)
  \/ (offset <= f < offset + n
      /\ byte.unsigned (ring_at r f) = c
      /\ forall d, offset <= d < f -> byte.unsigned (ring_at r d) <> c).
Proof.
  intros Hwf Ho Hn Hfit Hc f. pose proof Hwf as (Hk & Hs & Hw & Hl & Hz).
  assert (Hf : f = RingBuffer_find_char r offset n c) by reflexivity.
  clearbody f. unfold RingBuffer_find_char in Hf.
  replace (Z.land (write_pos r + offset) (size r - 1))
    with ((write_pos r + offset) mod size r) in Hf
    by (rewrite Hs; symmetry; apply land_size, Hk).
  rewrite (mod_twice (write_pos r + offset)) in Hf by lia.
  destruct (Z.ltb_spec (write_pos r + offset) (size r)) as [Hlow|Hhigh].
  - (* the range starts at or after the write position *)
    destruct (Z.gtb_spec (write_pos r) (write_pos r + offset)); [lia|].
    cbv iota beta in Hf.
    destruct (filled r) eqn:Hfilled.
    + (* scan up to the end of the storage, then from its start *)
      cbv iota beta in Hf.
      set (ts := LOWEST (size r - (write_pos r + offset)) n) in *.
      assert (Hts : 0 < ts <= n /\ ts <= size r - (write_pos r + offset)
                    /\ (ts < n -> ts = size r - (write_pos r + offset))).
      { unfold ts, LOWEST.
        destruct (Z.ltb_spec (size r - (write_pos r + offset)) n); lia. }
      pose proof (memchr_spec (buffer r) (write_pos r + offset) c ts Hc
                    ltac:(lia) ltac:(lia) ltac:(lia)) as M1.
      destruct (memchr (buffer r) (write_pos r + offset) c ts) as [p|].
      * right. subst f. destruct M1 as (M1 & M2 & M3).
        split; [lia|]. split.
        -- rewrite (ring_at_low k) by (try assumption; lia).
           replace (write_pos r + (p - (write_pos r + offset) + offset))
             with p by lia.
           exact M2.
        -- intros d Hd. rewrite (ring_at_low k) by (try assumption; lia).
           apply M3. lia.
      * destruct (Z.gtb_spec n ts) as [Hmore|Hall].
        -- cbv iota beta in Hf.
           set (ts2 := LOWEST (write_pos r) (n - ts)) in *.
           assert (Hts2 : ts2 = n - ts).
           { unfold ts2, LOWEST.
             destruct (Z.ltb_spec (write_pos r) (n - ts)); lia. }
           pose proof (memchr_spec (buffer r) 0 c ts2 Hc ltac:(lia)
                         ltac:(lia) ltac:(lia)) as M2.
           destruct (memchr (buffer r) 0 c ts2) as [p|].
           ++ right. subst f. destruct M2 as (M2 & M3 & M4).
              split; [lia|]. split.
              ** rewrite (ring_at_high k) by (try assumption; lia).
                 replace (write_pos r + (p - 0 + (offset + ts)) - size r)
                   with p by lia.
                 exact M3.
              ** intros d Hd.
                 destruct (Z.lt_ge_cases (write_pos r + d) (size r)).
                 --- rewrite (ring_at_low k) by (try assumption; lia).
                     apply M1. lia.
                 --- rewrite (ring_at_high k) by (try assumption; lia).
                     apply M4. lia.
           ++ left. subst f. split; [reflexivity|].
              intros d Hd.
              destruct (Z.lt_ge_cases (write_pos r + d) (size r)).
              ** rewrite (ring_at_low k) by (try assumption; lia).
                 apply M1. lia.
              ** rewrite (ring_at_high k) by (try assumption; lia).
                 apply M2. lia.
        -- left. subst f. split; [reflexivity|].
           intros d Hd. rewrite (ring_at_low k) by (try assumption; lia).
           apply M1. lia.
    + (* the range starts in the part that was never written: zeros *)
      cbv iota beta in Hf.
      assert (Hzero : forall d, offset <= d -> write_pos r + d < size r ->
                                byte.unsigned (ring_at r d) = 0).
      { intros d Hd1 Hd2. rewrite (ring_at_low k) by (try assumption; lia).
        rewrite Hz by (try assumption; lia). reflexivity. }
      destruct (Z.eqb_spec c 0) as [Hc0|Hc0].
      * right. subst f. cbv iota beta.
        replace (write_pos r + offset - (write_pos r + offset) + offset)
          with offset by lia.
        split; [lia|]. split.
        -- rewrite Hzero by lia. congruence.
        -- intros d Hd. lia.
      * set (ts := size r - (write_pos r + offset)) in *.
        destruct (Z.gtb_spec n ts) as [Hmore|Hall].
        -- cbv iota beta in Hf.
           set (ts2 := LOWEST (write_pos r) (n - ts)) in *.
           assert (Hts2 : ts2 = n - ts).
           { unfold ts2, LOWEST.
             destruct (Z.ltb_spec (write_pos r) (n - ts)); lia. }
           pose proof (memchr_spec (buffer r) 0 c ts2 Hc ltac:(lia)
                         ltac:(lia) ltac:(lia)) as M2.
           destruct (memchr (buffer r) 0 c ts2) as [p|].
           ++ right. subst f. destruct M2 as (M2 & M3 & M4).
              split; [lia|]. split.
              ** rewrite (ring_at_high k) by (try assumption; lia).
                 replace (write_pos r + (p - 0 + (offset + ts)) - size r)
                   with p by lia.
                 exact M3.
              ** intros d Hd.
                 destruct (Z.lt_ge_cases (write_pos r + d) (size r)).
                 --- rewrite Hzero by lia. congruence.
                 --- rewrite (ring_at_high k) by (try assumption; lia).
                     apply M4. lia.
           ++ left. subst f. split; [reflexivity|].
              intros d Hd.
              destruct (Z.lt_ge_cases (write_pos r + d) (size r)).
              ** rewrite Hzero by lia. congruence.
              ** rewrite (ring_at_high k) by (try assumption; lia).
                 apply M2. lia.
        -- left. subst f. split; [reflexivity|].
           intros d Hd. rewrite Hzero by lia. congruence.
  - (* the range starts before the write position, after wrapping *)
    destruct (Z.gtb_spec (write_pos r) (write_pos r + offset - size r));
      [|lia].
    cbv iota beta in Hf.
    set (ts := LOWEST (write_pos r - (write_pos r + offset - size r)) n) in *.
    assert (Hts : ts = n).
    { unfold ts, LOWEST.
      destruct (Z.ltb_spec (write_pos r - (write_pos r + offset - size r)) n);
        lia. }
    pose proof (memchr_spec (buffer r) (write_pos r + offset - size r) c ts
                  Hc ltac:(lia) ltac:(lia) ltac:(lia)) as M1.
    destruct (memchr (buffer r) (write_pos r + offset - size r) c ts) as [p|].
    + right. subst f. destruct M1 as (M1 & M2 & M3).
      split; [lia|]. split.
      * rewrite (ring_at_high k) by (try assumption; lia).
        replace (write_pos r
                 + (p - (write_pos r + offset - size r) + offset) - size r)
          with p by lia.
        exact M2.
      * intros d Hd. rewrite (ring_at_high k) by (try assumption; lia).
        apply M3. lia.
    + destruct (Z.gtb_spec n ts); [lia|].
      left. subst f. split; [reflexivity|].
      intros d Hd. rewrite (ring_at_high k) by (try assumption; lia).
      apply M1. lia.
Qed.

End RingSearch.

Section RingCompare.

Lemma memcmp_list_eq :
  forall l1 l2 : list byte,
    length l1 = length l2 -> memcmp_list l1 l2 = 0 -> l1 = l2.
Proof.
  induction l1 as [|b1 l1 IH]; intros [|b2 l2] Hl H; try discriminate Hl.
  - reflexivity.
  - cbn [memcmp_list] in H. cbn [length] in Hl.
    destruct (Byte.eqb b1 b2) eqn:E.
    + apply Byte.byte_dec_bl in E. subst b2. f_equal. apply IH; [lia|exact H].
    + apply Byte.eqb_false in E. exfalso. apply E.
      apply byte.unsigned_inj. lia.
Qed.

Lemma memcmp_eq (m : list byte) (p1 p2 n : Z) :
  0 <= p1 -> 0 <= p2 -> 0 <= n ->
  p1 + n <= Z.of_nat (length m) -> p2 + n <= Z.of_nat (length m) ->
  memcmp m p1 p2 n = 0 -> mem_read m p1 n = mem_read m p2 n.
Proof.
  intros. apply memcmp_list_eq; [|assumption].
  rewrite !length_mem_read by lia. reflexivity.
Qed.

(** Position and length of the contiguous range of storage that starts at an
    offset from the write position, as [RingBuffer_compare] computes them. *)
Lemma contiguous_range (k : Z) (r : RingBuffer) (o : Z) :
  ring_wf k r -> 0 <= o < size r ->
  let pos := (write_pos r + o) mod size r in
  let len := if write_pos r >? pos then write_pos r - pos
             else size r - pos in
  0 <= pos /\ 0 < len /\ pos + len <= size r /\ o + len <= size r
  /\ (o + len < size r -> (write_pos r + (o + len)) mod size r = 0
                          /\ 0 < write_pos r).
Proof.
  intros (Hk & Hs & Hw & _) Ho pos len.
  unfold len, pos. rewrite (mod_twice (write_pos r + o)) by lia.
  destruct (Z.ltb_spec (write_pos r + o) (size r)).
  - destruct (Z.gtb_spec (write_pos r) (write_pos r + o)); [lia|].
    split; [lia|]. split; [lia|]. split; [lia|]. split; [lia|].
    intros Hlt.
    replace (write_pos r + (o + (size r - (write_pos r + o))))
      with (0 + 1 * size r) by lia.
    rewrite Z.mod_add by lia. rewrite Z.mod_0_l by lia. lia.
  - destruct (Z.gtb_spec (write_pos r) (write_pos r + o - size r)); lia.
Qed.

Lemma compare_loop_spec (k : Z) (r : RingBuffer) (o1 o2 n : Z) :
  ring_wf k r -> 0 <= o1 -> 0 <= o2 -> o1 + n <= size r -> o2 + n <= size r ->
  forall (fuel : nat) (nleft start1 len1 start2 len2 : Z),
    0 <= nleft <= n ->
    (0 < nleft ->
     start1 = (write_pos r + (o1 + (n - nleft))) mod size r
     /\ len1 = (if write_pos r >? start1 then write_pos r - start1
                else size r - start1)
     /\ start2 = (write_pos r + (o2 + (n - nleft))) mod size r
     /\ len2 = (if write_pos r >? start2 then write_pos r - start2
                else size r - start2)) ->
    (Z.to_nat nleft <= fuel)%nat ->
    exists diff,
      RingBuffer_compare_loop fuel r start1 len1 start2 len2 nleft = Some diff
      /\ (diff = 0 ->
          ring_window r (o1 + (n - nleft)) nleft
          = ring_window r (o2 + (n - nleft)) nleft).
Proof.
  intros Hwf Ho1 Ho2 Hf1 Hf2. pose proof Hwf as (Hk & Hs & Hw & Hl & Hz).
  induction fuel as [|fuel IH];
    intros nleft start1 len1 start2 len2 Hn Hinv Hfuel.
  - assert (nleft = 0) as -> by lia. cbn. eauto.
  - cbn [RingBuffer_compare_loop].
    destruct (Z.eqb_spec nleft 0) as [->|Hn0]; [cbn; eauto|].
    destruct (Hinv ltac:(lia)) as (Hs1 & Hl1 & Hs2 & Hl2).
    set (d := n - nleft) in *.
    pose proof (contiguous_range k r (o1 + d) Hwf ltac:(lia)) as C1.
    pose proof (contiguous_range k r (o2 + d) Hwf ltac:(lia)) as C2.
    cbv zeta in C1, C2. rewrite <- Hs1, <- Hl1 in C1.
    rewrite <- Hs2, <- Hl2 in C2.
    destruct C1 as (C1a & C1b & C1c & C1d & C1e).
    destruct C2 as (C2a & C2b & C2c & C2d & C2e).
    set (tc := LOWEST (LOWEST len1 len2) nleft).
    assert (Htc : 0 < tc <= nleft /\ tc <= len1 /\ tc <= len2).
    { unfold tc, LOWEST. destruct (Z.ltb_spec len1 len2);
        [destruct (Z.ltb_spec len1 nleft) | destruct (Z.ltb_spec len2 nleft)];
        lia. }
    destruct (Z.eqb_spec (memcmp (buffer r) start1 start2 tc) 0)
      as [Hcmp|Hcmp]; cbn [negb].
    2:{ eexists. split; [reflexivity|]. intros E. contradiction. }
    apply memcmp_eq in Hcmp; try lia.
    rewrite Hs1, Hs2 in Hcmp.
    rewrite !(window_contiguous k) in Hcmp
      by (try assumption; try lia; rewrite <- ?Hs1, <- ?Hs2; lia).
    destruct (IH (nleft - tc)
                (fst (if len1 - tc =? 0 then (0, write_pos r)
                      else (start1 + tc, len1 - tc)))
                (snd (if len1 - tc =? 0 then (0, write_pos r)
                      else (start1 + tc, len1 - tc)))
                (fst (if len2 - tc =? 0 then (0, write_pos r)
                      else (start2 + tc, len2 - tc)))
                (snd (if len2 - tc =? 0 then (0, write_pos r)
                      else (start2 + tc, len2 - tc))))
      as (diff & Hloop & Hdiff).
    + lia.
    + intros Hpos.
      replace (n - (nleft - tc)) with (d + tc) by (unfold d; lia).
      assert (Hnext : forall o start len,
                 0 <= o -> o + n <= size r ->
                 start = (write_pos r + (o + d)) mod size r ->
                 len = (if write_pos r >? start then write_pos r - start
                        else size r - start) ->
                 0 < len -> start + len <= size r -> tc <= len ->
                 (o + d + len < size r ->
                  (write_pos r + (o + d + len)) mod size r = 0
                  /\ 0 < write_pos r) ->
                 o + d + len <= size r ->
                 let s' := fst (if len - tc =? 0 then (0, write_pos r)
                                else (start + tc, len - tc)) in
                 let l' := snd (if len - tc =? 0 then (0, write_pos r)
                                else (start + tc, len - tc)) in
                 s' = (write_pos r + (o + (d + tc))) mod size r
                 /\ l' = (if write_pos r >? s' then write_pos r - s'
                          else size r - s')).
      { intros o start len Ho Hfit Hst Hlen Hlpos Hend Htcl Hwrap Hol s' l'.
        unfold s', l'.
        destruct (Z.eqb_spec (len - tc) 0) as [E|E]; cbn [fst snd].
        - assert (Htl : tc = len) by lia. rewrite Htl.
          assert (o + d + len < size r) by (unfold d in *; lia).
          destruct (Hwrap ltac:(lia)) as [W1 W2].
          replace (o + (d + len)) with (o + d + len) by lia.
          rewrite W1. split; [reflexivity|].
          destruct (Z.gtb_spec (write_pos r) 0); lia.
        - assert (Hpos' : (write_pos r + (o + (d + tc))) mod size r
                          = start + tc).
          { pose proof (Z.mod_pos_bound (write_pos r + (o + d)) (size r)
                          ltac:(lia)) as Hb.
            rewrite <- Hst in Hb.
            replace (write_pos r + (o + (d + tc)))
              with (write_pos r + (o + d) + tc) by lia.
            rewrite <- Z.add_mod_idemp_l by lia. rewrite <- Hst.
            apply Z.mod_small. lia. }
          rewrite Hpos'. split; [reflexivity|].
          rewrite Hlen.
          destruct (Z.gtb_spec (write_pos r) start);
            destruct (Z.gtb_spec (write_pos r) (start + tc)); lia. }
      destruct (Hnext o1 start1 len1) as [N1 N2]; try assumption; try lia.
      destruct (Hnext o2 start2 len2) as [N3 N4]; try assumption; try lia.
    + lia.
    + exists diff. split.
      * destruct (len1 - tc =? 0); destruct (len2 - tc =? 0); exact Hloop.
      * intros E. specialize (Hdiff E).
        replace (n - (nleft - tc)) with (d + tc) in Hdiff
          by (unfold d; lia).
        replace nleft with (tc + (nleft - tc)) by lia.
        rewrite !ring_window_split by lia.
        rewrite Hcmp. f_equal.
        rewrite <- !Z.add_assoc. exact Hdiff.
Qed.

Lemma ring_window_1 (r : RingBuffer) (o : Z) :
  ring_window r o 1 = [ring_at r o].
Proof.
  unfold ring_window. change (Z.to_nat 1) with 1%nat. cbn [seq map].
  change (Z.of_nat 0) with 0. rewrite Z.add_0_r. reflexivity.
Qed.

(** [RingBuffer_compare] returns, and returns 0 only for equal windows. *)
Lemma compare_spec (k : Z) (r : RingBuffer) (o1 o2 n : Z) :
  ring_wf k r -> 0 <= o1 -> 0 <= o2 -> 0 <= n ->
  o1 + n <= size r -> o2 + n <= size r ->
  exists diff,
    RingBuffer_compare r o1 o2 n = Some diff
    /\ (diff = 0 -> ring_window r o1 n = ring_window r o2 n).
Proof.
  intros Hwf Ho1 Ho2 Hn Hf1 Hf2. pose proof Hwf as (Hk & Hs & Hw & Hl & Hz).
  unfold RingBuffer_compare.
  replace (Z.land (write_pos r + o1) (size r - 1))
    with ((write_pos r + o1) mod size r)
    by (rewrite Hs; symmetry; apply land_size, Hk).
  replace (Z.land (write_pos r + o2) (size r - 1))
    with ((write_pos r + o2) mod size r)
    by (rewrite Hs; symmetry; apply land_size, Hk).
  destruct (Z.eqb_spec n 1) as [->|Hn1].
  - eexists. split; [reflexivity|]. intros E.
    rewrite !ring_window_1. f_equal. unfold ring_at.
    apply byte.unsigned_inj. lia.
  - destruct (compare_loop_spec k r o1 o2 n Hwf Ho1 Ho2 Hf1 Hf2 (Z.to_nat n)
                n ((write_pos r + o1) mod size r)
                (if write_pos r >? (write_pos r + o1) mod size r
                 then write_pos r - (write_pos r + o1) mod size r
                 else size r - (write_pos r + o1) mod size r)
                ((write_pos r + o2) mod size r)
                (if write_pos r >? (write_pos r + o2) mod size r
                 then write_pos r - (write_pos r + o2) mod size r
                 else size r - (write_pos r + o2) mod size r))
      as (diff & Hloop & Hdiff).
    + lia.
    + intros _. rewrite Z.sub_diag, !Z.add_0_r. auto.
    + lia.
    + exists diff. split; [exact Hloop|].
      rewrite Z.sub_diag, !Z.add_0_r in Hdiff. exact Hdiff.
Qed.

End RingCompare.

(** ** The match search (GKeyComp.c, [find_sequence]) *)

Section FindSequence.
Import GKeyComp.

Lemma shiftl_1 (k : Z) : 0 <= k -> Z.shiftl 1 k = 2 ^ k.
Proof. intros. rewrite Z.shiftl_1_l. reflexivity. Qed.

Lemma read_char_spec (k : Z) (r : RingBuffer) (off : Z) :
  ring_wf k r ->
  RingBuffer_read_char r off = byte.unsigned (ring_at r off).
Proof.
  intros (Hk & Hs & _). unfold RingBuffer_read_char, ring_at.
  rewrite Hs, land_size by assumption. reflexivity.
Qed.

Lemma mem_read_1 (m : list byte) (q : Z) :
  0 <= q < Z.of_nat (length m) -> mem_read m q 1 = [mem_load m q].
Proof.
  intros Hq. apply (nth_ext _ _ Byte.x00 Byte.x00).
  - rewrite length_mem_read by lia. reflexivity.
  - intros i Hi. rewrite length_mem_read in Hi by lia.
    assert (i = O) as -> by lia.
    rewrite nth_mem_read by lia. cbn [nth]. f_equal. lia.
Qed.

Lemma extend_loop_spec (k : Z) (r : RingBuffer) (p : GKeyParameters)
    (ro : Z) :
  ring_wf k r ->
  forall (fuel : nat) (rs cons : Z) (stalled : bool) (rs' cons' : Z),
    extend_loop fuel r p ro rs cons = (stalled, rs', cons') ->
    cons <= in_size p ->
    rs <= rs' <= rs + Z.of_nat fuel
    /\ cons' - rs' = cons - rs
    /\ cons' <= in_size p
    /\ (stalled = true -> cons' = in_size p /\ rs' < rs + Z.of_nat fuel)
    /\ (0 <= rs -> 0 <= in_buffer p + cons - rs ->
        in_buffer p + in_size p <= Z.of_nat (length (in_mem p)) ->
        ring_window r ro rs
        = mem_read (in_mem p) (in_buffer p + cons - rs) rs ->
        ring_window r ro rs'
        = mem_read (in_mem p) (in_buffer p + cons - rs) rs').
Proof.
  intros Hwf. induction fuel as [|fuel IH];
    intros rs cons stalled rs' cons' H Hc; cbn [extend_loop] in H.
  - inversion H; subst. repeat split; try lia; try discriminate. auto.
  - destruct (Z.geb_spec cons (in_size p)) as [Hge|Hlt].
    + inversion H; subst. repeat split; try lia. auto.
    + rewrite (read_char_spec k) in H by assumption.
      destruct (Z.eqb_spec
                  (byte.unsigned (mem_load (in_mem p) (in_buffer p + cons)))
                  (byte.unsigned (ring_at r (ro + rs)))) as [E|E];
        cbn [negb] in H.
      * apply IH in H; [|lia].
        destruct H as (H1 & H2 & H3 & H4 & H5).
        split; [lia|]. split; [lia|]. split; [lia|].
        split.
        { intros Hs. destruct (H4 Hs). lia. }
        intros Hrs Hbase Hin Hwin.
        replace (in_buffer p + cons - rs)
          with (in_buffer p + (cons + 1) - (rs + 1)) by lia.
        apply H5; try lia.
        replace (in_buffer p + (cons + 1) - (rs + 1))
          with (in_buffer p + cons - rs) by lia.
        rewrite ring_window_split, mem_read_split by lia.
        rewrite Hwin. f_equal.
        rewrite ring_window_1, mem_read_1 by lia.
        f_equal. apply byte.unsigned_inj.
        replace (in_buffer p + cons - rs + rs) with (in_buffer p + cons)
          by lia.
        symmetry. exact E.
      * inversion H; subst. repeat split; try lia; try discriminate. auto.
Qed.

(** Effect of the second part of the loop body on a match under
    extension. *)
Lemma extend_match_spec (k : Z) (r : RingBuffer) (p : GKeyParameters)
    (base : Z) (v : fs_vars) :
  ring_wf k r -> fs_common k p base v -> fs_extending k v ->
  let '(stalled, v') := extend_match r p v in
  (stalled = true -> fs_post k p base v')
  /\ (stalled = false ->
      fs_num k p base (fs_next v')
      /\ fs_read_offset (fs_next v') = fs_read_offset v + 1)
  /\ (fs_cont r p base v ->
      if stalled then fs_cont r p base v'
      else fs_cont r p base (fs_next v')).
Proof.
  intros Hwf (C1 & C2 & C3 & C4 & C5 & C6) (X1 & X2 & X3).
  unfold extend_match.
  destruct (extend_loop _ r p (fs_read_offset v) (fs_read_size v)
              (fs_consumed v)) as [[stalled rs'] cons'] eqn:E.
  apply (extend_loop_spec k) in E; [|assumption|lia].
  destruct E as (E1 & E2 & E3 & E4 & E5).
  rewrite Z2Nat.id in E1, E4 by lia.
  unfold fs_pending in C2.
  rewrite Z.max_l in C2 by lia.
  assert (Hcontent :
            fs_cont r p base v ->
            ring_window r (fs_read_offset v) rs'
            = mem_read (in_mem p) base rs').
  { intros (K1 & K2 & K3 & K4).
    rewrite <- C2. apply E5; try lia.
    rewrite C2. apply K4. lia. }
  cbn [fs_read_offset fs_read_size fs_max_read_size fs_best_read_size
       fs_best_read_offset fs_consumed].
  destruct stalled.
  - (* out of input *)
    destruct (E4 eq_refl) as [E6 E7].
    split.
    + intros _. unfold fs_post, fs_common, fs_extending, fs_pending;
        cbn [fs_read_offset fs_read_size fs_max_read_size fs_best_read_size
             fs_best_read_offset fs_consumed].
      rewrite Z.max_l by lia.
      repeat split; try lia.
    + split; [discriminate|].
      intros K. pose proof (Hcontent K) as Hw.
      destruct K as (K1 & K2 & K3 & K4).
      unfold fs_cont; cbn [fs_read_offset fs_read_size fs_best_read_size
                             fs_best_read_offset].
      repeat split; try assumption. intros _. exact Hw.
  - destruct (Z.gtb_spec rs' (fs_best_read_size v)) as [Hbetter|Hsame];
      (split; [discriminate|]).
    + (* a longer match *)
      split.
      * intros _. unfold fs_num, fs_common, fs_next, fs_pending;
          cbn [fs_read_offset fs_read_size fs_max_read_size fs_best_read_size
               fs_best_read_offset fs_consumed].
        rewrite Z.max_r by lia.
        repeat split; try lia.
      * intros K. pose proof (Hcontent K) as Hw.
        destruct K as (K1 & K2 & K3 & K4).
        unfold fs_cont, fs_next;
          cbn [fs_read_offset fs_read_size fs_best_read_size
               fs_best_read_offset].
        repeat split; try assumption; try (intros Hlt; lia).
    + split.
      * intros _. unfold fs_num, fs_common, fs_next, fs_pending;
          cbn [fs_read_offset fs_read_size fs_max_read_size fs_best_read_size
               fs_best_read_offset fs_consumed].
        rewrite Z.max_r by lia.
        repeat split; try lia.
      * intros K. destruct K as (K1 & K2 & K3 & K4).
        unfold fs_cont, fs_next;
          cbn [fs_read_offset fs_read_size fs_best_read_size
               fs_best_read_offset].
        repeat split; try assumption; try (intros Hlt; lia).
Qed.

End FindSequence.

Section FindSequenceStart.
Import GKeyComp.

Lemma size_lt_SIZE_MAX (k : Z) : 0 <= k <= MaxHistoryLog2 -> 2 ^ k < SIZE_MAX.
Proof.
  intros [H0 H1]. unfold MaxHistoryLog2, ULongMinBit, CHAR_BIT in H1.
  apply Z.le_lt_trans with (2 ^ 24).
  - apply Z.pow_le_mono_r; lia.
  - reflexivity.
Qed.

Lemma ring_window_cons (r : RingBuffer) (o n : Z) :
  0 < n -> ring_window r o n = ring_at r o :: ring_window r (o + 1) (n - 1).
Proof.
  intros Hn. replace n with (1 + (n - 1)) at 1 by lia.
  rewrite ring_window_split by lia. rewrite ring_window_1. reflexivity.
Qed.

(** Effect of the first part of the loop body, entered with
    [read_size == 0]. *)
Lemma search_start_spec (k : Z) (r : RingBuffer) (p : GKeyParameters)
    (base : Z) (v : fs_vars) :
  ring_wf k r -> k <= MaxHistoryLog2 ->
  fs_common k p base v -> fs_read_size v = 0 ->
  exists b,
    search_start k r p v = Some b
    /\ match b with
       | FsBreak v' =>
           fs_post k p base v'
           /\ (fs_cont r p base v -> fs_cont r p base v')
       | FsContinue v' =>
           fs_num k p base (fs_next v')
           /\ fs_read_offset v < fs_read_offset (fs_next v') <= 2 ^ k - 1
           /\ (fs_cont r p base v -> fs_cont r p base (fs_next v'))
       | FsExtend v' =>
           fs_common k p base v' /\ fs_extending k v'
           /\ fs_read_offset v <= fs_read_offset v'
           /\ (fs_cont r p base v -> fs_cont r p base v')
       end.
Proof.
  intros Hwf Hkmax (C1 & C2 & C3 & C4 & C5 & C6) Hrs.
  pose proof Hwf as (Hk & Hs & Hw & Hl & Hz).
  unfold fs_pending in C2. rewrite Hrs, Z.max_r in C2 by lia.
  unfold search_start. rewrite shiftl_1 by assumption.
  cbn [fs_read_offset fs_read_size fs_max_read_size fs_best_read_size
       fs_best_read_offset fs_consumed].
  set (max0 := 2 ^ k - fs_read_offset v).
  set (mx := if max0 >? 0 then max0 - 1 else max0).
  destruct (Z.geb_spec (fs_best_read_size v) mx) as [Hdone|Hmore].
  { (* no longer match is possible from here on *)
    eexists. split; [reflexivity|]. split.
    - unfold fs_post, fs_common, fs_pending;
        cbn [fs_read_offset fs_read_size fs_max_read_size fs_best_read_size
             fs_best_read_offset fs_consumed].
      rewrite Hrs, Z.max_r by lia. repeat split; try lia.
    - intros (K1 & K2 & K3 & K4). unfold fs_cont;
        cbn [fs_read_offset fs_read_size fs_best_read_size
             fs_best_read_offset].
      repeat split; try assumption. }
  assert (Hmx : mx = 2 ^ k - fs_read_offset v - 1 /\ 0 < mx).
  { unfold mx, max0 in *.
    destruct (Z.gtb_spec (2 ^ k - fs_read_offset v) 0); lia. }
  destruct Hmx as [Hmx Hmxpos].
  destruct ((fs_best_read_size v =? 0) && (fs_consumed v >=? in_size p))%bool
    eqn:Hnoinput.
  { (* no input byte to start a match with *)
    apply andb_true_iff in Hnoinput. destruct Hnoinput as [Hb0 Hc0].
    apply Z.eqb_eq in Hb0. rewrite Z.geb_leb in Hc0. apply Z.leb_le in Hc0.
    eexists. split; [reflexivity|]. split.
    - unfold fs_post, fs_common, fs_pending;
        cbn [fs_read_offset fs_read_size fs_max_read_size fs_best_read_size
             fs_best_read_offset fs_consumed].
      rewrite Hrs, Z.max_r by lia. repeat split; try lia.
    - intros (K1 & K2 & K3 & K4). unfold fs_cont;
        cbn [fs_read_offset fs_read_size fs_best_read_size
             fs_best_read_offset].
      repeat split; try assumption. }
  set (new_byte :=
         if fs_best_read_size v =? 0
         then byte.unsigned (mem_load (in_mem p)
                               (in_buffer p + fs_consumed v))
         else RingBuffer_read_char r (fs_best_read_offset v)).
  assert (Hnb : 0 <= new_byte < 256).
  { unfold new_byte. destruct (fs_best_read_size v =? 0).
    - apply byte.unsigned_range.
    - rewrite (read_char_spec k) by assumption. apply byte.unsigned_range. }
  pose proof (find_char_spec k r (fs_read_offset v)
                (mx - fs_best_read_size v) new_byte Hwf C6 ltac:(lia)
                ltac:(lia) Hnb) as Hfind.
  cbv zeta in Hfind.
  set (found := RingBuffer_find_char r (fs_read_offset v)
                  (mx - fs_best_read_size v) new_byte) in *.
  pose proof (size_lt_SIZE_MAX k ltac:(lia)) as Hsmax.
  destruct Hfind as [[Hnone _] | (Hrange & Hbyte & _)].
  { (* the first byte does not occur *)
    rewrite Hnone, Z.eqb_refl.
    eexists. split; [reflexivity|]. split.
    - unfold fs_post, fs_common, fs_pending;
        cbn [fs_read_offset fs_read_size fs_max_read_size fs_best_read_size
             fs_best_read_offset fs_consumed].
      rewrite Hrs, Z.max_r by lia. unfold SIZE_MAX. repeat split; try lia.
    - intros (K1 & K2 & K3 & K4). unfold fs_cont;
        cbn [fs_read_offset fs_read_size fs_best_read_size
             fs_best_read_offset].
      repeat split; try assumption; try (intros Hlt; lia). }
  destruct (Z.eqb_spec found SIZE_MAX) as [Habs|_]; [lia|].
  rewrite Hrs. cbn [Z.add].
  set (mx' := mx - (found - fs_read_offset v)).
  assert (Hmx' : found + mx' = 2 ^ k - 1 /\ fs_best_read_size v < mx').
  { unfold mx'. lia. }
  destruct Hmx' as [Hmx'1 Hmx'2].
  destruct (Z.ltb_spec 1 (fs_best_read_size v)) as [Hlong|Hshort].
  - (* compare the rest of the best match *)
    destruct (Z.geb_spec 0 (fs_best_read_size v)); [lia|].
    destruct (compare_spec k r (found + 1) (fs_best_read_offset v + 1)
                (fs_best_read_size v - 1) Hwf ltac:(lia) ltac:(lia)
                ltac:(lia) ltac:(lia) ltac:(lia)) as (diff & Hcmp & Hdiff).
    rewrite Hcmp. cbn [obind].
    destruct (Z.eqb_spec diff 0) as [Hd0|Hd0]; cbn [negb].
    + eexists. split; [reflexivity|].
      split.
      { unfold fs_common, fs_pending;
          cbn [fs_read_offset fs_read_size fs_max_read_size fs_best_read_size
               fs_best_read_offset fs_consumed].
        rewrite Z.max_l by lia. repeat split; try lia. }
      split.
      { unfold fs_extending;
          cbn [fs_read_offset fs_read_size fs_max_read_size
               fs_best_read_size].
        lia. }
      split; [cbn [fs_read_offset]; lia|].
      intros (K1 & K2 & K3 & K4). unfold fs_cont;
        cbn [fs_read_offset fs_read_size fs_best_read_size
             fs_best_read_offset].
      repeat split; try assumption. intros _.
      rewrite <- K3.
      rewrite (ring_window_cons r found) by lia.
      rewrite (ring_window_cons r (fs_best_read_offset v)) by lia.
      rewrite (Hdiff Hd0). f_equal.
      apply byte.unsigned_inj. rewrite Hbyte. unfold new_byte.
      destruct (Z.eqb_spec (fs_best_read_size v) 0); [lia|].
      apply (read_char_spec k). assumption.
    + eexists. split; [reflexivity|].
      split.
      { unfold fs_num, fs_common, fs_next, fs_pending;
          cbn [fs_read_offset fs_read_size fs_max_read_size fs_best_read_size
               fs_best_read_offset fs_consumed].
        rewrite Z.max_r by lia. repeat split; try lia. }
      split; [cbn [fs_next fs_read_offset]; lia|].
      intros (K1 & K2 & K3 & K4). unfold fs_cont, fs_next;
        cbn [fs_read_offset fs_read_size fs_best_read_size
             fs_best_read_offset].
      repeat split; try assumption; try (intros Hlt; lia).
  - (* the best match has at most one byte *)
    eexists. split; [reflexivity|].
    assert (Hb01 : fs_best_read_size v = 0 \/ fs_best_read_size v = 1)
      by lia.
    split.
    { unfold fs_common, fs_pending;
        cbn [fs_read_offset fs_read_size fs_max_read_size fs_best_read_size
             fs_best_read_offset fs_consumed].
      destruct Hb01 as [Hb|Hb]; rewrite Hb in *.
      - apply andb_false_iff in Hnoinput. cbn [Z.eqb] in Hnoinput.
        destruct Hnoinput as [Habs|Hin]; [discriminate|].
        rewrite Z.geb_leb in Hin. apply Z.leb_gt in Hin.
        cbn [Z.geb Z.compare]. rewrite Z.max_l by lia.
        repeat split; try lia.
      - cbn [Z.geb Z.compare]. rewrite Z.max_l by lia.
        repeat split; try lia. }
    split.
    { unfold fs_extending;
        cbn [fs_read_offset fs_read_size fs_max_read_size fs_best_read_size].
      lia. }
    split; [cbn [fs_read_offset]; lia|].
    intros (K1 & K2 & K3 & K4). unfold fs_cont;
      cbn [fs_read_offset fs_read_size fs_best_read_size
           fs_best_read_offset].
    repeat split; try assumption. intros _.
    rewrite ring_window_1.
    destruct Hb01 as [Hb|Hb].
    + apply andb_false_iff in Hnoinput. rewrite Hb in Hnoinput.
      cbn [Z.eqb] in Hnoinput.
      destruct Hnoinput as [Habs|Hin]; [discriminate|].
      rewrite Z.geb_leb in Hin. apply Z.leb_gt in Hin.
      rewrite mem_read_1 by lia. f_equal.
      apply byte.unsigned_inj. rewrite Hbyte. unfold new_byte.
      rewrite Hb. cbn [Z.eqb]. f_equal. f_equal. lia.
    + rewrite Hb in K3. rewrite <- K3, ring_window_1. f_equal.
      apply byte.unsigned_inj. rewrite Hbyte. unfold new_byte.
      rewrite Hb. cbn [Z.eqb]. apply (read_char_spec k). assumption.
Qed.

End FindSequenceStart.

Section FindSequenceLoop.
Import GKeyComp.

Lemma find_sequence_loop_spec (k : Z) (r : RingBuffer) (p : GKeyParameters)
    (base : Z) :
  ring_wf k r -> k <= MaxHistoryLog2 ->
  forall (fuel : nat) (v : fs_vars),
    fs_num k p base v ->
    (Z.to_nat (2 ^ k - fs_read_offset v) < fuel)%nat ->
    exists v',
      find_sequence_loop fuel k r p v = Some v'
      /\ fs_post k p base v'
      /\ (fs_cont r p base v -> fs_cont r p base v').
Proof.
  intros Hwf Hkmax. induction fuel as [|fuel IH]; intros v Hnum Hfuel; [lia|].
  assert (Hext : forall v1,
             fs_common k p base v1 -> fs_extending k v1 ->
             fs_read_offset v <= fs_read_offset v1 ->
             exists v',
               (let '(stalled, v2) := extend_match r p v1 in
                if stalled then Some v2
                else find_sequence_loop fuel k r p (fs_next v2)) = Some v'
               /\ fs_post k p base v'
               /\ (fs_cont r p base v1 -> fs_cont r p base v')).
  { intros v1 Hc1 He1 Hle.
    pose proof (extend_match_spec k r p base v1 Hwf Hc1 He1) as Hm.
    destruct (extend_match r p v1) as [stalled v2].
    destruct Hm as (M1 & M2 & M3).
    destruct stalled.
    - exists v2. split; [reflexivity|]. split; [apply M1; reflexivity|].
      exact M3.
    - destruct (M2 eq_refl) as [N1 N2].
      destruct He1 as (X1 & X2 & X3).
      destruct (IH (fs_next v2) N1 ltac:(lia)) as (v' & L1 & L2 & L3).
      exists v'. split; [exact L1|]. split; [exact L2|]. auto. }
  cbn [find_sequence_loop].
  destruct (Z.eqb_spec (fs_read_size v) 0) as [Hrs|Hrs].
  - destruct Hnum as [Hcommon _].
    destruct (search_start_spec k r p base v Hwf Hkmax Hcommon Hrs)
      as (b & Hb & Hcase).
    rewrite Hb. cbn [obind].
    destruct b as [v1|v1|v1].
    + exists v1. split; [reflexivity|]. exact Hcase.
    + destruct Hcase as (N1 & N2 & N3).
      destruct (IH (fs_next v1) N1 ltac:(lia)) as (v' & L1 & L2 & L3).
      exists v'. split; [exact L1|]. split; [exact L2|]. auto.
    + destruct Hcase as (N1 & N2 & N3 & N4).
      destruct (Hext v1 N1 N2 N3) as (v' & L1 & L2 & L3).
      exists v'. split; [exact L1|]. split; [exact L2|]. auto.
  - destruct Hnum as [Hcommon [Habs|Hex]]; [contradiction|].
    apply Hext; [assumption | assumption | lia].
Qed.

(** [find_sequence] returns; the variables it stores satisfy [fs_post]. *)
Lemma find_sequence_spec (k : Z) (c : GKeyComp) (p : GKeyParameters)
    (base : Z) :
  history_log_2 c = k -> ring_wf k (history c) -> k <= MaxHistoryLog2 ->
  fs_num k p base (comp_fs c) ->
  exists v',
    fs_post k p base v'
    /\ (fs_cont (history c) p base (comp_fs c)
        -> fs_cont (history c) p base v')
    /\ find_sequence c p
       = Some
           (let p' := mkParams (in_mem p) (in_buffer p + fs_consumed v')
                        (in_size p - fs_consumed v') (out_mem p)
                        (out_buffer p) (out_size p) (prog_cb p) in
            if fs_best_read_size v' >=? fs_max_read_size v' then
              (true,
               set_sequence c (in_total c + fs_consumed v')
                 (fs_max_read_size v') (fs_best_read_offset v')
                 (fs_best_read_size v') (fs_best_read_offset v')
                 (fs_best_read_size v'),
               p')
            else
              (false,
               set_sequence c (in_total c + fs_consumed v')
                 (fs_max_read_size v') (fs_best_read_offset v')
                 (fs_best_read_size v') (fs_read_offset v')
                 (fs_read_size v'),
               p')).
Proof.
  intros Hk Hwf Hkmax Hnum.
  pose proof Hwf as (Hk0 & _).
  destruct (find_sequence_loop_spec k (history c) p base Hwf Hkmax
              (Z.to_nat (Z.shiftl 1 (history_log_2 c) - read_offset c) + 2)
              (comp_fs c) Hnum) as (v' & L1 & L2 & L3).
  { rewrite Hk, shiftl_1 by assumption. cbn [comp_fs fs_read_offset]. lia. }
  exists v'. split; [exact L2|]. split; [exact L3|].
  unfold find_sequence. unfold comp_fs in L1. rewrite Hk in *. rewrite L1.
  cbn [obind].
  destruct (fs_best_read_size v' >=? fs_max_read_size v'); reflexivity.
Qed.

End FindSequenceLoop.

(** ** Accounting of the windows and the totals *)

Section Accounting.

Lemma out_accounted_refl (ob : option Z) (os ot : Z) :
  out_accounted ob os ot ob os ot.
Proof.
  unfold out_accounted. destruct ob as [o|].
  - exists o. split; [reflexivity|]. lia.
  - split; [reflexivity|]. lia.
Qed.

Lemma out_accounted_trans (ob1 ob2 ob3 : option Z)
    (os1 ot1 os2 ot2 os3 ot3 : Z) :
  out_accounted ob1 os1 ot1 ob2 os2 ot2 ->
  out_accounted ob2 os2 ot2 ob3 os3 ot3 ->
  out_accounted ob1 os1 ot1 ob3 os3 ot3.
Proof.
  unfold out_accounted. intros A B.
  destruct ob1 as [o1|].
  - destruct A as (o2 & -> & A1 & A2). destruct B as (o3 & -> & B1 & B2).
    exists o3. split; [reflexivity|]. lia.
  - destruct A as [-> A]. destruct B as [-> B]. split; [reflexivity|]. lia.
Qed.

Lemma accounted_refl (p : GKeyParameters) (it ot : Z) :
  accounted p it ot p it ot.
Proof.
  unfold accounted. split; [lia|]. split; [lia|]. apply out_accounted_refl.
Qed.

Lemma accounted_trans (p1 p2 p3 : GKeyParameters)
    (it1 ot1 it2 ot2 it3 ot3 : Z) :
  accounted p1 it1 ot1 p2 it2 ot2 ->
  accounted p2 it2 ot2 p3 it3 ot3 ->
  accounted p1 it1 ot1 p3 it3 ot3.
Proof.
  unfold accounted. intros (A1 & A2 & A3) (B1 & B2 & B3).
  split; [lia|]. split; [lia|].
  eapply out_accounted_trans; eassumption.
Qed.

(** The callback state of [RingBuffer_copy] keeps what every call of the
    callback keeps. *)
Lemma copy_loop_invariant {St : Type} (Q : St -> Prop)
    (write_cb : option (RingBufferWriteFn St)) (off n : Z) :
  (forall cb, write_cb = Some cb ->
              forall st l, Q st -> Q (fst (cb st l))) ->
  forall fuel r st copied to_copy total r' st' m,
    Q st ->
    RingBuffer_copy_loop fuel write_cb off n r st copied to_copy total
    = Some (r', st', m) ->
    Q st'.
Proof.
  intros Hcb. induction fuel as [|fuel IH];
    intros r st copied to_copy total r' st' m HQ Hrun.
  - cbn [RingBuffer_copy_loop] in Hrun.
    destruct ((total <? n) && (copied >=? to_copy)); [discriminate|].
    injection Hrun as <- <- <-. exact HQ.
  - cbn [RingBuffer_copy_loop] in Hrun.
    destruct ((total <? n) && (copied >=? to_copy)).
    2:{ injection Hrun as <- <- <-. exact HQ. }
    cbv zeta in Hrun.
    set (read_pos := Z.land (write_pos r + off) (size r - 1)) in Hrun.
    set (tc := if size r - read_pos >? n - total then n - total
               else size r - read_pos) in Hrun.
    destruct write_cb as [cb|].
    + pose proof (Hcb cb eq_refl st (mem_read (buffer r) read_pos tc) HQ)
        as HQ1.
      destruct (cb st (mem_read (buffer r) read_pos tc)) as [st1 k1].
      cbn [fst] in HQ1.
      destruct (RingBuffer_write r (SrcRing read_pos) k1) as [r1|];
        [|discriminate].
      cbn [obind] in Hrun. eapply IH; [exact HQ1 | exact Hrun].
    + destruct (RingBuffer_write r (SrcRing read_pos) tc) as [r1|];
        [|discriminate].
      cbn [obind] in Hrun. eapply IH; [exact HQ | exact Hrun].
Qed.

Section EncoderAccounting.
Import GKeyComp.

Lemma write_bits_loop_accounted (fuel : nat) :
  forall mem ob os ot a nb ok mem' ob' os' ot' a' nb',
    write_bits_loop fuel mem ob os ot a nb
    = (ok, (mem', ob', os', ot', a', nb')) ->
    out_accounted ob os ot ob' os' ot'.
Proof.
  induction fuel as [|fuel IH];
    intros mem ob os ot a nb ok mem' ob' os' ot' a' nb' Hrun;
    cbn [write_bits_loop] in Hrun.
  - injection Hrun as <- <- <- <- <- <- <-. apply out_accounted_refl.
  - destruct (nb >=? CHAR_BIT).
    2:{ injection Hrun as <- <- <- <- <- <- <-. apply out_accounted_refl. }
    destruct ob as [o|].
    + destruct (os =? 0).
      * injection Hrun as <- <- <- <- <- <- <-. apply out_accounted_refl.
      * apply IH in Hrun.
        eapply out_accounted_trans; [|exact Hrun].
        unfold out_accounted. exists (o + 1). split; [reflexivity|]. lia.
    + apply IH in Hrun.
      eapply out_accounted_trans; [|exact Hrun].
      unfold out_accounted. split; [reflexivity|]. lia.
Qed.

(** [write_bits] touches the output window, the output total and the
    accumulator only. *)
Lemma write_bits_shape (c : GKeyComp) (p : GKeyParameters) (n bits : Z) :
  exists ok ot a nb mem ob os,
    write_bits c p n bits
    = (ok, set_output c ot a nb,
       mkParams (in_mem p) (in_buffer p) (in_size p) mem ob os (prog_cb p))
    /\ out_accounted (out_buffer p) (out_size p) (out_total c) ob os ot.
Proof.
  unfold write_bits.
  destruct (if n =? UINT_MAX
            then (0, if negb (acc_nbits c mod CHAR_BIT =? 0)
                     then acc_nbits c + (CHAR_BIT - acc_nbits c mod CHAR_BIT)
                     else acc_nbits c)
            else (n, acc_nbits c)) as [n1 nb1].
  destruct (write_bits_loop (Z.to_nat nb1) (out_mem p) (out_buffer p)
              (out_size p) (out_total c) (acc c) nb1)
    as [ok [[[[[mem ob] os] ot] a] nb]] eqn:E.
  apply write_bits_loop_accounted in E.
  destruct ok; repeat eexists; exact E.
Qed.

Lemma write_bits_accounted (c : GKeyComp) (p : GKeyParameters) (n bits : Z) :
  comp_accounted c p (snd (fst (write_bits c p n bits)))
    (snd (write_bits c p n bits)).
Proof.
  destruct (write_bits_shape c p n bits)
    as (ok & ot & a & nb & mem & ob & os & E & Hacc).
  rewrite E. unfold comp_accounted, accounted. cbn.
  split; [lia|]. split; [lia|]. exact Hacc.
Qed.

Lemma comp_accounted_refl (c : GKeyComp) (p : GKeyParameters) :
  comp_accounted c p c p.
Proof. apply accounted_refl. Qed.

Lemma comp_accounted_trans (c1 c2 c3 : GKeyComp) (p1 p2 p3 : GKeyParameters) :
  comp_accounted c1 p1 c2 p2 -> comp_accounted c2 p2 c3 p3 ->
  comp_accounted c1 p1 c3 p3.
Proof. apply accounted_trans. Qed.

Lemma ring_writer_loop_accounted (l : list byte) :
  forall c p nout,
    comp_accounted c p (fst (fst (ring_writer_loop c p l nout)))
      (snd (fst (ring_writer_loop c p l nout))).
Proof.
  induction l as [|b l IH]; intros c p nout; cbn [ring_writer_loop].
  - apply comp_accounted_refl.
  - pose proof (write_bits_accounted c p (CHAR_BIT + 1)
                  (Z.shiftl (byte.unsigned b) 1)) as Hw.
    destruct (write_bits c p (CHAR_BIT + 1) (Z.shiftl (byte.unsigned b) 1))
      as [[ok c1] p1].
    cbn [fst snd] in Hw.
    destruct ok.
    + eapply comp_accounted_trans; [exact Hw | apply IH].
    + exact Hw.
Qed.

Lemma find_sequence_accounted (c : GKeyComp) (p : GKeyParameters)
    (found : bool) (c' : GKeyComp) (p' : GKeyParameters) :
  find_sequence c p = Some (found, c', p') -> comp_accounted c p c' p'.
Proof.
  unfold find_sequence.
  destruct (find_sequence_loop _ _ _ _ _) as [v|]; [|discriminate].
  cbn [obind].
  destruct (fs_best_read_size v >=? fs_max_read_size v);
    intros H; injection H as <- <- <-;
    unfold comp_accounted, accounted; cbn;
    (split; [lia|]); (split; [lia|]); apply out_accounted_refl.
Qed.

End EncoderAccounting.

End Accounting.

Section EncoderPassAccounting.
Import GKeyComp.

Ltac wb_shape c p n bits :=
  let ok := fresh "ok" in
  let E := fresh "Ewb" in
  let H := fresh "Hacc" in
  destruct (write_bits_shape c p n bits)
    as (ok & ?ot & ?a & ?nb & ?mem & ?ob & ?os & E & H);
  rewrite E; clear E.

Ltac acc_done :=
  unfold comp_accounted, accounted in *; cbn in *;
  repeat match goal with
  | H : _ /\ _ |- _ => destruct H
  end;
  repeat split; try lia; try assumption; try apply out_accounted_refl.

Lemma case_PutSize_accounted status input c p r :
  case_PutSize status input c p = Some r ->
  comp_accounted c p (p_comp r) (p_params r).
Proof.
  unfold case_PutSize.
  wb_shape c p (GKey_get_read_size_bits (history_log_2 c) (read_offset c))
    (read_size c).
  destruct ok.
  - destruct (RingBuffer_copy _ _ _ _ _) as [[[ring u] copied]|];
      [|discriminate].
    cbn [obind]. intros H. injection H as <-. acc_done.
  - intros H. injection H as <-. acc_done.
Qed.

Lemma case_PutOffset_accounted status input c p r :
  case_PutOffset status input c p = Some r ->
  comp_accounted c p (p_comp r) (p_params r).
Proof.
  unfold case_PutOffset.
  wb_shape c p (history_log_2 c + 1)
    (Z.lor (ulong (Z.shiftl (read_offset c) 1)) 1).
  destruct ok.
  - intros H. apply case_PutSize_accounted in H.
    eapply comp_accounted_trans; [|exact H]. acc_done.
  - intros H. injection H as <-. acc_done.
Qed.

Lemma case_FindSequence_accounted flush state status input c p r :
  case_FindSequence flush state status input c p = Some r ->
  comp_accounted c p (p_comp r) (p_params r).
Proof.
  unfold case_FindSequence.
  assert (Hfs : forall found c1 p1,
             (if flush then Some (true, c, p) else find_sequence c p)
             = Some (found, c1, p1) -> comp_accounted c p c1 p1).
  { intros found c1 p1. destruct flush.
    - intros H. injection H as <- <- <-. apply comp_accounted_refl.
    - apply find_sequence_accounted. }
  destruct (if flush then Some (true, c, p) else find_sequence c p)
    as [[[found c1] p1]|]; [|discriminate].
  specialize (Hfs found c1 p1 eq_refl). cbn [obind].
  destruct found.
  2:{ intros H. injection H as <-. exact Hfs. }
  destruct (read_size c1 =? 0).
  - destruct (in_size p1 >? 0); [|destruct flush];
      intros H; injection H as <-; exact Hfs.
  - destruct (_ <? _).
    + intros H; injection H as <-; exact Hfs.
    + intros H. apply case_PutOffset_accounted in H.
      eapply comp_accounted_trans; eassumption.
Qed.

Lemma case_Progress_accounted flush state status input c p r :
  case_Progress flush state status input c p = Some r ->
  comp_accounted c p (p_comp r) (p_params r).
Proof.
  unfold case_Progress.
  destruct (prog_cb p) as [cb|].
  - destruct (cb (in_total c) (out_total c)).
    + apply case_FindSequence_accounted.
    + intros H. injection H as <-. apply comp_accounted_refl.
  - apply case_FindSequence_accounted.
Qed.

Lemma case_PutByte_accounted status input c p r :
  case_PutByte status input c p = Some r ->
  comp_accounted c p (p_comp r) (p_params r).
Proof.
  unfold case_PutByte. cbv zeta.
  wb_shape c p (CHAR_BIT + 1)
    (Z.shiftl (byte.unsigned (mem_load (in_mem p) (in_buffer p))) 1).
  destruct ok.
  - destruct (RingBuffer_write _ _ _) as [ring|]; [|discriminate].
    cbn [obind]. intros H. injection H as <-. acc_done.
  - intros H. injection H as <-. acc_done.
Qed.

Lemma ring_writer_accounted (c0 : GKeyComp) (p0 : GKeyParameters)
    (st : GKeyComp * GKeyParameters) (l : list byte) :
  comp_accounted c0 p0 (fst st) (snd st) ->
  comp_accounted c0 p0 (fst (fst (ring_writer st l)))
    (snd (fst (ring_writer st l))).
Proof.
  destruct st as [c p]. cbn [fst snd ring_writer]. intros H.
  eapply comp_accounted_trans; [exact H|].
  apply ring_writer_loop_accounted.
Qed.

Lemma case_PutBytes_accounted status input c p r :
  case_PutBytes status input c p = Some r ->
  comp_accounted c p (p_comp r) (p_params r).
Proof.
  unfold case_PutBytes, RingBuffer_copy.
  destruct (RingBuffer_copy_loop _ _ _ _ _ _ _ _ _)
    as [[[ring [c1 p1]] copied]|] eqn:E; [|discriminate].
  apply (copy_loop_invariant
           (fun st => comp_accounted c p (fst st) (snd st))) in E.
  - cbn [fst snd] in E. cbn [obind].
    destruct (copied >=? _); intros H; injection H as <-; acc_done.
  - intros cb Hcb st l HQ. injection Hcb as <-.
    pose proof (ring_writer_accounted c p st l HQ) as H.
    destruct (ring_writer st l) as [[c2 p2] m]. exact H.
  - apply comp_accounted_refl.
Qed.

Lemma case_Flush_accounted status input c p r :
  case_Flush status input c p = Some r ->
  comp_accounted c p (p_comp r) (p_params r).
Proof.
  unfold case_Flush.
  wb_shape c p UINT_MAX 0.
  destruct ok; intros H; injection H as <-; acc_done.
Qed.

Lemma switch_accounted flush state status input c p r :
  switch flush state status input c p = Some r ->
  comp_accounted c p (p_comp r) (p_params r).
Proof.
  destruct state; cbn [switch].
  - unfold case_NextSequence. intros H.
    apply case_Progress_accounted in H.
    eapply comp_accounted_trans; [|exact H]. acc_done.
  - apply case_Progress_accounted.
  - apply case_FindSequence_accounted.
  - apply case_PutOffset_accounted.
  - apply case_PutSize_accounted.
  - apply case_PutByte_accounted.
  - apply case_PutBytes_accounted.
  - apply case_Flush_accounted.
Qed.

Lemma compress_loop_accounted (fuel : nat) :
  forall flush state c p r,
    compress_loop fuel flush state c p = Some r ->
    comp_accounted c p (p_comp r) (p_params r).
Proof.
  induction fuel as [|fuel IH]; intros flush state c p r Hrun;
    cbn [compress_loop] in Hrun; [discriminate|].
  destruct (switch flush state GKeyStatus_OK true c p) as [r1|] eqn:E;
    [|discriminate].
  apply switch_accounted in E. cbn [obind] in Hrun.
  destruct (GKeyStatus_eqb (p_status r1) GKeyStatus_OK && p_input r1).
  - apply IH in Hrun. eapply comp_accounted_trans; eassumption.
  - injection Hrun as <-. exact E.
Qed.

Lemma compress_accounted (c : GKeyComp) (p : GKeyParameters) s c' p' :
  gkeycomp_compress c p = Some (s, c', p') -> comp_accounted c p c' p'.
Proof.
  unfold gkeycomp_compress.
  destruct (compress_loop _ _ _ _ _) as [r|] eqn:E; [|discriminate].
  apply compress_loop_accounted in E. cbn [obind].
  intros H. injection H as <- <- <-. acc_done.
Qed.

End EncoderPassAccounting.

(** ** The compressor's callback *)

Section EncoderWriter.
Import GKeyComp.

Lemma set_output_eta (c : GKeyComp) :
  set_output c (out_total c) (acc c) (acc_nbits c) = c.
Proof. destruct c. reflexivity. Qed.

Lemma params_eta (p : GKeyParameters) :
  mkParams (in_mem p) (in_buffer p) (in_size p) (out_mem p) (out_buffer p)
    (out_size p) (prog_cb p) = p.
Proof. destruct p. reflexivity. Qed.

(** The callback touches what [write_bits] touches, and counts the bytes it
    has put. *)
Lemma ring_writer_loop_shape (l : list byte) :
  forall c p nout,
  exists ot a nb mem ob os m,
    ring_writer_loop c p l nout
    = (set_output c ot a nb,
       mkParams (in_mem p) (in_buffer p) (in_size p) mem ob os (prog_cb p),
       m)
    /\ nout <= m <= nout + Z.of_nat (length l).
Proof.
  induction l as [|b l IH]; intros c p nout; cbn [ring_writer_loop].
  - exists (out_total c), (acc c), (acc_nbits c), (out_mem p), (out_buffer p),
      (out_size p), nout.
    rewrite set_output_eta, params_eta. split; [reflexivity|].
    cbn [length]. lia.
  - destruct (write_bits_shape c p (CHAR_BIT + 1)
                (Z.shiftl (byte.unsigned b) 1))
      as (ok & ot & a & nb & mem & ob & os & E & _).
    rewrite E. destruct ok.
    + destruct (IH (set_output c ot a nb)
                  (mkParams (in_mem p) (in_buffer p) (in_size p) mem ob os
                     (prog_cb p)) (nout + 1))
        as (ot' & a' & nb' & mem' & ob' & os' & m & E' & Hm).
      rewrite E'. exists ot', a', nb', mem', ob', os', m.
      split; [reflexivity|]. cbn [length]. lia.
    + exists ot, a, nb, mem, ob, os, nout. split; [reflexivity|].
      cbn [length]. lia.
Qed.

Lemma ring_writer_loop_count (l : list byte) :
  forall c p nout,
    ring_writer_loop c p l nout
    = let '(c', p', m) := ring_writer_loop c p l 0 in (c', p', nout + m).
Proof.
  induction l as [|b l IH]; intros c p nout; cbn [ring_writer_loop].
  - rewrite Z.add_0_r. reflexivity.
  - destruct (write_bits c p (CHAR_BIT + 1) (Z.shiftl (byte.unsigned b) 1))
      as [[ok c1] p1].
    destruct ok.
    + rewrite (IH c1 p1 (nout + 1)), (IH c1 p1 (0 + 1)).
      destruct (ring_writer_loop c1 p1 l 0) as [[c2 p2] m].
      f_equal. lia.
    + rewrite Z.add_0_r. reflexivity.
Qed.

Lemma ring_writer_loop_app (l1 l2 : list byte) :
  forall c p nout,
    ring_writer_loop c p (l1 ++ l2) nout
    = let '(c1, p1, k1) := ring_writer_loop c p l1 nout in
      if k1 =? nout + Z.of_nat (length l1)
      then ring_writer_loop c1 p1 l2 k1
      else (c1, p1, k1).
Proof.
  induction l1 as [|b l1 IH]; intros c p nout.
  - cbn [app ring_writer_loop length]. change (Z.of_nat 0) with 0.
    rewrite Z.add_0_r, Z.eqb_refl. reflexivity.
  - cbn [app ring_writer_loop].
    destruct (write_bits c p (CHAR_BIT + 1) (Z.shiftl (byte.unsigned b) 1))
      as [[ok c1] p1].
    destruct ok.
    + rewrite IH.
      destruct (ring_writer_loop c1 p1 l1 (nout + 1)) as [[c2 p2] k1].
      replace (nout + Z.of_nat (length (b :: l1)))
        with (nout + 1 + Z.of_nat (length l1)) by (cbn [length]; lia).
      reflexivity.
    + destruct (Z.eqb_spec nout (nout + Z.of_nat (length (b :: l1))))
        as [Habs|_]; [|reflexivity].
      cbn [length] in Habs. lia.
Qed.

Lemma comp_ring_writer_sequential :
  cb_sequential (fun _ : GKeyComp * GKeyParameters => True) ring_writer.
Proof.
  split.
  - intros [c p] l _. split; [exact I|].
    unfold ring_writer.
    destruct (ring_writer_loop_shape l c p 0)
      as (ot & a & nb & mem & ob & os & m & E & Hm).
    rewrite E. cbn [snd]. lia.
  - intros [c p] l1 l2 _. unfold ring_writer.
    rewrite ring_writer_loop_app.
    destruct (ring_writer_loop c p l1 0) as [[c1 p1] k1].
    rewrite Z.add_0_l.
    destruct (k1 =? Z.of_nat (length l1)); [|reflexivity].
    rewrite ring_writer_loop_count.
    destruct (ring_writer_loop c1 p1 l2 0) as [[c2 p2] k2]. reflexivity.
Qed.

End EncoderWriter.

(** ** The compressor returns *)

Section EncoderTotal.
Import GKeyComp.

Ltac wb_shape c p n bits :=
  let ok := fresh "ok" in
  let E := fresh "Ewb" in
  destruct (write_bits_shape c p n bits)
    as (ok & ?ot & ?a & ?nb & ?mem & ?ob & ?os & E & _);
  rewrite E; clear E.

Lemma comp_step_weaken (k n : Z) (r : pass) (b1 b2 n2 : Z) :
  comp_step k n r b1 -> b1 <= b2 -> n <= n2 -> comp_step k n2 r b2.
Proof.
  intros (H1 & H2 & H3) Hb Hn. split; [exact H1|]. split; [lia|].
  intros Hs Hi. specialize (H3 Hs Hi). lia.
Qed.

Lemma in_window_ok_out (p : GKeyParameters) mem ob os :
  in_window_ok p ->
  in_window_ok (mkParams (in_mem p) (in_buffer p) (in_size p) mem ob os
                  (prog_cb p)).
Proof. intros H. exact H. Qed.

Ltac step_simpl :=
  unfold comp_step, comp_ok;
  cbn [p_state p_comp p_params p_status p_input history_log_2 history
       set_history set_output set_read_size set_in_total set_sequence
       clear_sequence read_offset read_size in_size in_buffer in_mem
       comp_potential].

Lemma case_PutSize_total (k : Z) status input c p :
  history_log_2 c = k -> k <= MaxHistoryLog2 -> ring_wf k (history c) ->
  in_window_ok p -> copy_range_ok k (read_offset c) (read_size c) ->
  exists r,
    case_PutSize status input c p = Some r
    /\ comp_step k (in_size p) r (2 * in_size p + 3).
Proof.
  intros Hk Hkmax Hwf Hin (Hr1 & Hr2 & Hr3).
  pose proof Hwf as (Hk0 & Hsz & _).
  unfold case_PutSize.
  wb_shape c p (GKey_get_read_size_bits (history_log_2 c) (read_offset c))
    (read_size c).
  destruct ok.
  - cbn [history read_offset read_size set_output].
    rewrite (RingBuffer_copy_all k) by (try assumption; lia).
    cbn [obind]. eexists. split; [reflexivity|]. step_simpl.
    split; [|split; [lia|intros _ _; lia]].
    split; [assumption|]. split; [assumption|].
    split; [apply ring_append_wf, Hwf|].
    split; [apply in_window_ok_out, Hin | exact I].
  - eexists. split; [reflexivity|]. step_simpl.
    split; [|split; [lia|intros Habs; discriminate]].
    split; [assumption|]. split; [assumption|]. split; [assumption|].
    split; [apply in_window_ok_out, Hin|].
    split; [assumption|]. split; assumption.
Qed.

Lemma case_PutOffset_total (k : Z) status input c p :
  history_log_2 c = k -> k <= MaxHistoryLog2 -> ring_wf k (history c) ->
  in_window_ok p -> copy_range_ok k (read_offset c) (read_size c) ->
  exists r,
    case_PutOffset status input c p = Some r
    /\ comp_step k (in_size p) r (2 * in_size p + 3).
Proof.
  intros Hk Hkmax Hwf Hin Hr.
  unfold case_PutOffset.
  wb_shape c p (history_log_2 c + 1)
    (Z.lor (ulong (Z.shiftl (read_offset c) 1)) 1).
  destruct ok.
  - destruct (case_PutSize_total k status input (set_output c ot a nb)
                (mkParams (in_mem p) (in_buffer p) (in_size p) mem ob os
                   (prog_cb p)) Hk Hkmax Hwf (in_window_ok_out p _ _ _ Hin)
                Hr) as (r & E & Hs).
    exists r. split; [exact E | exact Hs].
  - eexists. split; [reflexivity|]. step_simpl.
    split; [|split; [lia|intros Habs; discriminate]].
    split; [assumption|]. split; [assumption|]. split; [assumption|].
    split; [apply in_window_ok_out, Hin | exact Hr].
Qed.

Lemma case_PutByte_total (k : Z) status input c p :
  history_log_2 c = k -> k <= MaxHistoryLog2 -> ring_wf k (history c) ->
  in_window_ok p -> 0 < in_size p ->
  exists r,
    case_PutByte status input c p = Some r
    /\ comp_step k (in_size p) r (2 * in_size p + 1).
Proof.
  intros Hk Hkmax Hwf Hin Hpos.
  pose proof Hin as (Hi1 & Hi2 & Hi3).
  unfold case_PutByte. cbv zeta.
  wb_shape c p (CHAR_BIT + 1)
    (Z.shiftl (byte.unsigned (mem_load (in_mem p) (in_buffer p))) 1).
  destruct ok.
  - cbn [history set_output in_mem in_buffer in_size in_total out_mem
         out_buffer out_size prog_cb].
    rewrite (RingBuffer_write_spec k) by (try assumption; lia).
    cbn [obind]. eexists. split; [reflexivity|]. step_simpl.
    split; [|split; [lia|intros _ _; lia]].
    split; [assumption|]. split; [assumption|].
    split; [apply ring_append_wf, Hwf|].
    split; [|exact I].
    unfold in_window_ok. cbn [in_buffer in_size in_mem]. lia.
  - eexists. split; [reflexivity|]. step_simpl.
    split; [|split; [lia|intros Habs; discriminate]].
    split; [assumption|]. split; [assumption|]. split; [assumption|].
    split; [apply in_window_ok_out, Hin | exact Hpos].
Qed.

Lemma case_PutBytes_total (k : Z) status input c p :
  history_log_2 c = k -> k <= MaxHistoryLog2 -> ring_wf k (history c) ->
  in_window_ok p -> copy_range_ok k (read_offset c) (read_size c) ->
  exists r,
    case_PutBytes status input c p = Some r
    /\ comp_step k (in_size p) r (2 * in_size p + 3).
Proof.
  intros Hk Hkmax Hwf Hin (Hr1 & Hr2 & Hr3).
  pose proof Hwf as (Hk0 & Hsz & _).
  unfold case_PutBytes.
  rewrite (RingBuffer_copy_spec k (fun _ => True))
    by (try assumption; try exact I; try lia;
        apply comp_ring_writer_sequential).
  cbn [cb_or_all ring_writer].
  destruct (ring_writer_loop_shape
              (ring_window (history c) (read_offset c) (read_size c)) c p 0)
    as (ot & a & nb & mem & ob & os & m & E & Hm).
  rewrite E. cbn [obind].
  rewrite length_ring_window in Hm.
  cbn [set_history read_size set_output].
  destruct (Z.geb_spec m (read_size c)) as [Hall|Hpart].
  - eexists. split; [reflexivity|]. step_simpl.
    split; [|split; [lia|intros _ _; lia]].
    split; [assumption|]. split; [assumption|].
    split; [apply ring_append_wf, Hwf|].
    split; [apply in_window_ok_out, Hin | exact I].
  - eexists. split; [reflexivity|]. step_simpl.
    split; [|split; [lia|intros Habs; discriminate]].
    split; [assumption|]. split; [assumption|].
    split; [apply ring_append_wf, Hwf|].
    split; [apply in_window_ok_out, Hin|].
    unfold copy_range_ok. lia.
Qed.

Lemma case_Flush_total (k : Z) status input c p :
  history_log_2 c = k -> k <= MaxHistoryLog2 -> ring_wf k (history c) ->
  in_window_ok p ->
  exists r,
    case_Flush status input c p = Some r
    /\ comp_step k (in_size p) r 1.
Proof.
  intros Hk Hkmax Hwf Hin.
  unfold case_Flush.
  wb_shape c p UINT_MAX 0.
  destruct ok; (eexists; split; [reflexivity|]); step_simpl;
    (split; [|split; [lia|intros Habs; discriminate]]);
    (split; [assumption|]); (split; [assumption|]); (split; [assumption|]);
    (split; [apply in_window_ok_out, Hin | exact I]).
Qed.

Lemma case_FindSequence_total (k : Z) flush status input c p :
  history_log_2 c = k -> k <= MaxHistoryLog2 -> ring_wf k (history c) ->
  in_window_ok p ->
  fs_num k p (in_buffer p - fs_pending (comp_fs c)) (comp_fs c) ->
  (flush = true -> in_size p = 0) ->
  exists r,
    case_FindSequence flush GKeyCompState_FindSequence status input c p
    = Some r
    /\ comp_step k (in_size p) r
         (2 * in_size p + 2 + (if fs_pending (comp_fs c) =? 0 then 0 else 2)).
Proof.
  intros Hk Hkmax Hwf Hin Hnum Hflush.
  pose proof Hwf as (Hk0 & Hsz & _).
  pose proof Hin as (Hi1 & Hi2 & Hi3).
  remember (2 * in_size p + 2 + (if fs_pending (comp_fs c) =? 0 then 0 else 2))
    as B eqn:HB.
  assert (Hfound : forall c1 p1,
    history_log_2 c1 = k -> ring_wf k (history c1) -> in_window_ok p1 ->
    in_size p1 <= in_size p ->
    (flush = true -> in_size p1 = 0) ->
    (read_size c1 = 0
     \/ (copy_range_ok k (read_offset c1) (read_size c1)
         /\ 2 * in_size p1 + 3 < B)) ->
    (read_size c1 = 0 ->
     fs_num k p1 (in_buffer p1 - fs_pending (comp_fs c1)) (comp_fs c1)) ->
    2 * in_size p1 + 1 < B ->
    exists r,
      (if read_size c1 =? 0 then
         if in_size p1 >? 0 then
           Some (mkPass status GKeyCompState_PutByte input c1 p1)
         else if flush then
           Some (mkPass status GKeyCompState_Flush input c1 p1)
         else
           Some (mkPass status GKeyCompState_FindSequence false c1 p1)
       else
         let nbits :=
           GKey_get_read_size_bits (history_log_2 c1) (read_offset c1) in
         if read_size c1 * (CHAR_BIT + 1) <? history_log_2 c1 + nbits + 1
         then Some (mkPass status GKeyCompState_PutBytes input c1 p1)
         else case_PutOffset status input c1 p1) = Some r
      /\ comp_step k (in_size p) r B).
  { intros c1 p1 Hk1 Hwf1 Hin1 Hle Hfl1 Hrs Hnum1 HB1.
    pose proof Hin1 as (Hj1 & Hj2 & Hj3).
    destruct (Z.eqb_spec (read_size c1) 0) as [Hz|Hnz].
    - destruct (Z.gtb_spec (in_size p1) 0) as [Hpos|Hnone].
      + eexists. split; [reflexivity|]. step_simpl.
        split; [|split; [lia|intros _ _; lia]].
        split; [assumption|]. split; [assumption|]. split; [assumption|].
        split; assumption.
      + destruct flush.
        * eexists. split; [reflexivity|]. step_simpl.
          split; [|split; [lia|intros _ _; lia]].
          split; [assumption|]. split; [assumption|]. split; [assumption|].
          split; [assumption | exact I].
        * eexists. split; [reflexivity|]. step_simpl.
          split; [|split; [lia|intros _ Habs; discriminate]].
          split; [assumption|]. split; [assumption|]. split; [assumption|].
          split; [assumption | apply Hnum1, Hz].
    - destruct Hrs as [Hz|[Hrange HB3]]; [contradiction|].
      cbv zeta.
      destruct (_ <? _).
      + eexists. split; [reflexivity|]. step_simpl.
        split; [|split; [lia|intros _ _; lia]].
        split; [assumption|]. split; [assumption|]. split; [assumption|].
        split; assumption.
      + destruct (case_PutOffset_total k status input c1 p1 Hk1 Hkmax Hwf1
                    Hin1 Hrange) as (r & E & Hs).
        exists r. split; [exact E|].
        apply (comp_step_weaken k (in_size p1) r (2 * in_size p1 + 3));
          [exact Hs | lia | lia]. }
  unfold case_FindSequence. destruct flush.
  - cbn [obind]. apply Hfound; try assumption; try lia.
    + destruct (Z.eq_dec (read_size c) 0) as [Hz|Hnz]; [left; exact Hz|].
      right.
      destruct Hnum as [(C1 & C2 & C3 & C4 & C5 & C6) [Hz|(X1 & X2 & X3)]];
        cbn [comp_fs fs_read_size fs_read_offset fs_max_read_size
             fs_best_read_size] in *; [contradiction|].
      split; [unfold copy_range_ok; lia|].
      rewrite HB. unfold fs_pending.
      cbn [comp_fs fs_read_size fs_best_read_size].
      destruct (Z.eqb_spec (Z.max (read_size c) (best_read_size c)) 0); lia.
    + intros _. exact Hnum.
    + rewrite HB. destruct (_ =? 0); lia.
  - destruct (find_sequence_spec k c p (in_buffer p - fs_pending (comp_fs c))
                Hk Hwf Hkmax Hnum) as (v' & Hpost & _ & Efs).
    rewrite Efs. clear Efs. cbv zeta.
    destruct Hpost as [(C1 & C2 & C3 & C4 & C5 & C6) Hbr].
    assert (Hpend : 0 <= fs_pending (comp_fs c)).
    { destruct Hnum as [(D1 & D2 & D3 & D4 & D5 & D6) _].
      unfold fs_pending. lia. }
    destruct (Z.geb_spec (fs_best_read_size v') (fs_max_read_size v'))
      as [Hge|Hlt].
    + cbn [obind].
      destruct Hbr as [[_ Hrs0]|[Habs _]]; [|lia].
      assert (Hcons : fs_consumed v'
                      = fs_best_read_size v' - fs_pending (comp_fs c)).
      { unfold fs_pending in C2 |- *. rewrite Hrs0 in C2. lia. }
      apply Hfound.
      * exact Hk.
      * exact Hwf.
      * unfold in_window_ok. cbn [in_buffer in_size in_mem]. lia.
      * cbn [in_size]. lia.
      * intros Habs; discriminate.
      * cbn [read_size read_offset set_sequence in_size].
        destruct (Z.eq_dec (fs_best_read_size v') 0) as [Hz|Hnz];
          [left; exact Hz|].
        right. split; [unfold copy_range_ok; lia|].
        rewrite HB.
        destruct (Z.eqb_spec (fs_pending (comp_fs c)) 0); lia.
      * cbn [read_size set_sequence]. intros Hz.
        unfold fs_num, fs_common, fs_pending.
        cbn [comp_fs set_sequence read_offset read_size max_read_size
             best_read_size best_read_offset fs_read_offset fs_read_size
             fs_max_read_size fs_best_read_size fs_best_read_offset
             fs_consumed in_size in_buffer].
        split; [repeat split; lia | left; exact Hz].
      * cbn [in_size]. rewrite HB. destruct (_ =? 0); lia.
    + cbn [obind].
      destruct Hbr as [[Habs _]|(_ & Hall & Hrest)]; [lia|].
      eexists. split; [reflexivity|]. step_simpl.
      split; [|split; [lia|intros _ Habs; discriminate]].
      split; [assumption|]. split; [assumption|]. split; [assumption|].
      split; [unfold in_window_ok; cbn [in_buffer in_size in_mem]; lia|].
      unfold fs_num, fs_common, fs_pending, fs_extending in *.
      cbn [comp_fs set_sequence read_offset read_size max_read_size
           best_read_size best_read_offset fs_read_offset fs_read_size
           fs_max_read_size fs_best_read_size fs_best_read_offset
           fs_consumed in_size in_buffer].
      split; [repeat split; lia|].
      destruct Hrest as [[R1 R2]|R]; [left; exact R1 | right; exact R].
Qed.

Lemma case_Progress_total (k : Z) flush state status input c p :
  history_log_2 c = k -> k <= MaxHistoryLog2 -> ring_wf k (history c) ->
  in_window_ok p ->
  fs_num k p (in_buffer p - fs_pending (comp_fs c)) (comp_fs c) ->
  (flush = true -> in_size p = 0) ->
  comp_ok k state c p ->
  exists r,
    case_Progress flush state status input c p = Some r
    /\ comp_step k (in_size p) r
         (2 * in_size p + 2 + (if fs_pending (comp_fs c) =? 0 then 0 else 2)).
Proof.
  intros Hk Hkmax Hwf Hin Hnum Hflush Hok.
  unfold case_Progress.
  destruct (prog_cb p) as [cb|];
    [destruct (cb (in_total c) (out_total c))|];
    try (apply case_FindSequence_total; assumption).
  eexists. split; [reflexivity|]. step_simpl.
  split; [exact Hok|]. split; [lia|intros Habs; discriminate].
Qed.

Lemma switch_total (k : Z) flush st c p :
  comp_ok k st c p -> (flush = true -> in_size p = 0) ->
  exists r,
    switch flush st GKeyStatus_OK true c p = Some r
    /\ comp_step k (in_size p) r (comp_potential st (in_size p)).
Proof.
  intros Hok Hflush.
  pose proof Hok as (Hk & Hkmax & Hwf & Hin & Hst).
  pose proof Hwf as (Hk0 & Hsz & _).
  pose proof Hin as (Hi1 & Hi2 & Hi3).
  assert (Hpow : 0 < 2 ^ k) by (apply Z.pow_pos_nonneg; lia).
  destruct st; cbn [switch comp_potential].
  - unfold case_NextSequence.
    destruct (case_Progress_total k flush GKeyCompState_NextSequence
                GKeyStatus_OK true (clear_sequence c) p) as (r & E & Hs);
      try assumption.
    + unfold fs_num, fs_common, fs_pending. cbn. split; [|left; reflexivity].
      repeat split; lia.
    + exists r. split; [exact E|].
      eapply comp_step_weaken; [exact Hs| |lia].
      unfold fs_pending. cbn. lia.
  - destruct (case_Progress_total k flush GKeyCompState_Progress
                GKeyStatus_OK true c p) as (r & E & Hs); try assumption.
    exists r. split; [exact E|].
    eapply comp_step_weaken; [exact Hs| |lia].
    destruct (_ =? 0); lia.
  - destruct (case_FindSequence_total k flush GKeyStatus_OK true c p)
      as (r & E & Hs); try assumption.
    exists r. split; [exact E|].
    eapply comp_step_weaken; [exact Hs| |lia].
    destruct (_ =? 0); lia.
  - apply case_PutOffset_total; assumption.
  - apply case_PutSize_total; assumption.
  - apply case_PutByte_total; assumption.
  - apply case_PutBytes_total; assumption.
  - apply case_Flush_total; assumption.
Qed.

Lemma status_eqb_OK (s : GKeyStatus) :
  GKeyStatus_eqb s GKeyStatus_OK = true -> s = GKeyStatus_OK.
Proof. destruct s; intros H; try discriminate H; reflexivity. Qed.

Lemma comp_potential_pos (st : GKeyCompState) (n : Z) :
  0 <= n -> 0 < comp_potential st n.
Proof. destruct st; cbn [comp_potential]; lia. Qed.

Lemma compress_loop_total (k : Z) (flush : bool) (fuel : nat) :
  forall st c p,
    comp_ok k st c p -> (flush = true -> in_size p = 0) ->
    comp_potential st (in_size p) <= Z.of_nat fuel ->
    exists r,
      compress_loop fuel flush st c p = Some r
      /\ comp_ok k (p_state r) (p_comp r) (p_params r).
Proof.
  induction fuel as [|fuel IH]; intros st c p Hok Hflush Hpot.
  - pose proof Hok as (_ & _ & _ & (_ & Hi2 & _) & _).
    pose proof (comp_potential_pos st (in_size p) Hi2). lia.
  - cbn [compress_loop].
    destruct (switch_total k flush st c p Hok Hflush)
      as (r1 & E & Hok1 & Hle & Hdec).
    rewrite E. cbn [obind].
    destruct (GKeyStatus_eqb (p_status r1) GKeyStatus_OK && p_input r1)
      eqn:Hgo.
    + apply andb_true_iff in Hgo. destruct Hgo as [Hs Hi].
      apply status_eqb_OK in Hs. specialize (Hdec Hs Hi).
      apply IH.
      * exact Hok1.
      * intros Hf. specialize (Hflush Hf).
        pose proof Hok1 as (_ & _ & _ & (_ & Hi2 & _) & _). lia.
      * lia.
    + exists r1. split; [reflexivity | exact Hok1].
Qed.

Lemma comp_ok_set_state (k : Z) st st' c p :
  comp_ok k st c p -> comp_ok k st (set_state c st') p.
Proof. intros H. exact H. Qed.

(** A call on a well-formed compressor and parameter block returns, and
    leaves the compressor well formed for the parameter block it returns. *)
Lemma compress_total (k : Z) (c : GKeyComp) (p : GKeyParameters) :
  comp_wf k c p ->
  exists s c' p',
    gkeycomp_compress c p = Some (s, c', p') /\ comp_wf k c' p'.
Proof.
  intros Hok. unfold gkeycomp_compress.
  pose proof Hok as (_ & _ & _ & (_ & Hi2 & _) & _).
  destruct (compress_loop_total k (in_size p =? 0) (compress_fuel p)
              (state c) c p Hok) as (r & E & Hok').
  - intros Hz. apply Z.eqb_eq in Hz. exact Hz.
  - unfold compress_fuel.
    destruct (state c); cbn [comp_potential]; lia.
  - rewrite E. cbn [obind].
    exists (p_status r), (set_state (p_comp r) (p_state r)), (p_params r).
    split; [reflexivity|]. exact Hok'.
Qed.

Lemma ring_make_wf (k : Z) : 0 <= k -> ring_wf k (RingBuffer_make k).
Proof.
  intros Hk.
  assert (Hpow : 0 < 2 ^ k) by (apply Z.pow_pos_nonneg; lia).
  unfold ring_wf, RingBuffer_make, RingBuffer_init, RingBuffer_reset.
  cbn [size write_pos filled buffer size_log_2].
  rewrite shiftl_1 by lia.
  split; [exact Hk|]. split; [reflexivity|]. split; [lia|].
  split.
  - rewrite repeat_length. lia.
  - intros _ i Hi. unfold mem_load.
    apply nth_repeat.
Qed.

Lemma comp_make_wf (k : Z) (p : GKeyParameters) :
  0 <= k <= MaxHistoryLog2 -> in_window_ok p ->
  comp_wf k (gkeycomp_make k) p.
Proof.
  intros Hk Hin. pose proof Hin as (Hi1 & Hi2 & Hi3).
  assert (Hpow : 0 < 2 ^ k) by (apply Z.pow_pos_nonneg; lia).
  unfold comp_wf, comp_ok, gkeycomp_make.
  cbn [state history_log_2 history].
  split; [reflexivity|]. split; [lia|]. split; [apply ring_make_wf; lia|].
  split; [exact Hin|].
  unfold fs_num, fs_common, fs_pending. cbn. split; [|left; reflexivity].
  repeat split; lia.
Qed.

End EncoderTotal.

(** ** The statuses of the compressor *)

Section EncoderStatus.
Import GKeyComp.

Lemma compress_loop_status (fuel : nat) :
  forall flush st c p r,
    compress_loop fuel flush st c p = Some r ->
    p_status r = GKeyStatus_OK \/ p_status r = GKeyStatus_BufferOverflow
    \/ p_status r = GKeyStatus_Aborted \/ p_status r = GKeyStatus_Finished.
Proof.
  induction fuel as [|fuel IH]; intros flush st c p r Hrun;
    cbn [compress_loop] in Hrun; [discriminate|].
  destruct (switch flush st GKeyStatus_OK true c p) as [r1|] eqn:E;
    [|discriminate].
  cbn [obind] in Hrun.
  destruct (GKeyStatus_eqb (p_status r1) GKeyStatus_OK && p_input r1).
  - eapply IH, Hrun.
  - injection Hrun as <-.
    destruct (switch_status flush st true c p r1 E) as [H1 H2].
    destruct st; try (destruct H1 as [H|[H|H]]; [discriminate|..]; tauto).
    destruct (H2 eq_refl) as [[H|H] _]; tauto.
Qed.

(** C9: whatever the compressor state and the parameter block, a status
    returned by [gkeycomp_compress] is one of OK, BufferOverflow, Aborted
    and Finished, hence neither TruncatedInput nor BadInput; and on a
    well-formed compressor and parameter block the call does return. *)
Theorem compress_status (k : Z) (c : GKeyComp) (p : GKeyParameters) :
  (forall s c' p',
      gkeycomp_compress c p = Some (s, c', p') ->
      (s = GKeyStatus_OK \/ s = GKeyStatus_BufferOverflow
       \/ s = GKeyStatus_Aborted \/ s = GKeyStatus_Finished)
      /\ s <> GKeyStatus_TruncatedInput /\ s <> GKeyStatus_BadInput)
  /\ (comp_wf k c p ->
      exists s c' p', gkeycomp_compress c p = Some (s, c', p')).
Proof.
  split.
  - intros s c' p'. unfold gkeycomp_compress.
    destruct (compress_loop _ _ _ _ _) as [r|] eqn:E; [|discriminate].
    apply compress_loop_status in E. cbn [obind].
    intros H. injection H as <- <- <-.
    split; [exact E|].
    split; intros Habs; rewrite Habs in E;
      destruct E as [E|[E|[E|E]]]; discriminate E.
  - intros Hwf.
    destruct (compress_total k c p Hwf) as (s & c' & p' & E & _).
    exists s, c', p'. exact E.
Qed.

Lemma compress_status_witness :
  comp_wf 2 (gkeycomp_make 2) (stream_params [Byte.x61; Byte.x61] 4)
  /\ exists s c' p',
       gkeycomp_compress (gkeycomp_make 2)
         (stream_params [Byte.x61; Byte.x61] 4) = Some (s, c', p').
Proof.
  assert (H : comp_wf 2 (gkeycomp_make 2)
                (stream_params [Byte.x61; Byte.x61] 4)).
  { apply comp_make_wf.
    - unfold MaxHistoryLog2, ULongMinBit, CHAR_BIT. lia.
    - unfold in_window_ok, stream_params. cbn. lia. }
  split; [exact H|].
  exact (proj2 (compress_status 2 (gkeycomp_make 2)
                  (stream_params [Byte.x61; Byte.x61] 4)) H).
Defined.

End EncoderStatus.

(** ** Accounting and return of the decompressor *)

Section DecoderAccounting.
Import GKeyDecomp.

(** The loop of [read_bits]: it moves whole bytes from the input window to
    the accumulator, and fails only with the window empty. *)
Lemma read_bits_loop_spec (n : Z) (mem : list byte) (fuel : nat) :
  forall ib isz it a nb ok ib' isz' it' a' nb',
    read_bits_loop fuel n mem ib isz it a nb
    = (ok, (ib', isz', it', a', nb')) ->
    (ib' - ib = isz - isz' /\ isz - isz' = it' - it)
    /\ nb' + CHAR_BIT * isz' = nb + CHAR_BIT * isz
    /\ nb <= nb'
    /\ (0 <= isz -> 0 <= isz')
    /\ (ok = false -> isz' = 0 /\ nb' < n)
    /\ ((Z.to_nat (n - nb) <= fuel)%nat -> ok = true -> n <= nb').
Proof.
  induction fuel as [|fuel IH];
    intros ib isz it a nb ok ib' isz' it' a' nb' Hrun;
    cbn [read_bits_loop] in Hrun.
  - injection Hrun as <- <- <- <- <- <-.
    repeat split; intros; try lia; try discriminate.
  - destruct (Z.ltb_spec nb n) as [Hlt|Hge].
    + destruct (Z.eqb_spec isz 0) as [Hz|Hnz].
      * injection Hrun as <- <- <- <- <- <-.
        repeat split; intros; try lia; try discriminate.
      * apply IH in Hrun.
        destruct Hrun as ((A1 & A2) & A3 & A4 & A5 & A6 & A7).
        unfold CHAR_BIT in *.
        repeat split; intros; try lia;
          try (apply A6; assumption); try (apply A7; [lia | assumption]).
    + injection Hrun as <- <- <- <- <- <-.
      repeat split; intros; try lia; try discriminate.
Qed.

(** [read_bits] touches the input window, the input total and the
    accumulator only. *)
Lemma read_bits_shape (d : GKeyDecomp) (p : GKeyParameters) (n : Z) :
  exists ok out ib isz it a nb,
    read_bits d p n
    = (ok, out, set_input d it a nb,
       mkParams (in_mem p) ib isz (out_mem p) (out_buffer p) (out_size p)
         (prog_cb p))
    /\ (ib - in_buffer p = in_size p - isz /\ in_size p - isz = it - in_total d)
    /\ (0 <= in_size p -> 0 <= isz <= in_size p)
    /\ (0 <= n -> 0 <= out)
    /\ (0 <= n -> 0 <= acc_nbits d ->
        0 <= nb
        /\ nb + CHAR_BIT * isz
           = acc_nbits d + CHAR_BIT * in_size p - (if ok then n else 0)).
Proof.
  unfold read_bits.
  destruct (read_bits_loop (Z.to_nat (n - acc_nbits d)) n (in_mem p)
              (in_buffer p) (in_size p) (in_total d) (acc d) (acc_nbits d))
    as [ok [[[[ib isz] it] a] nb]] eqn:E.
  apply read_bits_loop_spec in E.
  destruct E as ((A1 & A2) & A3 & A4 & A5 & A6 & A7).
  unfold CHAR_BIT in *.
  destruct (Z.geb_spec nb n) as [Hge|Hlt].
  - exists ok, (Z.land a (Z.shiftl 1 n - 1)), ib, isz, it, (Z.shiftr a n),
      (nb - n).
    split; [reflexivity|]. split; [lia|]. split; [lia|].
    split.
    + intros Hn. apply Z.land_nonneg. right.
      rewrite Z.shiftl_1_l.
      assert (0 < 2 ^ n) by (apply Z.pow_pos_nonneg; lia). lia.
    + intros Hn Hnb. split; [lia|].
      destruct ok; [lia|].
      destruct (A6 eq_refl). lia.
  - exists ok, 0, ib, isz, it, a, nb.
    split; [reflexivity|]. split; [lia|]. split; [lia|].
    split; [lia|].
    intros Hn Hnb. split; [lia|].
    destruct ok; [|lia].
    specialize (A7 (Nat.le_refl _) eq_refl). lia.
Qed.

Lemma decomp_accounted_refl (d : GKeyDecomp) (p : GKeyParameters) :
  decomp_accounted d p d p.
Proof. apply accounted_refl. Qed.

Lemma decomp_accounted_trans (d1 d2 d3 : GKeyDecomp)
    (p1 p2 p3 : GKeyParameters) :
  decomp_accounted d1 p1 d2 p2 -> decomp_accounted d2 p2 d3 p3 ->
  decomp_accounted d1 p1 d3 p3.
Proof. apply accounted_trans. Qed.

(** The callback touches the output window and the output total only. *)
Lemma ring_writer_shape (d : GKeyDecomp) (p : GKeyParameters)
    (l : list byte) :
  exists ot mem ob os m,
    ring_writer (d, p) l
    = (set_out_total d ot,
       mkParams (in_mem p) (in_buffer p) (in_size p) mem ob os (prog_cb p),
       m)
    /\ out_accounted (out_buffer p) (out_size p) (out_total d) ob os ot.
Proof.
  unfold ring_writer.
  destruct (out_buffer p) as [o|] eqn:Hob.
  - eexists _, _, _, _, _. split; [reflexivity|].
    unfold out_accounted. eexists. split; [reflexivity|]. lia.
  - eexists _, _, _, _, _. split; [reflexivity|].
    unfold out_accounted. split; [reflexivity|]. lia.
Qed.

Lemma ring_writer_accounted_dec (d0 : GKeyDecomp) (p0 : GKeyParameters)
    (st : GKeyDecomp * GKeyParameters) (l : list byte) :
  decomp_accounted d0 p0 (fst st) (snd st) ->
  decomp_accounted d0 p0 (fst (fst (ring_writer st l)))
    (snd (fst (ring_writer st l))).
Proof.
  destruct st as [d p]. cbn [fst snd]. intros H.
  eapply decomp_accounted_trans; [exact H|].
  destruct (ring_writer_shape d p l) as (ot & mem & ob & os & m & E & Hacc).
  rewrite E. cbn [fst snd].
  unfold decomp_accounted, accounted. cbn.
  split; [lia|]. split; [lia|]. exact Hacc.
Qed.

End DecoderAccounting.

Section DecoderPassAccounting.
Import GKeyDecomp.

Ltac rb_shape d p n :=
  let ok := fresh "ok" in
  let E := fresh "Erb" in
  let H := fresh "Hacc" in
  destruct (read_bits_shape d p n)
    as (ok & ?out & ?ib & ?isz & ?it & ?a & ?nb & E & H & _);
  rewrite E; clear E.

Ltac dacc_done :=
  unfold decomp_accounted, accounted in *; cbn in *;
  repeat match goal with
  | H : _ /\ _ |- _ => destruct H
  end;
  repeat split; try lia; try assumption; try apply out_accounted_refl.

Lemma case_CopyData_accounted status stop d p r :
  case_CopyData status stop d p = Some r ->
  decomp_accounted d p (p_decomp r) (p_params r).
Proof.
  unfold case_CopyData, RingBuffer_copy.
  destruct (RingBuffer_copy_loop _ _ _ _ _ _ _ _ _)
    as [[[ring [d1 p1]] copied]|] eqn:E; [|discriminate].
  apply (copy_loop_invariant
           (fun st => decomp_accounted d p (fst st) (snd st))) in E.
  - cbn [fst snd] in E. cbn [obind].
    destruct (copied >=? _); intros H; injection H as <-; dacc_done.
  - intros cb Hcb st l HQ. injection Hcb as <-.
    apply ring_writer_accounted_dec, HQ.
  - apply decomp_accounted_refl.
Qed.

Lemma case_GetSize_accounted status stop d p r :
  case_GetSize status stop d p = Some r ->
  decomp_accounted d p (p_decomp r) (p_params r).
Proof.
  unfold case_GetSize.
  rb_shape d p (GKey_get_read_size_bits (history_log_2 d) (read_offset d)).
  destruct ok.
  - destruct (_ || _).
    + intros H. injection H as <-. dacc_done.
    + intros H. apply case_CopyData_accounted in H.
      eapply decomp_accounted_trans; [|exact H]. dacc_done.
  - intros H. injection H as <-. dacc_done.
Qed.

Lemma case_GetOffset_accounted status stop d p r :
  case_GetOffset status stop d p = Some r ->
  decomp_accounted d p (p_decomp r) (p_params r).
Proof.
  unfold case_GetOffset.
  rb_shape d p (history_log_2 d).
  destruct ok.
  - intros H. apply case_GetSize_accounted in H.
    eapply decomp_accounted_trans; [|exact H]. dacc_done.
  - intros H. injection H as <-. dacc_done.
Qed.

Lemma case_GetType_accounted status stop d p r :
  case_GetType status stop d p = Some r ->
  decomp_accounted d p (p_decomp r) (p_params r).
Proof.
  unfold case_GetType.
  rb_shape d p 1.
  destruct ok.
  - destruct (negb _).
    + intros H. apply case_GetOffset_accounted in H.
      eapply decomp_accounted_trans; [|exact H]. dacc_done.
    + intros H. injection H as <-. dacc_done.
  - intros H. injection H as <-. dacc_done.
Qed.

Lemma case_Progress_accounted_dec status stop d p r :
  case_Progress status stop d p = Some r ->
  decomp_accounted d p (p_decomp r) (p_params r).
Proof.
  unfold case_Progress.
  destruct (prog_cb p) as [cb|].
  - destruct (cb (in_total d) (out_total d)).
    + apply case_GetType_accounted.
    + intros H. injection H as <-. apply decomp_accounted_refl.
  - apply case_GetType_accounted.
Qed.

Lemma case_PutByte_accounted_dec status stop d p r :
  case_PutByte status stop d p = Some r ->
  decomp_accounted d p (p_decomp r) (p_params r).
Proof.
  unfold case_PutByte.
  destruct (ring_writer_shape d p [literal d])
    as (ot & mem & ob & os & m & E & Hacc).
  rewrite E.
  destruct (m =? 1).
  - destruct (RingBuffer_write _ _ _) as [ring|]; [|discriminate].
    cbn [obind]. intros H. injection H as <-. dacc_done.
  - intros H. injection H as <-. dacc_done.
Qed.

Lemma case_GetByte_accounted status stop d p r :
  case_GetByte status stop d p = Some r ->
  decomp_accounted d p (p_decomp r) (p_params r).
Proof.
  unfold case_GetByte.
  rb_shape d p CHAR_BIT.
  destruct ok.
  - intros H. apply case_PutByte_accounted_dec in H.
    eapply decomp_accounted_trans; [|exact H]. dacc_done.
  - destruct (_ =? 0); intros H; injection H as <-; dacc_done.
Qed.

Lemma switch_accounted_dec state status stop d p r :
  switch state status stop d p = Some r ->
  decomp_accounted d p (p_decomp r) (p_params r).
Proof.
  destruct state; cbn [switch].
  - apply case_Progress_accounted_dec.
  - apply case_GetType_accounted.
  - apply case_GetOffset_accounted.
  - apply case_GetSize_accounted.
  - apply case_CopyData_accounted.
  - apply case_GetByte_accounted.
  - apply case_PutByte_accounted_dec.
Qed.

Lemma decompress_loop_accounted (fuel : nat) :
  forall state d p r,
    decompress_loop fuel state d p = Some r ->
    decomp_accounted d p (p_decomp r) (p_params r).
Proof.
  induction fuel as [|fuel IH]; intros state d p r Hrun;
    cbn [decompress_loop] in Hrun; [discriminate|].
  destruct (switch state GKeyStatus_OK false d p) as [r1|] eqn:E;
    [|discriminate].
  apply switch_accounted_dec in E. cbn [obind] in Hrun.
  destruct (GKeyStatus_eqb (p_status r1) GKeyStatus_OK && negb (p_stop r1)).
  - apply IH in Hrun. eapply decomp_accounted_trans; eassumption.
  - injection Hrun as <-. exact E.
Qed.

Lemma decompress_accounted (d : GKeyDecomp) (p : GKeyParameters) s d' p' :
  gkeydecomp_decompress d p = Some (s, d', p') -> decomp_accounted d p d' p'.
Proof.
  unfold gkeydecomp_decompress.
  destruct (decompress_loop _ _ _ _) as [r|] eqn:E; [|discriminate].
  apply decompress_loop_accounted in E. cbn [obind].
  intros H. injection H as <- <- <-. dacc_done.
Qed.

End DecoderPassAccounting.

Section DecoderTotal.
Import GKeyDecomp.

Lemma size_bits_nonneg (k ro : Z) :
  0 <= k -> 0 <= GKey_get_read_size_bits k ro.
Proof.
  intros Hk. unfold GKey_get_read_size_bits.
  destruct (_ && _) eqn:E; [|lia].
  apply andb_true_iff in E. destruct E as [E _].
  apply Z.gtb_lt in E. lia.
Qed.

Lemma decomp_step_weaken (k : Z) (r : pass) (b1 b2 : Z) :
  decomp_step k r b1 -> b1 <= b2 -> decomp_step k r b2.
Proof.
  intros (H1 & H2) Hb. split; [exact H1|].
  intros Hs Hi. specialize (H2 Hs Hi). lia.
Qed.

(** [read_bits] keeps the decompressor well formed, and takes the bits it
    returns from those of the accumulator and the input window. *)
Lemma read_bits_base (k : Z) (d : GKeyDecomp) (p : GKeyParameters) (n : Z) :
  decomp_base k d p -> 0 <= n ->
  exists ok out ib isz it a nb,
    read_bits d p n
    = (ok, out, set_input d it a nb,
       mkParams (in_mem p) ib isz (out_mem p) (out_buffer p) (out_size p)
         (prog_cb p))
    /\ decomp_base k (set_input d it a nb)
         (mkParams (in_mem p) ib isz (out_mem p) (out_buffer p) (out_size p)
            (prog_cb p))
    /\ 0 <= out
    /\ nb + CHAR_BIT * isz = decomp_bits d p - (if ok then n else 0).
Proof.
  intros (Hk & Hkr & Hwf & Hnb & (Hi1 & Hi2 & Hi3) & Hout) Hn.
  destruct (read_bits_shape d p n)
    as (ok & out & ib & isz & it & a & nb & E & (A1 & A2) & A3 & A4 & A5).
  specialize (A3 Hi2). specialize (A4 Hn). destruct (A5 Hn Hnb) as [A6 A7].
  exists ok, out, ib, isz, it, a, nb.
  split; [exact E|]. split.
  - unfold decomp_base. cbn [set_input history_log_2 history acc_nbits].
    split; [exact Hk|]. split; [exact Hkr|]. split; [exact Hwf|].
    split; [exact A6|]. split; [|exact Hout].
    unfold in_window_ok. cbn [in_buffer in_size in_mem]. lia.
  - split; [exact A4|]. unfold decomp_bits. exact A7.
Qed.

Ltac dstep_simpl :=
  unfold decomp_step, decomp_ok, decomp_potential, decomp_bits;
  cbn [p_state p_decomp p_params p_status p_stop history_log_2 history
       set_history set_input set_out_total set_read_size set_read_offset
       set_literal read_offset read_size acc_nbits in_size in_buffer in_mem].

Lemma decomp_base_out (k : Z) (d : GKeyDecomp) (p : GKeyParameters)
    ot mem ob os r :
  decomp_base k d p -> ring_wf k r ->
  out_window_ok (mkParams (in_mem p) (in_buffer p) (in_size p) mem ob os
                   (prog_cb p)) ->
  decomp_base k (set_history (set_out_total d ot) r)
    (mkParams (in_mem p) (in_buffer p) (in_size p) mem ob os (prog_cb p)).
Proof.
  intros (Hk & Hkr & Hwf & Hnb & Hin & Hout) Hr Hout'.
  unfold decomp_base. cbn [set_history set_out_total history_log_2 history
    acc_nbits].
  split; [exact Hk|]. split; [exact Hkr|]. split; [exact Hr|].
  split; [exact Hnb|]. split; [exact Hin | exact Hout'].
Qed.

Lemma case_CopyData_total (k : Z) status stop d p :
  decomp_ok k GKeyDecompState_CopyData d p ->
  exists r,
    case_CopyData status stop d p = Some r
    /\ decomp_step k r (decomp_bits d p + 1).
Proof.
  intros [Hbase (Hr1 & Hr2 & Hr3)].
  pose proof Hbase as (Hk & Hkr & Hwf & Hnb & Hin & Hout).
  pose proof Hwf as (_ & Hsz & _).
  unfold case_CopyData.
  rewrite (RingBuffer_copy_spec k
             (fun st : GKeyDecomp * GKeyParameters => out_window_ok (snd st)))
    by (try assumption; try lia; apply ring_writer_sequential).
  cbn [cb_or_all].
  set (W := ring_window (history d) (read_offset d) (read_size d)).
  destruct ring_writer_sequential as [Hcb _].
  specialize (Hcb (d, p) W Hout).
  destruct (ring_writer_shape d p W) as (ot & mem & ob & os & m & E & _).
  rewrite E in Hcb |- *. cbn [fst snd] in Hcb. destruct Hcb as [Hout' Hm].
  unfold W in Hm. rewrite length_ring_window in Hm. fold W in Hm.
  cbn [obind set_history set_out_total read_size].
  destruct (Z.geb_spec m (read_size d)) as [Hall|Hpart].
  - eexists. split; [reflexivity|]. dstep_simpl.
    split; [split; [|exact I]|intros _ _; lia].
    apply decomp_base_out; try assumption. apply ring_append_wf, Hwf.
  - eexists. split; [reflexivity|]. dstep_simpl.
    split; [split|intros Habs; discriminate].
    + apply (decomp_base_out k d p ot mem ob os); try assumption.
      apply ring_append_wf, Hwf.
    + unfold copy_range_ok. lia.
Qed.

Lemma case_GetSize_total (k : Z) status stop d p :
  decomp_ok k GKeyDecompState_GetSize d p ->
  exists r,
    case_GetSize status stop d p = Some r
    /\ decomp_step k r (decomp_bits d p + 1).
Proof.
  intros [Hbase Hro].
  pose proof Hbase as (Hk & Hkr & Hwf & Hnb & Hin & Hout).
  unfold case_GetSize.
  destruct (read_bits_base k d p
              (GKey_get_read_size_bits (history_log_2 d) (read_offset d))
              Hbase)
    as (ok & out & ib & isz & it & a & nb & E & Hbase' & Hout0 & HB).
  { apply size_bits_nonneg. lia. }
  rewrite E. clear E.
  pose proof (size_bits_nonneg (history_log_2 d) (read_offset d)
                ltac:(lia)) as Hsb.
  destruct ok.
  - cbn [read_offset set_input history_log_2].
    rewrite Hk, shiftl_1 by lia.
    destruct (Z.eqb_spec out 0) as [Hz|Hnz]; cbn [orb].
    + eexists. split; [reflexivity|]. dstep_simpl.
      split; [split; assumption|intros Habs; discriminate].
    + destruct (Z.gtb_spec (read_offset d + out) (2 ^ k)) as [Hbig|Hfit].
      * eexists. split; [reflexivity|]. dstep_simpl.
        split; [split; assumption|intros Habs; discriminate].
      * destruct (case_CopyData_total k status stop
                    (set_read_size (set_input d it a nb) out)
                    (mkParams (in_mem p) ib isz (out_mem p) (out_buffer p)
                       (out_size p) (prog_cb p))) as (r & Er & Hs).
        { split; [exact Hbase'|].
          unfold copy_range_ok.
          cbn [set_read_size set_input read_offset read_size]. lia. }
        exists r. split; [exact Er|].
        eapply decomp_step_weaken; [exact Hs|].
        unfold decomp_bits in *.
        cbn [set_read_size set_input acc_nbits in_size]. lia.
  - eexists. split; [reflexivity|]. dstep_simpl.
    split; [split; assumption|intros Habs; discriminate].
Qed.

Lemma case_GetOffset_total (k : Z) status stop d p :
  decomp_base k d p ->
  exists r,
    case_GetOffset status stop d p = Some r
    /\ decomp_step k r (decomp_bits d p + 1).
Proof.
  intros Hbase.
  pose proof Hbase as (Hk & Hkr & Hwf & Hnb & Hin & Hout).
  unfold case_GetOffset.
  destruct (read_bits_base k d p (history_log_2 d) Hbase)
    as (ok & out & ib & isz & it & a & nb & E & Hbase' & Hout0 & HB);
    [lia|].
  rewrite E. clear E.
  destruct ok.
  - destruct (case_GetSize_total k status stop
                (set_read_offset (set_input d it a nb) out)
                (mkParams (in_mem p) ib isz (out_mem p) (out_buffer p)
                   (out_size p) (prog_cb p))) as (r & Er & Hs).
    { split; [exact Hbase'|].
      cbn [set_read_offset set_input read_offset]. exact Hout0. }
    exists r. split; [exact Er|].
    eapply decomp_step_weaken; [exact Hs|].
    unfold decomp_bits in *.
    cbn [set_read_offset set_input acc_nbits in_size]. lia.
  - eexists. split; [reflexivity|]. dstep_simpl.
    split; [split; [assumption|exact I]|intros Habs; discriminate].
Qed.

Lemma case_GetType_total (k : Z) status stop d p :
  decomp_base k d p ->
  exists r,
    case_GetType status stop d p = Some r
    /\ decomp_step k r (decomp_bits d p).
Proof.
  intros Hbase.
  pose proof Hbase as (Hk & Hkr & Hwf & Hnb & Hin & Hout).
  unfold case_GetType.
  destruct (read_bits_base k d p 1 Hbase)
    as (ok & out & ib & isz & it & a & nb & E & Hbase' & Hout0 & HB);
    [lia|].
  rewrite E. clear E.
  destruct ok.
  - destruct (negb (out =? 0)).
    + destruct (case_GetOffset_total k status stop (set_input d it a nb)
                  (mkParams (in_mem p) ib isz (out_mem p) (out_buffer p)
                     (out_size p) (prog_cb p)) Hbase') as (r & Er & Hs).
      exists r. split; [exact Er|].
      eapply decomp_step_weaken; [exact Hs|].
      unfold decomp_bits in *. cbn [set_input acc_nbits in_size]. lia.
    + eexists. split; [reflexivity|]. dstep_simpl.
      split; [split; [assumption|exact I]|intros _ _].
      unfold decomp_bits in HB. lia.
  - eexists. split; [reflexivity|]. dstep_simpl.
    split; [split; [assumption|exact I]|intros _ Habs; discriminate].
Qed.

Lemma case_Progress_total_dec (k : Z) status stop d p :
  decomp_base k d p ->
  exists r,
    case_Progress status stop d p = Some r
    /\ decomp_step k r (decomp_bits d p).
Proof.
  intros Hbase. unfold case_Progress.
  destruct (prog_cb p) as [cb|];
    [destruct (cb (in_total d) (out_total d))|];
    try (apply case_GetType_total; assumption).
  eexists. split; [reflexivity|]. dstep_simpl.
  split; [split; [assumption|exact I]|intros Habs; discriminate].
Qed.

Lemma case_PutByte_total_dec (k : Z) status stop d p :
  decomp_base k d p ->
  exists r,
    case_PutByte status stop d p = Some r
    /\ decomp_step k r (decomp_bits d p + 1).
Proof.
  intros Hbase.
  pose proof Hbase as (Hk & Hkr & Hwf & Hnb & Hin & Hout).
  unfold case_PutByte.
  destruct ring_writer_sequential as [Hcb _].
  specialize (Hcb (d, p) [literal d] Hout).
  destruct (ring_writer_shape d p [literal d])
    as (ot & mem & ob & os & m & E & _).
  rewrite E in Hcb |- *. cbn [fst snd] in Hcb. destruct Hcb as [Hout' Hm].
  destruct (Z.eqb_spec m 1) as [Hone|Hnone].
  - cbn [history set_out_total literal].
    rewrite (RingBuffer_write_spec k)
      by (try assumption; try lia; cbn [length]; lia).
    cbn [obind]. eexists. split; [reflexivity|]. dstep_simpl.
    split; [split; [|exact I]|intros _ _; lia].
    apply decomp_base_out; try assumption. apply ring_append_wf, Hwf.
  - eexists. split; [reflexivity|]. dstep_simpl.
    split; [split; [|exact I]|intros Habs; discriminate].
    unfold decomp_base. cbn [set_out_total history_log_2 history acc_nbits].
    split; [exact Hk|]. split; [exact Hkr|]. split; [exact Hwf|].
    split; [exact Hnb|]. split; [exact Hin | exact Hout'].
Qed.

Lemma case_GetByte_total (k : Z) status stop d p :
  decomp_base k d p ->
  exists r,
    case_GetByte status stop d p = Some r
    /\ decomp_step k r (decomp_bits d p).
Proof.
  intros Hbase.
  pose proof Hbase as (Hk & Hkr & Hwf & Hnb & Hin & Hout).
  unfold case_GetByte.
  destruct (read_bits_base k d p CHAR_BIT Hbase)
    as (ok & out & ib & isz & it & a & nb & E & Hbase' & Hout0 & HB);
    [unfold CHAR_BIT; lia|].
  rewrite E. clear E.
  destruct ok.
  - destruct (case_PutByte_total_dec k status stop
                (set_literal (set_input d it a nb) (byte.of_Z out))
                (mkParams (in_mem p) ib isz (out_mem p) (out_buffer p)
                   (out_size p) (prog_cb p)) Hbase') as (r & Er & Hs).
    exists r. split; [exact Er|].
    eapply decomp_step_weaken; [exact Hs|].
    unfold decomp_bits, CHAR_BIT in *.
    cbn [set_literal set_input acc_nbits in_size]. lia.
  - destruct (acc (set_input d it a nb) =? 0);
      (eexists; split; [reflexivity|]); dstep_simpl;
      (split; [split; [assumption|exact I]|]).
    + intros _ Habs; discriminate.
    + intros Habs; discriminate.
Qed.

Lemma switch_total_dec (k : Z) st d p :
  decomp_ok k st d p ->
  exists r,
    switch st GKeyStatus_OK false d p = Some r
    /\ decomp_step k r (decomp_potential st d p).
Proof.
  intros Hok. pose proof Hok as [Hbase Hst].
  destruct st; cbn [switch]; unfold decomp_potential.
  - rewrite Z.add_0_r. apply case_Progress_total_dec, Hbase.
  - rewrite Z.add_0_r. apply case_GetType_total, Hbase.
  - apply case_GetOffset_total, Hbase.
  - apply case_GetSize_total, Hok.
  - apply case_CopyData_total, Hok.
  - rewrite Z.add_0_r. apply case_GetByte_total, Hbase.
  - apply case_PutByte_total_dec, Hbase.
Qed.

Lemma decomp_potential_nonneg (k : Z) st d p :
  decomp_ok k st d p -> 0 <= decomp_potential st d p.
Proof.
  intros [(_ & _ & _ & Hnb & (_ & Hi & _) & _) _].
  unfold decomp_potential, decomp_bits, CHAR_BIT. destruct st; lia.
Qed.

Lemma decompress_loop_total (k : Z) (fuel : nat) :
  forall st d p,
    decomp_ok k st d p ->
    decomp_potential st d p < Z.of_nat fuel ->
    exists r,
      decompress_loop fuel st d p = Some r
      /\ decomp_ok k (p_state r) (p_decomp r) (p_params r).
Proof.
  induction fuel as [|fuel IH]; intros st d p Hok Hpot.
  - pose proof (decomp_potential_nonneg k st d p Hok). lia.
  - cbn [decompress_loop].
    destruct (switch_total_dec k st d p Hok) as (r1 & E & Hok1 & Hdec).
    rewrite E. cbn [obind].
    destruct (GKeyStatus_eqb (p_status r1) GKeyStatus_OK && negb (p_stop r1))
      eqn:Hgo.
    + apply andb_true_iff in Hgo. destruct Hgo as [Hs Hi].
      apply status_eqb_OK in Hs. apply negb_true_iff in Hi.
      specialize (Hdec Hs Hi).
      apply IH; [exact Hok1 | lia].
    + exists r1. split; [reflexivity | exact Hok1].
Qed.

(** A call on a well-formed decompressor and parameter block returns, and
    leaves the decompressor well formed for the parameter block it
    returns. *)
Lemma decompress_total (k : Z) (d : GKeyDecomp) (p : GKeyParameters) :
  decomp_wf k d p ->
  exists s d' p',
    gkeydecomp_decompress d p = Some (s, d', p') /\ decomp_wf k d' p'.
Proof.
  intros Hok. unfold gkeydecomp_decompress.
  pose proof Hok as [(_ & _ & _ & Hnb & (_ & Hi & _) & _) _].
  destruct (decompress_loop_total k (decompress_fuel d p) (state d) d p Hok)
    as (r & E & Hok').
  - unfold decompress_fuel, decomp_potential, decomp_bits, CHAR_BIT.
    destruct (state d); lia.
  - rewrite E. cbn [obind].
    exists (p_status r), (set_state (p_decomp r) (p_state r)), (p_params r).
    split; [reflexivity|]. exact Hok'.
Qed.

Lemma decomp_make_wf (k : Z) (p : GKeyParameters) :
  0 <= k <= MaxHistoryLog2 -> in_window_ok p -> out_window_ok p ->
  decomp_wf k (gkeydecomp_make k) p.
Proof.
  intros Hk Hin Hout.
  unfold decomp_wf, decomp_ok, decomp_base, gkeydecomp_make.
  cbn [state history_log_2 history acc_nbits].
  split; [|exact I].
  split; [reflexivity|]. split; [lia|]. split; [apply ring_make_wf; lia|].
  split; [lia|]. split; assumption.
Qed.

End DecoderTotal.

(** ** The accounting of a call *)

Section CallAccounting.

Lemma stream_params_ok (X : list byte) (room : Z) :
  0 <= room ->
  in_window_ok (stream_params X room) /\ out_window_ok (stream_params X room).
Proof.
  intros Hr. unfold in_window_ok, out_window_ok, stream_params.
  cbn [in_buffer in_size in_mem out_buffer out_size out_mem].
  rewrite repeat_length. lia.
Qed.

(** C10: a call of [gkeycomp_compress] or [gkeydecomp_decompress] that
    returns has advanced [in_buffer] by what it took from [in_size], which
    is what [in_total] gained; and with an output buffer it has advanced
    [out_buffer] by what it took from [out_size], which is what [out_total]
    gained (without one, [out_size] has grown by what [out_total] gained).
    On well-formed codecs and parameter blocks the calls do return. *)
Theorem call_accounting (k : Z) (c : GKeyComp.GKeyComp)
    (d : GKeyDecomp.GKeyDecomp) (p : GKeyParameters) :
  (forall s c' p',
      GKeyComp.gkeycomp_compress c p = Some (s, c', p') ->
      comp_accounted c p c' p')
  /\ (forall s d' p',
         GKeyDecomp.gkeydecomp_decompress d p = Some (s, d', p') ->
         decomp_accounted d p d' p')
  /\ (comp_wf k c p ->
      exists s c' p', GKeyComp.gkeycomp_compress c p = Some (s, c', p'))
  /\ (decomp_wf k d p ->
      exists s d' p', GKeyDecomp.gkeydecomp_decompress d p = Some (s, d', p')).
Proof.
  split; [|split; [|split]].
  - intros s c' p'. apply compress_accounted.
  - intros s d' p'. apply decompress_accounted.
  - intros Hwf.
    destruct (compress_total k c p Hwf) as (s & c' & p' & E & _).
    exists s, c', p'. exact E.
  - intros Hwf.
    destruct (decompress_total k d p Hwf) as (s & d' & p' & E & _).
    exists s, d', p'. exact E.
Qed.

Lemma call_accounting_witness :
  (exists s c' p',
      GKeyComp.gkeycomp_compress (GKeyComp.gkeycomp_make 2)
        (stream_params [Byte.x61; Byte.x62] 4) = Some (s, c', p')
      /\ comp_accounted (GKeyComp.gkeycomp_make 2)
           (stream_params [Byte.x61; Byte.x62] 4) c' p')
  /\ (exists s d' p',
         GKeyDecomp.gkeydecomp_decompress (GKeyDecomp.gkeydecomp_make 2)
           (stream_params [Byte.x61; Byte.x62] 4) = Some (s, d', p')
         /\ decomp_accounted (GKeyDecomp.gkeydecomp_make 2)
              (stream_params [Byte.x61; Byte.x62] 4) d' p').
Proof.
  assert (Hk : 0 <= 2 <= MaxHistoryLog2)
    by (unfold MaxHistoryLog2, ULongMinBit, CHAR_BIT; lia).
  destruct (stream_params_ok [Byte.x61; Byte.x62] 4 ltac:(lia)) as [Hin Hout].
  destruct (call_accounting 2 (GKeyComp.gkeycomp_make 2)
              (GKeyDecomp.gkeydecomp_make 2)
              (stream_params [Byte.x61; Byte.x62] 4))
    as (A1 & A2 & A3 & A4).
  split.
  - destruct (A3 (comp_make_wf 2 _ Hk Hin)) as (s & c' & p' & E).
    exists s, c', p'. split; [exact E | exact (A1 s c' p' E)].
  - destruct (A4 (decomp_make_wf 2 _ Hk Hin Hout)) as (s & d' & p' & E).
    exists s, d', p'. split; [exact E | exact (A2 s d' p' E)].
Defined.

End CallAccounting.

(** ** The search of an empty range *)

Section EmptySearch.

(** C6: on a fresh ring of capacity 2, the search for the byte 0 in the empty
    range ([n = 0]) at offset 0 returns 0, and at offset 2 it returns 2 (the
    capacity), where a scan of the empty range finds nothing ([memchr]
    gives no position) and the same call on a ring whose write position has
    wrapped returns [SIZE_MAX]. *)
Theorem find_char_empty_range :
  ring_wf 1 (RingBuffer_make 1)
  /\ RingBuffer_find_char (RingBuffer_make 1) 0 0 0 = 0
  /\ RingBuffer_find_char (RingBuffer_make 1) 2 0 0 = 2
  /\ size (RingBuffer_make 1) = 2
  /\ memchr (buffer (RingBuffer_make 1)) 0 0 0 = None
  /\ RingBuffer_find_char (mkRing 2 0 true 1 [Byte.x00; Byte.x00]) 0 0 0
     = SIZE_MAX.
Proof.
  split; [apply ring_make_wf; lia|].
  repeat split; vm_compute; reflexivity.
Qed.

End EmptySearch.

(** ** Bit strings as numbers *)

Section Bits.

Lemma pow2_pos (n : Z) : 0 <= n -> 0 < 2 ^ n.
Proof. intros. apply Z.pow_pos_nonneg; lia. Qed.

Lemma pow2_add (a b : Z) : 0 <= a -> 0 <= b -> 2 ^ (a + b) = 2 ^ a * 2 ^ b.
Proof. intros. apply Z.pow_add_r; assumption. Qed.

(** Bits put above the bits of [a] add up. *)
Lemma lor_shiftl_add (a b n : Z) :
  0 <= n -> 0 <= a < 2 ^ n -> Z.lor a (Z.shiftl b n) = a + b * 2 ^ n.
Proof.
  intros Hn Ha.
  rewrite <- Z.shiftl_mul_pow2 by assumption.
  rewrite <- Z.add_lor_land.
  replace (Z.land a (Z.shiftl b n)) with 0; [lia|].
  symmetry. apply Z.bits_inj'. intros i Hi.
  rewrite Z.land_spec, Z.bits_0.
  destruct (Z.ltb_spec i n) as [Hlt|Hge].
  - rewrite Z.shiftl_spec_low by assumption. apply andb_false_r.
  - replace a with (a mod 2 ^ n) by (apply Z.mod_small; assumption).
    rewrite Z.mod_pow2_bits_high by lia. reflexivity.
Qed.

Lemma le_combine_cons_add (b : byte) (l : list byte) :
  le_combine (b :: l) = byte.unsigned b + 256 * le_combine l.
Proof.
  change (le_combine (b :: l))
    with (Z.lor (byte.unsigned b) (Z.shiftl (le_combine l) 8)).
  rewrite lor_shiftl_add; [lia|lia|].
  pose proof (byte.unsigned_range b) as H. change (2 ^ 8) with 256. lia.
Qed.

Lemma le_combine_app_add (l1 l2 : list byte) :
  le_combine (l1 ++ l2)
  = le_combine l1 + le_combine l2 * 2 ^ (8 * Z.of_nat (length l1)).
Proof.
  rewrite le_combine_app.
  replace (Z.of_nat (length l1) * 8) with (8 * Z.of_nat (length l1)) by lia.
  apply lor_shiftl_add; [lia|]. apply le_combine_bound.
Qed.

Lemma le_combine_snoc_add (l : list byte) (b : byte) :
  le_combine (l ++ [b])
  = le_combine l + byte.unsigned b * 2 ^ (8 * Z.of_nat (length l)).
Proof.
  rewrite le_combine_app_add. f_equal. f_equal.
  rewrite le_combine_cons_add. change (le_combine []) with 0. lia.
Qed.

Lemma unsigned_of_Z_mod (a : Z) : byte.unsigned (byte.of_Z a) = a mod 256.
Proof. rewrite byte.unsigned_of_Z. reflexivity. Qed.

Lemma ulong_small (z : Z) : 0 <= z < 2 ^ 32 -> ulong z = z.
Proof. intros H. unfold ulong, ULongMinBit. apply Z.mod_small. exact H. Qed.

End Bits.

(** ** What [write_bits] puts *)

Section WriteBits.
Import GKeyComp.

Lemma firstn_mem_write_1 (mem : list byte) (ob : Z) (b : byte) :
  0 <= ob < Z.of_nat (length mem) ->
  firstn (Z.to_nat (ob + 1)) (mem_write mem ob [b])
  = firstn (Z.to_nat ob) mem ++ [b].
Proof.
  intros Hob. unfold mem_write.
  rewrite firstn_app, length_firstn.
  replace (Init.Nat.min (Z.to_nat ob) (length mem)) with (Z.to_nat ob) by lia.
  rewrite firstn_firstn.
  replace (Init.Nat.min (Z.to_nat (ob + 1)) (Z.to_nat ob)) with (Z.to_nat ob)
    by lia.
  f_equal.
  replace (Z.to_nat (ob + 1) - Z.to_nat ob)%nat with 1%nat by lia.
  reflexivity.
Qed.

(** The loop of [write_bits] stores the [q] whole bytes of an accumulator
    of [8 * q + r] bits, when there is room for them. *)
Lemma write_bits_loop_flush (fuel : nat) :
  forall q mem ob os ot a r,
    0 <= q -> 0 <= r < 8 -> 0 <= a < 2 ^ (8 * q + r) ->
    0 <= ob -> ob + os <= Z.of_nat (length mem) -> q <= os ->
    (Z.to_nat q <= fuel)%nat ->
    exists mem' a',
      write_bits_loop fuel mem (Some ob) os ot a (8 * q + r)
      = (true, (mem', Some (ob + q), os - q, ot + q, a', r))
      /\ 0 <= a' < 2 ^ r
      /\ length mem' = length mem
      /\ le_combine (firstn (Z.to_nat (ob + q)) mem') + a' * 2 ^ (8 * (ob + q))
         = le_combine (firstn (Z.to_nat ob) mem) + a * 2 ^ (8 * ob).
Proof.
  induction fuel as [|fuel IH]; intros q mem ob os ot a r Hq Hr Ha Hob Hfit
    Hroom Hfuel.
  - assert (q = 0) as -> by lia.
    exists mem, a. cbn [write_bits_loop].
    rewrite !Z.add_0_r, Z.sub_0_r in *. cbn [Z.mul] in *.
    rewrite Z.add_0_l in *. repeat split; try lia.
  - cbn [write_bits_loop]. unfold CHAR_BIT.
    destruct (Z.geb_spec (8 * q + r) 8) as [Hge|Hlt].
    + assert (Hq1 : 1 <= q) by lia.
      destruct (Z.eqb_spec os 0) as [Habs|_]; [lia|].
      destruct (IH (q - 1) (mem_write mem ob [byte.of_Z a]) (ob + 1) (os - 1)
                  (ot + 1) (Z.shiftr a 8) r) as (mem' & a' & E & Ha' & Hl & Hv);
        try lia.
      { rewrite Z.shiftr_div_pow2 by lia.
        split; [apply Z.div_pos; lia|].
        apply Z.div_lt_upper_bound; [lia|].
        rewrite <- pow2_add by lia.
        replace (8 + (8 * (q - 1) + r)) with (8 * q + r) by lia. lia. }
      { rewrite length_mem_write by (cbn [length]; lia). lia. }
      replace (8 * q + r - 8) with (8 * (q - 1) + r) by lia.
      rewrite E. exists mem', a'.
      replace (ob + 1 + (q - 1)) with (ob + q) in * by lia.
      replace (os - 1 - (q - 1)) with (os - q) by lia.
      replace (ot + 1 + (q - 1)) with (ot + q) by lia.
      split; [reflexivity|]. split; [exact Ha'|].
      split; [rewrite Hl; apply length_mem_write; cbn [length]; lia|].
      rewrite Hv.
      rewrite firstn_mem_write_1 by lia.
      rewrite le_combine_snoc_add, unsigned_of_Z_mod.
      rewrite length_firstn.
      replace (Z.of_nat (Init.Nat.min (Z.to_nat ob) (length mem))) with ob
        by lia.
      rewrite Z.shiftr_div_pow2 by lia. change (2 ^ 8) with 256.
      replace (8 * (ob + 1)) with (8 * ob + 8) by lia.
      rewrite pow2_add by lia. change (2 ^ 8) with 256.
      pose proof (Z.div_mod a 256 ltac:(lia)) as Hdm.
      nia.
    + assert (q = 0) as -> by lia.
      exists mem, a.
      rewrite !Z.add_0_r, Z.sub_0_r in *. cbn [Z.mul] in *.
      rewrite Z.add_0_l in *. repeat split; try lia.
Qed.

Lemma uint_max_val : UINT_MAX = 4294967295.
Proof. reflexivity. Qed.

(** [write_bits] appends [n] bits to the bit string put so far, when the
    output block has room for the string. *)
Lemma write_bits_put (M : Z) (c : GKeyComp) (p : GKeyParameters)
    (v l n bits : Z) :
  comp_out M c p v l -> l <= 8 * M -> 0 <= n <= 25 -> 0 <= bits < 2 ^ n ->
  exists ot a nb mem ob os,
    write_bits c p n bits
    = (true, set_output c ot a nb,
       mkParams (in_mem p) (in_buffer p) (in_size p) mem ob os (prog_cb p))
    /\ comp_out M (set_output c ot a nb)
         (mkParams (in_mem p) (in_buffer p) (in_size p) mem ob os (prog_cb p))
         (v + bits * 2 ^ l) (l + n).
Proof.
  intros (ob & Hob & Hob0 & Hos0 & HM & Hlen & Hnb & Ha & Hv & Hl) Hroom Hn
    Hbits.
  unfold write_bits.
  destruct (Z.eqb_spec n UINT_MAX) as [Habs|_];
    [rewrite uint_max_val in Habs; lia|].
  pose proof (Z.div_mod (acc_nbits c) 8 ltac:(lia)) as Hdm.
  pose proof (Z.mod_pos_bound (acc_nbits c) 8 ltac:(lia)) as Hr.
  set (q := acc_nbits c / 8) in *. set (r := acc_nbits c mod 8) in *.
  assert (Hq : 0 <= q) by lia.
  destruct (write_bits_loop_flush (Z.to_nat (8 * q + r)) q (out_mem p) ob
              (out_size p) (out_total c) (acc c) r)
    as (mem' & a' & E & Ha' & Hlen' & Hv'); try lia.
  { rewrite <- Hdm. exact Ha. }
  cbv beta iota zeta. rewrite Hob, Hdm, E.
  assert (Hsum : 0 <= a' + bits * 2 ^ r < 2 ^ (r + n)).
  { rewrite pow2_add by lia.
    pose proof (pow2_pos r ltac:(lia)). nia. }
  assert (Hacc : ulong (Z.lor a' (Z.shiftl bits r)) = a' + bits * 2 ^ r).
  { rewrite lor_shiftl_add by lia. apply ulong_small.
    split; [lia|].
    apply Z.lt_le_trans with (2 ^ (r + n)); [lia|].
    apply Z.pow_le_mono_r; lia. }
  rewrite Hacc.
  eexists _, _, _, _, _, _. split; [reflexivity|].
  exists (ob + q).
  unfold written.
  cbn [out_buffer out_size out_mem set_output acc acc_nbits].
  split; [reflexivity|]. split; [lia|]. split; [lia|]. split; [lia|].
  split; [lia|]. split; [lia|]. split; [exact Hsum|].
  split; [|lia].
  unfold written in Hv. rewrite Hob in Hv.
  rewrite Z.mul_add_distr_r.
  rewrite Z.add_assoc, Hv', Hv.
  replace l with (8 * (ob + q) + r) by lia.
  rewrite (pow2_add (8 * (ob + q)) r) by lia.
  lia.
Qed.

(** The flushing call stores the whole bit string, padded with zero bits
    to a whole number of bytes. *)
Lemma write_bits_flush (M : Z) (c : GKeyComp) (p : GKeyParameters) (v l : Z) :
  comp_out M c p v l -> l <= 8 * M ->
  exists ot mem ob os,
    write_bits c p UINT_MAX 0
    = (true, set_output c ot 0 0,
       mkParams (in_mem p) (in_buffer p) (in_size p) mem (Some ob) os
         (prog_cb p))
    /\ le_combine (firstn (Z.to_nat ob) mem) = v
    /\ l <= 8 * ob < l + 8
    /\ 0 <= ob <= Z.of_nat (length mem).
Proof.
  intros (ob & Hob & Hob0 & Hos0 & HM & Hlen & Hnb & Ha & Hv & Hl) Hroom.
  unfold write_bits. rewrite Z.eqb_refl. unfold CHAR_BIT.
  pose proof (Z.div_mod (acc_nbits c) 8 ltac:(lia)) as Hdm.
  pose proof (Z.mod_pos_bound (acc_nbits c) 8 ltac:(lia)) as Hr.
  set (nb1 := if negb (acc_nbits c mod 8 =? 0)
              then acc_nbits c + (8 - acc_nbits c mod 8)
              else acc_nbits c).
  assert (Hq : exists q, nb1 = 8 * q + 0 /\ 0 <= q
                         /\ acc_nbits c <= 8 * q < acc_nbits c + 8).
  { unfold nb1.
    destruct (Z.eqb_spec (acc_nbits c mod 8) 0) as [Hz|Hnz]; cbn [negb].
    - exists (acc_nbits c / 8). lia.
    - exists (acc_nbits c / 8 + 1). lia. }
  destruct Hq as (q & Hnb1 & Hq0 & Hqr).
  destruct (write_bits_loop_flush (Z.to_nat (8 * q + 0)) q (out_mem p) ob
              (out_size p) (out_total c) (acc c) 0)
    as (mem' & a' & E & Ha' & Hlen' & Hv'); try lia.
  { split; [lia|].
    apply Z.lt_le_trans with (2 ^ acc_nbits c); [lia|].
    apply Z.pow_le_mono_r; lia. }
  fold nb1. cbv beta iota zeta. rewrite Hob, Hnb1, E.
  assert (a' = 0) as -> by (change (2 ^ 0) with 1 in Ha'; lia).
  change (ulong (Z.lor 0 (Z.shiftl 0 0))) with 0.
  eexists _, _, _, _. split; [reflexivity|].
  unfold written in Hv. rewrite Hob in Hv.
  split; [lia|]. split; [lia|]. lia.
Qed.

End WriteBits.

(** ** Token streams *)

Section Tokens.

Lemma size_bits_le (k ro : Z) : GKey_get_read_size_bits k ro <= k.
Proof.
  unfold GKey_get_read_size_bits. destruct (_ && _); lia.
Qed.

Lemma token_len_nonneg (k : Z) (t : token) :
  0 <= k -> 0 <= snd (token_bits k t).
Proof.
  intros Hk. destruct t as [b|off len]; cbn [token_bits snd]; [lia|].
  pose proof (size_bits_nonneg k off Hk). lia.
Qed.

Lemma tokens_len_nonneg (k : Z) (ts : list token) :
  0 <= k -> 0 <= snd (tokens_bits k ts).
Proof.
  intros Hk. induction ts as [|t ts IH]; cbn [tokens_bits bits_app snd];
    [lia|].
  pose proof (token_len_nonneg k t Hk). lia.
Qed.

Lemma bits_app_nil_r (b : Z * Z) : bits_app b (0, 0) = b.
Proof.
  destruct b as [v l]. unfold bits_app. cbn [fst snd]. f_equal; lia.
Qed.

Lemma bits_app_assoc (b1 b2 b3 : Z * Z) :
  0 <= snd b1 -> 0 <= snd b2 ->
  bits_app (bits_app b1 b2) b3 = bits_app b1 (bits_app b2 b3).
Proof.
  intros H1 H2. unfold bits_app. cbn [fst snd].
  rewrite pow2_add by assumption. f_equal; lia.
Qed.

Lemma tokens_bits_app (k : Z) (ts1 ts2 : list token) :
  0 <= k ->
  tokens_bits k (ts1 ++ ts2)
  = bits_app (tokens_bits k ts1) (tokens_bits k ts2).
Proof.
  intros Hk. induction ts1 as [|t ts1 IH]; cbn [app tokens_bits].
  - unfold bits_app. cbn [fst snd]. change (2 ^ 0) with 1.
    destruct (tokens_bits k ts2) as [v l]. cbn [fst snd]. f_equal; lia.
  - rewrite IH. symmetry. apply bits_app_assoc.
    + apply token_len_nonneg, Hk.
    + apply tokens_len_nonneg, Hk.
Qed.

Lemma tokens_out_app (ts1 ts2 : list token) :
  forall r,
    tokens_out r (ts1 ++ ts2)
    = tokens_out r ts1
      ++ tokens_out (ring_append r (tokens_out r ts1)) ts2.
Proof.
  induction ts1 as [|t ts1 IH]; intros r; cbn [app tokens_out].
  - reflexivity.
  - rewrite IH, <- app_assoc, ring_append_app. reflexivity.
Qed.

Lemma literals_out (l : list byte) :
  forall r, tokens_out r (map TLit l) = l.
Proof.
  induction l as [|b l IH]; intros r; cbn [map tokens_out token_out app].
  - reflexivity.
  - rewrite IH. reflexivity.
Qed.

Lemma literals_len (k : Z) (l : list byte) :
  snd (tokens_bits k (map TLit l)) = 9 * Z.of_nat (length l).
Proof.
  induction l as [|b l IH]; cbn [map tokens_bits bits_app token_bits snd
    length]; [reflexivity|].
  rewrite IH. lia.
Qed.

Lemma literals_ok (k : Z) (l : list byte) : Forall (token_ok k) (map TLit l).
Proof.
  induction l as [|b l IH]; cbn [map]; constructor; [exact I | exact IH].
Qed.

End Tokens.

(** ** The tokens the compressor puts *)

Section EncoderEmit.
Import GKeyComp.

Lemma write_bits_app (M : Z) (c : GKeyComp) (p : GKeyParameters)
    (B : Z * Z) (n bits : Z) :
  comp_holds M c p B -> snd B <= 8 * M -> 0 <= n <= 25 ->
  0 <= bits < 2 ^ n ->
  exists ot a nb mem ob os,
    write_bits c p n bits
    = (true, set_output c ot a nb,
       mkParams (in_mem p) (in_buffer p) (in_size p) mem ob os (prog_cb p))
    /\ comp_holds M (set_output c ot a nb)
         (mkParams (in_mem p) (in_buffer p) (in_size p) mem ob os (prog_cb p))
         (bits_app B (bits, n)).
Proof.
  intros Hc Hroom Hn Hbits.
  destruct (write_bits_put M c p (fst B) (snd B) n bits Hc Hroom Hn Hbits)
    as (ot & a & nb & mem & ob & os & E & Hc').
  exists ot, a, nb, mem, ob, os. split; [exact E|].
  unfold comp_holds, bits_app. cbn [fst snd].
  replace (fst B + 2 ^ snd B * bits) with (fst B + bits * 2 ^ snd B) by lia.
  exact Hc'.
Qed.

Lemma comp_holds_len (M : Z) (c : GKeyComp) (p : GKeyParameters)
    (B : Z * Z) :
  comp_holds M c p B -> 0 <= snd B.
Proof.
  intros (ob & _ & Hob & _ & _ & _ & Hnb & _ & _ & Hl). lia.
Qed.

Lemma literal_bits (b : byte) :
  Z.shiftl (byte.unsigned b) 1 = 2 * byte.unsigned b
  /\ 0 <= 2 * byte.unsigned b < 2 ^ 9.
Proof.
  pose proof (byte.unsigned_range b) as H. change (2 ^ 8) with 256 in H.
  rewrite Z.shiftl_mul_pow2 by lia. change (2 ^ 1) with 2.
  change (2 ^ 9) with 512. lia.
Qed.

(** A run of literals, as the callback puts it. *)
Lemma put_literals (M k : Z) (W : list byte) :
  forall c p B nout,
    comp_holds M c p B -> snd B + 9 * Z.of_nat (length W) <= 8 * M ->
    exists ot a nb mem ob os,
      ring_writer_loop c p W nout
      = (set_output c ot a nb,
         mkParams (in_mem p) (in_buffer p) (in_size p) mem ob os (prog_cb p),
         nout + Z.of_nat (length W))
      /\ comp_holds M (set_output c ot a nb)
           (mkParams (in_mem p) (in_buffer p) (in_size p) mem ob os
              (prog_cb p))
           (bits_app B (tokens_bits k (map TLit W))).
Proof.
  induction W as [|b W IH]; intros c p B nout Hc Hroom.
  - cbn [ring_writer_loop map tokens_bits length].
    exists (out_total c), (acc c), (acc_nbits c), (out_mem p), (out_buffer p),
      (out_size p).
    rewrite set_output_eta, params_eta, bits_app_nil_r.
    split; [f_equal; lia | exact Hc].
  - cbn [ring_writer_loop map tokens_bits]. cbn [length] in Hroom.
    destruct (literal_bits b) as [Hsh Hrange].
    destruct (write_bits_app M c p B (CHAR_BIT + 1)
                (Z.shiftl (byte.unsigned b) 1) Hc)
      as (ot & a & nb & mem & ob & os & E & Hc1).
    { lia. }
    { unfold CHAR_BIT. lia. }
    { unfold CHAR_BIT. rewrite Hsh. exact Hrange. }
    rewrite E.
    destruct (IH _ _ _ (nout + 1) Hc1)
      as (ot' & a' & nb' & mem' & ob' & os' & E' & Hc2).
    { unfold bits_app, CHAR_BIT. cbn [fst snd]. lia. }
    rewrite E'.
    exists ot', a', nb', mem', ob', os'.
    split.
    + cbn [length]. f_equal. lia.
    + cbn [token_bits].
      rewrite <- bits_app_assoc;
        [|apply (comp_holds_len M c p), Hc|cbn [snd]; lia].
      rewrite <- Hsh. exact Hc2.
Qed.

End EncoderEmit.

(** ** Fields of a copy token *)

Section CopyFields.

Lemma mem_read_all (m : list byte) : mem_read m 0 (Z.of_nat (length m)) = m.
Proof.
  unfold mem_read. change (Z.to_nat 0) with O. cbn [skipn].
  rewrite Nat2Z.id. apply firstn_all.
Qed.

Lemma lor_1 (x : Z) : 0 <= x -> Z.lor (Z.shiftl x 1) 1 = 1 + 2 * x.
Proof.
  intros Hx. rewrite Z.lor_comm, lor_shiftl_add by (change (2 ^ 1) with 2; lia).
  change (2 ^ 1) with 2. lia.
Qed.

Lemma size_bits_fits (k off len : Z) :
  0 <= k -> 0 <= off -> 0 < len -> off + len <= 2 ^ k - 1 ->
  len < 2 ^ GKey_get_read_size_bits k off.
Proof.
  intros Hk0 Ho Hl Hfit. unfold GKey_get_read_size_bits.
  destruct (Z.gtb_spec k 0) as [Hpos|Hz]; cbn [andb]; [|lia].
  rewrite shiftl_1 by lia.
  destruct (Z.geb_spec off (2 ^ (k - 1))) as [Hhigh|Hlow]; [|lia].
  replace k with (1 + (k - 1)) in Hfit by lia.
  rewrite pow2_add in Hfit by lia. change (2 ^ 1) with 2 in Hfit. lia.
Qed.

End CopyFields.

(** ** The choice of the token (GKeyComp.c, case [FindSequence]) *)

Section TokenChoice.
Import GKeyComp.

(** C4.  When the search is over (forced by a flush or reported by
    [find_sequence]) with a match of length [read_size > 0] committed, and
    the output block has room, the compressor puts the match as a run of
    tagged literals exactly when
    [read_size * 9 < 1 + k + size_bits k read_offset]: the pass ends in
    state [PutBytes], and the pass of that state appends to the bit string
    put so far one literal token for each byte of the match.  Otherwise,
    equality included, it puts a copy token: the pass falls through the
    cases [PutOffset] and [PutSize], which append the tag bit, the offset
    and the length.  Either way the bytes of the match enter the history. *)
Theorem token_choice (k M : Z) (flush : bool) (state : GKeyCompState)
    (input : bool) (c : GKeyComp) (p : GKeyParameters) (c' : GKeyComp)
    (p' : GKeyParameters) (B : Z * Z) :
  0 <= k <= MaxHistoryLog2 ->
  (if flush then Some (true, c, p) else find_sequence c p)
  = Some (true, c', p') ->
  history_log_2 c' = k -> ring_wf k (history c') ->
  0 <= read_offset c' -> 0 < read_size c' ->
  read_offset c' + read_size c' <= 2 ^ k - 1 ->
  comp_holds M c' p' B -> snd B + 9 * read_size c' <= 8 * M ->
  (read_size c' * 9
   < 1 + k + GKey_get_read_size_bits k (read_offset c') ->
   case_FindSequence flush state GKeyStatus_OK input c p
   = Some (mkPass GKeyStatus_OK GKeyCompState_PutBytes input c' p')
   /\ exists c2 p2,
        switch flush GKeyCompState_PutBytes GKeyStatus_OK input c' p'
        = Some (mkPass GKeyStatus_OK GKeyCompState_NextSequence input c2 p2)
        /\ comp_holds M c2 p2
             (bits_app B
                (tokens_bits k
                   (map TLit
                      (ring_window (history c') (read_offset c')
                         (read_size c')))))
        /\ history c2
           = ring_append (history c')
               (ring_window (history c') (read_offset c') (read_size c')))
  /\ (1 + k + GKey_get_read_size_bits k (read_offset c')
      <= read_size c' * 9 ->
      exists c2 p2,
        case_FindSequence flush state GKeyStatus_OK input c p
        = Some (mkPass GKeyStatus_OK GKeyCompState_NextSequence input c2 p2)
        /\ comp_holds M c2 p2
             (bits_app B
                (token_bits k (TCopy (read_offset c') (read_size c'))))
        /\ history c2
           = ring_append (history c')
               (ring_window (history c') (read_offset c') (read_size c'))).
Proof.
  intros Hk Hfound Hhk Hwf Hro Hrs Hfit Hbits Hroom.
  pose proof Hwf as (_ & Hsz & _).
  assert (Hpk : 0 < 2 ^ k) by (apply pow2_pos; lia).
  pose proof (size_bits_nonneg k (read_offset c') ltac:(lia)) as Hsb0.
  pose proof (comp_holds_len M c' p' B Hbits) as HB0.
  destruct (search_commits flush state input c p c' p' Hfound ltac:(lia))
    as [Hlit Hcopy].
  rewrite Hhk in Hlit, Hcopy.
  set (W := ring_window (history c') (read_offset c') (read_size c')) in *.
  assert (HlW : Z.of_nat (length W) = read_size c').
  { unfold W. rewrite length_ring_window. lia. }
  split; intros Hcost.
  - split; [apply Hlit; exact Hcost|].
    cbn [switch]. unfold case_PutBytes.
    rewrite (RingBuffer_copy_spec k (fun _ => True))
      by (try assumption; try exact I; try lia;
          apply comp_ring_writer_sequential).
    cbn [cb_or_all ring_writer]. fold W.
    destruct (put_literals M k W c' p' B 0 Hbits)
      as (ot & a & nb & mem & ob & os & E & Hc1).
    { rewrite HlW. lia. }
    rewrite E, HlW, Z.add_0_l. cbn [obind].
    rewrite firstn_all2 by lia.
    cbn [set_history read_size set_output].
    destruct (Z.geb_spec (read_size c') (read_size c')) as [_|Habs]; [|lia].
    eexists _, _. split; [reflexivity|]. split; [exact Hc1 | reflexivity].
  - rewrite (Hcopy ltac:(lia)).
    pose proof (size_bits_le k (read_offset c')) as Hsb1.
    pose proof (size_bits_fits k (read_offset c') (read_size c') ltac:(lia)
                  Hro Hrs Hfit) as Hsbf.
    assert (Hkmax : k <= 24)
      by (unfold MaxHistoryLog2, ULongMinBit, CHAR_BIT in Hk; lia).
    assert (Hoff : ulong (Z.shiftl (read_offset c') 1)
                   = Z.shiftl (read_offset c') 1).
    { apply ulong_small. rewrite Z.shiftl_mul_pow2 by lia.
      change (2 ^ 1) with 2. split; [lia|].
      assert (2 ^ k <= 2 ^ 24) by (apply Z.pow_le_mono_r; lia).
      change (2 ^ 24) with 16777216 in *. change (2 ^ 32) with 4294967296.
      lia. }
    unfold case_PutOffset.
    destruct (write_bits_app M c' p' B (history_log_2 c' + 1)
                (Z.lor (ulong (Z.shiftl (read_offset c') 1)) 1) Hbits)
      as (ot & a & nb & mem & ob & os & E & Hc1).
    { lia. }
    { lia. }
    { rewrite Hoff, lor_1, Hhk by lia.
      rewrite pow2_add by lia. change (2 ^ 1) with 2. lia. }
    rewrite E. unfold case_PutSize.
    cbn [history_log_2 read_offset read_size set_output].
    destruct (write_bits_app M _ _ _
                (GKey_get_read_size_bits (history_log_2 c') (read_offset c'))
                (read_size c') Hc1)
      as (ot' & a' & nb' & mem' & ob' & os' & E2 & Hc2).
    { unfold bits_app. cbn [fst snd]. rewrite Hhk. lia. }
    { rewrite Hhk. lia. }
    { rewrite Hhk. lia. }
    rewrite E2.
    cbn [history read_offset read_size set_output].
    rewrite (RingBuffer_copy_all k) by (try assumption; lia).
    cbn [obind]. fold W.
    eexists _, _. split; [reflexivity|]. split; [|reflexivity].
    assert (Htb : bits_app
                    (bits_app B
                       (Z.lor (ulong (Z.shiftl (read_offset c') 1)) 1,
                        history_log_2 c' + 1))
                    (read_size c',
                     GKey_get_read_size_bits (history_log_2 c')
                       (read_offset c'))
                  = bits_app B
                      (token_bits k
                         (TCopy (read_offset c') (read_size c')))).
    { rewrite bits_app_assoc; [|exact HB0 | cbn [snd]; lia].
      f_equal. unfold bits_app. cbn [fst snd token_bits].
      rewrite Hoff, lor_1, Hhk by lia.
      f_equal; lia. }
    rewrite <- Htb. exact Hc2.
Qed.

(** With [k = 4] and a match of one byte at offset 3, both encodings cost 9
    bits: the copy token is put.  With [k = 5] and a match of one byte at
    offset 19 the copy token would cost 10 bits: the literal is put. *)
Lemma token_choice_witness :
  (exists c2 p2,
      case_FindSequence true GKeyCompState_FindSequence GKeyStatus_OK true
        (mkComp GKeyCompState_FindSequence 16 0 0 0 3 1 3 1 0 0 4
           (ring_append (RingBuffer_make 4)
              [Byte.x61; Byte.x62; Byte.x63; Byte.x64; Byte.x65; Byte.x66;
               Byte.x67; Byte.x68; Byte.x69; Byte.x6a; Byte.x6b; Byte.x6c;
               Byte.x6d; Byte.x6e; Byte.x6f; Byte.x70]))
        (stream_params [] 8)
      = Some (mkPass GKeyStatus_OK GKeyCompState_NextSequence true c2 p2)
      /\ comp_holds 8 c2 p2 (39, 9)
      /\ RingBuffer_read_char (history c2) 15 = 100)
  /\ (exists c2 p2,
         switch true GKeyCompState_PutBytes GKeyStatus_OK true
           (mkComp GKeyCompState_FindSequence 16 0 0 0 19 1 19 1 0 0 5
              (ring_append (RingBuffer_make 5)
                 [Byte.x61; Byte.x62; Byte.x63; Byte.x64; Byte.x65; Byte.x66;
                  Byte.x67; Byte.x68; Byte.x69; Byte.x6a; Byte.x6b; Byte.x6c;
                  Byte.x6d; Byte.x6e; Byte.x6f; Byte.x70]))
           (stream_params [] 8)
         = Some (mkPass GKeyStatus_OK GKeyCompState_NextSequence true c2 p2)
         /\ comp_holds 8 c2 p2 (200, 9)
         /\ RingBuffer_read_char (history c2) 31 = 100).
Proof.
  assert (Hk4 : 0 <= 4 <= MaxHistoryLog2)
    by (unfold MaxHistoryLog2, ULongMinBit, CHAR_BIT; lia).
  assert (Hk5 : 0 <= 5 <= MaxHistoryLog2)
    by (unfold MaxHistoryLog2, ULongMinBit, CHAR_BIT; lia).
  assert (Hinit : forall c : GKeyComp,
             acc c = 0 -> acc_nbits c = 0 ->
             comp_holds 8 c (stream_params [] 8) (0, 0)).
  { intros c Ha Hnb. exists 0. rewrite Ha, Hnb.
    repeat split; try reflexivity; try lia; cbn; lia. }
  pose (c4 := mkComp GKeyCompState_FindSequence 16 0 0 0 3 1 3 1 0 0 4
                (ring_append (RingBuffer_make 4)
                   [Byte.x61; Byte.x62; Byte.x63; Byte.x64; Byte.x65;
                    Byte.x66; Byte.x67; Byte.x68; Byte.x69; Byte.x6a;
                    Byte.x6b; Byte.x6c; Byte.x6d; Byte.x6e; Byte.x6f;
                    Byte.x70])).
  pose (c5 := mkComp GKeyCompState_FindSequence 16 0 0 0 19 1 19 1 0 0 5
                (ring_append (RingBuffer_make 5)
                   [Byte.x61; Byte.x62; Byte.x63; Byte.x64; Byte.x65;
                    Byte.x66; Byte.x67; Byte.x68; Byte.x69; Byte.x6a;
                    Byte.x6b; Byte.x6c; Byte.x6d; Byte.x6e; Byte.x6f;
                    Byte.x70])).
  split.
  - destruct (token_choice 4 8 true GKeyCompState_FindSequence true
                c4 (stream_params [] 8) c4 (stream_params [] 8) (0, 0)
                Hk4 eq_refl eq_refl
                (ring_append_wf 4 _ _ (ring_make_wf 4 ltac:(lia)))
                ltac:(cbn; lia) ltac:(cbn; lia) ltac:(cbn; lia)
                (Hinit c4 eq_refl eq_refl) ltac:(cbn; lia))
      as [_ Hcopy].
    destruct (Hcopy ltac:(vm_compute; discriminate))
      as (c2 & p2 & E & Hb & Hh).
    exists c2, p2. split; [exact E|]. split; [exact Hb|].
    rewrite Hh. reflexivity.
  - destruct (token_choice 5 8 true GKeyCompState_FindSequence true
                c5 (stream_params [] 8) c5 (stream_params [] 8) (0, 0)
                Hk5 eq_refl eq_refl
                (ring_append_wf 5 _ _ (ring_make_wf 5 ltac:(lia)))
                ltac:(cbn; lia) ltac:(cbn; lia) ltac:(cbn; lia)
                (Hinit c5 eq_refl eq_refl) ltac:(cbn; lia))
      as [Hlit _].
    destruct (Hlit ltac:(vm_compute; reflexivity))
      as (_ & c2 & p2 & E & Hb & Hh).
    exists c2, p2. split; [exact E|]. split; [exact Hb|].
    rewrite Hh. reflexivity.
Defined.

End TokenChoice.

(** ** The passes of the compressor on a whole input *)

Section EncoderInvariant.
Import GKeyComp.

Variables (k M : Z) (X : list byte).
Hypothesis Hk : 0 <= k <= MaxHistoryLog2.
Hypothesis HM : 9 * Z.of_nat (length X) <= 8 * M.

Lemma case_Flush_inv (c : GKeyComp) (p : GKeyParameters) (r : pass) :
  comp_inv k M X GKeyCompState_Flush c p ->
  case_Flush GKeyStatus_OK true c p = Some r ->
  comp_final k X r.
Proof.
  intros (Hok & Hmem & Hwin & Hcb & Hbase & (ts & Hts & Hout & Hhist & Hbits
          & Hlen) & Hst) Hrun.
  cbn [comp_pending] in *. rewrite Z.sub_0_r in *.
  unfold case_Flush in Hrun.
  destruct (write_bits_flush M c p _ _ Hbits ltac:(lia))
    as (ot & mem & ob & os & E & Hv & Hl & Hob).
  rewrite E in Hrun. injection Hrun as <-.
  split; [reflexivity|].
  exists ts. split; [exact Hts|].
  assert (Hall : in_buffer p = Z.of_nat (length X)) by lia.
  rewrite Hall, mem_read_all in Hout.
  split; [exact Hout|].
  unfold written. cbn [p_params out_buffer out_mem].
  split; [exact Hv|].
  rewrite length_firstn.
  replace (Z.of_nat (Init.Nat.min (Z.to_nat ob) (length mem))) with ob by lia.
  exact Hl.
Qed.

Lemma bits_room (base l : Z) :
  l <= 9 * base -> base <= Z.of_nat (length X) -> l <= 8 * M.
Proof. lia. Qed.

Lemma case_PutByte_inv flush (c : GKeyComp) (p : GKeyParameters) (r : pass) :
  comp_inv k M X GKeyCompState_PutByte c p ->
  case_PutByte GKeyStatus_OK true c p = Some r ->
  comp_goes k M X flush r.
Proof.
  intros (Hok & Hmem & Hwin & Hcb & Hbase & (ts & Hts & Hout & Hhist & Hbits
          & Hlen) & _) Hrun.
  cbn [comp_pending] in *. rewrite Z.sub_0_r in *.
  pose proof Hok as (Hhk & _ & Hwf & Hin & Hpos).
  pose proof Hin as (Hi1 & Hi2 & Hi3).
  destruct (case_PutByte_total k GKeyStatus_OK true c p Hhk ltac:(lia) Hwf
              Hin Hpos) as (r' & E' & Hok' & _).
  rewrite Hrun in E'. injection E' as <-.
  revert Hrun Hok'. unfold case_PutByte. cbv zeta.
  destruct (literal_bits (mem_load (in_mem p) (in_buffer p))) as [Hsh Hrange].
  destruct (write_bits_app M c p _ (CHAR_BIT + 1)
              (Z.shiftl (byte.unsigned (mem_load (in_mem p) (in_buffer p))) 1)
              Hbits)
    as (ot & a & nb & mem & ob & os & E & Hc1).
  { apply (bits_room (in_buffer p)); lia. }
  { unfold CHAR_BIT. lia. }
  { unfold CHAR_BIT. rewrite Hsh. exact Hrange. }
  rewrite E.
  cbn [history set_output in_mem in_buffer in_size in_total out_mem
       out_buffer out_size prog_cb].
  rewrite (RingBuffer_write_spec k) by (try assumption; lia).
  cbn [obind src_read]. intros Hrun Hok'. injection Hrun as <-.
  cbn [p_state p_comp p_params] in Hok'.
  split; [reflexivity|]. split; [|split; intros Habs; discriminate].
  unfold comp_inv.
  cbn [p_state p_comp p_params comp_pending in_mem in_buffer in_size prog_cb
       history set_in_total set_history set_output].
  rewrite Z.sub_0_r.
  split; [exact Hok'|]. split; [exact Hmem|]. split; [lia|].
  split; [exact Hcb|]. split; [lia|]. split; [|exact I].
  exists (ts ++ [TLit (mem_load (in_mem p) (in_buffer p))]).
  assert (Hsplit : mem_read X 0 (in_buffer p + 1)
                   = mem_read X 0 (in_buffer p)
                     ++ mem_read X (in_buffer p) 1).
  { rewrite mem_read_split by lia. reflexivity. }
  rewrite Hmem in *.
  rewrite (mem_read_1 X (in_buffer p)) in * by lia.
  split; [apply Forall_app; split; [exact Hts|]; constructor;
          [exact I | constructor]|].
  split.
  { rewrite tokens_out_app, Hout. cbn [tokens_out token_out].
    rewrite app_nil_r. symmetry. exact Hsplit. }
  split.
  { rewrite Hhist, Hsplit, ring_append_app. reflexivity. }
  split.
  { rewrite tokens_bits_app by lia. cbn [tokens_bits].
    rewrite bits_app_nil_r. cbn [token_bits]. rewrite <- Hsh.
    unfold comp_holds in *. cbn [comp_holds] in *. exact Hc1. }
  rewrite tokens_bits_app by lia. cbn [tokens_bits bits_app token_bits snd].
  lia.
Qed.

Lemma case_PutBytes_inv flush (c : GKeyComp) (p : GKeyParameters) (r : pass) :
  comp_inv k M X GKeyCompState_PutBytes c p ->
  case_PutBytes GKeyStatus_OK true c p = Some r ->
  comp_goes k M X flush r.
Proof.
  intros (Hok & Hmem & Hwin & Hcb & Hbase & (ts & Hts & Hout & Hhist & Hbits
          & Hlen) & Hwindow) Hrun.
  cbn [comp_pending] in *.
  pose proof Hok as (Hhk & _ & Hwf & Hin & (Hr1 & Hr2 & Hr3)).
  pose proof Hin as (Hi1 & Hi2 & Hi3).
  pose proof Hwf as (_ & Hsz & _).
  destruct (case_PutBytes_total k GKeyStatus_OK true c p Hhk ltac:(lia) Hwf
              Hin (conj Hr1 (conj Hr2 Hr3))) as (r' & E' & Hok' & _).
  rewrite Hrun in E'. injection E' as <-.
  revert Hrun Hok'. unfold case_PutBytes.
  rewrite (RingBuffer_copy_spec k (fun _ => True))
    by (try assumption; try exact I; try lia;
        apply comp_ring_writer_sequential).
  cbn [cb_or_all ring_writer].
  set (W := ring_window (history c) (read_offset c) (read_size c)) in *.
  assert (HlW : Z.of_nat (length W) = read_size c).
  { unfold W. rewrite length_ring_window. lia. }
  destruct (put_literals M k W c p _ 0 Hbits)
    as (ot & a & nb & mem & ob & os & E & Hc1).
  { rewrite HlW. lia. }
  rewrite E, HlW, Z.add_0_l. cbn [obind].
  rewrite firstn_all2 by lia.
  cbn [set_history read_size set_output].
  destruct (Z.geb_spec (read_size c) (read_size c)) as [_|Habs]; [|lia].
  intros Hrun Hok'. injection Hrun as <-.
  cbn [p_state p_comp p_params] in Hok'.
  split; [reflexivity|]. split; [|split; intros Habs; discriminate].
  unfold comp_inv.
  cbn [p_state p_comp p_params comp_pending in_mem in_buffer in_size prog_cb
       history set_history set_output].
  rewrite Z.sub_0_r.
  split; [exact Hok'|]. split; [exact Hmem|]. split; [lia|].
  split; [exact Hcb|]. split; [lia|]. split; [|exact I].
  exists (ts ++ map TLit W).
  assert (Hsplit : mem_read X 0 (in_buffer p)
                   = mem_read X 0 (in_buffer p - read_size c) ++ W).
  { rewrite Hwindow.
    replace (in_buffer p) with (in_buffer p - read_size c + read_size c)
      at 1 by lia.
    rewrite mem_read_split by lia. reflexivity. }
  split; [apply Forall_app; split; [exact Hts | apply literals_ok]|].
  split.
  { rewrite tokens_out_app, Hout, literals_out. symmetry. exact Hsplit. }
  split.
  { rewrite Hhist, Hsplit, ring_append_app. reflexivity. }
  split.
  { rewrite tokens_bits_app by lia. exact Hc1. }
  rewrite tokens_bits_app by lia. cbn [bits_app snd].
  rewrite literals_len, HlW. lia.
Qed.

Lemma case_PutOffset_inv flush (c : GKeyComp) (p : GKeyParameters) (r : pass) :
  comp_inv k M X GKeyCompState_PutOffset c p ->
  case_PutOffset GKeyStatus_OK true c p = Some r ->
  comp_goes k M X flush r.
Proof.
  intros (Hok & Hmem & Hwin & Hcb & Hbase & (ts & Hts & Hout & Hhist & Hbits
          & Hlen) & (Hfit & Hwindow & Hcost)) Hrun.
  cbn [comp_pending] in *.
  pose proof Hok as (Hhk & _ & Hwf & Hin & (Hr1 & Hr2 & Hr3)).
  pose proof Hin as (Hi1 & Hi2 & Hi3).
  pose proof Hwf as (_ & Hsz & _).
  destruct (case_PutOffset_total k GKeyStatus_OK true c p Hhk ltac:(lia) Hwf
              Hin (conj Hr1 (conj Hr2 Hr3))) as (r' & E' & Hok' & _).
  rewrite Hrun in E'. injection E' as <-.
  pose proof (size_bits_nonneg k (read_offset c) ltac:(lia)) as Hsb0.
  pose proof (size_bits_le k (read_offset c)) as Hsb1.
  pose proof (size_bits_fits k (read_offset c) (read_size c) ltac:(lia) Hr1 Hr2
                Hfit)
    as Hsbf.
  assert (Hkmax : k <= 24)
    by (unfold MaxHistoryLog2, ULongMinBit, CHAR_BIT in Hk; lia).
  assert (Hpk : 0 < 2 ^ k) by (apply pow2_pos; lia).
  assert (Hoff : ulong (Z.shiftl (read_offset c) 1)
                 = Z.shiftl (read_offset c) 1).
  { apply ulong_small. rewrite Z.shiftl_mul_pow2 by lia.
    change (2 ^ 1) with 2. split; [lia|].
    assert (2 ^ k <= 2 ^ 24) by (apply Z.pow_le_mono_r; lia).
    change (2 ^ 24) with 16777216 in *. change (2 ^ 32) with 4294967296.
    lia. }
  revert Hrun Hok'. unfold case_PutOffset.
  destruct (write_bits_app M c p _ (history_log_2 c + 1)
              (Z.lor (ulong (Z.shiftl (read_offset c) 1)) 1) Hbits)
    as (ot & a & nb & mem & ob & os & E & Hc1).
  { apply (bits_room (in_buffer p - read_size c)); lia. }
  { lia. }
  { rewrite Hoff, lor_1, Hhk by lia.
    rewrite pow2_add by lia. change (2 ^ 1) with 2. lia. }
  rewrite E. unfold case_PutSize.
  cbn [history_log_2 read_offset read_size set_output].
  destruct (write_bits_app M _ _ _
              (GKey_get_read_size_bits (history_log_2 c) (read_offset c))
              (read_size c) Hc1)
    as (ot' & a' & nb' & mem' & ob' & os' & E2 & Hc2).
  { unfold bits_app. cbn [fst snd]. rewrite Hhk. lia. }
  { rewrite Hhk. lia. }
  { rewrite Hhk. lia. }
  rewrite E2.
  cbn [history read_offset read_size set_output].
  rewrite (RingBuffer_copy_all k) by (try assumption; lia).
  cbn [obind]. intros Hrun Hok'. injection Hrun as <-.
  cbn [p_state p_comp p_params] in Hok'.
  split; [reflexivity|]. split; [|split; intros Habs; discriminate].
  unfold comp_inv.
  cbn [p_state p_comp p_params comp_pending in_mem in_buffer in_size prog_cb
       history set_history set_output].
  rewrite Z.sub_0_r.
  split; [exact Hok'|]. split; [exact Hmem|]. split; [lia|].
  split; [exact Hcb|]. split; [lia|]. split; [|exact I].
  exists (ts ++ [TCopy (read_offset c) (read_size c)]).
  set (W := ring_window (history c) (read_offset c) (read_size c)) in *.
  assert (Hsplit : mem_read X 0 (in_buffer p)
                   = mem_read X 0 (in_buffer p - read_size c) ++ W).
  { rewrite Hwindow.
    replace (in_buffer p) with (in_buffer p - read_size c + read_size c)
      at 1 by lia.
    rewrite mem_read_split by lia. reflexivity. }
  assert (Htb : bits_app
                  (bits_app (tokens_bits k ts)
                     (Z.lor (ulong (Z.shiftl (read_offset c) 1)) 1,
                      history_log_2 c + 1))
                  (read_size c,
                   GKey_get_read_size_bits (history_log_2 c) (read_offset c))
                = tokens_bits k (ts ++ [TCopy (read_offset c) (read_size c)])).
  { rewrite tokens_bits_app by lia. cbn [tokens_bits token_bits].
    rewrite bits_app_nil_r.
    rewrite bits_app_assoc;
      [|apply tokens_len_nonneg; lia | cbn [snd]; lia].
    f_equal. unfold bits_app. cbn [fst snd].
    rewrite Hoff, lor_1, Hhk by lia.
    f_equal; lia. }
  split; [apply Forall_app; split; [exact Hts|]; constructor;
          [cbn [token_ok]; lia | constructor]|].
  split.
  { rewrite tokens_out_app, Hout. cbn [tokens_out token_out].
    rewrite app_nil_r, <- Hhist. symmetry. exact Hsplit. }
  split.
  { rewrite Hhist at 1. rewrite Hsplit, ring_append_app, <- Hhist.
    reflexivity. }
  split.
  { rewrite <- Htb. exact Hc2. }
  rewrite <- Htb. unfold bits_app. cbn [fst snd]. rewrite Hhk. lia.
Qed.

(** What follows the search in the case [FindSequence], once a match (or
    none) is committed. *)
Lemma commit_inv flush (c1 : GKeyComp) (p1 : GKeyParameters) (r : pass)
    (ts : list token) (base : Z) :
  history_log_2 c1 = k -> ring_wf k (history c1) -> in_window_ok p1 ->
  in_mem p1 = X -> in_buffer p1 + in_size p1 = Z.of_nat (length X) ->
  prog_cb p1 = None -> 0 <= base ->
  Forall (token_ok k) ts ->
  tokens_out (RingBuffer_make k) ts = mem_read X 0 base ->
  history c1 = ring_append (RingBuffer_make k) (mem_read X 0 base) ->
  comp_holds M c1 p1 (tokens_bits k ts) ->
  snd (tokens_bits k ts) <= 9 * base ->
  (flush = true -> in_size p1 = 0) ->
  ((read_size c1 = 0 /\ in_buffer p1 = base)
   \/ (0 < read_size c1 /\ 0 <= read_offset c1
       /\ read_offset c1 + read_size c1 <= 2 ^ k - 1
       /\ in_buffer p1 - read_size c1 = base
       /\ ring_window (history c1) (read_offset c1) (read_size c1)
          = mem_read X base (read_size c1))) ->
  (read_size c1 = 0 -> in_size p1 = 0 -> flush = false ->
   fs_pending (comp_fs c1) = 0
   /\ fs_cont (history c1) p1 (in_buffer p1) (comp_fs c1)
   /\ best_read_size c1 = 0) ->
  (if read_size c1 =? 0 then
     if in_size p1 >? 0 then
       Some (mkPass GKeyStatus_OK GKeyCompState_PutByte true c1 p1)
     else if flush then
       Some (mkPass GKeyStatus_OK GKeyCompState_Flush true c1 p1)
     else
       Some (mkPass GKeyStatus_OK GKeyCompState_FindSequence false c1 p1)
   else
     let nbits :=
       GKey_get_read_size_bits (history_log_2 c1) (read_offset c1) in
     if read_size c1 * (CHAR_BIT + 1) <? history_log_2 c1 + nbits + 1
     then Some (mkPass GKeyStatus_OK GKeyCompState_PutBytes true c1 p1)
     else case_PutOffset GKeyStatus_OK true c1 p1) = Some r ->
  comp_ok k (p_state r) (p_comp r) (p_params r) ->
  comp_goes k M X flush r.
Proof.
  intros Hhk Hwf Hin Hmem Hwin Hcb Hbase Hts Hout Hhist Hbits Hlen Hflush
    Hcommit Hexit Hrun Hok'.
  pose proof Hin as (Hi1 & Hi2 & Hi3).
  assert (Htok : forall b, b = base ->
            exists ts0,
              Forall (token_ok k) ts0
              /\ tokens_out (RingBuffer_make k) ts0 = mem_read X 0 b
              /\ history c1 = ring_append (RingBuffer_make k) (mem_read X 0 b)
              /\ comp_holds M c1 p1 (tokens_bits k ts0)
              /\ snd (tokens_bits k ts0) <= 9 * b).
  { intros b ->. exists ts. repeat split; assumption. }
  destruct (Z.eqb_spec (read_size c1) 0) as [Hz|Hnz].
  - destruct Hcommit as [[_ Hb]|[Habs _]]; [|lia].
    destruct (Z.gtb_spec (in_size p1) 0) as [Hpos|Hnone].
    + injection Hrun as <-. cbn [p_state p_comp p_params] in Hok'.
      split; [reflexivity|]. split; [|split; intros Habs; discriminate].
      unfold comp_inv. cbn [p_state p_comp p_params comp_pending].
      rewrite Z.sub_0_r.
      split; [exact Hok'|]. split; [exact Hmem|]. split; [exact Hwin|].
      split; [exact Hcb|]. split; [lia|].
      split; [apply Htok; exact Hb | exact I].
    + destruct flush.
      * injection Hrun as <-. cbn [p_state p_comp p_params] in Hok'.
        split; [reflexivity|].
        split; [|split; [intros Habs; discriminate | reflexivity]].
        unfold comp_inv. cbn [p_state p_comp p_params comp_pending].
        rewrite Z.sub_0_r.
        split; [exact Hok'|]. split; [exact Hmem|]. split; [exact Hwin|].
        split; [exact Hcb|]. split; [lia|].
        split; [apply Htok; exact Hb | lia].
      * injection Hrun as <-. cbn [p_state p_comp p_params] in Hok'.
        destruct (Hexit Hz ltac:(lia) eq_refl) as (Hpend & Hcont & Hbest).
        split; [reflexivity|].
        split; [|split; [intros _; split; [reflexivity | cbn [p_params]; lia]
                        |intros Habs; discriminate]].
        unfold comp_inv. cbn [p_state p_comp p_params comp_pending].
        rewrite Hpend, Z.sub_0_r.
        split; [exact Hok'|]. split; [exact Hmem|]. split; [exact Hwin|].
        split; [exact Hcb|]. split; [lia|].
        split; [apply Htok; exact Hb|].
        split; [exact Hcont | left; split; assumption].
  - destruct Hcommit as [[Habs _]|(Hr1 & Hr2 & Hr3 & Hb & Hwindow)]; [lia|].
    cbv zeta in Hrun. rewrite Hhk in Hrun. unfold CHAR_BIT in Hrun.
    destruct (Z.ltb_spec (read_size c1 * (8 + 1))
                (k + GKey_get_read_size_bits k (read_offset c1) + 1))
      as [Hlit|Hcopy].
    + injection Hrun as <-. cbn [p_state p_comp p_params] in Hok'.
      split; [reflexivity|]. split; [|split; intros Habs; discriminate].
      unfold comp_inv. cbn [p_state p_comp p_params comp_pending].
      split; [exact Hok'|]. split; [exact Hmem|]. split; [exact Hwin|].
      split; [exact Hcb|]. split; [lia|].
      split; [apply Htok; exact Hb|].
      rewrite Hb. exact Hwindow.
    + apply (case_PutOffset_inv flush c1 p1 r); [|exact Hrun].
      unfold comp_inv. cbn [comp_pending].
      split.
      { unfold comp_ok, copy_range_ok.
        split; [exact Hhk|]. split; [lia|]. split; [exact Hwf|].
        split; [exact Hin|]. lia. }
      split; [exact Hmem|]. split; [exact Hwin|].
      split; [exact Hcb|]. split; [lia|].
      split; [apply Htok; exact Hb|].
      split; [exact Hr3|]. split; [rewrite Hb; exact Hwindow | lia].
Qed.

Lemma case_FindSequence_inv flush (c : GKeyComp) (p : GKeyParameters)
    (r : pass) :
  comp_inv k M X GKeyCompState_FindSequence c p ->
  (flush = true -> in_size p = 0) ->
  case_FindSequence flush GKeyCompState_FindSequence GKeyStatus_OK true c p
  = Some r ->
  comp_goes k M X flush r.
Proof.
  intros (Hok & Hmem & Hwin & Hcb & Hbase & (ts & Hts & Hout & Hhist & Hbits
          & Hlen) & (Hcont & Hshape)) Hflush Hrun.
  cbn [comp_pending] in *.
  pose proof Hok as (Hhk & _ & Hwf & Hin & Hnum).
  pose proof Hin as (Hi1 & Hi2 & Hi3).
  pose proof Hnum as [(C1 & C2 & C3 & C4 & C5 & C6) _].
  cbn [comp_fs fs_read_offset fs_read_size fs_max_read_size fs_best_read_size
       fs_best_read_offset fs_consumed] in C1, C2, C3, C4, C5, C6.
  destruct (case_FindSequence_total k flush GKeyStatus_OK true c p Hhk
              ltac:(lia) Hwf Hin Hnum Hflush) as (r' & E' & Hok' & _).
  rewrite Hrun in E'. injection E' as <-.
  set (base := in_buffer p - fs_pending (comp_fs c)) in *.
  revert Hrun. unfold case_FindSequence. destruct flush.
  - (* flushing: the match in progress is committed as it is *)
    cbn [obind]. intros Hrun.
    apply (commit_inv true c p r ts base); try assumption.
    + destruct Hshape as [[Hrs Hbs]|(X1 & X2 & X3)].
      * left. split; [exact Hrs|]. unfold base, fs_pending.
        cbn [comp_fs fs_read_size fs_best_read_size]. lia.
      * cbn [comp_fs fs_read_offset fs_read_size fs_max_read_size
             fs_best_read_size] in X1, X2, X3.
        right. split; [exact X1|]. split; [exact C6|]. split; [lia|].
        assert (Hb : in_buffer p - read_size c = base).
        { unfold base, fs_pending.
          cbn [comp_fs fs_read_size fs_best_read_size]. lia. }
        split; [exact Hb|].
        destruct Hcont as (_ & _ & _ & Hcur).
        cbn [comp_fs fs_read_offset fs_read_size] in Hcur.
        rewrite (Hcur X1), Hmem. reflexivity.
    + intros _ _ Habs. discriminate.
  - destruct (find_sequence_spec k c p base Hhk Hwf ltac:(lia) Hnum)
      as (v' & Hpost & Hcont' & Efs).
    specialize (Hcont' Hcont).
    rewrite Efs. clear Efs. cbv zeta.
    destruct Hpost as [(D1 & D2 & D3 & D4 & D5 & D6) Hbr].
    destruct Hcont' as (K1 & K2 & K3 & K4).
    destruct (Z.geb_spec (fs_best_read_size v') (fs_max_read_size v'))
      as [Hge|Hlt].
    + (* the search is over *)
      cbn [obind]. intros Hrun.
      destruct Hbr as [[_ Hrs0]|[Habs _]]; [|lia].
      assert (Hpend : fs_pending v' = fs_best_read_size v')
        by (unfold fs_pending; lia).
      rewrite Hpend in D2.
      apply (commit_inv false _ _ r ts base) in Hrun; try assumption.
      * unfold in_window_ok. cbn [in_buffer in_size in_mem]. lia.
      * cbn [in_buffer in_size]. lia.
      * intros Habs; discriminate.
      * cbn [read_size read_offset set_sequence in_buffer history].
        destruct (Z.eq_dec (fs_best_read_size v') 0) as [Hz|Hnz].
        -- left. split; [exact Hz | lia].
        -- right. split; [lia|]. split; [exact D4|]. split; [exact D5|].
           split; [lia|]. rewrite K3, Hmem. reflexivity.
      * cbn [read_size set_sequence in_size in_buffer history]. intros Hz _ _.
        unfold fs_pending, fs_cont.
        cbn [comp_fs set_sequence read_offset read_size max_read_size
             best_read_size best_read_offset fs_read_offset fs_read_size
             fs_max_read_size fs_best_read_size fs_best_read_offset
             in_buffer in_size in_mem].
        rewrite Hz. cbn [Z.max].
        split; [reflexivity|]. split; [|reflexivity].
        split; [lia|]. split; [lia|].
        unfold ring_window, mem_read. cbn [Z.to_nat seq map firstn].
        split; [reflexivity | intros Habs; lia].
    + (* the search stalled at the end of the input *)
      cbn [obind]. intros Hrun. injection Hrun as <-.
      cbn [p_state p_comp p_params] in Hok'.
      destruct Hbr as [[Habs _]|(_ & Hall & Hrest)]; [lia|].
      split; [reflexivity|].
      split; [|split; [intros _; split;
                         [reflexivity | cbn [p_params in_size]; lia]
                      |intros Habs; discriminate]].
      unfold comp_inv.
      cbn [p_state p_comp p_params comp_pending in_mem in_buffer in_size
           prog_cb history set_sequence].
      assert (Hb : in_buffer p + fs_consumed v'
                   - fs_pending
                       (comp_fs
                          (set_sequence c (in_total c + fs_consumed v')
                             (fs_max_read_size v') (fs_best_read_offset v')
                             (fs_best_read_size v') (fs_read_offset v')
                             (fs_read_size v'))) = base).
      { unfold fs_pending in *.
        cbn [comp_fs set_sequence read_size best_read_size fs_read_size
             fs_best_read_size]. exact D2. }
      rewrite Hb.
      split; [exact Hok'|]. split; [exact Hmem|]. split; [lia|].
      split; [exact Hcb|]. split; [exact Hbase|].
      split; [exists ts; repeat split; assumption|].
      split.
      * unfold fs_cont.
        cbn [comp_fs set_sequence read_offset read_size max_read_size
             best_read_size best_read_offset fs_read_offset fs_read_size
             fs_max_read_size fs_best_read_size fs_best_read_offset
             in_buffer in_size in_mem].
        split; [exact K1|]. split; [lia|]. split; [exact K3 | exact K4].
      * cbn [read_size best_read_size set_sequence].
        destruct Hrest as [R|R]; [left; exact R | right; exact R].
Qed.

Lemma comp_inv_cleared (c : GKeyComp) (p : GKeyParameters) :
  comp_inv k M X GKeyCompState_NextSequence c p ->
  comp_inv k M X GKeyCompState_FindSequence (clear_sequence c) p.
Proof.
  intros (Hok & Hmem & Hwin & Hcb & Hbase & Htok & _).
  pose proof Hok as (Hhk & Hkmax & Hwf & Hin & _).
  pose proof Hin as (Hi1 & Hi2 & Hi3).
  assert (Hpk : 0 < 2 ^ k) by (apply pow2_pos; lia).
  cbn [comp_pending] in *. rewrite Z.sub_0_r in *.
  unfold comp_inv.
  assert (Hpend : fs_pending (comp_fs (clear_sequence c)) = 0)
    by reflexivity.
  cbn [comp_pending]. rewrite Hpend, Z.sub_0_r.
  split.
  { unfold comp_ok. cbn [clear_sequence history_log_2 history].
    split; [exact Hhk|]. split; [exact Hkmax|]. split; [exact Hwf|].
    split; [exact Hin|].
    rewrite Hpend, Z.sub_0_r.
    unfold fs_num, fs_common, fs_pending. cbn. split; [|left; reflexivity].
    repeat split; lia. }
  split; [exact Hmem|]. split; [exact Hwin|]. split; [exact Hcb|].
  split; [exact Hbase|]. split; [exact Htok|].
  split; [|left; split; reflexivity].
  unfold fs_cont.
  cbn [comp_fs clear_sequence read_offset read_size best_read_size
       best_read_offset fs_read_offset fs_read_size fs_best_read_size
       fs_best_read_offset].
  split; [lia|]. split; [lia|].
  unfold ring_window, mem_read. cbn [Z.to_nat seq map firstn].
  split; [reflexivity | intros Habs; lia].
Qed.

Lemma case_Progress_inv flush st (c : GKeyComp) (p : GKeyParameters)
    (r : pass) :
  comp_inv k M X GKeyCompState_FindSequence c p ->
  (flush = true -> in_size p = 0) ->
  case_Progress flush st GKeyStatus_OK true c p = Some r ->
  comp_goes k M X flush r.
Proof.
  intros Hinv Hflush. unfold case_Progress.
  pose proof Hinv as (_ & _ & _ & Hcb & _). rewrite Hcb.
  apply case_FindSequence_inv; assumption.
Qed.

(** One pass on a whole input. *)
Lemma switch_inv flush st (c : GKeyComp) (p : GKeyParameters) (r : pass) :
  comp_inv k M X st c p ->
  (flush = true -> in_size p = 0) ->
  (st = GKeyCompState_Flush -> flush = true) ->
  switch flush st GKeyStatus_OK true c p = Some r ->
  comp_goes k M X flush r \/ (flush = true /\ comp_final k X r).
Proof.
  intros Hinv Hflush Hst. destruct st; cbn [switch]; intros Hrun.
  - left. unfold case_NextSequence in Hrun.
    eapply case_Progress_inv; [|exact Hflush|exact Hrun].
    apply comp_inv_cleared, Hinv.
  - left. eapply case_Progress_inv; [|exact Hflush|exact Hrun]. exact Hinv.
  - left. eapply case_FindSequence_inv; [|exact Hflush|exact Hrun].
    exact Hinv.
  - left. eapply case_PutOffset_inv; [|exact Hrun]. exact Hinv.
  - destruct Hinv as (_ & _ & _ & _ & _ & _ & Habs). contradiction.
  - left. eapply case_PutByte_inv; [|exact Hrun]. exact Hinv.
  - left. eapply case_PutBytes_inv; [|exact Hrun]. exact Hinv.
  - right. split; [apply Hst; reflexivity|].
    eapply case_Flush_inv; [|exact Hrun]. exact Hinv.
Qed.

Lemma compress_loop_inv (fuel : nat) :
  forall flush st c p r,
    comp_inv k M X st c p ->
    (flush = true -> in_size p = 0) ->
    (st = GKeyCompState_Flush -> flush = true) ->
    compress_loop fuel flush st c p = Some r ->
    (comp_goes k M X flush r /\ p_input r = false)
    \/ (flush = true /\ comp_final k X r).
Proof.
  induction fuel as [|fuel IH]; intros flush st c p r Hinv Hflush Hst Hrun;
    cbn [compress_loop] in Hrun; [discriminate|].
  pose proof Hinv as (Hok & _).
  destruct (switch_total k flush st c p Hok Hflush) as (r1 & E & _ & Hle & _).
  rewrite E in Hrun. cbn [obind] in Hrun.
  destruct (switch_inv flush st c p r1 Hinv Hflush Hst E)
    as [(Hs & Hinv1 & Hin1 & Hst1)|[Hf (Hs & Hfin)]].
  - rewrite Hs in Hrun. cbn [GKeyStatus_eqb andb] in Hrun.
    destruct (p_input r1) eqn:Hi.
    + apply IH in Hrun; try assumption.
      intros Hf. specialize (Hflush Hf).
      pose proof Hinv1 as ((_ & _ & _ & (_ & Hi2 & _) & _) & _). lia.
    + injection Hrun as <-. left. split; [|exact Hi].
      split; [exact Hs|]. split; [exact Hinv1|].
      split; [intros _; apply Hin1; reflexivity | exact Hst1].
  - rewrite Hs in Hrun. cbn [GKeyStatus_eqb andb] in Hrun.
    injection Hrun as <-. right. split; [exact Hf|]. split; assumption.
Qed.

Lemma comp_inv_initial :
  comp_inv k M X GKeyCompState_Progress (gkeycomp_make k) (stream_params X M).
Proof.
  assert (HM0 : 0 <= M) by lia.
  destruct (stream_params_ok X M HM0) as [Hin Hout].
  unfold comp_inv.
  assert (Hpend : comp_pending GKeyCompState_Progress (gkeycomp_make k) = 0)
    by reflexivity.
  rewrite Hpend.
  cbn [stream_params in_mem in_buffer in_size prog_cb]. rewrite Z.sub_0_r.
  split; [apply (comp_make_wf k _ Hk Hin)|].
  split; [reflexivity|]. split; [lia|]. split; [reflexivity|].
  split; [lia|]. split.
  - exists []. rewrite mem_read_0. cbn [tokens_out tokens_bits snd].
    split; [constructor|]. split; [reflexivity|]. split; [reflexivity|].
    split; [|lia].
    exists 0. unfold written, stream_params.
    cbn [fst snd out_buffer out_size out_mem gkeycomp_make acc acc_nbits].
    rewrite repeat_length. change (Z.to_nat 0) with O. cbn [firstn].
    change (le_combine []) with 0. change (2 ^ 0) with 1.
    repeat split; try lia.
  - split; [|left; split; reflexivity].
    unfold fs_cont.
    cbn [comp_fs gkeycomp_make read_offset read_size best_read_size
         best_read_offset fs_read_offset fs_read_size fs_best_read_size
         fs_best_read_offset fs_pending in_buffer in_size in_mem history].
    change (fs_pending (comp_fs (gkeycomp_make k))) with 0.
    split; [reflexivity|]. split; [apply Hin|].
    unfold ring_window, mem_read. cbn [Z.to_nat seq map firstn].
    split; [reflexivity | intros Habs; lia].
Qed.

(** One call on a whole input: given input it ends with [OK] and the input
    taken; called to flush it ends the stream. *)
Lemma compress_call_inv (c : GKeyComp) (p : GKeyParameters) s c' p' :
  comp_inv k M X (state c) c p ->
  (state c = GKeyCompState_Flush -> in_size p = 0) ->
  gkeycomp_compress c p = Some (s, c', p') ->
  (in_size p <> 0 ->
   s = GKeyStatus_OK /\ comp_inv k M X (state c') c' p' /\ in_size p' = 0)
  /\ (in_size p = 0 ->
      s = GKeyStatus_Finished /\ stream_of k X (written p')).
Proof.
  intros Hinv Hst. unfold gkeycomp_compress.
  destruct (compress_loop _ _ _ _ _) as [r|] eqn:E; [|discriminate].
  cbn [obind]. intros H. injection H as <- <- <-.
  apply (compress_loop_inv _ _ _ _ _ _ Hinv) in E.
  - destruct E as [[(Hs & Hinv1 & Hin1 & _) Hi]|[Hf (Hs & Hfin)]].
    + destruct (Hin1 Hi) as [Hf Hz].
      apply Z.eqb_neq in Hf.
      split; [intros _|intros Habs; contradiction].
      split; [exact Hs|]. split; [exact Hinv1 | exact Hz].
    + apply Z.eqb_eq in Hf.
      split; [intros Habs; contradiction|intros _].
      split; assumption.
  - intros Hf. apply Z.eqb_eq in Hf. exact Hf.
  - intros Hfl. apply Z.eqb_eq. apply Hst, Hfl.
Qed.

(** The compressor, given all of [X] and then flushed, produces a stream
    of tokens that stand for [X]. *)
Lemma compress_stream_spec :
  exists Y, compress_stream k X M = Some Y /\ stream_of k X Y.
Proof.
  pose proof comp_inv_initial as Hinv0.
  unfold compress_stream.
  destruct (compress_total k (gkeycomp_make k) (stream_params X M))
    as (s1 & c1 & p1 & E1 & _); [apply Hinv0|].
  rewrite E1. cbn [obind].
  apply compress_call_inv in E1; [|exact Hinv0|intros Habs; discriminate].
  destruct E1 as [Hsome Hnone].
  destruct (Z.eq_dec (in_size (stream_params X M)) 0) as [Hz|Hnz].
  - destruct (Hnone Hz) as [-> Hstream].
    cbn [obind]. exists (written p1). split; [reflexivity | exact Hstream].
  - destruct (Hsome Hnz) as (-> & Hinv1 & Hz1).
    assert (Hp : mkParams (in_mem p1) (in_buffer p1) 0 (out_mem p1)
                   (out_buffer p1) (out_size p1) None = p1).
    { pose proof Hinv1 as (_ & _ & _ & Hcb & _).
      destruct p1; cbn in *; subst; reflexivity. }
    rewrite Hp.
    destruct (compress_total k c1 p1) as (s2 & c2 & p2 & E2 & _);
      [apply Hinv1|].
    rewrite E2. cbn [obind].
    apply compress_call_inv in E2; [|exact Hinv1|intros _; exact Hz1].
    destruct E2 as [_ Hnone2].
    destruct (Hnone2 Hz1) as [-> Hstream].
    exists (written p2). split; [reflexivity | exact Hstream].
Qed.

End EncoderInvariant.

(** ** What [read_bits] takes *)

Section ReadBits.
Import GKeyDecomp.

Lemma mem_read_cons (m : list byte) (pos n : Z) :
  0 <= pos -> 0 < n -> pos + n <= Z.of_nat (length m) ->
  mem_read m pos n = mem_load m pos :: mem_read m (pos + 1) (n - 1).
Proof.
  intros Hp Hn Hfit.
  replace n with (1 + (n - 1)) at 1 by lia.
  rewrite mem_read_split by lia.
  rewrite mem_read_1 by lia. reflexivity.
Qed.

(** The loop of [read_bits] keeps the value of the bit string made of the
    accumulator and the input window. *)
Lemma read_bits_loop_value (n : Z) (mem : list byte) (fuel : nat) :
  forall ib isz it a nb ok ib' isz' it' a' nb',
    n <= 25 -> 0 <= nb -> 0 <= a < 2 ^ nb ->
    0 <= ib -> 0 <= isz -> ib + isz <= Z.of_nat (length mem) ->
    read_bits_loop fuel n mem ib isz it a nb
    = (ok, (ib', isz', it', a', nb')) ->
    0 <= a' < 2 ^ nb'
    /\ a' + 2 ^ nb' * le_combine (mem_read mem ib' isz')
       = a + 2 ^ nb * le_combine (mem_read mem ib isz).
Proof.
  induction fuel as [|fuel IH];
    intros ib isz it a nb ok ib' isz' it' a' nb' Hn Hnb Ha Hib Hisz Hfit Hrun;
    cbn [read_bits_loop] in Hrun.
  - injection Hrun as <- <- <- <- <- <-. split; [exact Ha | reflexivity].
  - destruct (Z.ltb_spec nb n) as [Hlt|Hge].
    + destruct (Z.eqb_spec isz 0) as [Hz|Hnz].
      * injection Hrun as <- <- <- <- <- <-. split; [exact Ha | reflexivity].
      * pose proof (byte.unsigned_range (mem_load mem ib)) as Hb.
        change (2 ^ 8) with 256 in Hb.
        assert (Hp : 0 < 2 ^ nb) by (apply pow2_pos; lia).
        assert (Hacc : ulong (Z.lor a (Z.shiftl
                                         (byte.unsigned (mem_load mem ib)) nb))
                       = a + byte.unsigned (mem_load mem ib) * 2 ^ nb).
        { rewrite lor_shiftl_add by lia. apply ulong_small.
          split; [nia|].
          apply Z.lt_le_trans with (2 ^ (nb + 8)).
          - rewrite pow2_add by lia. change (2 ^ 8) with 256. nia.
          - apply Z.pow_le_mono_r; lia. }
        rewrite Hacc in Hrun. unfold CHAR_BIT in Hrun.
        apply IH in Hrun; try lia.
        2:{ rewrite pow2_add by lia. change (2 ^ 8) with 256. nia. }
        destruct Hrun as [Ha' Hv]. split; [exact Ha'|].
        rewrite Hv.
        rewrite (mem_read_cons mem ib isz) by lia.
        rewrite le_combine_cons_add.
        rewrite pow2_add by lia. change (2 ^ 8) with 256. lia.
    + injection Hrun as <- <- <- <- <- <-. split; [exact Ha | reflexivity].
Qed.

Lemma land_mask (a n : Z) : 0 <= n -> Z.land a (Z.shiftl 1 n - 1) = a mod 2 ^ n.
Proof.
  intros Hn. rewrite shiftl_1 by assumption.
  replace (2 ^ n - 1) with (Z.ones n) by (rewrite Z.ones_equiv; lia).
  apply Z.land_ones, Hn.
Qed.

(** [read_bits] takes the first [n] bits of the bit string it has still to
    read, when there are as many; otherwise it fails with the input
    window empty. *)
Lemma read_bits_take (d : GKeyDecomp) (p : GKeyParameters) (v l n : Z) :
  decomp_in d p v l -> 0 <= n <= 25 ->
  exists ok out it a nb ib isz,
    read_bits d p n
    = (ok, out, set_input d it a nb,
       mkParams (in_mem p) ib isz (out_mem p) (out_buffer p) (out_size p)
         (prog_cb p))
    /\ (n <= l ->
        ok = true /\ out = v mod 2 ^ n
        /\ decomp_in (set_input d it a nb)
             (mkParams (in_mem p) ib isz (out_mem p) (out_buffer p)
                (out_size p) (prog_cb p)) (v / 2 ^ n) (l - n))
    /\ (l < n ->
        ok = false /\ a = v
        /\ decomp_in (set_input d it a nb)
             (mkParams (in_mem p) ib isz (out_mem p) (out_buffer p)
                (out_size p) (prog_cb p)) v l).
Proof.
  intros ((Hi1 & Hi2 & Hi3) & Hnb & Ha & Hv & Hl) Hn.
  unfold read_bits.
  destruct (read_bits_loop (Z.to_nat (n - acc_nbits d)) n (in_mem p)
              (in_buffer p) (in_size p) (in_total d) (acc d) (acc_nbits d))
    as [ok [[[[ib isz] it] a] nb]] eqn:E.
  pose proof (read_bits_loop_spec _ _ _ _ _ _ _ _ _ _ _ _ _ _ E)
    as ((A1 & A2) & A3 & A4 & A5 & A6 & A7).
  pose proof (read_bits_loop_value _ _ _ _ _ _ _ _ _ _ _ _ _ _
                (proj2 Hn) Hnb Ha Hi1 Hi2 Hi3 E) as [Ha' Hv'].
  specialize (A5 Hi2). specialize (A7 (Nat.le_refl _)).
  unfold CHAR_BIT in *.
  assert (Hwin : in_window_ok
                   (mkParams (in_mem p) ib isz (out_mem p) (out_buffer p)
                      (out_size p) (prog_cb p))).
  { unfold in_window_ok. cbn [in_buffer in_size in_mem]. lia. }
  destruct (Z.geb_spec nb n) as [Hge|Hlt].
  - exists ok, (Z.land a (Z.shiftl 1 n - 1)), it, (Z.shiftr a n), (nb - n),
      ib, isz.
    split; [reflexivity|]. split.
    + intros _.
      assert (Hp : 0 < 2 ^ n) by (apply pow2_pos; lia).
      assert (Hsplit : 2 ^ nb = 2 ^ n * 2 ^ (nb - n)).
      { rewrite <- pow2_add by lia. f_equal. lia. }
      set (R := le_combine (mem_read (in_mem p) ib isz)) in *.
      assert (Hvq : v = a + 2 ^ (nb - n) * R * 2 ^ n)
        by (rewrite <- Hv, <- Hv', Hsplit; lia).
      split.
      { destruct ok; [reflexivity|]. destruct (A6 eq_refl). lia. }
      split.
      { rewrite land_mask by lia. rewrite Hvq.
        rewrite Z.mod_add by lia. reflexivity. }
      unfold decomp_in.
      cbn [set_input acc acc_nbits in_buffer in_size in_mem].
      split; [exact Hwin|]. split; [lia|].
      rewrite Z.shiftr_div_pow2 by lia.
      split.
      { split; [apply Z.div_pos; lia|].
        apply Z.div_lt_upper_bound; [lia|]. rewrite <- Hsplit. lia. }
      split; [|lia].
      fold R. rewrite Hvq.
      rewrite Z.div_add by lia. lia.
    + intros Habs. lia.
  - exists ok, 0, it, a, nb, ib, isz.
    split; [reflexivity|]. split.
    + intros Hle. destruct ok.
      * specialize (A7 eq_refl). lia.
      * destruct (A6 eq_refl). lia.
    + intros Hshort.
      assert (ok = false) as ->.
      { destruct ok; [|reflexivity]. specialize (A7 eq_refl). lia. }
      destruct (A6 eq_refl) as [Hz _]. subst isz.
      rewrite mem_read_0 in Hv'. change (le_combine []) with 0 in Hv'.
      split; [reflexivity|]. split; [lia|].
      unfold decomp_in.
      cbn [set_input acc acc_nbits in_buffer in_size in_mem].
      split; [exact Hwin|]. split; [lia|]. split; [exact Ha'|].
      rewrite mem_read_0. change (le_combine []) with 0. lia.
Qed.

End ReadBits.

(** ** The tokens the decompressor reads *)

Section DecoderTokens.
Import GKeyDecomp.

Variable k : Z.
Hypothesis Hk : 0 <= k <= MaxHistoryLog2.

Lemma k_le_24 : k <= 24.
Proof. unfold MaxHistoryLog2, ULongMinBit, CHAR_BIT in Hk. lia. Qed.

Lemma tokens_value_nonneg (ts : list token) :
  Forall (token_ok k) ts -> 0 <= fst (tokens_bits k ts).
Proof.
  induction 1 as [|t ts Ht _ IH]; cbn [tokens_bits bits_app fst]; [lia|].
  assert (0 <= fst (token_bits k t)).
  { destruct t as [b|off len]; cbn [token_bits fst].
    - pose proof (byte.unsigned_range b). lia.
    - destruct Ht as (H1 & H2 & H3).
      assert (0 < 2 ^ (k + 1)) by (apply pow2_pos; lia). nia. }
  assert (0 < 2 ^ snd (token_bits k t))
    by (apply pow2_pos, token_len_nonneg; lia).
  nia.
Qed.

(** The fields of a literal token in a bit string. *)
Lemma literal_fields (b : byte) (V : Z) :
  let W := 2 * byte.unsigned b + 2 ^ 9 * V in
  W mod 2 ^ 1 = 0
  /\ (W / 2 ^ 1) mod 2 ^ 8 = byte.unsigned b
  /\ W / 2 ^ 1 / 2 ^ 8 = V.
Proof.
  pose proof (byte.unsigned_range b) as Hb.
  change (2 ^ 8) with 256 in *. change (2 ^ 9) with 512.
  change (2 ^ 1) with 2. cbv zeta.
  replace (2 * byte.unsigned b + 512 * V)
    with ((byte.unsigned b + 256 * V) * 2) by lia.
  rewrite Z.mod_mul, Z.div_mul by lia.
  replace (byte.unsigned b + 256 * V) with (byte.unsigned b + V * 256) by lia.
  rewrite Z.mod_add, Z.div_add by lia.
  rewrite Z.mod_small, Z.div_small by lia. lia.
Qed.

(** The fields of a copy token in a bit string. *)
Lemma copy_fields (off len V : Z) :
  token_ok k (TCopy off len) ->
  let sb := GKey_get_read_size_bits k off in
  let W := 1 + 2 * off + 2 ^ (k + 1) * len + 2 ^ (1 + k + sb) * V in
  W mod 2 ^ 1 = 1
  /\ (W / 2 ^ 1) mod 2 ^ k = off
  /\ (W / 2 ^ 1 / 2 ^ k) mod 2 ^ sb = len
  /\ W / 2 ^ 1 / 2 ^ k / 2 ^ sb = V.
Proof.
  intros (Ho & Hl & Hfit) sb W.
  pose proof (size_bits_nonneg k off ltac:(lia)) as Hsb.
  pose proof (size_bits_fits k off len ltac:(lia) Ho Hl Hfit) as Hlen. fold sb in Hsb, Hlen.
  assert (Hpk : 0 < 2 ^ k) by (apply pow2_pos; lia).
  assert (Hps : 0 < 2 ^ sb) by (apply pow2_pos; lia).
  assert (HW : W = 1 + (off + (len + V * 2 ^ sb) * 2 ^ k) * 2).
  { unfold W.
    replace (1 + k + sb) with (1 + (k + sb)) by lia.
    replace (k + 1) with (1 + k) by lia.
    rewrite !pow2_add by lia. change (2 ^ 1) with 2. lia. }
  change (2 ^ 1) with 2. rewrite HW.
  rewrite Z.mod_add, Z.div_add by lia.
  change (1 mod 2) with 1. change (1 / 2) with 0. rewrite Z.add_0_l.
  rewrite Z.mod_add, Z.div_add by lia.
  rewrite (Z.mod_small off), (Z.div_small off) by lia. rewrite Z.add_0_l.
  rewrite Z.mod_add, Z.div_add by lia.
  rewrite (Z.mod_small len), (Z.div_small len) by lia. lia.
Qed.

Lemma out_window_after (p : GKeyParameters) (ob n : Z) (data : list byte)
    im ib isz cb :
  out_buffer p = Some ob -> out_window_ok p ->
  Z.of_nat (length data) = n -> n <= out_size p ->
  out_window_ok (mkParams im ib isz (mem_write (out_mem p) ob data)
                   (Some (ob + n)) (out_size p - n) cb).
Proof.
  intros Hob Hok Hlen Hroom. unfold out_window_ok in *. rewrite Hob in Hok.
  cbn [out_buffer out_size out_mem].
  rewrite length_mem_write by lia. lia.
Qed.

(** A literal token takes two passes. *)
Lemma decode_literal (b : byte) (ts : list token) (d : GKeyDecomp)
    (p : GKeyParameters) :
  decomp_inv k (TLit b :: ts) d p ->
  exists d' p',
    (forall fuel,
        decompress_loop (S fuel) GKeyDecompState_Progress d p
        = match fuel with
          | O => None
          | S fuel' => decompress_loop fuel' GKeyDecompState_Progress d' p'
          end)
    /\ decomp_inv k ts d' p'
    /\ history d' = ring_append (history d) [b]
    /\ written p' = written p ++ [b].
Proof.
  intros (Hhk & Hwf & Hout & Hcb & (ob & Hob) & Htok & Hroom
          & (L & Hbits & HL)).
  apply Forall_cons_iff in Htok. destruct Htok as [_ Htok].
  cbn [tokens_out token_out app length] in Hroom.
  cbn [tokens_bits token_bits bits_app fst snd] in Hbits, HL.
  unfold decomp_holds in Hbits. cbn [fst snd] in Hbits.
  pose proof (tokens_len_nonneg k ts ltac:(lia)) as Hl0.
  destruct (literal_fields b (fst (tokens_bits k ts))) as (F1 & F2 & F3).
  (* the type bit *)
  destruct (read_bits_take d p _ L 1 Hbits ltac:(lia))
    as (ok & out & it & a & nb & ib & isz & E1 & Hyes & _).
  destruct (Hyes ltac:(lia)) as (-> & -> & Hbits1). clear Hyes.
  rewrite F1 in E1.
  (* the byte *)
  destruct (read_bits_take _ _ _ _ CHAR_BIT Hbits1)
    as (ok & out & it' & a' & nb' & ib' & isz' & E2 & Hyes & _);
    [unfold CHAR_BIT; lia|].
  destruct (Hyes ltac:(unfold CHAR_BIT; lia)) as (-> & -> & Hbits2).
  clear Hyes. change (2 ^ CHAR_BIT) with (2 ^ 8) in *.
  rewrite F2 in E2. rewrite F3 in Hbits2.
  cbn [in_mem in_buffer in_size out_mem out_buffer out_size prog_cb] in E2.
  set (d2 := set_literal (set_input (set_input d it a nb) it' a' nb')
               (byte.of_Z (byte.unsigned b))).
  set (p2 := mkParams (in_mem p) ib' isz' (out_mem p) (out_buffer p)
               (out_size p) (prog_cb p)).
  assert (Hob2 : out_buffer p2 = Some ob) by exact Hob.
  pose proof (ring_writer_buffer d2 p2 ob [b] Hob2) as Ew.
  cbv zeta in Ew. cbn [length] in Ew. change (Z.of_nat 1) with 1 in Ew.
  assert (Hone : (if out_size p2 <? 1 then out_size p2 else 1) = 1).
  { cbn [p2 out_size]. destruct (Z.ltb_spec (out_size p) 1); lia. }
  rewrite Hone in Ew. change (Z.to_nat 1) with 1%nat in Ew.
  cbn [firstn] in Ew.
  exists (set_history (set_out_total d2 (out_total d2 + 1))
            (ring_append (history d) [b])),
    (mkParams (in_mem p) ib' isz' (mem_write (out_mem p) ob [b])
       (Some (ob + 1)) (out_size p - 1) (prog_cb p)).
  split; [|split; [|split]].
  - intros fuel. cbn [decompress_loop switch].
    unfold case_Progress. rewrite Hcb. unfold case_GetType. rewrite E1.
    cbn [Z.eqb negb obind p_status p_stop p_state p_decomp p_params
         GKeyStatus_eqb andb].
    destruct fuel as [|fuel]; [reflexivity|].
    cbn [decompress_loop switch]. unfold case_GetByte. rewrite E2.
    unfold case_PutByte. fold d2. fold p2.
    assert (Hlit : literal d2 = b) by (apply byte.of_Z_unsigned).
    rewrite Hlit, Ew. cbn [Z.eqb Pos.eqb].
    cbn [history set_out_total].
    rewrite (RingBuffer_write_spec k)
      by (try exact Hwf; try lia; cbn [length]; lia).
    cbn [obind src_read p_status p_stop p_state p_decomp p_params
         GKeyStatus_eqb andb negb].
    change (literal (set_out_total d2 (out_total d2 + 1))) with (literal d2).
    rewrite Hlit.
    rewrite (mem_read_1 [b] 0) by (cbn [length]; lia).
    unfold mem_load. change (Z.to_nat 0) with O. cbn [nth].
    unfold p2. cbn [in_mem in_buffer in_size out_mem out_size prog_cb].
    rewrite Hcb. reflexivity.
  - unfold decomp_inv.
    cbn [history_log_2 history set_history set_out_total d2 set_literal
         set_input p2 prog_cb out_buffer out_size].
    split; [exact Hhk|]. split; [apply ring_append_wf, Hwf|].
    split; [apply (out_window_after p ob 1 [b]); try assumption;
            [reflexivity | lia]|].
    split; [exact Hcb|]. split; [eexists; reflexivity|].
    split; [exact Htok|]. split; [lia|].
    exists (L - 1 - CHAR_BIT). split; [exact Hbits2|].
    unfold CHAR_BIT. lia.
  - reflexivity.
  - apply (written_after_write p ob [b] Hob Hout). cbn [length]. lia.
Qed.

(** A copy token takes one pass. *)
Lemma decode_copy (off len : Z) (ts : list token) (d : GKeyDecomp)
    (p : GKeyParameters) :
  decomp_inv k (TCopy off len :: ts) d p ->
  exists d' p',
    (forall fuel,
        decompress_loop (S fuel) GKeyDecompState_Progress d p
        = decompress_loop fuel GKeyDecompState_Progress d' p')
    /\ decomp_inv k ts d' p'
    /\ history d' = ring_append (history d) (ring_window (history d) off len)
    /\ written p' = written p ++ ring_window (history d) off len.
Proof.
  intros (Hhk & Hwf & Hout & Hcb & (ob & Hob) & Htok & Hroom
          & (L & Hbits & HL)).
  apply Forall_cons_iff in Htok. destruct Htok as [Hokt Htok].
  pose proof Hokt as (Ho & Hl & Hfit).
  pose proof Hwf as (_ & Hsz & _).
  set (W := ring_window (history d) off len) in *.
  assert (HlW : Z.of_nat (length W) = len).
  { unfold W. rewrite length_ring_window. lia. }
  cbn [tokens_out token_out] in Hroom. fold W in Hroom.
  rewrite length_app, Nat2Z.inj_add, HlW in Hroom.
  cbn [tokens_bits token_bits bits_app fst snd] in Hbits, HL.
  unfold decomp_holds in Hbits. cbn [fst snd] in Hbits.
  pose proof (tokens_len_nonneg k ts ltac:(lia)) as Hl0.
  pose proof (size_bits_nonneg k off ltac:(lia)) as Hsb0.
  pose proof (size_bits_le k off) as Hsb1.
  pose proof k_le_24 as Hk24.
  destruct (copy_fields off len (fst (tokens_bits k ts)) Hokt)
    as (F1 & F2 & F3 & F4).
  set (sb := GKey_get_read_size_bits k off) in *.
  (* the type bit *)
  destruct (read_bits_take d p _ L 1 Hbits ltac:(lia))
    as (ok & out & it & a & nb & ib & isz & E1 & Hyes & _).
  destruct (Hyes ltac:(lia)) as (-> & -> & Hbits1). clear Hyes.
  rewrite F1 in E1.
  (* the offset *)
  destruct (read_bits_take _ _ _ _ k Hbits1 ltac:(lia))
    as (ok & out & it' & a' & nb' & ib' & isz' & E2 & Hyes & _).
  destruct (Hyes ltac:(lia)) as (-> & -> & Hbits2). clear Hyes.
  rewrite F2 in E2.
  cbn [in_mem in_buffer in_size out_mem out_buffer out_size prog_cb] in E2.
  (* the size *)
  destruct (read_bits_take _ _ _ _ sb Hbits2 ltac:(lia))
    as (ok & out & it'' & a'' & nb'' & ib'' & isz'' & E3 & Hyes & _).
  destruct (Hyes ltac:(lia)) as (-> & -> & Hbits3). clear Hyes.
  rewrite F3 in E3. rewrite F4 in Hbits3.
  cbn [in_mem in_buffer in_size out_mem out_buffer out_size prog_cb]
    in E3, Hbits3.
  set (d3 := set_input (set_input (set_input d it a nb) it' a' nb') it'' a''
               nb'') in *.
  set (p3 := mkParams (in_mem p) ib'' isz'' (out_mem p) (out_buffer p)
               (out_size p) (prog_cb p)) in *.
  set (d4 := set_read_size (set_read_offset d3 off) len).
  (* the copy *)
  pose proof (case_CopyData_spec k false d4 p3 ob Hwf Ho Hl ltac:(cbn; lia)
                Hob Hout) as Ec.
  cbv zeta in Ec.
  cbn [d4 d3 p3 read_size read_offset set_read_size set_read_offset
       set_input history out_size out_mem in_mem in_buffer in_size prog_cb
       out_total] in Ec.
  fold W in Ec.
  assert (Hm : (if out_size p <? len then out_size p else len) = len).
  { destruct (Z.ltb_spec (out_size p) len); lia. }
  rewrite Hm in Ec.
  rewrite firstn_all2 in Ec by lia.
  destruct (Z.geb_spec len len) as [_|Habs]; [|lia].
  exists (set_history (set_out_total d4 (out_total d + len))
            (ring_append (history d) W)),
    (mkParams (in_mem p) ib'' isz'' (mem_write (out_mem p) ob W)
       (Some (ob + len)) (out_size p - len) (prog_cb p)).
  split; [|split; [|split]].
  - intros fuel. cbn [decompress_loop switch].
    unfold case_Progress. rewrite Hcb. unfold case_GetType. rewrite E1.
    cbn [Z.eqb negb]. unfold case_GetOffset.
    cbn [history_log_2 set_input]. rewrite Hhk, E2.
    unfold case_GetSize.
    cbn [history_log_2 read_offset set_read_offset set_input].
    rewrite Hhk. fold sb.
    assert (E3' : read_bits
                    (set_read_offset
                       (set_input (set_input d it a nb) it' a' nb') off)
                    (mkParams (in_mem p) ib' isz' (out_mem p) (out_buffer p)
                       (out_size p) (prog_cb p)) sb
                  = (true, len, set_read_offset d3 off, p3)).
    { revert E3. unfold read_bits.
      cbn [set_read_offset set_input acc acc_nbits in_total].
      destruct (read_bits_loop _ _ _ _ _ _ _ _) as [s [[[[x1 x2] x3] x4] x5]].
      destruct (x5 >=? sb); intros H; injection H as <- <- <- <- <- <- <-;
        reflexivity. }
    rewrite E3'.
    cbn [read_offset set_read_offset history_log_2 d3 set_input].
    rewrite Hhk, shiftl_1 by lia.
    destruct (Z.eqb_spec len 0) as [Habs|_]; [lia|].
    destruct (Z.gtb_spec (off + len) (2 ^ k)) as [Habs|_]; [lia|].
    cbn [orb]. fold d3. fold d4. rewrite Ec.
    cbn [obind p_status p_stop p_state p_decomp p_params GKeyStatus_eqb andb
         negb].
    rewrite Hcb. reflexivity.
  - unfold decomp_inv.
    cbn [history_log_2 history set_history set_out_total d4 set_read_size
         set_read_offset d3 set_input prog_cb out_buffer out_size].
    split; [exact Hhk|]. split; [apply ring_append_wf, Hwf|].
    split; [apply (out_window_after p ob len W); try assumption; lia|].
    split; [exact Hcb|]. split; [eexists; reflexivity|].
    split; [exact Htok|]. split; [lia|].
    exists (L - 1 - k - sb). split; [exact Hbits3|]. lia.
  - reflexivity.
  - pose proof (written_after_write p ob W Hob Hout ltac:(lia) (in_mem p)
                  ib'' isz'' (out_size p - len) (prog_cb p)) as Hw.
    rewrite HlW in Hw. exact Hw.
Qed.

(** With no token left, the decompressor stops at the padding. *)
Lemma decode_end (d : GKeyDecomp) (p : GKeyParameters) (fuel : nat)
    (res : pass) :
  decomp_inv k [] d p ->
  decompress_loop fuel GKeyDecompState_Progress d p = Some res ->
  p_status res = GKeyStatus_OK /\ written (p_params res) = written p.
Proof.
  intros (Hhk & Hwf & Hout & Hcb & (ob & Hob) & Htok & Hroom
          & (L & Hbits & HL)) Hrun.
  cbn [tokens_bits fst snd] in Hbits, HL.
  unfold decomp_holds in Hbits. cbn [fst snd] in Hbits.
  destruct fuel as [|fuel]; [discriminate|].
  revert Hrun. cbn [decompress_loop switch].
  unfold case_Progress. rewrite Hcb. unfold case_GetType.
  destruct (read_bits_take d p _ L 1 Hbits ltac:(lia))
    as (ok & out & it & a & nb & ib & isz & E1 & Hyes & Hno).
  rewrite E1.
  destruct (Z.le_gt_cases 1 L) as [Hsome|Hnone].
  - destruct (Hyes Hsome) as (-> & -> & Hbits1).
    change (0 mod 2 ^ 1) with 0. change (0 / 2 ^ 1) with 0 in Hbits1.
    cbn [Z.eqb negb obind p_status p_stop p_state p_decomp p_params
         GKeyStatus_eqb andb].
    destruct fuel as [|fuel]; [discriminate|].
    cbn [decompress_loop switch]. unfold case_GetByte.
    destruct (read_bits_take _ _ _ _ CHAR_BIT Hbits1)
      as (ok & out' & it' & a' & nb' & ib' & isz' & E2 & _ & Hno2);
      [unfold CHAR_BIT; lia|].
    destruct (Hno2 ltac:(unfold CHAR_BIT; lia)) as (-> & -> & _).
    rewrite E2. cbn [acc set_input Z.eqb].
    cbn [obind p_status p_stop p_state p_decomp p_params GKeyStatus_eqb andb
         negb].
    intros H. injection H as <-. split; reflexivity.
  - destruct (Hno ltac:(lia)) as (-> & _ & _).
    cbn [obind p_status p_stop p_state p_decomp p_params GKeyStatus_eqb andb
         negb].
    intros H. injection H as <-. split; reflexivity.
Qed.

(** The decompressor writes what the tokens stand for. *)
Lemma decode_tokens (ts : list token) :
  forall d p fuel res,
    decomp_inv k ts d p ->
    decompress_loop fuel GKeyDecompState_Progress d p = Some res ->
    p_status res = GKeyStatus_OK
    /\ written (p_params res) = written p ++ tokens_out (history d) ts.
Proof.
  induction ts as [|t ts IH]; intros d p fuel res Hinv Hrun.
  - cbn [tokens_out]. rewrite app_nil_r. eapply decode_end; eassumption.
  - destruct fuel as [|fuel]; [discriminate|].
    destruct t as [b|off len]; cbn [tokens_out token_out].
    + destruct (decode_literal b ts d p Hinv)
        as (d' & p' & Hstep & Hinv' & Hhist & Hw).
      rewrite Hstep in Hrun.
      destruct fuel as [|fuel]; [discriminate|].
      destruct (IH d' p' fuel res Hinv' Hrun) as [Hs Hres].
      split; [exact Hs|].
      rewrite Hres, Hw, Hhist, <- app_assoc. reflexivity.
    + destruct (decode_copy off len ts d p Hinv)
        as (d' & p' & Hstep & Hinv' & Hhist & Hw).
      rewrite Hstep in Hrun.
      destruct (IH d' p' fuel res Hinv' Hrun) as [Hs Hres].
      split; [exact Hs|].
      rewrite Hres, Hw, Hhist, <- app_assoc. reflexivity.
Qed.

(** The decompressor, given a stream of tokens that stand for [X] and room
    for [X], writes [X]. *)
Lemma decompress_stream_spec (X Y : list byte) (room : Z) :
  stream_of k X Y -> Z.of_nat (length X) <= room ->
  decompress_stream k Y room = Some X.
Proof.
  intros (ts & Hts & Hout & Hval & Hlen) Hroom.
  assert (Hroom0 : 0 <= room) by lia.
  destruct (stream_params_ok Y room Hroom0) as [Hin Hwin].
  unfold decompress_stream.
  destruct (decompress_total k (gkeydecomp_make k) (stream_params Y room))
    as (s & d' & p' & E & _).
  { apply decomp_make_wf; assumption. }
  rewrite E. cbn [obind].
  unfold gkeydecomp_decompress in E.
  destruct (decompress_loop _ _ _ _) as [res|] eqn:Eloop; [|discriminate].
  cbn [obind] in E. injection E as <- <- <-.
  apply (decode_tokens ts) in Eloop.
  - destruct Eloop as [-> Hw]. rewrite Hw.
    cbn [gkeydecomp_make history]. rewrite Hout. reflexivity.
  - unfold decomp_inv.
    cbn [gkeydecomp_make history_log_2 history stream_params prog_cb
         out_buffer out_size].
    split; [reflexivity|]. split; [apply ring_make_wf; lia|].
    split; [exact Hwin|]. split; [reflexivity|].
    split; [eexists; reflexivity|]. split; [exact Hts|].
    split; [rewrite Hout; exact Hroom|].
    exists (8 * Z.of_nat (length Y)). split; [|exact Hlen].
    unfold decomp_holds, decomp_in.
    cbn [fst snd acc acc_nbits in_mem in_buffer in_size gkeydecomp_make
         stream_params].
    split; [exact Hin|]. split; [lia|].
    change (2 ^ 0) with 1. split; [lia|].
    rewrite mem_read_all. lia.
Qed.

End DecoderTokens.

(** ** Round trip *)

Section RoundTrip.

(** C1: for every history size [k] from 0 to [MaxHistoryLog2] and every byte
    sequence [X] (the empty one included), a compressor made for [k] that is
    given [X] and then called to flush, with an output block that has room
    for 9 bits per byte of [X], ends with [Finished] and a byte stream [Y];
    a decompressor made for the same [k] that is given [Y], with room for
    [X], writes exactly [X]. *)
Theorem round_trip (k : Z) (X : list byte) (room room' : Z) :
  0 <= k <= MaxHistoryLog2 ->
  9 * Z.of_nat (length X) <= 8 * room ->
  Z.of_nat (length X) <= room' ->
  exists Y,
    compress_stream k X room = Some Y
    /\ decompress_stream k Y room' = Some X.
Proof.
  intros Hk Hroom Hroom'.
  destruct (compress_stream_spec k room X Hk Hroom) as (Y & Ec & Hstream).
  exists Y. split; [exact Ec|].
  apply decompress_stream_spec; assumption.
Qed.

Lemma round_trip_witness :
  exists Y,
    compress_stream 2
      [Byte.x61; Byte.x62; Byte.x61; Byte.x62; Byte.x61; Byte.x62] 7 = Some Y
    /\ decompress_stream 2 Y 6
       = Some [Byte.x61; Byte.x62; Byte.x61; Byte.x62; Byte.x61; Byte.x62].
Proof.
  apply (round_trip 2
           [Byte.x61; Byte.x62; Byte.x61; Byte.x62; Byte.x61; Byte.x62] 7 6).
  - unfold MaxHistoryLog2, ULongMinBit, CHAR_BIT. lia.
  - cbn [length]. lia.
  - cbn [length]. lia.
Defined.

End RoundTrip.

(** * Further properties *)

(** ** The ring buffer as a window on the newest bytes *)

Section RingUse.

Lemma make_2_wf : ring_wf 2 (RingBuffer_make 2).
Proof. apply ring_make_wf. lia. Qed.

(** A full ring of four bytes: ['a'; 'b'; 'c'; 'd'], the write position back
    at the start; and one that holds ['a'; 'b'; 'a'; 'b']. *)
Lemma ring_abcd_wf :
  ring_wf 2 (mkRing 4 0 true 2 [Byte.x61; Byte.x62; Byte.x63; Byte.x64]).
Proof.
  unfold ring_wf. cbn [size write_pos filled buffer length].
  repeat split; try lia; intros H; discriminate H.
Qed.

Lemma ring_abab_wf :
  ring_wf 2 (mkRing 4 0 true 2 [Byte.x61; Byte.x62; Byte.x61; Byte.x62]).
Proof.
  unfold ring_wf. cbn [size write_pos filled buffer length].
  repeat split; try lia; intros H; discriminate H.
Qed.

(** X1: [RingBuffer_write] of [n] bytes of caller memory, [n] no more than
    the capacity, returns a well-formed ring of the same capacity whose write
    position has advanced by [n] around the ring; the bytes written are the
    newest ones, read back by [RingBuffer_read_char] at the offsets
    [size - n ..], and every older byte that was not overwritten is found
    [n] positions nearer to the write position. *)
Theorem write_then_read (k : Z) (r : RingBuffer) (m : list byte) (pos n : Z) :
  ring_wf k r -> 0 <= pos -> 0 <= n <= size r ->
  pos + n <= Z.of_nat (length m) ->
  exists r',
    RingBuffer_write r (SrcMem m pos) n = Some r'
    /\ ring_wf k r' /\ size r' = size r
    /\ write_pos r' = (write_pos r + n) mod size r
    /\ (forall i, 0 <= i < n ->
                  RingBuffer_read_char r' (size r - n + i)
                  = byte.unsigned (mem_load m (pos + i)))
    /\ (forall j, 0 <= j -> j + n < size r ->
                  RingBuffer_read_char r' j = RingBuffer_read_char r (j + n)).
Proof.
  intros Hwf Hpos Hn Hfit.
  assert (Hlen : Z.of_nat (length (mem_read m pos n)) = n).
  { rewrite length_mem_read by lia. lia. }
  exists (ring_append r (mem_read m pos n)).
  assert (Hwf' : ring_wf k (ring_append r (mem_read m pos n)))
    by (apply ring_append_wf, Hwf).
  split; [apply (RingBuffer_write_spec k); try assumption; lia|].
  split; [exact Hwf'|]. split; [apply ring_append_size|].
  split; [rewrite (write_pos_append k), Hlen by assumption; reflexivity|].
  split.
  - intros i Hi.
    rewrite (read_char_spec k) by assumption.
    rewrite (ring_at_append k) by (try assumption; lia). rewrite Hlen.
    destruct (Z.ltb_spec (size r - n + i + n) (size r)) as [Habs|_]; [lia|].
    replace (size r - n + i + n - size r) with i by lia.
    rewrite nth_mem_read by lia. rewrite Z2Nat.id by lia. reflexivity.
  - intros j Hj Hold.
    rewrite !(read_char_spec k) by assumption.
    rewrite (ring_at_append k) by (try assumption; lia). rewrite Hlen.
    destruct (Z.ltb_spec (j + n) (size r)) as [_|Habs]; [reflexivity | lia].
Qed.

Lemma write_then_read_witness :
  exists r',
    RingBuffer_write (RingBuffer_make 2)
      (SrcMem [Byte.x61; Byte.x62; Byte.x63] 0) 3 = Some r'
    /\ RingBuffer_read_char r' 1 = 97.
Proof.
  destruct (write_then_read 2 (RingBuffer_make 2)
              [Byte.x61; Byte.x62; Byte.x63] 0 3 make_2_wf)
    as (r' & E & _ & _ & _ & Hnew & _).
  - lia.
  - cbn. lia.
  - cbn [length]. lia.
  - exists r'. split; [exact E|]. exact (Hnew 0 ltac:(lia)).
Defined.

(** X2: writing [n1 + n2] bytes of caller memory in one call of
    [RingBuffer_write] gives the ring that writing the first [n1] and then
    the next [n2] gives. *)
Theorem write_composes (k : Z) (r : RingBuffer) (m : list byte)
    (pos n1 n2 : Z) :
  ring_wf k r -> 0 <= pos -> 0 <= n1 -> 0 <= n2 ->
  pos + n1 + n2 <= Z.of_nat (length m) ->
  RingBuffer_write r (SrcMem m pos) (n1 + n2)
  = (r1 <- RingBuffer_write r (SrcMem m pos) n1 ;;
     RingBuffer_write r1 (SrcMem m (pos + n1)) n2)
  /\ RingBuffer_write r (SrcMem m pos) (n1 + n2) <> None.
Proof.
  intros Hwf Hpos Hn1 Hn2 Hfit.
  rewrite (RingBuffer_write_spec k r (SrcMem m pos) (n1 + n2))
    by (try assumption; lia).
  rewrite (RingBuffer_write_spec k r (SrcMem m pos) n1)
    by (try assumption; lia).
  cbn [obind].
  rewrite (RingBuffer_write_spec k) by (try apply ring_append_wf; try assumption; lia).
  cbn [src_read]. rewrite mem_read_split, ring_append_app by lia.
  split; [reflexivity | discriminate].
Qed.

Lemma write_composes_witness :
  RingBuffer_write (RingBuffer_make 2)
    (SrcMem [Byte.x61; Byte.x62; Byte.x63; Byte.x64; Byte.x65] 0) (3 + 2)
  = (r1 <- RingBuffer_write (RingBuffer_make 2)
             (SrcMem [Byte.x61; Byte.x62; Byte.x63; Byte.x64; Byte.x65] 0) 3 ;;
     RingBuffer_write r1
       (SrcMem [Byte.x61; Byte.x62; Byte.x63; Byte.x64; Byte.x65] (0 + 3)) 2).
Proof.
  apply (write_composes 2 (RingBuffer_make 2)
           [Byte.x61; Byte.x62; Byte.x63; Byte.x64; Byte.x65] 0 3 2 make_2_wf);
    cbn [length]; lia.
Defined.

(** X3: [RingBuffer_copy] without a callback copies all [n] bytes found
    [offset] past the write position: it returns [n], the ring stays well
    formed, the copied bytes are its newest bytes (equal to the source as it
    was before the call), and the older bytes are found [n] positions
    nearer to the write position. *)
Theorem copy_replays (k : Z) (r : RingBuffer) (off n : Z) :
  ring_wf k r -> 0 <= off -> 0 < n -> off + n <= size r ->
  exists r',
    RingBuffer_copy r None tt off n = Some (r', tt, n)
    /\ ring_wf k r' /\ size r' = size r
    /\ (forall i, 0 <= i < n ->
                  RingBuffer_read_char r' (size r - n + i)
                  = RingBuffer_read_char r (off + i))
    /\ (forall j, 0 <= j -> j + n < size r ->
                  RingBuffer_read_char r' j = RingBuffer_read_char r (j + n)).
Proof.
  intros Hwf Hoff Hn Hfit.
  set (W := ring_window r off n).
  assert (Hlen : Z.of_nat (length W) = n).
  { unfold W. rewrite length_ring_window. lia. }
  exists (ring_append r W).
  assert (Hwf' : ring_wf k (ring_append r W)) by (apply ring_append_wf, Hwf).
  split; [apply (RingBuffer_copy_all k); assumption|].
  split; [exact Hwf'|]. split; [apply ring_append_size|].
  split.
  - intros i Hi.
    rewrite !(read_char_spec k) by assumption.
    rewrite (ring_at_append k) by (try assumption; lia). rewrite Hlen.
    destruct (Z.ltb_spec (size r - n + i + n) (size r)) as [Habs|_]; [lia|].
    replace (size r - n + i + n - size r) with i by lia.
    unfold W. rewrite nth_ring_window by lia. rewrite Z2Nat.id by lia.
    reflexivity.
  - intros j Hj Hold.
    rewrite !(read_char_spec k) by assumption.
    rewrite (ring_at_append k) by (try assumption; lia). rewrite Hlen.
    destruct (Z.ltb_spec (j + n) (size r)) as [_|Habs]; [reflexivity | lia].
Qed.

(** An overlapping copy in a full ring ['a'; 'b'; 'c'; 'd']: the three
    bytes found one past the write position are copied to the write
    position; the newest bytes are then ['b'; 'c'; 'd'], after the older
    ['d']. *)
Lemma copy_replays_witness :
  exists r',
    RingBuffer_copy (mkRing 4 0 true 2 [Byte.x61; Byte.x62; Byte.x63; Byte.x64])
      None tt 1 3 = Some (r', tt, 3)
    /\ RingBuffer_read_char r' 0 = 100
    /\ RingBuffer_read_char r' 1 = 98
    /\ RingBuffer_read_char r' 2 = 99
    /\ RingBuffer_read_char r' 3 = 100.
Proof.
  destruct (copy_replays 2
              (mkRing 4 0 true 2 [Byte.x61; Byte.x62; Byte.x63; Byte.x64])
              1 3 ring_abcd_wf ltac:(lia) ltac:(lia) ltac:(cbn; lia))
    as (r' & E & _ & _ & Hnew & Hold).
  exists r'. split; [exact E|].
  split; [exact (Hold 0 ltac:(lia) ltac:(cbn; lia))|].
  split; [exact (Hnew 0 ltac:(lia))|].
  split; [exact (Hnew 1 ltac:(lia)) | exact (Hnew 2 ltac:(lia))].
Defined.

(** X4: when the callback of [RingBuffer_copy] accepts only [m] of the [n]
    bytes offered (a callback that treats a range offered in parts as it
    treats the whole), the call returns [m] and has copied exactly the first
    [m] bytes; a second call for the remaining [n - m] bytes at the same
    offset, accepted whole, leaves the ring as one copy of all [n] bytes
    would have. *)
Theorem copy_truncated_resumes {St : Type} (k : Z) (I : St -> Prop)
    (cb : RingBufferWriteFn St) (r : RingBuffer) (st : St) (off n : Z) :
  cb_sequential I cb -> I st ->
  ring_wf k r -> 0 <= off -> 0 < n -> off + n <= size r ->
  exists r' st' m,
    RingBuffer_copy r (Some cb) st off n = Some (r', st', m)
    /\ (st', m) = cb st (ring_window r off n)
    /\ 0 <= m <= n
    /\ ring_wf k r'
    /\ (m < n ->
        exists r2,
          RingBuffer_copy r' None tt off (n - m) = Some (r2, tt, n - m)
          /\ RingBuffer_copy r None tt off n = Some (r2, tt, n)).
Proof.
  intros Hseq HI Hwf Hoff Hn Hfit.
  set (W := ring_window r off n).
  assert (Hlen : Z.of_nat (length W) = n).
  { unfold W. rewrite length_ring_window. lia. }
  pose proof (RingBuffer_copy_spec k I (Some cb) r st off n Hseq HI Hwf Hoff
                Hn Hfit) as E.
  cbn [cb_or_all] in E. fold W in E.
  destruct Hseq as [Hbound _]. specialize (Hbound st W HI).
  destruct (cb st W) as [st' m] eqn:Ecb. cbn [fst snd] in Hbound.
  destruct Hbound as [_ Hm]. rewrite Hlen in Hm.
  exists (ring_append r (firstn (Z.to_nat m) W)), st', m.
  assert (Hwf' : ring_wf k (ring_append r (firstn (Z.to_nat m) W)))
    by (apply ring_append_wf, Hwf).
  split; [exact E|]. split; [reflexivity|]. split; [exact Hm|].
  split; [exact Hwf'|].
  intros Hless.
  assert (Hlf : Z.of_nat (length (firstn (Z.to_nat m) W)) = m).
  { rewrite length_firstn. lia. }
  exists (ring_append r W). split.
  - rewrite (RingBuffer_copy_all k)
      by (try assumption; try lia; rewrite ring_append_size; lia).
    rewrite (window_after_append k) by (try assumption; lia).
    rewrite Hlf.
    replace (ring_window r (off + m) (n - m)) with (skipn (Z.to_nat m) W).
    + rewrite <- ring_append_app, firstn_skipn. reflexivity.
    + unfold W. apply skipn_ring_window; lia.
  - apply (RingBuffer_copy_all k); assumption.
Qed.

(** The decompressor's callback with room for one byte accepts one of the
    three bytes offered; copying the other two afterwards leaves the ring
    as the copy of all three does. *)
Lemma copy_truncated_resumes_witness :
  exists r' st' r2,
    RingBuffer_copy (mkRing 4 0 true 2 [Byte.x61; Byte.x62; Byte.x63; Byte.x64])
      (Some GKeyDecomp.ring_writer)
      (GKeyDecomp.gkeydecomp_make 2, stream_params [] 1) 1 3
    = Some (r', st', 1)
    /\ written (snd st') = [Byte.x62]
    /\ RingBuffer_copy r' None tt 1 2 = Some (r2, tt, 2)
    /\ RingBuffer_copy
         (mkRing 4 0 true 2 [Byte.x61; Byte.x62; Byte.x63; Byte.x64])
         None tt 1 3 = Some (r2, tt, 3).
Proof.
  destruct (stream_params_ok [] 1 ltac:(lia)) as [_ Hout].
  destruct (copy_truncated_resumes 2
              (fun st : GKeyDecomp.GKeyDecomp * GKeyParameters =>
                 out_window_ok (snd st))
              GKeyDecomp.ring_writer
              (mkRing 4 0 true 2 [Byte.x61; Byte.x62; Byte.x63; Byte.x64])
              (GKeyDecomp.gkeydecomp_make 2, stream_params [] 1) 1 3
              ring_writer_sequential Hout ring_abcd_wf
              ltac:(lia) ltac:(lia) ltac:(cbn; lia))
    as (r' & st' & m & E & Ecb & _ & _ & Hrest).
  vm_compute in Ecb. injection Ecb as -> ->.
  destruct (Hrest ltac:(lia)) as (r2 & E1 & E2).
  eexists r', _, r2. split; [exact E|].
  split; [reflexivity|]. split; [exact E1 | exact E2].
Defined.

(** X5: for a non-empty range, [RingBuffer_find_char] returns the offset of
    the first byte of the range equal to [c], or [SIZE_MAX] when the range
    holds no such byte. *)
Theorem find_char_first (k : Z) (r : RingBuffer) (offset n c : Z) :
  ring_wf k r -> 0 <= offset -> 0 < n -> offset + n <= size r ->
  0 <= c < 256 ->
  (RingBuffer_find_char r offset n c = SIZE_MAX
   /\ forall d, offset <= d < offset + n -> RingBuffer_read_char r d <> c)
  \/ (offset <= RingBuffer_find_char r offset n c < offset + n
      /\ RingBuffer_read_char r (RingBuffer_find_char r offset n c) = c
      /\ forall d, offset <= d < RingBuffer_find_char r offset n c ->
                   RingBuffer_read_char r d <> c).
Proof.
  intros Hwf Ho Hn Hfit Hc.
  destruct (find_char_spec k r offset n c Hwf Ho Hn Hfit Hc)
    as [[E Hnone]|(Hin & Hat & Hfirst)].
  - left. split; [exact E|]. intros d Hd.
    rewrite (read_char_spec k) by assumption. apply Hnone, Hd.
  - right. split; [exact Hin|].
    split; [rewrite (read_char_spec k) by assumption; exact Hat|].
    intros d Hd. rewrite (read_char_spec k) by assumption. apply Hfirst, Hd.
Qed.

Lemma find_char_first_witness :
  RingBuffer_find_char (RingBuffer_make 2) 1 3 0 = 1
  /\ RingBuffer_find_char (RingBuffer_make 2) 1 3 7 = SIZE_MAX.
Proof.
  assert (Hfit : 1 + 3 <= size (RingBuffer_make 2)) by (cbn; lia).
  split.
  - destruct (find_char_first 2 (RingBuffer_make 2) 1 3 0 make_2_wf
                ltac:(lia) ltac:(lia) Hfit ltac:(lia)) as [[E _]|_];
      [discriminate E | reflexivity].
  - destruct (find_char_first 2 (RingBuffer_make 2) 1 3 7 make_2_wf
                ltac:(lia) ltac:(lia) Hfit ltac:(lia)) as [[E _]|(H & _)];
      [exact E | reflexivity].
Defined.

Lemma memcmp_list_app (a c b d : list byte) :
  length a = length c ->
  memcmp_list (a ++ b) (c ++ d)
  = if memcmp_list a c =? 0 then memcmp_list b d else memcmp_list a c.
Proof.
  revert c. induction a as [|x a IH]; intros [|y c] Hl; try discriminate Hl.
  - reflexivity.
  - cbn [app memcmp_list]. cbn [length] in Hl.
    destruct (Byte.eqb x y) eqn:E.
    + apply IH. lia.
    + apply Byte.eqb_false in E.
      destruct (Z.eqb_spec (byte.unsigned x - byte.unsigned y) 0) as [Hz|_];
        [|reflexivity].
      exfalso. apply E. apply byte.unsigned_inj. lia.
Qed.

Lemma memcmp_list_refl (l : list byte) : memcmp_list l l = 0.
Proof.
  induction l as [|b l IH]; [reflexivity|].
  cbn [memcmp_list].
  replace (Byte.eqb b b) with true
    by (symmetry; apply Byte.byte_dec_lb; reflexivity).
  exact IH.
Qed.

(** How [RingBuffer_compare] steps to the next contiguous range. *)
Lemma compare_advance (k : Z) (r : RingBuffer) (o d start len tc : Z) :
  ring_wf k r -> 0 <= o -> 0 <= d -> o + d < size r ->
  start = (write_pos r + (o + d)) mod size r ->
  len = (if write_pos r >? start then write_pos r - start
         else size r - start) ->
  0 < tc <= len -> o + d + tc < size r ->
  let s' := fst (if len - tc =? 0 then (0, write_pos r)
                 else (start + tc, len - tc)) in
  let l' := snd (if len - tc =? 0 then (0, write_pos r)
                 else (start + tc, len - tc)) in
  s' = (write_pos r + (o + (d + tc))) mod size r
  /\ l' = (if write_pos r >? s' then write_pos r - s' else size r - s').
Proof.
  intros Hwf Ho Hd Hod Hst Hlen Htc Hmore s' l'.
  pose proof Hwf as (Hk & Hs & Hw & _).
  pose proof (contiguous_range k r (o + d) Hwf ltac:(lia)) as C.
  cbv zeta in C. rewrite <- Hst, <- Hlen in C.
  destruct C as (Ca & Cb & Cc & Cd & Ce).
  unfold s', l'.
  destruct (Z.eqb_spec (len - tc) 0) as [E|E]; cbn [fst snd].
  - assert (Htl : tc = len) by lia. rewrite Htl in *.
    destruct (Ce ltac:(lia)) as [W1 W2].
    replace (o + (d + len)) with (o + d + len) by lia.
    rewrite W1. split; [reflexivity|].
    destruct (Z.gtb_spec (write_pos r) 0); lia.
  - assert (Hpos' : (write_pos r + (o + (d + tc))) mod size r = start + tc).
    { pose proof (Z.mod_pos_bound (write_pos r + (o + d)) (size r)
                    ltac:(lia)) as Hb.
      rewrite <- Hst in Hb.
      replace (write_pos r + (o + (d + tc)))
        with (write_pos r + (o + d) + tc) by lia.
      rewrite <- (Z.add_mod_idemp_l (write_pos r + (o + d)) tc (size r))
        by lia.
      rewrite <- Hst. apply Z.mod_small. lia. }
    rewrite Hpos'. split; [reflexivity|].
    rewrite Hlen.
    destruct (Z.gtb_spec (write_pos r) start);
      destruct (Z.gtb_spec (write_pos r) (start + tc)); lia.
Qed.

Lemma compare_loop_value (k : Z) (r : RingBuffer) (o1 o2 n : Z) :
  ring_wf k r -> 0 <= o1 -> 0 <= o2 -> o1 + n <= size r -> o2 + n <= size r ->
  forall (fuel : nat) (nleft start1 len1 start2 len2 : Z),
    0 <= nleft <= n ->
    (0 < nleft ->
     start1 = (write_pos r + (o1 + (n - nleft))) mod size r
     /\ len1 = (if write_pos r >? start1 then write_pos r - start1
                else size r - start1)
     /\ start2 = (write_pos r + (o2 + (n - nleft))) mod size r
     /\ len2 = (if write_pos r >? start2 then write_pos r - start2
                else size r - start2)) ->
    (Z.to_nat nleft <= fuel)%nat ->
    RingBuffer_compare_loop fuel r start1 len1 start2 len2 nleft
    = Some (memcmp_list (ring_window r (o1 + (n - nleft)) nleft)
              (ring_window r (o2 + (n - nleft)) nleft)).
Proof.
  intros Hwf Ho1 Ho2 Hf1 Hf2. pose proof Hwf as (Hk & Hs & Hw & Hl & Hz).
  induction fuel as [|fuel IH];
    intros nleft start1 len1 start2 len2 Hn Hinv Hfuel.
  - assert (nleft = 0) as -> by lia. reflexivity.
  - cbn [RingBuffer_compare_loop].
    destruct (Z.eqb_spec nleft 0) as [->|Hn0]; [reflexivity|].
    destruct (Hinv ltac:(lia)) as (Hs1 & Hl1 & Hs2 & Hl2).
    set (d := n - nleft) in *.
    pose proof (contiguous_range k r (o1 + d) Hwf ltac:(lia)) as C1.
    pose proof (contiguous_range k r (o2 + d) Hwf ltac:(lia)) as C2.
    cbv zeta in C1, C2. rewrite <- Hs1, <- Hl1 in C1.
    rewrite <- Hs2, <- Hl2 in C2.
    destruct C1 as (C1a & C1b & C1c & C1d & _).
    destruct C2 as (C2a & C2b & C2c & C2d & _).
    set (tc := LOWEST (LOWEST len1 len2) nleft).
    assert (Htc : 0 < tc <= nleft /\ tc <= len1 /\ tc <= len2).
    { unfold tc, LOWEST. destruct (Z.ltb_spec len1 len2);
        [destruct (Z.ltb_spec len1 nleft) | destruct (Z.ltb_spec len2 nleft)];
        lia. }
    assert (Hchunk : memcmp (buffer r) start1 start2 tc
                     = memcmp_list (ring_window r (o1 + d) tc)
                         (ring_window r (o2 + d) tc)).
    { unfold memcmp. rewrite Hs1, Hs2.
      rewrite !(window_contiguous k)
        by (try assumption; try lia; rewrite <- ?Hs1, <- ?Hs2; lia).
      reflexivity. }
    assert (Hwhole : memcmp_list (ring_window r (o1 + d) nleft)
                       (ring_window r (o2 + d) nleft)
                     = if memcmp (buffer r) start1 start2 tc =? 0
                       then memcmp_list
                              (ring_window r (o1 + (d + tc)) (nleft - tc))
                              (ring_window r (o2 + (d + tc)) (nleft - tc))
                       else memcmp (buffer r) start1 start2 tc).
    { replace nleft with (tc + (nleft - tc)) at 1 2 by lia.
      rewrite !ring_window_split by lia.
      rewrite memcmp_list_app by (rewrite !length_ring_window; reflexivity).
      rewrite <- Hchunk, <- !Z.add_assoc. reflexivity. }
    rewrite Hwhole.
    destruct (Z.eqb_spec (memcmp (buffer r) start1 start2 tc) 0)
      as [Hcmp|Hcmp]; cbn [negb]; [|reflexivity].
    destruct (Z.eq_dec tc nleft) as [Hlast|Hmore].
    + (* nothing is left *)
      rewrite Hlast, Z.sub_diag.
      destruct (if len1 - nleft =? 0 then (0, write_pos r)
                else (start1 + nleft, len1 - nleft)) as [s1 l1].
      destruct (if len2 - nleft =? 0 then (0, write_pos r)
                else (start2 + nleft, len2 - nleft)) as [s2 l2].
      destruct fuel; reflexivity.
    + pose proof (compare_advance k r o1 d start1 len1 tc Hwf Ho1
                    ltac:(unfold d; lia) ltac:(unfold d in *; lia) Hs1 Hl1
                    ltac:(lia) ltac:(unfold d in *; lia)) as [N1 N2].
      pose proof (compare_advance k r o2 d start2 len2 tc Hwf Ho2
                    ltac:(unfold d; lia) ltac:(unfold d in *; lia) Hs2 Hl2
                    ltac:(lia) ltac:(unfold d in *; lia)) as [N3 N4].
      cbv zeta in N1, N2, N3, N4.
      destruct (if len1 - tc =? 0 then (0, write_pos r)
                else (start1 + tc, len1 - tc)) as [s1 l1].
      destruct (if len2 - tc =? 0 then (0, write_pos r)
                else (start2 + tc, len2 - tc)) as [s2 l2].
      cbn [fst snd] in N1, N2, N3, N4.
      rewrite (IH (nleft - tc) s1 l1 s2 l2); try lia.
      * replace (n - (nleft - tc)) with (d + tc) by (unfold d; lia).
        reflexivity.
      * intros _.
        replace (n - (nleft - tc)) with (d + tc) by (unfold d; lia).
        repeat split; assumption.
Qed.

(** With the byte-wise [memcmp] of the model, [RingBuffer_compare] returns
    the difference of the first pair of bytes in which the two ranges
    differ. *)
Lemma compare_bytewise (k : Z) (r : RingBuffer) (o1 o2 n : Z) :
  ring_wf k r -> 0 <= o1 -> 0 <= o2 -> 0 < n ->
  o1 + n <= size r -> o2 + n <= size r ->
  RingBuffer_compare r o1 o2 n
  = Some (memcmp_list (ring_window r o1 n) (ring_window r o2 n))
  /\ (RingBuffer_compare r o1 o2 n = Some 0
      <-> forall i, 0 <= i < n ->
                    RingBuffer_read_char r (o1 + i)
                    = RingBuffer_read_char r (o2 + i)).
Proof.
  intros Hwf Ho1 Ho2 Hn Hf1 Hf2. pose proof Hwf as (Hk & Hs & Hw & Hl & Hz).
  assert (E : RingBuffer_compare r o1 o2 n
              = Some (memcmp_list (ring_window r o1 n) (ring_window r o2 n))).
  { unfold RingBuffer_compare.
    replace (Z.land (write_pos r + o1) (size r - 1))
      with ((write_pos r + o1) mod size r)
      by (rewrite Hs; symmetry; apply land_size, Hk).
    replace (Z.land (write_pos r + o2) (size r - 1))
      with ((write_pos r + o2) mod size r)
      by (rewrite Hs; symmetry; apply land_size, Hk).
    destruct (Z.eqb_spec n 1) as [->|Hn1].
    - rewrite !ring_window_1. cbn [memcmp_list]. unfold ring_at.
      destruct (Byte.eqb _ _) eqn:Eb; [|reflexivity].
      apply Byte.byte_dec_bl in Eb. rewrite Eb. f_equal. lia.
    - rewrite (compare_loop_value k r o1 o2 n Hwf Ho1 Ho2 Hf1 Hf2);
        try lia.
      + rewrite Z.sub_diag, !Z.add_0_r. reflexivity.
      + intros _. rewrite Z.sub_diag, !Z.add_0_r. auto. }
  split; [exact E|].
  rewrite E. split.
  - intros H. injection H as H.
    apply memcmp_list_eq in H; [|rewrite !length_ring_window; reflexivity].
    intros i Hi. rewrite !(read_char_spec k) by assumption.
    rewrite <- (Z2Nat.id i) by lia.
    rewrite <- !nth_ring_window with (n := n) by lia.
    rewrite H. reflexivity.
  - intros H. f_equal.
    replace (ring_window r o2 n) with (ring_window r o1 n);
      [apply memcmp_list_refl|].
    apply (nth_ext _ _ Byte.x00 Byte.x00);
      [rewrite !length_ring_window; reflexivity|].
    intros i Hi. rewrite length_ring_window in Hi.
    rewrite !nth_ring_window by lia.
    apply byte.unsigned_inj. rewrite <- !(read_char_spec k) by assumption.
    apply H. lia.
Qed.

Lemma memcmp_list_first (l1 : list byte) :
  forall (l2 : list byte) (j : nat),
    length l1 = length l2 -> (j < length l1)%nat ->
    (forall i, (i < j)%nat -> nth i l1 Byte.x00 = nth i l2 Byte.x00) ->
    nth j l1 Byte.x00 <> nth j l2 Byte.x00 ->
    memcmp_list l1 l2
    = byte.unsigned (nth j l1 Byte.x00) - byte.unsigned (nth j l2 Byte.x00).
Proof.
  induction l1 as [|x l1 IH]; intros [|y l2] j Hl Hj Hsame Hdiff;
    cbn [length] in *; try lia.
  cbn [memcmp_list]. destruct j as [|j].
  - cbn [nth] in *. destruct (Byte.eqb x y) eqn:E; [|reflexivity].
    apply Byte.byte_dec_bl in E. contradiction.
  - pose proof (Hsame O ltac:(lia)) as H0. cbn [nth] in H0. subst y.
    replace (Byte.eqb x x) with true
      by (symmetry; apply Byte.byte_dec_lb; reflexivity).
    cbn [nth]. apply IH; [lia | lia | | exact Hdiff].
    intros i Hi. apply (Hsame (S i)). lia.
Qed.

(** X6: [RingBuffer_compare] returns, and its result is zero exactly when
    the [n] bytes at [offset1] equal the [n] bytes at [offset2]; otherwise
    its sign is that of the difference of the first pair of bytes (as
    unsigned chars) in which the two ranges differ.  The magnitude of a
    result other than zero is left open, as [memcmp] leaves it open. *)
Theorem compare_sign (k : Z) (r : RingBuffer) (o1 o2 n : Z) :
  ring_wf k r -> 0 <= o1 -> 0 <= o2 -> 0 < n ->
  o1 + n <= size r -> o2 + n <= size r ->
  exists v,
    RingBuffer_compare r o1 o2 n = Some v
    /\ (v = 0
        <-> forall i, 0 <= i < n ->
                      RingBuffer_read_char r (o1 + i)
                      = RingBuffer_read_char r (o2 + i))
    /\ (forall j, 0 <= j < n ->
                  (forall i, 0 <= i < j ->
                             RingBuffer_read_char r (o1 + i)
                             = RingBuffer_read_char r (o2 + i)) ->
                  RingBuffer_read_char r (o1 + j)
                  <> RingBuffer_read_char r (o2 + j) ->
                  Z.sgn v
                  = Z.sgn (RingBuffer_read_char r (o1 + j)
                           - RingBuffer_read_char r (o2 + j))).
Proof.
  intros Hwf Ho1 Ho2 Hn Hf1 Hf2.
  destruct (compare_bytewise k r o1 o2 n Hwf Ho1 Ho2 Hn Hf1 Hf2)
    as [E Hzero].
  exists (memcmp_list (ring_window r o1 n) (ring_window r o2 n)).
  split; [exact E|]. split.
  - rewrite <- Hzero, E. split; [intros ->; reflexivity|].
    intros H. injection H as H. exact H.
  - intros j Hj Hsame Hdiff. f_equal.
    rewrite !(read_char_spec k) in Hdiff by assumption.
    rewrite (memcmp_list_first _ _ (Z.to_nat j)).
    + rewrite !nth_ring_window by lia. rewrite Z2Nat.id by lia.
      rewrite !(read_char_spec k) by assumption. reflexivity.
    + rewrite !length_ring_window. reflexivity.
    + rewrite length_ring_window. lia.
    + intros i Hi. rewrite !nth_ring_window by lia.
      apply byte.unsigned_inj.
      rewrite <- !(read_char_spec k) by assumption.
      apply Hsame. lia.
    + rewrite !nth_ring_window by lia. rewrite Z2Nat.id by lia.
      intros Heq. apply Hdiff. rewrite Heq. reflexivity.
Qed.

(** In a full ring ['a'; 'b'; 'a'; 'b'] the two bytes at offset 0 equal the
    two at offset 2, and compare less than the two at offset 1. *)
Lemma compare_sign_witness :
  RingBuffer_compare (mkRing 4 0 true 2 [Byte.x61; Byte.x62; Byte.x61; Byte.x62])
    0 2 2 = Some 0
  /\ exists v,
       RingBuffer_compare
         (mkRing 4 0 true 2 [Byte.x61; Byte.x62; Byte.x61; Byte.x62]) 0 1 2
       = Some v
       /\ Z.sgn v = -1.
Proof.
  split.
  - destruct (compare_sign 2
                (mkRing 4 0 true 2 [Byte.x61; Byte.x62; Byte.x61; Byte.x62])
                0 2 2 ring_abab_wf ltac:(lia) ltac:(lia) ltac:(lia)
                ltac:(cbn; lia) ltac:(cbn; lia)) as (v & E & Hzero & _).
    rewrite E. f_equal. apply Hzero.
    intros i Hi.
    assert (Hi' : i = 0 \/ i = 1) by lia.
    destruct Hi' as [-> | ->]; reflexivity.
  - destruct (compare_sign 2
                (mkRing 4 0 true 2 [Byte.x61; Byte.x62; Byte.x61; Byte.x62])
                0 1 2 ring_abab_wf ltac:(lia) ltac:(lia) ltac:(lia)
                ltac:(cbn; lia) ltac:(cbn; lia)) as (v & E & _ & Hsign).
    exists v. split; [exact E|].
    rewrite (Hsign 0 ltac:(lia)).
    + reflexivity.
    + intros i Hi. lia.
    + discriminate.
Defined.

End RingUse.


(** ** What the status of the decompressor says *)

Section DecoderStatus.
Import GKeyDecomp.

Lemma ring_writer_short (d : GKeyDecomp) (p : GKeyParameters) (l : list byte)
    (d' : GKeyDecomp) (p' : GKeyParameters) (m : Z) :
  ring_writer (d, p) l = (d', p', m) ->
  prog_cb p' = prog_cb p
  /\ (m < Z.of_nat (length l) ->
      (exists ob, out_buffer p' = Some ob) /\ out_size p' = 0).
Proof.
  unfold ring_writer.
  destruct (out_buffer p) as [ob|]; intros H; injection H as <- <- <-;
    cbn [prog_cb out_buffer out_size].
  - split; [reflexivity|]. intros Hm.
    destruct (Z.ltb_spec (out_size p) (Z.of_nat (length l))); [|lia].
    split; [eauto | lia].
  - split; [reflexivity|]. intros Hm. lia.
Qed.

Lemma read_bits_fail (d : GKeyDecomp) (p : GKeyParameters) (n : Z) :
  fst (fst (fst (read_bits d p n))) = false ->
  in_size (snd (read_bits d p n)) = 0.
Proof.
  unfold read_bits.
  destruct (read_bits_loop _ _ _ _ _ _ _ _)
    as [ok [[[[ib isz] it] a] nb]] eqn:E.
  apply read_bits_loop_spec in E.
  destruct E as (_ & _ & _ & _ & A6 & _).
  destruct (nb >=? n); cbn [fst snd in_size]; intros ->;
    destruct (A6 eq_refl); assumption.
Qed.

Ltac reason_simpl :=
  unfold decomp_reason;
  cbn [p_state p_decomp p_params p_status p_stop set_history set_input
       set_out_total set_read_size set_read_offset set_literal acc
       in_size out_size out_buffer prog_cb].

Lemma case_CopyData_reason (k : Z) (d : GKeyDecomp) (p : GKeyParameters)
    (r : pass) :
  decomp_ok k GKeyDecompState_CopyData d p ->
  case_CopyData GKeyStatus_OK false d p = Some r ->
  prog_cb (p_params r) = prog_cb p /\ decomp_reason r.
Proof.
  intros [Hbase (Hr1 & Hr2 & Hr3)].
  pose proof Hbase as (Hk & Hkr & Hwf & Hnb & Hin & Hout).
  pose proof Hwf as (_ & Hsz & _).
  unfold case_CopyData.
  rewrite (RingBuffer_copy_spec k
             (fun st : GKeyDecomp * GKeyParameters => out_window_ok (snd st)))
    by (try assumption; try lia; apply ring_writer_sequential).
  cbn [cb_or_all].
  set (W := ring_window (history d) (read_offset d) (read_size d)).
  destruct (ring_writer_shape d p W) as (ot & mem & ob & os & m & E & _).
  destruct (ring_writer_short d p W _ _ _ E) as [Hcb Hshort].
  unfold W in Hshort. rewrite length_ring_window in Hshort.
  rewrite Z2Nat.id in Hshort by lia.
  rewrite E. cbn [obind set_history set_out_total read_size].
  destruct (Z.geb_spec m (read_size d)) as [Hall|Hpart];
    intros H; injection H as <-; reason_simpl.
  - split; [reflexivity|]. intros Habs; discriminate.
  - split; [reflexivity|].
    destruct (Hshort Hpart) as [Hob Hos]. cbn [out_buffer out_size] in *.
    split; [exact Hob|]. split; [exact Hos|]. left; reflexivity.
Qed.

Lemma case_GetSize_reason (k : Z) (d : GKeyDecomp) (p : GKeyParameters)
    (r : pass) :
  decomp_ok k GKeyDecompState_GetSize d p ->
  case_GetSize GKeyStatus_OK false d p = Some r ->
  prog_cb (p_params r) = prog_cb p /\ decomp_reason r.
Proof.
  intros [Hbase Hro].
  pose proof Hbase as (Hk & Hkr & Hwf & Hnb & Hin & Hout).
  unfold case_GetSize.
  pose proof (read_bits_fail d p
                (GKey_get_read_size_bits (history_log_2 d) (read_offset d)))
    as Hfail.
  destruct (read_bits_base k d p
              (GKey_get_read_size_bits (history_log_2 d) (read_offset d))
              Hbase)
    as (ok & out & ib & isz & it & a & nb & E & Hbase' & Hout0 & HB).
  { apply size_bits_nonneg. lia. }
  rewrite E in Hfail |- *. clear E. cbn [fst snd in_size] in Hfail.
  destruct ok.
  - cbn [read_offset set_input history_log_2].
    rewrite Hk, shiftl_1 by lia.
    destruct (Z.eqb_spec out 0) as [Hz|Hnz]; cbn [orb].
    + intros H; injection H as <-; reason_simpl. split; reflexivity.
    + destruct (Z.gtb_spec (read_offset d + out) (2 ^ k)) as [Hbig|Hfit].
      * intros H; injection H as <-; reason_simpl. split; reflexivity.
      * intros H. apply (case_CopyData_reason k) in H; [exact H|].
        split; [exact Hbase'|].
        unfold copy_range_ok.
        cbn [set_read_size set_input read_offset read_size]. lia.
  - intros H; injection H as <-; reason_simpl.
    split; [reflexivity|]. split; [apply Hfail; reflexivity|].
    right; left; reflexivity.
Qed.

Lemma case_GetOffset_reason (k : Z) (d : GKeyDecomp) (p : GKeyParameters)
    (r : pass) :
  decomp_base k d p ->
  case_GetOffset GKeyStatus_OK false d p = Some r ->
  prog_cb (p_params r) = prog_cb p /\ decomp_reason r.
Proof.
  intros Hbase.
  pose proof Hbase as (Hk & Hkr & Hwf & Hnb & Hin & Hout).
  unfold case_GetOffset.
  pose proof (read_bits_fail d p (history_log_2 d)) as Hfail.
  destruct (read_bits_base k d p (history_log_2 d) Hbase)
    as (ok & out & ib & isz & it & a & nb & E & Hbase' & Hout0 & HB);
    [lia|].
  rewrite E in Hfail |- *. clear E. cbn [fst snd in_size] in Hfail.
  destruct ok.
  - intros H. apply (case_GetSize_reason k) in H; [exact H|].
    split; [exact Hbase'|].
    cbn [set_read_offset set_input read_offset]. exact Hout0.
  - intros H; injection H as <-; reason_simpl.
    split; [reflexivity|]. split; [apply Hfail; reflexivity|].
    left; reflexivity.
Qed.

Lemma case_GetType_reason (k : Z) (d : GKeyDecomp) (p : GKeyParameters)
    (r : pass) :
  decomp_base k d p ->
  case_GetType GKeyStatus_OK false d p = Some r ->
  prog_cb (p_params r) = prog_cb p /\ decomp_reason r.
Proof.
  intros Hbase.
  pose proof Hbase as (Hk & Hkr & Hwf & Hnb & Hin & Hout).
  unfold case_GetType.
  pose proof (read_bits_fail d p 1) as Hfail.
  destruct (read_bits_base k d p 1 Hbase)
    as (ok & out & ib & isz & it & a & nb & E & Hbase' & Hout0 & HB);
    [lia|].
  rewrite E in Hfail |- *. clear E. cbn [fst snd in_size] in Hfail.
  destruct ok.
  - destruct (negb (out =? 0)).
    + intros H. apply (case_GetOffset_reason k) in H; [exact H|].
      exact Hbase'.
    + intros H; injection H as <-; reason_simpl.
      split; [reflexivity|]. intros Habs; discriminate.
  - intros H; injection H as <-; reason_simpl.
    split; [reflexivity|]. intros _.
    split; [apply Hfail; reflexivity|]. left; reflexivity.
Qed.

Lemma case_Progress_reason (k : Z) (d : GKeyDecomp) (p : GKeyParameters)
    (r : pass) :
  decomp_base k d p ->
  case_Progress GKeyStatus_OK false d p = Some r ->
  prog_cb (p_params r) = prog_cb p /\ decomp_reason r.
Proof.
  intros Hbase. unfold case_Progress.
  destruct (prog_cb p) as [cb|] eqn:Hcb;
    [destruct (cb (in_total d) (out_total d))|].
  - intros H. apply (case_GetType_reason k) in H; [|exact Hbase].
    rewrite Hcb in H. exact H.
  - intros H; injection H as <-; reason_simpl.
    split; [exact Hcb|]. rewrite Hcb. split; [discriminate | reflexivity].
  - intros H. apply (case_GetType_reason k) in H; [|exact Hbase].
    rewrite Hcb in H. exact H.
Qed.

Lemma case_PutByte_reason (k : Z) (d : GKeyDecomp) (p : GKeyParameters)
    (r : pass) :
  decomp_base k d p ->
  case_PutByte GKeyStatus_OK false d p = Some r ->
  prog_cb (p_params r) = prog_cb p /\ decomp_reason r.
Proof.
  intros Hbase.
  pose proof Hbase as (Hk & Hkr & Hwf & Hnb & Hin & Hout).
  unfold case_PutByte.
  destruct (ring_writer_shape d p [literal d])
    as (ot & mem & ob & os & m & E & _).
  destruct (ring_writer_short d p [literal d] _ _ _ E) as [Hcb Hshort].
  destruct ring_writer_sequential as [Hseq _].
  specialize (Hseq (d, p) [literal d] Hout).
  rewrite E in Hseq |- *. cbn [fst snd length] in Hseq, Hshort.
  destruct Hseq as [_ Hm].
  destruct (Z.eqb_spec m 1) as [Hone|Hnone].
  - cbn [history set_out_total literal].
    rewrite (RingBuffer_write_spec k)
      by (try assumption; try lia; cbn [length]; lia).
    cbn [obind]. intros H; injection H as <-; reason_simpl.
    split; [reflexivity|]. intros Habs; discriminate.
  - intros H; injection H as <-; reason_simpl.
    split; [reflexivity|].
    destruct (Hshort ltac:(lia)) as [Hob Hos].
    cbn [out_buffer out_size] in *.
    split; [exact Hob|]. split; [exact Hos|]. right; reflexivity.
Qed.

Lemma case_GetByte_reason (k : Z) (d : GKeyDecomp) (p : GKeyParameters)
    (r : pass) :
  decomp_base k d p ->
  case_GetByte GKeyStatus_OK false d p = Some r ->
  prog_cb (p_params r) = prog_cb p /\ decomp_reason r.
Proof.
  intros Hbase.
  pose proof Hbase as (Hk & Hkr & Hwf & Hnb & Hin & Hout).
  unfold case_GetByte.
  pose proof (read_bits_fail d p CHAR_BIT) as Hfail.
  destruct (read_bits_base k d p CHAR_BIT Hbase)
    as (ok & out & ib & isz & it & a & nb & E & Hbase' & Hout0 & HB);
    [unfold CHAR_BIT; lia|].
  rewrite E in Hfail |- *. clear E. cbn [fst snd in_size] in Hfail.
  destruct ok.
  - intros H. apply (case_PutByte_reason k) in H; [exact H|].
    exact Hbase'.
  - cbn [acc set_input].
    destruct (Z.eqb_spec a 0) as [Hz|Hnz];
      intros H; injection H as <-; reason_simpl.
    + split; [reflexivity|]. intros _.
      split; [apply Hfail; reflexivity|]. right. split; [reflexivity|exact Hz].
    + split; [reflexivity|]. split; [apply Hfail; reflexivity|].
      right; right. split; [reflexivity|exact Hnz].
Qed.

Lemma switch_reason (k : Z) st (d : GKeyDecomp) (p : GKeyParameters)
    (r : pass) :
  decomp_ok k st d p ->
  switch st GKeyStatus_OK false d p = Some r ->
  prog_cb (p_params r) = prog_cb p /\ decomp_reason r.
Proof.
  intros Hok. pose proof Hok as [Hbase Hst].
  destruct st; cbn [switch].
  - apply (case_Progress_reason k), Hbase.
  - apply (case_GetType_reason k), Hbase.
  - apply (case_GetOffset_reason k), Hbase.
  - apply (case_GetSize_reason k), Hok.
  - apply (case_CopyData_reason k), Hok.
  - apply (case_GetByte_reason k), Hbase.
  - apply (case_PutByte_reason k), Hbase.
Qed.

Lemma decompress_loop_reason (k : Z) (fuel : nat) :
  forall st d p r,
    decomp_ok k st d p ->
    decompress_loop fuel st d p = Some r ->
    prog_cb (p_params r) = prog_cb p /\ decomp_reason r
    /\ (p_status r = GKeyStatus_OK -> p_stop r = true).
Proof.
  induction fuel as [|fuel IH]; intros st d p r Hok Hrun;
    cbn [decompress_loop] in Hrun; [discriminate|].
  destruct (switch_total_dec k st d p Hok) as (r1 & E & Hok1 & _).
  rewrite E in Hrun. cbn [obind] in Hrun.
  destruct (switch_reason k st d p r1 Hok E) as [Hcb Hreason].
  destruct (GKeyStatus_eqb (p_status r1) GKeyStatus_OK && negb (p_stop r1))
    eqn:Hgo.
  - apply IH in Hrun; [|exact Hok1].
    destruct Hrun as (Hcb' & H). split; [congruence | exact H].
  - injection Hrun as <-. split; [exact Hcb|]. split; [exact Hreason|].
    intros Hs. rewrite Hs in Hgo. cbn [GKeyStatus_eqb andb] in Hgo.
    apply negb_false_iff in Hgo. exact Hgo.
Qed.

(** X7: what the status returned by [gkeydecomp_decompress] says.  [OK] and
    [TruncatedInput] are returned only with the input window empty, [OK]
    between two tokens or inside a literal whose bits so far are all zero;
    [BufferOverflow] only with an output buffer whose window is full, in a
    state that resumes the pending write; [BadInput] only on a bad copy
    size; [Aborted] only when a progress callback was given; [Finished] is
    never returned. *)
Theorem decompress_status (k : Z) (d : GKeyDecomp) (p : GKeyParameters) :
  decomp_wf k d p ->
  exists s d' p',
    gkeydecomp_decompress d p = Some (s, d', p')
    /\ match s with
       | GKeyStatus_OK =>
           in_size p' = 0
           /\ (state d' = GKeyDecompState_GetType
               \/ (state d' = GKeyDecompState_GetByte /\ acc d' = 0))
       | GKeyStatus_TruncatedInput =>
           in_size p' = 0
           /\ (state d' = GKeyDecompState_GetOffset
               \/ state d' = GKeyDecompState_GetSize
               \/ (state d' = GKeyDecompState_GetByte /\ acc d' <> 0))
       | GKeyStatus_BufferOverflow =>
           (exists ob, out_buffer p' = Some ob) /\ out_size p' = 0
           /\ (state d' = GKeyDecompState_CopyData
               \/ state d' = GKeyDecompState_PutByte)
       | GKeyStatus_BadInput => state d' = GKeyDecompState_GetSize
       | GKeyStatus_Aborted =>
           prog_cb p <> None /\ state d' = GKeyDecompState_Progress
       | GKeyStatus_Finished => False
       end.
Proof.
  intros Hok.
  destruct (decompress_total k d p Hok) as (s & d' & p' & E & _).
  exists s, d', p'. split; [exact E|].
  unfold gkeydecomp_decompress in E.
  destruct (decompress_loop _ _ _ _) as [r|] eqn:El; [|discriminate].
  cbn [obind] in E. injection E as <- <- <-.
  apply (decompress_loop_reason k) in El; [|exact Hok].
  destruct El as (Hcb & Hreason & Hstop).
  unfold decomp_reason in Hreason.
  destruct (p_status r); cbn [state set_state acc] in *.
  - apply Hreason, Hstop. reflexivity.
  - exact Hreason.
  - exact Hreason.
  - exact Hreason.
  - rewrite <- Hcb. exact Hreason.
  - exact Hreason.
Qed.

Lemma decompress_status_witness :
  exists d' p',
    gkeydecomp_decompress (gkeydecomp_make 2)
      (stream_params [Byte.x82; Byte.x00] 0)
    = Some (GKeyStatus_BufferOverflow, d', p')
    /\ out_size p' = 0 /\ state d' = GKeyDecompState_PutByte.
Proof.
  assert (Hk : 0 <= 2 <= MaxHistoryLog2)
    by (unfold MaxHistoryLog2, ULongMinBit, CHAR_BIT; lia).
  destruct (stream_params_ok [Byte.x82; Byte.x00] 0 ltac:(lia)) as [Hin Hout].
  destruct (decompress_status 2 (gkeydecomp_make 2)
              (stream_params [Byte.x82; Byte.x00] 0)
              (decomp_make_wf 2 _ Hk Hin Hout)) as (s & d' & p' & E & H).
  vm_compute in E. injection E as <- <- <-.
  eexists _, _. split; [reflexivity|]. split; reflexivity.
Defined.

End DecoderStatus.


(** ** What the status of the compressor says *)

Section EncoderReason.
Import GKeyComp.

Lemma write_bits_loop_fail (fuel : nat) :
  forall mem ob os ot a nb mem' ob' os' ot' a' nb',
    write_bits_loop fuel mem ob os ot a nb
    = (false, (mem', ob', os', ot', a', nb')) ->
    (exists o, ob' = Some o) /\ os' = 0.
Proof.
  induction fuel as [|fuel IH];
    intros mem ob os ot a nb mem' ob' os' ot' a' nb' Hrun;
    cbn [write_bits_loop] in Hrun; [discriminate|].
  destruct (nb >=? CHAR_BIT); [|discriminate].
  destruct ob as [o|].
  - destruct (Z.eqb_spec os 0) as [Hz|Hnz].
    + injection Hrun as <- <- <- <- <- <-. split; [eauto | exact Hz].
    + apply IH in Hrun. exact Hrun.
  - apply IH in Hrun. exact Hrun.
Qed.

(** [write_bits] fails only with an output buffer whose window is empty. *)
Lemma write_bits_fail (c : GKeyComp) (p : GKeyParameters) (n bits : Z)
    (c' : GKeyComp) (p' : GKeyParameters) :
  write_bits c p n bits = (false, c', p') ->
  (exists o, out_buffer p' = Some o) /\ out_size p' = 0.
Proof.
  unfold write_bits.
  destruct (if n =? UINT_MAX then _ else _) as [n1 nb1].
  destruct (write_bits_loop _ _ _ _ _ _ _)
    as [ok [[[[[mem ob] os] ot] a] nb]] eqn:E.
  destruct ok; intros H; [discriminate|].
  injection H as <- <-. cbn [out_buffer out_size].
  apply write_bits_loop_fail in E. exact E.
Qed.

Lemma ring_writer_loop_short (l : list byte) :
  forall c p nout c' p' m,
    ring_writer_loop c p l nout = (c', p', m) ->
    m - nout < Z.of_nat (length l) ->
    (exists o, out_buffer p' = Some o) /\ out_size p' = 0.
Proof.
  induction l as [|b l IH]; intros c p nout c' p' m Hrun Hm;
    cbn [ring_writer_loop] in Hrun.
  - injection Hrun as <- <- <-. cbn [length] in Hm. lia.
  - destruct (write_bits c p (CHAR_BIT + 1) (Z.shiftl (byte.unsigned b) 1))
      as [[ok c1] p1] eqn:E.
    destruct ok.
    + apply IH in Hrun; [exact Hrun|]. cbn [length] in Hm. lia.
    + injection Hrun as <- <- <-. apply write_bits_fail in E. exact E.
Qed.

Ltac creason_simpl :=
  unfold comp_reason;
  cbn [p_state p_comp p_params p_status p_input in_size out_size out_buffer
       prog_cb].

Ltac wb_case c p n bits :=
  let E := fresh "Ewb" in
  let S := fresh "Swb" in
  destruct (write_bits c p n bits) as [[?ok ?c1] ?p1] eqn:E;
  destruct (write_bits_shape c p n bits)
    as (?ok' & ?ot & ?a & ?nb & ?mem & ?ob & ?os & S & _);
  rewrite E in S; injection S as ?Eok ?Ec1 ?Ep1.

Lemma case_PutSize_reason flush (c : GKeyComp) (p : GKeyParameters)
    (r : pass) :
  case_PutSize GKeyStatus_OK true c p = Some r ->
  prog_cb (p_params r) = prog_cb p /\ comp_reason flush r.
Proof.
  unfold case_PutSize.
  wb_case c p (GKey_get_read_size_bits (history_log_2 c) (read_offset c))
    (read_size c).
  destruct ok.
  - destruct (RingBuffer_copy _ _ _ _ _) as [[[ring u] copied]|];
      cbn [obind]; [|discriminate].
    intros H; injection H as <-; creason_simpl.
    split; [subst p1; reflexivity|]. intros Habs; discriminate.
  - intros H; injection H as <-; creason_simpl.
    split; [subst p1; reflexivity|].
    destruct (write_bits_fail _ _ _ _ _ _ Ewb) as [Hob Hos].
    split; [exact Hob|]. split; [exact Hos|]. right; left; reflexivity.
Qed.

Lemma case_PutOffset_reason flush (c : GKeyComp) (p : GKeyParameters)
    (r : pass) :
  case_PutOffset GKeyStatus_OK true c p = Some r ->
  prog_cb (p_params r) = prog_cb p /\ comp_reason flush r.
Proof.
  unfold case_PutOffset.
  wb_case c p (history_log_2 c + 1)
    (Z.lor (ulong (Z.shiftl (read_offset c) 1)) 1).
  destruct ok.
  - intros H. apply (case_PutSize_reason flush) in H.
    subst p1. exact H.
  - intros H; injection H as <-; creason_simpl.
    split; [subst p1; reflexivity|].
    destruct (write_bits_fail _ _ _ _ _ _ Ewb) as [Hob Hos].
    split; [exact Hob|]. split; [exact Hos|]. left; reflexivity.
Qed.

Lemma case_PutByte_reason_comp flush (c : GKeyComp) (p : GKeyParameters)
    (r : pass) :
  case_PutByte GKeyStatus_OK true c p = Some r ->
  prog_cb (p_params r) = prog_cb p /\ comp_reason flush r.
Proof.
  unfold case_PutByte. cbv zeta.
  wb_case c p (CHAR_BIT + 1)
    (Z.shiftl (byte.unsigned (mem_load (in_mem p) (in_buffer p))) 1).
  destruct ok.
  - destruct (RingBuffer_write _ _ _) as [ring|]; cbn [obind];
      [|discriminate].
    intros H; injection H as <-; creason_simpl.
    split; [subst p1; reflexivity|]. intros Habs; discriminate.
  - intros H; injection H as <-; creason_simpl.
    split; [subst p1; reflexivity|].
    destruct (write_bits_fail _ _ _ _ _ _ Ewb) as [Hob Hos].
    split; [exact Hob|]. split; [exact Hos|]. right; right; left; reflexivity.
Qed.

Lemma case_Flush_reason flush (c : GKeyComp) (p : GKeyParameters)
    (r : pass) :
  case_Flush GKeyStatus_OK true c p = Some r ->
  prog_cb (p_params r) = prog_cb p /\ comp_reason flush r.
Proof.
  unfold case_Flush.
  wb_case c p UINT_MAX 0.
  destruct ok; intros H; injection H as <-; creason_simpl.
  - split; [subst p1; reflexivity | reflexivity].
  - split; [subst p1; reflexivity|].
    destruct (write_bits_fail _ _ _ _ _ _ Ewb) as [Hob Hos].
    split; [exact Hob|]. split; [exact Hos|]. do 4 right; reflexivity.
Qed.

Lemma case_PutBytes_reason (k : Z) flush (c : GKeyComp) (p : GKeyParameters)
    (r : pass) :
  ring_wf k (history c) -> copy_range_ok k (read_offset c) (read_size c) ->
  case_PutBytes GKeyStatus_OK true c p = Some r ->
  prog_cb (p_params r) = prog_cb p /\ comp_reason flush r.
Proof.
  intros Hwf (Hr1 & Hr2 & Hr3).
  pose proof Hwf as (Hk0 & Hsz & _).
  unfold case_PutBytes.
  rewrite (RingBuffer_copy_spec k (fun _ => True))
    by (try assumption; try exact I; try lia;
        apply comp_ring_writer_sequential).
  cbn [cb_or_all ring_writer].
  set (W := ring_window (history c) (read_offset c) (read_size c)).
  destruct (ring_writer_loop c p W 0) as [[c1 p1] m] eqn:E.
  destruct (ring_writer_loop_shape W c p 0)
    as (ot & a & nb & mem & ob & os & m' & S & Hm).
  rewrite E in S. injection S as Hc1 Hp1 Hm1.
  pose proof (ring_writer_loop_short W c p 0 c1 p1 m E) as Hshort.
  unfold W in Hshort. rewrite length_ring_window in Hshort.
  rewrite Z2Nat.id, Z.sub_0_r in Hshort by lia.
  cbn [obind].
  replace (read_size (set_history c1 _)) with (read_size c)
    by (subst c1; reflexivity).
  destruct (Z.geb_spec m (read_size c)) as [Hall|Hpart];
    intros H; injection H as <-; creason_simpl.
  - split; [subst p1; reflexivity|]. intros Habs; discriminate.
  - split; [subst p1; reflexivity|].
    destruct (Hshort Hpart) as [Hob Hos].
    split; [exact Hob|]. split; [exact Hos|].
    right; right; right; left; reflexivity.
Qed.

Lemma case_FindSequence_reason (k : Z) flush (c : GKeyComp)
    (p : GKeyParameters) (r : pass) :
  history_log_2 c = k -> k <= MaxHistoryLog2 -> ring_wf k (history c) ->
  in_window_ok p ->
  fs_num k p (in_buffer p - fs_pending (comp_fs c)) (comp_fs c) ->
  case_FindSequence flush GKeyCompState_FindSequence GKeyStatus_OK true c p
  = Some r ->
  prog_cb (p_params r) = prog_cb p /\ comp_reason flush r.
Proof.
  intros Hk Hkmax Hwf Hin Hnum.
  assert (Hfound : forall c1 p1,
    prog_cb p1 = prog_cb p -> 0 <= in_size p1 ->
    (if read_size c1 =? 0 then
       if in_size p1 >? 0 then
         Some (mkPass GKeyStatus_OK GKeyCompState_PutByte true c1 p1)
       else if flush then
         Some (mkPass GKeyStatus_OK GKeyCompState_Flush true c1 p1)
       else
         Some (mkPass GKeyStatus_OK GKeyCompState_FindSequence false c1 p1)
     else
       let nbits :=
         GKey_get_read_size_bits (history_log_2 c1) (read_offset c1) in
       if read_size c1 * (CHAR_BIT + 1) <? history_log_2 c1 + nbits + 1
       then Some (mkPass GKeyStatus_OK GKeyCompState_PutBytes true c1 p1)
       else case_PutOffset GKeyStatus_OK true c1 p1) = Some r ->
    prog_cb (p_params r) = prog_cb p /\ comp_reason flush r).
  { intros c1 p1 Hcb Hpos.
    destruct (read_size c1 =? 0).
    - destruct (Z.gtb_spec (in_size p1) 0) as [Hgt|Hle].
      + intros H; injection H as <-; creason_simpl.
        split; [exact Hcb|]. intros Habs; discriminate.
      + destruct flush; intros H; injection H as <-; creason_simpl.
        * split; [exact Hcb|]. intros Habs; discriminate.
        * split; [exact Hcb|]. intros _.
          split; [reflexivity|]. split; [lia | reflexivity].
    - cbv zeta. destruct (_ <? _).
      + intros H; injection H as <-; creason_simpl.
        split; [exact Hcb|]. intros Habs; discriminate.
      + intros H. apply (case_PutOffset_reason flush) in H.
        rewrite <- Hcb. exact H. }
  pose proof Hin as (Hi1 & Hi2 & Hi3).
  unfold case_FindSequence. destruct flush.
  - cbn [obind]. apply Hfound; [reflexivity | exact Hi2].
  - destruct (find_sequence_spec k c p (in_buffer p - fs_pending (comp_fs c))
                Hk Hwf Hkmax Hnum) as (v' & Hpost & _ & Efs).
    rewrite Efs. clear Efs. cbv zeta.
    destruct Hpost as [(C1 & C2 & C3 & C4 & C5 & C6) Hbr].
    destruct (Z.geb_spec (fs_best_read_size v') (fs_max_read_size v'))
      as [Hge|Hlt]; cbn [obind].
    + apply Hfound; [reflexivity | cbn [in_size]; lia].
    + destruct Hbr as [[Habs _]|(_ & Hall & _)]; [lia|].
      intros H; injection H as <-; creason_simpl.
      split; [reflexivity|]. intros _.
      split; [reflexivity|]. split; [lia | reflexivity].
Qed.

Lemma case_Progress_reason_comp (k : Z) flush st (c : GKeyComp)
    (p : GKeyParameters) (r : pass) :
  st = GKeyCompState_Progress \/ st = GKeyCompState_NextSequence ->
  history_log_2 c = k -> k <= MaxHistoryLog2 -> ring_wf k (history c) ->
  in_window_ok p ->
  fs_num k p (in_buffer p - fs_pending (comp_fs c)) (comp_fs c) ->
  case_Progress flush st GKeyStatus_OK true c p = Some r ->
  prog_cb (p_params r) = prog_cb p /\ comp_reason flush r.
Proof.
  intros Hst Hk Hkmax Hwf Hin Hnum. unfold case_Progress.
  destruct (prog_cb p) as [cb|] eqn:Hcb;
    [destruct (cb (in_total c) (out_total c))|].
  - intros H. apply (case_FindSequence_reason k) in H; try assumption.
    rewrite Hcb in H. exact H.
  - intros H; injection H as <-; creason_simpl.
    split; [exact Hcb|]. rewrite Hcb. split; [discriminate | exact Hst].
  - intros H. apply (case_FindSequence_reason k) in H; try assumption.
    rewrite Hcb in H. exact H.
Qed.

Lemma switch_reason_comp (k : Z) flush st (c : GKeyComp) (p : GKeyParameters)
    (r : pass) :
  comp_ok k st c p ->
  switch flush st GKeyStatus_OK true c p = Some r ->
  prog_cb (p_params r) = prog_cb p /\ comp_reason flush r.
Proof.
  intros Hok.
  pose proof Hok as (Hk & Hkmax & Hwf & Hin & Hst).
  pose proof Hwf as (Hk0 & Hsz & _).
  pose proof Hin as (Hi1 & Hi2 & Hi3).
  assert (Hpow : 0 < 2 ^ k) by (apply Z.pow_pos_nonneg; lia).
  destruct st; cbn [switch].
  - unfold case_NextSequence.
    apply (case_Progress_reason_comp k); try assumption; [right; reflexivity|].
    unfold fs_num, fs_common, fs_pending. cbn. split; [|left; reflexivity].
    repeat split; lia.
  - apply (case_Progress_reason_comp k); try assumption. left; reflexivity.
  - apply (case_FindSequence_reason k); assumption.
  - apply case_PutOffset_reason.
  - apply case_PutSize_reason.
  - apply case_PutByte_reason_comp.
  - apply (case_PutBytes_reason k); assumption.
  - apply case_Flush_reason.
Qed.

Lemma compress_loop_reason (k : Z) (flush : bool) (fuel : nat) :
  forall st c p r,
    comp_ok k st c p -> (flush = true -> in_size p = 0) ->
    compress_loop fuel flush st c p = Some r ->
    prog_cb (p_params r) = prog_cb p /\ comp_reason flush r
    /\ (p_status r = GKeyStatus_OK -> p_input r = false).
Proof.
  induction fuel as [|fuel IH]; intros st c p r Hok Hflush Hrun;
    cbn [compress_loop] in Hrun; [discriminate|].
  destruct (switch_total k flush st c p Hok Hflush)
    as (r1 & E & Hok1 & Hle & _).
  rewrite E in Hrun. cbn [obind] in Hrun.
  destruct (switch_reason_comp k flush st c p r1 Hok E) as [Hcb Hreason].
  destruct (GKeyStatus_eqb (p_status r1) GKeyStatus_OK && p_input r1)
    eqn:Hgo.
  - apply IH in Hrun; [|exact Hok1|].
    + destruct Hrun as (Hcb' & H). split; [congruence | exact H].
    + intros Hf. specialize (Hflush Hf).
      pose proof Hok1 as (_ & _ & _ & (_ & Hi & _) & _). lia.
  - injection Hrun as <-. split; [exact Hcb|]. split; [exact Hreason|].
    intros Hs. rewrite Hs in Hgo. cbn [GKeyStatus_eqb andb] in Hgo.
    exact Hgo.
Qed.

(** X8: what the status returned by [gkeycomp_compress] says.  [OK] is
    returned only by a call that was given input and has taken all of it;
    [BufferOverflow] only with an output buffer whose window is full, in a
    state that resumes the pending write; [Aborted] only when a progress
    callback was given; [Finished] only in the state [Flush]. *)
Theorem compress_status_reason (k : Z) (c : GKeyComp) (p : GKeyParameters) :
  comp_wf k c p ->
  exists s c' p',
    gkeycomp_compress c p = Some (s, c', p')
    /\ match s with
       | GKeyStatus_OK =>
           in_size p <> 0 /\ in_size p' = 0
           /\ state c' = GKeyCompState_FindSequence
       | GKeyStatus_BufferOverflow =>
           (exists ob, out_buffer p' = Some ob) /\ out_size p' = 0
           /\ (state c' = GKeyCompState_PutOffset
               \/ state c' = GKeyCompState_PutSize
               \/ state c' = GKeyCompState_PutByte
               \/ state c' = GKeyCompState_PutBytes
               \/ state c' = GKeyCompState_Flush)
       | GKeyStatus_Aborted =>
           prog_cb p <> None
           /\ (state c' = GKeyCompState_Progress
               \/ state c' = GKeyCompState_NextSequence)
       | GKeyStatus_Finished => state c' = GKeyCompState_Flush
       | GKeyStatus_BadInput | GKeyStatus_TruncatedInput => False
       end.
Proof.
  intros Hok.
  destruct (compress_total k c p Hok) as (s & c' & p' & E & _).
  exists s, c', p'. split; [exact E|].
  unfold gkeycomp_compress in E.
  destruct (compress_loop _ _ _ _ _) as [r|] eqn:El; [|discriminate].
  cbn [obind] in E. injection E as <- <- <-.
  apply (compress_loop_reason k) in El; [|exact Hok|].
  2:{ intros Hf. apply Z.eqb_eq in Hf. exact Hf. }
  destruct El as (Hcb & Hreason & Hstop).
  unfold comp_reason in Hreason.
  destruct (p_status r); cbn [state set_state] in *.
  - destruct (Hreason (Hstop eq_refl)) as (Hf & Hz & Hst).
    apply Z.eqb_neq in Hf. split; [exact Hf|]. split; assumption.
  - exact Hreason.
  - exact Hreason.
  - exact Hreason.
  - rewrite <- Hcb. exact Hreason.
  - exact Hreason.
Qed.

Lemma compress_status_reason_witness :
  exists s c' p',
    gkeycomp_compress (gkeycomp_make 2) (stream_params [Byte.x61; Byte.x62] 1)
    = Some (s, c', p')
    /\ s <> GKeyStatus_BadInput /\ s <> GKeyStatus_TruncatedInput.
Proof.
  assert (Hk : 0 <= 2 <= MaxHistoryLog2)
    by (unfold MaxHistoryLog2, ULongMinBit, CHAR_BIT; lia).
  destruct (stream_params_ok [Byte.x61; Byte.x62] 1 ltac:(lia)) as [Hin Hout].
  destruct (compress_status_reason 2 (gkeycomp_make 2)
              (stream_params [Byte.x61; Byte.x62] 1)
              (comp_make_wf 2 _ Hk Hin)) as (s & c' & p' & E & H).
  exists s, c', p'. split; [exact E|].
  destruct s; try contradiction; split; discriminate.
Defined.

End EncoderReason.


(** ** Reset *)

Section RingReset.

Lemma write_keeps_reset (r : RingBuffer) (s : src_ptr) (n : Z)
    (r' : RingBuffer) :
  RingBuffer_write r s n = Some r' -> RingBuffer_reset r' = RingBuffer_reset r.
Proof.
  unfold RingBuffer_write.
  destruct (RingBuffer_write_loop _ _ _ _ _ _ _) as [[[buf fill] wp]|];
    [|discriminate].
  cbn [obind]. intros H. injection H as <-. reflexivity.
Qed.

Lemma copy_loop_keeps_reset {St : Type}
    (write_cb : option (RingBufferWriteFn St)) (off n : Z) (fuel : nat) :
  forall r st copied to_copy total r' st' m,
    RingBuffer_copy_loop fuel write_cb off n r st copied to_copy total
    = Some (r', st', m) ->
    RingBuffer_reset r' = RingBuffer_reset r.
Proof.
  induction fuel as [|fuel IH];
    intros r st copied to_copy total r' st' m Hrun;
    cbn [RingBuffer_copy_loop] in Hrun;
    destruct ((total <? n) && (copied >=? to_copy));
    try discriminate;
    try (injection Hrun as <- <- <-; reflexivity).
  destruct (match write_cb with
            | Some cb => _
            | None => _
            end) as [st1 copied1].
  destruct (RingBuffer_write _ _ _) as [r1|] eqn:Ew; [|discriminate].
  cbn [obind] in Hrun. apply IH in Hrun. rewrite Hrun.
  apply write_keeps_reset in Ew. exact Ew.
Qed.

Lemma copy_keeps_reset {St : Type} (r : RingBuffer)
    (write_cb : option (RingBufferWriteFn St)) (st : St) (off n : Z)
    r' st' m :
  RingBuffer_copy r write_cb st off n = Some (r', st', m) ->
  RingBuffer_reset r' = RingBuffer_reset r.
Proof. apply copy_loop_keeps_reset. Qed.

Lemma make_reset (k : Z) : RingBuffer_reset (RingBuffer_make k) = RingBuffer_make k.
Proof. reflexivity. Qed.

End RingReset.

Section EncoderReset.
Import GKeyComp.

Ltac wb_shape c p n bits :=
  let ok := fresh "ok" in
  let E := fresh "Ewb" in
  destruct (write_bits_shape c p n bits)
    as (ok & ?ot & ?a & ?nb & ?mem & ?ob & ?os & E & _);
  rewrite E; clear E.

Ltac reset_simpl :=
  unfold gkeycomp_reset;
  cbn [p_comp history_log_2 history set_history set_output set_read_size
       set_in_total set_sequence clear_sequence].

Lemma case_PutSize_reset status input c p r :
  case_PutSize status input c p = Some r ->
  gkeycomp_reset (p_comp r) = gkeycomp_reset c.
Proof.
  unfold case_PutSize.
  wb_shape c p (GKey_get_read_size_bits (history_log_2 c) (read_offset c))
    (read_size c).
  destruct ok.
  - destruct (RingBuffer_copy _ _ _ _ _) as [[[ring u] copied]|] eqn:Ec;
      [|discriminate].
    cbn [obind]. intros H. injection H as <-. reset_simpl.
    apply copy_keeps_reset in Ec. cbn [history set_output] in Ec.
    rewrite Ec. reflexivity.
  - intros H. injection H as <-. reflexivity.
Qed.

Lemma case_PutOffset_reset status input c p r :
  case_PutOffset status input c p = Some r ->
  gkeycomp_reset (p_comp r) = gkeycomp_reset c.
Proof.
  unfold case_PutOffset.
  wb_shape c p (history_log_2 c + 1)
    (Z.lor (ulong (Z.shiftl (read_offset c) 1)) 1).
  destruct ok.
  - intros H. apply case_PutSize_reset in H. rewrite H. reflexivity.
  - intros H. injection H as <-. reflexivity.
Qed.

Lemma find_sequence_reset (c : GKeyComp) (p : GKeyParameters)
    (found : bool) (c' : GKeyComp) (p' : GKeyParameters) :
  find_sequence c p = Some (found, c', p') ->
  gkeycomp_reset c' = gkeycomp_reset c.
Proof.
  unfold find_sequence.
  destruct (find_sequence_loop _ _ _ _ _) as [v|]; [|discriminate].
  cbn [obind].
  destruct (fs_best_read_size v >=? fs_max_read_size v);
    intros H; injection H as <- <- <-; reflexivity.
Qed.

Lemma case_FindSequence_reset flush state status input c p r :
  case_FindSequence flush state status input c p = Some r ->
  gkeycomp_reset (p_comp r) = gkeycomp_reset c.
Proof.
  unfold case_FindSequence.
  assert (Hfs : forall found c1 p1,
             (if flush then Some (true, c, p) else find_sequence c p)
             = Some (found, c1, p1) ->
             gkeycomp_reset c1 = gkeycomp_reset c).
  { intros found c1 p1. destruct flush.
    - intros H. injection H as <- <- <-. reflexivity.
    - apply find_sequence_reset. }
  destruct (if flush then Some (true, c, p) else find_sequence c p)
    as [[[found c1] p1]|]; [|discriminate].
  specialize (Hfs found c1 p1 eq_refl). cbn [obind].
  destruct found.
  2:{ intros H. injection H as <-. exact Hfs. }
  destruct (read_size c1 =? 0).
  - destruct (in_size p1 >? 0); [|destruct flush];
      intros H; injection H as <-; exact Hfs.
  - destruct (_ <? _).
    + intros H; injection H as <-; exact Hfs.
    + intros H. apply case_PutOffset_reset in H. congruence.
Qed.

Lemma case_Progress_reset flush state status input c p r :
  case_Progress flush state status input c p = Some r ->
  gkeycomp_reset (p_comp r) = gkeycomp_reset c.
Proof.
  unfold case_Progress.
  destruct (prog_cb p) as [cb|].
  - destruct (cb (in_total c) (out_total c)).
    + apply case_FindSequence_reset.
    + intros H. injection H as <-. reflexivity.
  - apply case_FindSequence_reset.
Qed.

Lemma case_PutByte_reset status input c p r :
  case_PutByte status input c p = Some r ->
  gkeycomp_reset (p_comp r) = gkeycomp_reset c.
Proof.
  unfold case_PutByte. cbv zeta.
  wb_shape c p (CHAR_BIT + 1)
    (Z.shiftl (byte.unsigned (mem_load (in_mem p) (in_buffer p))) 1).
  destruct ok.
  - destruct (RingBuffer_write _ _ _) as [ring|] eqn:Ew; [|discriminate].
    cbn [obind]. intros H. injection H as <-. reset_simpl.
    apply write_keeps_reset in Ew. cbn [history set_output] in Ew.
    rewrite Ew. reflexivity.
  - intros H. injection H as <-. reflexivity.
Qed.

Lemma ring_writer_keeps_log (st : GKeyComp * GKeyParameters)
    (l : list byte) :
  history_log_2 (fst (fst (ring_writer st l))) = history_log_2 (fst st).
Proof.
  destruct st as [c p]. cbn [ring_writer fst].
  destruct (ring_writer_loop_shape l c p 0)
    as (ot & a & nb & mem & ob & os & m & E & _).
  rewrite E. reflexivity.
Qed.

Lemma case_PutBytes_reset status input c p r :
  case_PutBytes status input c p = Some r ->
  gkeycomp_reset (p_comp r) = gkeycomp_reset c.
Proof.
  unfold case_PutBytes, RingBuffer_copy.
  destruct (RingBuffer_copy_loop _ _ _ _ _ _ _ _ _)
    as [[[ring [c1 p1]] copied]|] eqn:E; [|discriminate].
  pose proof (copy_loop_keeps_reset _ _ _ _ _ _ _ _ _ _ _ _ E) as Hring.
  apply (copy_loop_invariant
           (fun st => history_log_2 (fst st) = history_log_2 c)) in E.
  - cbn [fst] in E. cbn [obind].
    destruct (copied >=? _); intros H; injection H as <-; reset_simpl;
      rewrite E, Hring; reflexivity.
  - intros cb Hcb st l HQ. injection Hcb as <-.
    rewrite ring_writer_keeps_log. exact HQ.
  - reflexivity.
Qed.

Lemma case_Flush_reset status input c p r :
  case_Flush status input c p = Some r ->
  gkeycomp_reset (p_comp r) = gkeycomp_reset c.
Proof.
  unfold case_Flush.
  wb_shape c p UINT_MAX 0.
  destruct ok; intros H; injection H as <-; reflexivity.
Qed.

Lemma switch_reset flush state status input c p r :
  switch flush state status input c p = Some r ->
  gkeycomp_reset (p_comp r) = gkeycomp_reset c.
Proof.
  destruct state; cbn [switch].
  - unfold case_NextSequence. intros H.
    apply case_Progress_reset in H. rewrite H. reflexivity.
  - apply case_Progress_reset.
  - apply case_FindSequence_reset.
  - apply case_PutOffset_reset.
  - apply case_PutSize_reset.
  - apply case_PutByte_reset.
  - apply case_PutBytes_reset.
  - apply case_Flush_reset.
Qed.

Lemma compress_loop_reset (fuel : nat) :
  forall flush state c p r,
    compress_loop fuel flush state c p = Some r ->
    gkeycomp_reset (p_comp r) = gkeycomp_reset c.
Proof.
  induction fuel as [|fuel IH]; intros flush state c p r Hrun;
    cbn [compress_loop] in Hrun; [discriminate|].
  destruct (switch flush state GKeyStatus_OK true c p) as [r1|] eqn:E;
    [|discriminate].
  cbn [obind] in Hrun. apply switch_reset in E.
  destruct (GKeyStatus_eqb (p_status r1) GKeyStatus_OK && p_input r1).
  - apply IH in Hrun. congruence.
  - injection Hrun as <-. exact E.
Qed.

(** X9: a compressor made by [gkeycomp_make k] is what [gkeycomp_reset]
    gives, and a call of [gkeycomp_compress] changes nothing that survives
    a reset; so resetting after any number of calls gives the compressor
    [gkeycomp_make k] again. *)
Theorem compress_then_reset (k : Z) (c : GKeyComp) (p : GKeyParameters)
    (s : GKeyStatus) (c' : GKeyComp) (p' : GKeyParameters) :
  gkeycomp_reset (gkeycomp_make k) = gkeycomp_make k
  /\ (gkeycomp_reset c = gkeycomp_make k ->
      gkeycomp_compress c p = Some (s, c', p') ->
      gkeycomp_reset c' = gkeycomp_make k).
Proof.
  split; [reflexivity|].
  intros Hc. unfold gkeycomp_compress.
  destruct (compress_loop _ _ _ _ _) as [r|] eqn:E; [|discriminate].
  cbn [obind]. intros H. injection H as <- <- <-.
  apply compress_loop_reset in E. rewrite <- Hc, <- E. reflexivity.
Qed.

Lemma compress_then_reset_witness :
  exists s c' p',
    gkeycomp_compress (gkeycomp_make 2) (stream_params [Byte.x61; Byte.x62] 4)
    = Some (s, c', p')
    /\ gkeycomp_reset c' = gkeycomp_make 2.
Proof.
  assert (Hk : 0 <= 2 <= MaxHistoryLog2)
    by (unfold MaxHistoryLog2, ULongMinBit, CHAR_BIT; lia).
  destruct (stream_params_ok [Byte.x61; Byte.x62] 4 ltac:(lia)) as [Hin Hout].
  destruct (compress_total 2 (gkeycomp_make 2)
              (stream_params [Byte.x61; Byte.x62] 4)
              (comp_make_wf 2 _ Hk Hin)) as (s & c' & p' & E & _).
  exists s, c', p'. split; [exact E|].
  exact (proj2 (compress_then_reset 2 (gkeycomp_make 2)
                  (stream_params [Byte.x61; Byte.x62] 4) s c' p')
           eq_refl E).
Defined.

End EncoderReset.

Section DecoderReset.
Import GKeyDecomp.

Ltac rb_shape d p n :=
  let ok := fresh "ok" in
  let E := fresh "Erb" in
  destruct (read_bits_shape d p n)
    as (ok & ?out & ?ib & ?isz & ?it & ?a & ?nb & E & _);
  rewrite E; clear E.

Ltac dreset_simpl :=
  unfold gkeydecomp_reset;
  cbn [p_decomp history_log_2 history set_history set_input set_out_total
       set_read_size set_read_offset set_literal].

Lemma ring_writer_keeps_log_dec (st : GKeyDecomp * GKeyParameters)
    (l : list byte) :
  history_log_2 (fst (fst (ring_writer st l))) = history_log_2 (fst st).
Proof.
  destruct st as [d p].
  destruct (ring_writer_shape d p l) as (ot & mem & ob & os & m & E & _).
  rewrite E. reflexivity.
Qed.

Lemma case_CopyData_reset status stop d p r :
  case_CopyData status stop d p = Some r ->
  gkeydecomp_reset (p_decomp r) = gkeydecomp_reset d.
Proof.
  unfold case_CopyData, RingBuffer_copy.
  destruct (RingBuffer_copy_loop _ _ _ _ _ _ _ _ _)
    as [[[ring [d1 p1]] copied]|] eqn:E; [|discriminate].
  pose proof (copy_loop_keeps_reset _ _ _ _ _ _ _ _ _ _ _ _ E) as Hring.
  apply (copy_loop_invariant
           (fun st => history_log_2 (fst st) = history_log_2 d)) in E.
  - cbn [fst] in E. cbn [obind].
    destruct (copied >=? _); intros H; injection H as <-; dreset_simpl;
      rewrite E, Hring; reflexivity.
  - intros cb Hcb st l HQ. injection Hcb as <-.
    rewrite ring_writer_keeps_log_dec. exact HQ.
  - reflexivity.
Qed.

Lemma case_GetSize_reset status stop d p r :
  case_GetSize status stop d p = Some r ->
  gkeydecomp_reset (p_decomp r) = gkeydecomp_reset d.
Proof.
  unfold case_GetSize.
  rb_shape d p (GKey_get_read_size_bits (history_log_2 d) (read_offset d)).
  destruct ok.
  - destruct (_ || _).
    + intros H. injection H as <-. reflexivity.
    + intros H. apply case_CopyData_reset in H. rewrite H. reflexivity.
  - intros H. injection H as <-. reflexivity.
Qed.

Lemma case_GetOffset_reset status stop d p r :
  case_GetOffset status stop d p = Some r ->
  gkeydecomp_reset (p_decomp r) = gkeydecomp_reset d.
Proof.
  unfold case_GetOffset.
  rb_shape d p (history_log_2 d).
  destruct ok.
  - intros H. apply case_GetSize_reset in H. rewrite H. reflexivity.
  - intros H. injection H as <-. reflexivity.
Qed.

Lemma case_GetType_reset status stop d p r :
  case_GetType status stop d p = Some r ->
  gkeydecomp_reset (p_decomp r) = gkeydecomp_reset d.
Proof.
  unfold case_GetType.
  rb_shape d p 1.
  destruct ok.
  - destruct (negb _).
    + intros H. apply case_GetOffset_reset in H. rewrite H. reflexivity.
    + intros H. injection H as <-. reflexivity.
  - intros H. injection H as <-. reflexivity.
Qed.

Lemma case_Progress_reset_dec status stop d p r :
  case_Progress status stop d p = Some r ->
  gkeydecomp_reset (p_decomp r) = gkeydecomp_reset d.
Proof.
  unfold case_Progress.
  destruct (prog_cb p) as [cb|].
  - destruct (cb (in_total d) (out_total d)).
    + apply case_GetType_reset.
    + intros H. injection H as <-. reflexivity.
  - apply case_GetType_reset.
Qed.

Lemma case_PutByte_reset_dec status stop d p r :
  case_PutByte status stop d p = Some r ->
  gkeydecomp_reset (p_decomp r) = gkeydecomp_reset d.
Proof.
  unfold case_PutByte.
  destruct (ring_writer_shape d p [literal d])
    as (ot & mem & ob & os & m & E & _).
  rewrite E.
  destruct (m =? 1).
  - destruct (RingBuffer_write _ _ _) as [ring|] eqn:Ew; [|discriminate].
    cbn [obind]. intros H. injection H as <-. dreset_simpl.
    apply write_keeps_reset in Ew. cbn [history set_out_total] in Ew.
    rewrite Ew. reflexivity.
  - intros H. injection H as <-. reflexivity.
Qed.

Lemma case_GetByte_reset status stop d p r :
  case_GetByte status stop d p = Some r ->
  gkeydecomp_reset (p_decomp r) = gkeydecomp_reset d.
Proof.
  unfold case_GetByte.
  rb_shape d p CHAR_BIT.
  destruct ok.
  - intros H. apply case_PutByte_reset_dec in H. rewrite H. reflexivity.
  - destruct (_ =? 0); intros H; injection H as <-; reflexivity.
Qed.

Lemma switch_reset_dec state status stop d p r :
  switch state status stop d p = Some r ->
  gkeydecomp_reset (p_decomp r) = gkeydecomp_reset d.
Proof.
  destruct state; cbn [switch].
  - apply case_Progress_reset_dec.
  - apply case_GetType_reset.
  - apply case_GetOffset_reset.
  - apply case_GetSize_reset.
  - apply case_CopyData_reset.
  - apply case_GetByte_reset.
  - apply case_PutByte_reset_dec.
Qed.

Lemma decompress_loop_reset (fuel : nat) :
  forall state d p r,
    decompress_loop fuel state d p = Some r ->
    gkeydecomp_reset (p_decomp r) = gkeydecomp_reset d.
Proof.
  induction fuel as [|fuel IH]; intros state d p r Hrun;
    cbn [decompress_loop] in Hrun; [discriminate|].
  destruct (switch state GKeyStatus_OK false d p) as [r1|] eqn:E;
    [|discriminate].
  cbn [obind] in Hrun. apply switch_reset_dec in E.
  destruct (GKeyStatus_eqb (p_status r1) GKeyStatus_OK && negb (p_stop r1)).
  - apply IH in Hrun. congruence.
  - injection Hrun as <-. exact E.
Qed.

(** X10: a decompressor made by [gkeydecomp_make k] is what
    [gkeydecomp_reset] gives, and a call of [gkeydecomp_decompress] changes
    nothing that survives a reset; so resetting after any number of calls
    gives the decompressor [gkeydecomp_make k] again. *)
Theorem decompress_then_reset (k : Z) (d : GKeyDecomp) (p : GKeyParameters)
    (s : GKeyStatus) (d' : GKeyDecomp) (p' : GKeyParameters) :
  gkeydecomp_reset (gkeydecomp_make k) = gkeydecomp_make k
  /\ (gkeydecomp_reset d = gkeydecomp_make k ->
      gkeydecomp_decompress d p = Some (s, d', p') ->
      gkeydecomp_reset d' = gkeydecomp_make k).
Proof.
  split; [reflexivity|].
  intros Hd. unfold gkeydecomp_decompress.
  destruct (decompress_loop _ _ _ _) as [r|] eqn:E; [|discriminate].
  cbn [obind]. intros H. injection H as <- <- <-.
  apply decompress_loop_reset in E. rewrite <- Hd, <- E. reflexivity.
Qed.

Lemma decompress_then_reset_witness :
  exists s d' p',
    gkeydecomp_decompress (gkeydecomp_make 2)
      (stream_params [Byte.x82; Byte.x00] 4)
    = Some (s, d', p')
    /\ gkeydecomp_reset d' = gkeydecomp_make 2.
Proof.
  assert (Hk : 0 <= 2 <= MaxHistoryLog2)
    by (unfold MaxHistoryLog2, ULongMinBit, CHAR_BIT; lia).
  destruct (stream_params_ok [Byte.x82; Byte.x00] 4 ltac:(lia)) as [Hin Hout].
  destruct (decompress_total 2 (gkeydecomp_make 2)
              (stream_params [Byte.x82; Byte.x00] 4)
              (decomp_make_wf 2 _ Hk Hin Hout)) as (s & d' & p' & E & _).
  exists s, d', p'. split; [exact E|].
  exact (proj2 (decompress_then_reset 2 (gkeydecomp_make 2)
                  (stream_params [Byte.x82; Byte.x00] 4) s d' p')
           eq_refl E).
Defined.

End DecoderReset.


(** ** The size of the compressed stream *)

Section EncoderBound.
Import GKeyComp.

Variables (k M : Z) (X : list byte).
Hypothesis Hk : 0 <= k <= MaxHistoryLog2.
Hypothesis HM : 9 * Z.of_nat (length X) <= 8 * M.

Lemma case_Flush_bound (c : GKeyComp) (p : GKeyParameters) (r : pass) :
  comp_inv k M X GKeyCompState_Flush c p ->
  case_Flush GKeyStatus_OK true c p = Some r ->
  8 * Z.of_nat (length (written (p_params r)))
  < 9 * Z.of_nat (length X) + 8.
Proof.
  intros (Hok & Hmem & Hwin & Hcb & Hbase & (ts & Hts & Hout & Hhist & Hbits
          & Hlen) & Hst) Hrun.
  cbn [comp_pending] in *. rewrite Z.sub_0_r in *.
  unfold case_Flush in Hrun.
  destruct (write_bits_flush M c p _ _ Hbits ltac:(lia))
    as (ot & mem & ob & os & E & Hv & Hl & Hob).
  rewrite E in Hrun. injection Hrun as <-.
  unfold written. cbn [p_params out_buffer out_mem].
  rewrite length_firstn.
  replace (Z.of_nat (Init.Nat.min (Z.to_nat ob) (length mem))) with ob by lia.
  lia.
Qed.

Lemma compress_loop_bound (fuel : nat) :
  forall flush st c p r,
    comp_inv k M X st c p ->
    (flush = true -> in_size p = 0) ->
    (st = GKeyCompState_Flush -> flush = true) ->
    compress_loop fuel flush st c p = Some r ->
    p_status r = GKeyStatus_Finished ->
    8 * Z.of_nat (length (written (p_params r)))
    < 9 * Z.of_nat (length X) + 8.
Proof.
  induction fuel as [|fuel IH];
    intros flush st c p r Hinv Hflush Hst Hrun Hfin;
    cbn [compress_loop] in Hrun; [discriminate|].
  destruct (switch flush st GKeyStatus_OK true c p) as [r1|] eqn:E;
    [|discriminate].
  cbn [obind] in Hrun.
  destruct (switch_inv k M X Hk HM flush st c p r1 Hinv Hflush Hst E)
    as [(Hs & Hinv1 & Hin1 & Hst1)|[Hf (Hs & _)]].
  - rewrite Hs in Hrun. cbn [GKeyStatus_eqb andb] in Hrun.
    destruct (p_input r1) eqn:Hi.
    + apply IH in Hrun; try assumption.
      intros Hf. specialize (Hflush Hf).
      pose proof Hinv as ((_ & _ & _ & (_ & Hi1 & _) & _) & _).
      pose proof Hinv1 as ((_ & _ & _ & (_ & Hi2 & _) & _) & _).
      destruct (switch_total k flush st c p (proj1 Hinv) (fun _ => Hflush))
        as (r1' & E' & _ & Hle & _).
      rewrite E in E'. injection E' as <-. lia.
    + injection Hrun as <-. congruence.
  - rewrite Hs in Hrun. cbn [GKeyStatus_eqb andb] in Hrun.
    injection Hrun as <-.
    destruct (switch_status _ _ _ _ _ _ E) as [Hne _].
    destruct st;
      try (destruct Hne as [Hx|[Hx|Hx]]; [discriminate|congruence..]).
    cbn [switch] in E. eapply case_Flush_bound; eassumption.
Qed.

Lemma compress_call_bound (c : GKeyComp) (p : GKeyParameters) c' p' :
  comp_inv k M X (state c) c p ->
  (state c = GKeyCompState_Flush -> in_size p = 0) ->
  gkeycomp_compress c p = Some (GKeyStatus_Finished, c', p') ->
  8 * Z.of_nat (length (written p')) < 9 * Z.of_nat (length X) + 8.
Proof.
  intros Hinv Hst. unfold gkeycomp_compress.
  destruct (compress_loop _ _ _ _ _) as [r|] eqn:E; [|discriminate].
  cbn [obind]. intros H. injection H as Hs <- <-.
  eapply compress_loop_bound; [exact Hinv| | |exact E|exact Hs].
  - intros Hf. apply Z.eqb_eq in Hf. exact Hf.
  - intros Hfl. apply Z.eqb_eq. apply Hst, Hfl.
Qed.

Lemma compress_stream_bound :
  exists Y,
    compress_stream k X M = Some Y
    /\ 8 * Z.of_nat (length Y) < 9 * Z.of_nat (length X) + 8.
Proof.
  pose proof (comp_inv_initial k M X Hk HM) as Hinv0.
  unfold compress_stream.
  destruct (compress_total k (gkeycomp_make k) (stream_params X M))
    as (s1 & c1 & p1 & E1 & _); [apply Hinv0|].
  rewrite E1. cbn [obind].
  pose proof E1 as E1'.
  apply (compress_call_inv k M X Hk HM) in E1;
    [|exact Hinv0|intros Habs; discriminate].
  destruct E1 as [Hsome Hnone].
  destruct (Z.eq_dec (in_size (stream_params X M)) 0) as [Hz|Hnz].
  - destruct (Hnone Hz) as [-> Hstream].
    cbn [obind]. exists (written p1). split; [reflexivity|].
    eapply compress_call_bound; [exact Hinv0| |exact E1'].
    intros Habs; discriminate.
  - destruct (Hsome Hnz) as (-> & Hinv1 & Hz1).
    assert (Hp : mkParams (in_mem p1) (in_buffer p1) 0 (out_mem p1)
                   (out_buffer p1) (out_size p1) None = p1).
    { pose proof Hinv1 as (_ & _ & _ & Hcb & _).
      destruct p1; cbn in *; subst; reflexivity. }
    rewrite Hp.
    destruct (compress_total k c1 p1) as (s2 & c2 & p2 & E2 & _);
      [apply Hinv1|].
    rewrite E2. cbn [obind].
    pose proof E2 as E2'.
    apply (compress_call_inv k M X Hk HM) in E2;
      [|exact Hinv1|intros _; exact Hz1].
    destruct E2 as [_ Hnone2].
    destruct (Hnone2 Hz1) as [-> Hstream].
    exists (written p2). split; [reflexivity|].
    eapply compress_call_bound; [exact Hinv1| |exact E2'].
    intros _; exact Hz1.
Qed.

End EncoderBound.

Section StreamSize.

(** X11: the compressed stream is never longer than nine eighths of the
    input, rounded up to a whole byte: given room for that much,
    [compress_stream] returns a stream [Y] with
    [8 * length Y < 9 * length X + 8]. *)
Theorem compress_expansion (k : Z) (X : list byte) (room : Z) :
  0 <= k <= MaxHistoryLog2 ->
  9 * Z.of_nat (length X) <= 8 * room ->
  exists Y,
    compress_stream k X room = Some Y
    /\ 8 * Z.of_nat (length Y) < 9 * Z.of_nat (length X) + 8.
Proof. intros Hk Hroom. apply compress_stream_bound; assumption. Qed.

Lemma compress_expansion_witness :
  exists Y,
    compress_stream 2 [Byte.x61; Byte.x62; Byte.x61] 4 = Some Y
    /\ 8 * Z.of_nat (length Y) < 9 * 3 + 8.
Proof.
  apply (compress_expansion 2 [Byte.x61; Byte.x62; Byte.x61] 4).
  - unfold MaxHistoryLog2, ULongMinBit, CHAR_BIT. lia.
  - cbn [length]. lia.
Defined.

End StreamSize.


(** ** The decompressor on any stream of tokens *)

Section DecoderStream.

(** X12: the decompressor decodes every well-formed stream of tokens, not
    only those the compressor chooses: if [Y] packs the tokens [ts], first
    bit least significant (a literal as a 0 bit and 8 bits, a copy as a 1
    bit, [k] offset bits and the size bits), padded by fewer than 8 zero
    bits, and the output block has room, [decompress_stream] returns the
    bytes the tokens stand for. *)
Theorem decoder_decodes_tokens (k : Z) (ts : list token) (Y : list byte)
    (room : Z) :
  0 <= k <= MaxHistoryLog2 ->
  Forall (token_ok k) ts ->
  le_combine Y = fst (tokens_bits k ts) ->
  snd (tokens_bits k ts) <= 8 * Z.of_nat (length Y)
  < snd (tokens_bits k ts) + 8 ->
  Z.of_nat (length (tokens_out (RingBuffer_make k) ts)) <= room ->
  decompress_stream k Y room = Some (tokens_out (RingBuffer_make k) ts).
Proof.
  intros Hk Hts Hval Hlen Hroom.
  apply decompress_stream_spec; [exact Hk| |exact Hroom].
  exists ts. split; [exact Hts|]. split; [reflexivity|].
  split; [exact Hval | exact Hlen].
Qed.

Lemma decoder_decodes_tokens_witness :
  decompress_stream 2 [Byte.x82; Byte.x1a] 2 = Some [Byte.x41; Byte.x00].
Proof.
  refine (decoder_decodes_tokens 2 [TLit Byte.x41; TCopy 2 1]
            [Byte.x82; Byte.x1a] 2 _ _ _ _ _).
  - unfold MaxHistoryLog2, ULongMinBit, CHAR_BIT. lia.
  - repeat constructor; cbn; lia.
  - reflexivity.
  - vm_compute. split; [intros H; discriminate H | reflexivity].
  - vm_compute. intros H; discriminate H.
Defined.

End DecoderStream.

(** ** The bit layer *)

Section BitLayer.

Lemma comp_out_initial (k : Z) (X : list byte) (M : Z) :
  0 <= M ->
  comp_out M (GKeyComp.gkeycomp_make k) (stream_params X M) 0 0.
Proof.
  intros HM. exists 0. unfold written, stream_params.
  cbn [out_buffer out_size out_mem GKeyComp.gkeycomp_make GKeyComp.acc
       GKeyComp.acc_nbits].
  rewrite repeat_length. change (Z.to_nat 0) with O. cbn [firstn].
  change (le_combine []) with 0. change (2 ^ 0) with 1.
  repeat split; try lia.
Qed.

Lemma decomp_in_initial (k : Z) (Y : list byte) (room : Z) :
  decomp_in (GKeyDecomp.gkeydecomp_make k) (stream_params Y room)
    (le_combine Y) (8 * Z.of_nat (length Y)).
Proof.
  unfold decomp_in, in_window_ok.
  cbn [GKeyDecomp.acc GKeyDecomp.acc_nbits in_mem in_buffer in_size
       GKeyDecomp.gkeydecomp_make stream_params].
  split; [lia|]. split; [lia|].
  change (2 ^ 0) with 1. split; [lia|].
  rewrite mem_read_all. lia.
Qed.

(** X13: [write_bits] appends.  When the bytes stored so far, followed by
    the accumulator, hold the bit string of value [v] and length [l] (first
    bit least significant) and the output block has room for its whole
    bytes, a call with [n <= 25] bits succeeds, and they then hold the
    string extended by these bits; the input side and the history are not
    touched. *)
Theorem write_bits_appends (M : Z) (c : GKeyComp.GKeyComp)
    (p : GKeyParameters) (v l n bits : Z) :
  comp_out M c p v l -> l <= 8 * M -> 0 <= n <= 25 -> 0 <= bits < 2 ^ n ->
  exists c' p',
    GKeyComp.write_bits c p n bits = (true, c', p')
    /\ comp_out M c' p' (v + bits * 2 ^ l) (l + n)
    /\ in_buffer p' = in_buffer p /\ in_size p' = in_size p
    /\ GKeyComp.in_total c' = GKeyComp.in_total c
    /\ GKeyComp.history c' = GKeyComp.history c.
Proof.
  intros Hc Hl Hn Hbits.
  destruct (write_bits_put M c p v l n bits Hc Hl Hn Hbits)
    as (ot & a & nb & mem & ob & os & E & Hc').
  eexists _, _. split; [exact E|]. split; [exact Hc'|].
  repeat split.
Qed.

Lemma write_bits_appends_witness :
  exists c' p',
    GKeyComp.write_bits (GKeyComp.gkeycomp_make 2) (stream_params [] 4) 9 130
    = (true, c', p')
    /\ comp_out 4 c' p' 130 9.
Proof.
  destruct (write_bits_appends 4 (GKeyComp.gkeycomp_make 2)
              (stream_params [] 4) 0 0 9 130
              (comp_out_initial 2 [] 4 ltac:(lia)) ltac:(lia) ltac:(lia)
              ltac:(lia))
    as (c' & p' & E & Hc & _).
  exists c', p'. split; [exact E | exact Hc].
Defined.

(** X14: the flushing call of [write_bits] (with [UINT_MAX] for the number
    of bits) stores the whole bit string held so far, padded by fewer than
    8 zero bits to a whole number of bytes, and leaves the accumulator
    empty. *)
Theorem write_bits_pads (M : Z) (c : GKeyComp.GKeyComp) (p : GKeyParameters)
    (v l : Z) :
  comp_out M c p v l -> l <= 8 * M ->
  exists c' p',
    GKeyComp.write_bits c p UINT_MAX 0 = (true, c', p')
    /\ GKeyComp.acc c' = 0 /\ GKeyComp.acc_nbits c' = 0
    /\ le_combine (written p') = v
    /\ l <= 8 * Z.of_nat (length (written p')) < l + 8.
Proof.
  intros Hc Hl.
  destruct (write_bits_flush M c p v l Hc Hl)
    as (ot & mem & ob & os & E & Hv & Hlen & Hob).
  eexists _, _. split; [exact E|].
  split; [reflexivity|]. split; [reflexivity|].
  unfold written. cbn [out_buffer out_mem].
  split; [exact Hv|].
  rewrite length_firstn.
  replace (Z.of_nat (Init.Nat.min (Z.to_nat ob) (length mem))) with ob by lia.
  exact Hlen.
Qed.

(** Nine bits, of value 386, wait in the accumulator: the flushing call
    stores them in two bytes, the second padded with seven zero bits. *)
Lemma write_bits_pads_witness :
  exists c' p',
    GKeyComp.write_bits
      (GKeyComp.set_output (GKeyComp.gkeycomp_make 2) 0 386 9)
      (stream_params [] 4) UINT_MAX 0 = (true, c', p')
    /\ GKeyComp.acc_nbits c' = 0
    /\ le_combine (written p') = 386
    /\ written p' = [Byte.x82; Byte.x01].
Proof.
  assert (Hc : comp_out 4
                 (GKeyComp.set_output (GKeyComp.gkeycomp_make 2) 0 386 9)
                 (stream_params [] 4) 386 9).
  { exists 0. repeat split; try reflexivity; try lia; cbn; lia. }
  destruct (write_bits_pads 4
              (GKeyComp.set_output (GKeyComp.gkeycomp_make 2) 0 386 9)
              (stream_params [] 4) 386 9 Hc ltac:(lia))
    as (c' & p' & E & _ & Hnb & Hv & _).
  exists c', p'. split; [exact E|]. split; [exact Hnb|]. split; [exact Hv|].
  vm_compute in E. injection E as <- <-. reflexivity.
Defined.

(** X15: [read_bits] takes.  When the accumulator followed by the input
    window holds the bit string of value [v] and length [l], a call for
    [n <= 25] bits returns the first [n] bits and leaves the rest, if there
    are as many; otherwise it fails with the input window empty and the
    whole string kept. *)
Theorem read_bits_takes (d : GKeyDecomp.GKeyDecomp) (p : GKeyParameters)
    (v l n : Z) :
  decomp_in d p v l -> 0 <= n <= 25 ->
  exists ok out d' p',
    GKeyDecomp.read_bits d p n = (ok, out, d', p')
    /\ (n <= l ->
        ok = true /\ out = v mod 2 ^ n /\ decomp_in d' p' (v / 2 ^ n) (l - n))
    /\ (l < n -> ok = false /\ in_size p' = 0 /\ decomp_in d' p' v l).
Proof.
  intros Hd Hn.
  pose proof (read_bits_fail d p n) as Hfail.
  destruct (read_bits_take d p v l n Hd Hn)
    as (ok & out & it & a & nb & ib & isz & E & Hyes & Hno).
  rewrite E in Hfail. cbn [fst snd] in Hfail.
  eexists _, _, _, _. split; [exact E|].
  split; [exact Hyes|].
  intros Hlt. destruct (Hno Hlt) as (Hok & _ & Hin).
  split; [exact Hok|]. split; [apply Hfail, Hok | exact Hin].
Qed.

Lemma read_bits_takes_witness :
  exists d' p',
    GKeyDecomp.read_bits (GKeyDecomp.gkeydecomp_make 2)
      (stream_params [Byte.x82; Byte.x00] 0) 9 = (true, 130, d', p').
Proof.
  destruct (read_bits_takes (GKeyDecomp.gkeydecomp_make 2)
              (stream_params [Byte.x82; Byte.x00] 0) _ _ 9
              (decomp_in_initial 2 [Byte.x82; Byte.x00] 0) ltac:(lia))
    as (ok & out & d' & p' & E & Hyes & _).
  destruct (Hyes ltac:(cbn [length]; lia)) as (-> & Hout & _).
  exists d', p'. rewrite E. subst out. reflexivity.
Defined.

(** X16: a field survives the bit layer.  A field of [n <= 25] bits put by
    [write_bits] into a fresh compressor and flushed is read back by
    [read_bits] from the bytes stored. *)
Theorem field_round_trip (k M n bits : Z) :
  0 <= n <= 25 -> 0 <= bits < 2 ^ n -> n <= 8 * M ->
  exists c1 p1 c2 p2 d' p',
    GKeyComp.write_bits (GKeyComp.gkeycomp_make k) (stream_params [] M) n bits
    = (true, c1, p1)
    /\ GKeyComp.write_bits c1 p1 UINT_MAX 0 = (true, c2, p2)
    /\ GKeyDecomp.read_bits (GKeyDecomp.gkeydecomp_make k)
         (stream_params (written p2) 0) n
       = (true, bits, d', p').
Proof.
  intros Hn Hbits Hroom.
  assert (HM : 0 <= M) by lia.
  destruct (write_bits_put M _ _ 0 0 n bits (comp_out_initial k [] M HM)
              ltac:(lia) Hn Hbits)
    as (ot & a & nb & mem & ob & os & E1 & Hc1).
  change (2 ^ 0) with 1 in Hc1. rewrite Z.mul_1_r, !Z.add_0_l in Hc1.
  destruct (write_bits_flush M _ _ bits n Hc1 Hroom)
    as (ot2 & mem2 & ob2 & os2 & E2 & Hv & Hlen & Hob).
  set (p2 := mkParams _ _ _ mem2 (Some ob2) os2 _) in E2.
  assert (Hw : written p2 = firstn (Z.to_nat ob2) mem2) by reflexivity.
  assert (Hwl : Z.of_nat (length (written p2)) = ob2).
  { rewrite Hw, length_firstn. lia. }
  destruct (read_bits_take (GKeyDecomp.gkeydecomp_make k)
              (stream_params (written p2) 0) _ _ n
              (decomp_in_initial k (written p2) 0) Hn)
    as (ok & out & it & a3 & nb3 & ib & isz & E3 & Hyes & _).
  destruct (Hyes ltac:(lia)) as (-> & Hout & _).
  eexists _, _, _, _, _, _.
  split; [exact E1|]. split; [exact E2|].
  rewrite E3. rewrite Hout, Hw, Hv.
  rewrite Z.mod_small by lia. reflexivity.
Qed.

Lemma field_round_trip_witness :
  exists c1 p1 c2 p2 d' p',
    GKeyComp.write_bits (GKeyComp.gkeycomp_make 2) (stream_params [] 2) 9 130
    = (true, c1, p1)
    /\ GKeyComp.write_bits c1 p1 UINT_MAX 0 = (true, c2, p2)
    /\ GKeyDecomp.read_bits (GKeyDecomp.gkeydecomp_make 2)
         (stream_params (written p2) 0) 9
       = (true, 130, d', p').
Proof.
  apply (field_round_trip 2 2 9 130); lia.
Defined.

End BitLayer.

(** ** The size field of a copy *)

Section SizeField.

(** X17: the size field is wide enough.  The compressor looks for matches
    of at most [2 ^ k - 1 - read_offset] bytes; the length of such a match
    fits the [GKey_get_read_size_bits k read_offset] bits of the size
    field.  A match of [2 ^ k] bytes at offset 0, which a history of
    [2 ^ k] bytes could hold, would not fit. *)
Theorem size_field_fits (k off len : Z) :
  0 <= k -> 0 <= off -> 0 < len -> off + len <= 2 ^ k - 1 ->
  len < 2 ^ GKey_get_read_size_bits k off
  /\ ~ (2 ^ k < 2 ^ GKey_get_read_size_bits k 0).
Proof.
  intros Hk Hoff Hlen Hfit.
  split; [apply size_bits_fits; assumption|].
  pose proof (size_bits_le k 0) as Hle.
  pose proof (size_bits_nonneg k 0 Hk) as Hnn.
  assert (2 ^ GKey_get_read_size_bits k 0 <= 2 ^ k)
    by (apply Z.pow_le_mono_r; lia).
  lia.
Qed.

Lemma size_field_fits_witness :
  3 < 2 ^ GKey_get_read_size_bits 3 4.
Proof.
  apply (size_field_fits 3 4 3); lia.
Defined.

End SizeField.


(** ** The match search *)

Section SearchSound.
Import GKeyComp.

(** X18: the match search is sound.  Started afresh (the search variables
    cleared, as the case [NextSequence] leaves them), [find_sequence]
    returns; it consumes [n] bytes of the input window, and when it reports
    a match, the match is [n] bytes long, lies in the part of the history a
    copy may name, and its bytes are the [n] bytes consumed.  When it
    reports none, it has consumed all the input. *)
Theorem find_sequence_sound (k : Z) (c : GKeyComp) (p : GKeyParameters) :
  history_log_2 c = k -> k <= MaxHistoryLog2 -> ring_wf k (history c) ->
  in_window_ok p ->
  read_offset c = 0 -> read_size c = 0 ->
  best_read_offset c = 0 -> best_read_size c = 0 ->
  exists found c' p' n,
    find_sequence c p = Some (found, c', p')
    /\ 0 <= n <= in_size p
    /\ in_buffer p' = in_buffer p + n /\ in_size p' = in_size p - n
    /\ in_total c' = in_total c + n
    /\ history c' = history c
    /\ (found = true ->
        read_size c' = n /\ 0 <= read_offset c'
        /\ read_offset c' + n <= 2 ^ k - 1
        /\ ring_window (history c) (read_offset c') n
           = mem_read (in_mem p) (in_buffer p) n)
    /\ (found = false -> in_size p' = 0).
Proof.
  intros Hk Hkmax Hwf Hin Hro Hrs Hbo Hbs.
  pose proof Hin as (Hi1 & Hi2 & Hi3).
  assert (Hpend : fs_pending (comp_fs c) = 0).
  { unfold fs_pending. cbn [comp_fs fs_read_size fs_best_read_size].
    rewrite Hrs, Hbs. reflexivity. }
  assert (Hnum : fs_num k p (in_buffer p) (comp_fs c)).
  { pose proof Hwf as (Hk0 & _).
    assert (0 < 2 ^ k) by (apply Z.pow_pos_nonneg; lia).
    unfold fs_num, fs_common. rewrite Hpend.
    cbn [comp_fs fs_read_offset fs_read_size fs_best_read_size
         fs_best_read_offset fs_consumed].
    rewrite Hro, Hrs, Hbo, Hbs.
    split; [repeat split; lia | left; reflexivity]. }
  assert (Hcont : fs_cont (history c) p (in_buffer p) (comp_fs c)).
  { unfold fs_cont.
    cbn [comp_fs fs_read_offset fs_read_size fs_best_read_size
         fs_best_read_offset].
    rewrite Hrs, Hbs.
    split; [exact Hi1|]. split; [exact Hi3|].
    unfold ring_window, mem_read. cbn [Z.to_nat seq map firstn].
    split; [reflexivity | intros Habs; lia]. }
  destruct (find_sequence_spec k c p (in_buffer p) Hk Hwf Hkmax Hnum)
    as (v' & Hpost & Hcont' & Efs).
  specialize (Hcont' Hcont).
  destruct Hpost as [(C1 & C2 & C3 & C4 & C5 & C6) Hbr].
  destruct Hcont' as (_ & _ & Hbest & _).
  rewrite Efs. cbv zeta.
  destruct (Z.geb_spec (fs_best_read_size v') (fs_max_read_size v'))
    as [Hge|Hlt].
  - destruct Hbr as [[_ Hrs0]|[Habs _]]; [|lia].
    assert (Hn : fs_consumed v' = fs_best_read_size v').
    { unfold fs_pending in C2. rewrite Hrs0 in C2. lia. }
    eexists _, _, _, (fs_consumed v'). split; [reflexivity|].
    cbn [in_buffer in_size in_total history set_sequence read_size
         read_offset].
    split; [exact C1|]. split; [reflexivity|]. split; [reflexivity|].
    split; [reflexivity|]. split; [reflexivity|].
    split; [|intros Habs; discriminate].
    intros _. rewrite Hn.
    split; [reflexivity|]. split; [exact C4|]. split; [exact C5|].
    exact Hbest.
  - destruct Hbr as [[Habs _]|(_ & Hall & _)]; [lia|].
    eexists _, _, _, (fs_consumed v'). split; [reflexivity|].
    cbn [in_buffer in_size in_total history set_sequence read_size
         read_offset].
    split; [exact C1|]. split; [reflexivity|]. split; [reflexivity|].
    split; [reflexivity|]. split; [reflexivity|].
    split; [intros Habs; discriminate|].
    intros _. lia.
Qed.

Lemma find_sequence_sound_witness :
  exists found c' p' n,
    find_sequence (gkeycomp_make 2) (stream_params [Byte.x00; Byte.x61] 4)
    = Some (found, c', p')
    /\ 0 <= n <= 2 /\ in_buffer p' = 0 + n.
Proof.
  assert (Hk : 0 <= 2 <= MaxHistoryLog2)
    by (unfold MaxHistoryLog2, ULongMinBit, CHAR_BIT; lia).
  destruct (stream_params_ok [Byte.x00; Byte.x61] 4 ltac:(lia)) as [Hin _].
  destruct (find_sequence_sound 2 (gkeycomp_make 2)
              (stream_params [Byte.x00; Byte.x61] 4) eq_refl (proj2 Hk)
              (ring_make_wf 2 ltac:(lia)) Hin eq_refl eq_refl eq_refl
              eq_refl)
    as (found & c' & p' & n & E & Hn & Hb & _).
  exists found, c', p', n. split; [exact E|]. split; [exact Hn | exact Hb].
Defined.

End SearchSound.

(** ** Calls without an output buffer *)

Section Sizing.

Lemma compress_overflow_buffer (k : Z) (c : GKeyComp.GKeyComp)
    (p : GKeyParameters) c' p' :
  comp_wf k c p ->
  GKeyComp.gkeycomp_compress c p = Some (GKeyStatus_BufferOverflow, c', p') ->
  exists ob, out_buffer p' = Some ob.
Proof.
  intros Hok. unfold GKeyComp.gkeycomp_compress.
  destruct (GKeyComp.compress_loop _ _ _ _ _) as [r|] eqn:El; [|discriminate].
  cbn [obind]. intros H. injection H as Hs <- <-.
  apply (compress_loop_reason k) in El; [|exact Hok|].
  2:{ intros Hf. apply Z.eqb_eq in Hf. exact Hf. }
  destruct El as (_ & Hreason & _).
  unfold comp_reason in Hreason. rewrite Hs in Hreason.
  apply Hreason.
Qed.

Lemma decompress_overflow_buffer (k : Z) (d : GKeyDecomp.GKeyDecomp)
    (p : GKeyParameters) d' p' :
  decomp_wf k d p ->
  GKeyDecomp.gkeydecomp_decompress d p
  = Some (GKeyStatus_BufferOverflow, d', p') ->
  exists ob, out_buffer p' = Some ob.
Proof.
  intros Hok. unfold GKeyDecomp.gkeydecomp_decompress.
  destruct (GKeyDecomp.decompress_loop _ _ _ _) as [r|] eqn:El;
    [|discriminate].
  cbn [obind]. intros H. injection H as Hs <- <-.
  apply (decompress_loop_reason k) in El; [|exact Hok].
  destruct El as (_ & Hreason & _).
  unfold decomp_reason in Hreason. rewrite Hs in Hreason.
  apply Hreason.
Qed.

(** X19: a call of [gkeycomp_compress] without an output buffer never
    returns [BufferOverflow] and leaves the output pointer null; when
    [out_size] plus the number of bytes the call would have stored (what
    [out_total] gains) does not exceed [SIZE_MAX], the call leaves this sum
    in [out_size]. *)
Theorem compress_sizing (k : Z) (c : GKeyComp.GKeyComp)
    (p : GKeyParameters) :
  comp_wf k c p -> out_buffer p = None -> 0 <= out_size p ->
  exists s c' p',
    GKeyComp.gkeycomp_compress c p = Some (s, c', p')
    /\ s <> GKeyStatus_BufferOverflow
    /\ out_buffer p' = None
    /\ (out_size p + (GKeyComp.out_total c' - GKeyComp.out_total c)
        <= SIZE_MAX ->
        out_size p'
        = out_size p + (GKeyComp.out_total c' - GKeyComp.out_total c)).
Proof.
  intros Hok Hnone Hsize.
  destruct (compress_total k c p Hok) as (s & c' & p' & E & _).
  exists s, c', p'. split; [exact E|].
  pose proof (compress_accounted c p s c' p' E) as (_ & _ & Hout).
  unfold out_accounted in Hout. rewrite Hnone in Hout.
  destruct Hout as [Hob Hsz].
  split; [|split; [exact Hob | intros _; lia]].
  intros ->. destruct (compress_overflow_buffer k c p c' p' Hok E) as [ob Hb].
  congruence.
Qed.

(** Two literals measured from [out_size = 5]: one whole byte would have
    been stored. *)
Lemma compress_sizing_witness :
  exists s c' p',
    GKeyComp.gkeycomp_compress (GKeyComp.gkeycomp_make 2)
      (mkParams [Byte.x61; Byte.x62] 0 2 [] None 5 None)
    = Some (s, c', p')
    /\ s <> GKeyStatus_BufferOverflow /\ out_buffer p' = None
    /\ out_size p' = 6.
Proof.
  assert (Hk : 0 <= 2 <= MaxHistoryLog2)
    by (unfold MaxHistoryLog2, ULongMinBit, CHAR_BIT; lia).
  assert (Hin : in_window_ok (mkParams [Byte.x61; Byte.x62] 0 2 [] None 5
                                None))
    by (unfold in_window_ok; cbn; lia).
  destruct (compress_sizing 2 (GKeyComp.gkeycomp_make 2)
              (mkParams [Byte.x61; Byte.x62] 0 2 [] None 5 None)
              (comp_make_wf 2 _ Hk Hin) eq_refl ltac:(cbn; lia))
    as (s & c' & p' & E & Hs & Hob & Hsz).
  exists s, c', p'. split; [exact E|]. split; [exact Hs|].
  split; [exact Hob|].
  vm_compute in E. injection E as <- <- <-.
  apply Hsz. vm_compute. intros H. discriminate H.
Defined.

(** X20: a call of [gkeydecomp_decompress] without an output buffer never
    returns [BufferOverflow] and leaves the output pointer null; when
    [out_size] plus the number of bytes the call would have stored (what
    [out_total] gains) does not exceed [SIZE_MAX], the call leaves this sum
    in [out_size]. *)
Theorem decompress_sizing (k : Z) (d : GKeyDecomp.GKeyDecomp)
    (p : GKeyParameters) :
  decomp_wf k d p -> out_buffer p = None -> 0 <= out_size p ->
  exists s d' p',
    GKeyDecomp.gkeydecomp_decompress d p = Some (s, d', p')
    /\ s <> GKeyStatus_BufferOverflow
    /\ out_buffer p' = None
    /\ (out_size p + (GKeyDecomp.out_total d' - GKeyDecomp.out_total d)
        <= SIZE_MAX ->
        out_size p'
        = out_size p + (GKeyDecomp.out_total d' - GKeyDecomp.out_total d)).
Proof.
  intros Hok Hnone Hsize.
  destruct (decompress_total k d p Hok) as (s & d' & p' & E & _).
  exists s, d', p'. split; [exact E|].
  pose proof (decompress_accounted d p s d' p' E) as (_ & _ & Hout).
  unfold out_accounted in Hout. rewrite Hnone in Hout.
  destruct Hout as [Hob Hsz].
  split; [|split; [exact Hob | intros _; lia]].
  intros ->.
  destruct (decompress_overflow_buffer k d p d' p' Hok E) as [ob Hb].
  congruence.
Qed.

(** A literal measured from [out_size = 5]: one byte would have been
    stored. *)
Lemma decompress_sizing_witness :
  exists s d' p',
    GKeyDecomp.gkeydecomp_decompress (GKeyDecomp.gkeydecomp_make 2)
      (mkParams [Byte.x82; Byte.x00] 0 2 [] None 5 None)
    = Some (s, d', p')
    /\ s <> GKeyStatus_BufferOverflow /\ out_buffer p' = None
    /\ out_size p' = 6.
Proof.
  assert (Hk : 0 <= 2 <= MaxHistoryLog2)
    by (unfold MaxHistoryLog2, ULongMinBit, CHAR_BIT; lia).
  assert (Hin : in_window_ok (mkParams [Byte.x82; Byte.x00] 0 2 [] None 5
                                None))
    by (unfold in_window_ok; cbn; lia).
  destruct (decompress_sizing 2 (GKeyDecomp.gkeydecomp_make 2)
              (mkParams [Byte.x82; Byte.x00] 0 2 [] None 5 None)
              (decomp_make_wf 2 _ Hk Hin I) eq_refl ltac:(cbn; lia))
    as (s & d' & p' & E & Hs & Hob & Hsz).
  exists s, d', p'. split; [exact E|]. split; [exact Hs|].
  split; [exact Hob|].
  vm_compute in E. injection E as <- <- <-.
  apply Hsz. vm_compute. intros H. discriminate H.
Defined.

End Sizing.


(** ** The decompressor takes its input in parts *)

Section DecoderResume.
Import GKeyDecomp.

(** The loop of [read_bits] does the same with any fuel that suffices. *)
Lemma read_bits_loop_fuel (n : Z) (mem : list byte) (f1 : nat) :
  forall f2 ib isz it a nb,
    (Z.to_nat (n - nb) <= f1)%nat -> (Z.to_nat (n - nb) <= f2)%nat ->
    read_bits_loop f1 n mem ib isz it a nb
    = read_bits_loop f2 n mem ib isz it a nb.
Proof.
  induction f1 as [|f1 IH]; intros f2 ib isz it a nb H1 H2.
  - destruct f2 as [|f2]; [reflexivity|]. cbn [read_bits_loop].
    destruct (Z.ltb_spec nb n); [lia | reflexivity].
  - destruct f2 as [|f2]; cbn [read_bits_loop].
    + destruct (Z.ltb_spec nb n); [lia | reflexivity].
    + destruct (Z.ltb_spec nb n); [|reflexivity].
      destruct (isz =? 0); [reflexivity|].
      apply IH; unfold CHAR_BIT; lia.
Qed.

(** With more input behind the window, the loop does the same when it
    succeeds, and goes on where it stopped when it fails. *)
Lemma read_bits_loop_extend (n : Z) (mem : list byte) (extra : Z)
    (fuel : nat) :
  0 <= extra ->
  forall ib isz it a nb ok ib' isz' it' a' nb',
    0 <= isz -> (Z.to_nat (n - nb) <= fuel)%nat ->
    read_bits_loop fuel n mem ib isz it a nb
    = (ok, (ib', isz', it', a', nb')) ->
    read_bits_loop fuel n mem ib (isz + extra) it a nb
    = if ok then (true, (ib', isz' + extra, it', a', nb'))
      else read_bits_loop (Z.to_nat (n - nb')) n mem ib' extra it' a' nb'.
Proof.
  intros Hex. induction fuel as [|fuel IH];
    intros ib isz it a nb ok ib' isz' it' a' nb' Hisz Hfuel Hrun;
    cbn [read_bits_loop] in Hrun |- *.
  - injection Hrun as <- <- <- <- <- <-. reflexivity.
  - destruct (Z.ltb_spec nb n) as [Hlt|Hge].
    + destruct (Z.eqb_spec isz 0) as [Hz|Hnz].
      * injection Hrun as <- <- <- <- <- <-. subst isz. rewrite Z.add_0_l.
        transitivity (read_bits_loop (S fuel) n mem ib extra it a nb).
        -- cbn [read_bits_loop].
           destruct (Z.ltb_spec nb n); [reflexivity | lia].
        -- apply read_bits_loop_fuel; lia.
      * destruct (Z.eqb_spec (isz + extra) 0) as [Habs|_]; [lia|].
        replace (isz + extra - 1) with (isz - 1 + extra) by lia.
        apply IH; [lia | unfold CHAR_BIT; lia | exact Hrun].
    + injection Hrun as <- <- <- <- <- <-. reflexivity.
Qed.

Lemma set_input_twice (d : GKeyDecomp) (it a nb it' a' nb' : Z) :
  set_input (set_input d it a nb) it' a' nb' = set_input d it' a' nb'.
Proof. reflexivity. Qed.

(** [read_bits] with more input behind the window. *)
Lemma read_bits_extend (d : GKeyDecomp) (p : GKeyParameters) (n extra : Z)
    (ok : bool) (out : Z) (d1 : GKeyDecomp) (p1 : GKeyParameters) :
  0 <= in_size p -> 0 <= extra ->
  read_bits d p n = (ok, out, d1, p1) ->
  read_bits d (more_input p extra) n
  = if ok then (true, out, d1, more_input p1 extra)
    else read_bits d1 (more_input p1 extra) n.
Proof.
  intros Hisz Hex. unfold read_bits.
  cbn [more_input in_mem in_buffer in_size out_mem out_buffer out_size
       prog_cb].
  destruct (read_bits_loop (Z.to_nat (n - acc_nbits d)) n (in_mem p)
              (in_buffer p) (in_size p) (in_total d) (acc d) (acc_nbits d))
    as [ok0 [[[[ib isz] it] a] nb]] eqn:E.
  pose proof (read_bits_loop_spec _ _ _ _ _ _ _ _ _ _ _ _ _ _ E)
    as (_ & _ & _ & _ & A6 & A7).
  rewrite (read_bits_loop_extend n (in_mem p) extra _ Hex _ _ _ _ _ _ _ _ _
             _ _ Hisz (Nat.le_refl _) E).
  destruct ok0.
  - specialize (A7 (Nat.le_refl _) eq_refl).
    destruct (Z.geb_spec nb n) as [_|Habs]; [|lia].
    intros H. injection H as <- <- <- <-. reflexivity.
  - destruct (A6 eq_refl) as [Hz Hlt]. subst isz.
    destruct (Z.geb_spec nb n) as [Habs|_]; [lia|].
    intros H. injection H as <- <- <- <-.
    cbn [set_input acc acc_nbits in_total in_mem in_buffer in_size out_mem
         out_buffer out_size prog_cb].
    rewrite Z.add_0_l.
    destruct (read_bits_loop _ _ _ _ _ _ _ _)
      as [ok2 [[[[ib2 isz2] it2] a2] nb2]].
    destruct (nb2 >=? n); reflexivity.
Qed.

Lemma read_bits_set_state (d : GKeyDecomp) (s : GKeyDecompState)
    (p : GKeyParameters) (n : Z) :
  read_bits (set_state d s) p n
  = let '(ok, out, d', p') := read_bits d p n in (ok, out, set_state d' s, p').
Proof.
  unfold read_bits. cbn [set_state acc acc_nbits in_total].
  destruct (read_bits_loop _ _ _ _ _ _ _ _)
    as [ok [[[[ib isz] it] a] nb]].
  destruct (nb >=? n); reflexivity.
Qed.

(** A callback that commutes with a change of its state makes
    [RingBuffer_copy] commute with it. *)
Lemma copy_loop_map {St : Type} (f : St -> St)
    (cb : St -> list byte -> St * Z) (off n : Z) :
  (forall st l, cb (f st) l = (f (fst (cb st l)), snd (cb st l))) ->
  forall fuel r st copied to_copy total,
    RingBuffer_copy_loop fuel (Some cb) off n r (f st) copied to_copy total
    = match RingBuffer_copy_loop fuel (Some cb) off n r st copied to_copy
              total with
      | Some (r', st', m) => Some (r', f st', m)
      | None => None
      end.
Proof.
  intros Hcb. induction fuel as [|fuel IH];
    intros r st copied to_copy total; cbn [RingBuffer_copy_loop];
    destruct ((total <? n) && (copied >=? to_copy)); try reflexivity.
  rewrite Hcb.
  destruct (cb st _) as [st1 copied1]. cbn [fst snd].
  destruct (RingBuffer_write _ _ _) as [r1|]; cbn [obind]; [|reflexivity].
  apply IH.
Qed.

Lemma ring_writer_more (n : Z) (st : GKeyDecomp * GKeyParameters)
    (l : list byte) :
  ring_writer (fst st, more_input (snd st) n) l
  = ((fst (fst (ring_writer st l)),
      more_input (snd (fst (ring_writer st l))) n),
     snd (ring_writer st l)).
Proof.
  destruct st as [d p]. unfold ring_writer. cbn [fst snd more_input
    out_buffer out_size out_mem in_mem in_buffer in_size prog_cb].
  destruct (out_buffer p); reflexivity.
Qed.

Lemma ring_writer_set_state (s : GKeyDecompState)
    (st : GKeyDecomp * GKeyParameters) (l : list byte) :
  ring_writer (set_state (fst st) s, snd st) l
  = ((set_state (fst (fst (ring_writer st l))) s,
      snd (fst (ring_writer st l))),
     snd (ring_writer st l)).
Proof.
  destruct st as [d p]. unfold ring_writer. cbn [fst snd].
  destruct (out_buffer p); reflexivity.
Qed.

Lemma case_CopyData_more (n : Z) status stop d p :
  case_CopyData status stop d (more_input p n)
  = option_map (decomp_pass_more n) (case_CopyData status stop d p).
Proof.
  unfold case_CopyData, RingBuffer_copy.
  pose proof (copy_loop_map
                (fun st : GKeyDecomp * GKeyParameters =>
                   (fst st, more_input (snd st) n))
                ring_writer (read_offset d) (read_size d)
                (fun st l => ring_writer_more n st l)
                (S (Z.to_nat (read_size d))) (history d) (d, p) 0 0 0)
    as Hmap.
  cbv beta in Hmap. cbn [fst snd] in Hmap. rewrite Hmap. clear Hmap.
  destruct (RingBuffer_copy_loop _ _ _ _ _ _ _ _ _)
    as [[[ring [d1 p1]] copied]|]; cbn [obind fst snd]; [|reflexivity].
  destruct (copied >=? _); reflexivity.
Qed.

Lemma case_PutByte_more (n : Z) status stop d p :
  case_PutByte status stop d (more_input p n)
  = option_map (decomp_pass_more n) (case_PutByte status stop d p).
Proof.
  unfold case_PutByte.
  rewrite (ring_writer_more n (d, p)).
  destruct (ring_writer (d, p) [literal d]) as [[d1 p1] m]. cbn [fst snd].
  destruct (m =? 1); [|reflexivity].
  destruct (RingBuffer_write _ _ _); reflexivity.
Qed.

Lemma case_CopyData_fed stop d p r :
  case_CopyData GKeyStatus_OK stop d p = Some r ->
  p_stop r = stop
  /\ (p_status r = GKeyStatus_OK \/ p_status r = GKeyStatus_BufferOverflow).
Proof.
  unfold case_CopyData.
  destruct (RingBuffer_copy _ _ _ _ _) as [[[ring [d1 p1]] copied]|];
    cbn [obind]; [|discriminate].
  destruct (copied >=? _); intros H; injection H as <-; cbn; auto.
Qed.

Lemma case_PutByte_fed stop d p r :
  case_PutByte GKeyStatus_OK stop d p = Some r ->
  p_stop r = stop
  /\ (p_status r = GKeyStatus_OK \/ p_status r = GKeyStatus_BufferOverflow).
Proof.
  unfold case_PutByte.
  destruct (ring_writer (d, p) [literal d]) as [[d1 p1] m].
  destruct (m =? 1).
  - destruct (RingBuffer_write _ _ _); cbn [obind]; [|discriminate].
    intros H; injection H as <-; cbn; auto.
  - intros H; injection H as <-; cbn; auto.
Qed.

Lemma fed_not_starved (r : pass) :
  p_stop r = false
  /\ (p_status r = GKeyStatus_OK \/ p_status r = GKeyStatus_BufferOverflow) ->
  decomp_starved r = false.
Proof.
  intros [Hstop [Hs|Hs]]; unfold decomp_starved; rewrite Hs;
    [exact Hstop | reflexivity].
Qed.

Ltac rb_case d p n :=
  let E := fresh "Erb" in
  let S := fresh "Srb" in
  destruct (read_bits d p n) as [[[?ok ?out] ?d1] ?p1] eqn:E;
  destruct (read_bits_shape d p n)
    as (?ok' & ?out' & ?ib & ?isz & ?it & ?a & ?nb & S & _ & ?Hisz & _);
  rewrite E in S; injection S as ?Eok ?Eout ?Ed1 ?Ep1.

Lemma case_GetSize_more (n : Z) d p r :
  0 <= in_size p -> 0 <= n ->
  case_GetSize GKeyStatus_OK false d p = Some r ->
  case_GetSize GKeyStatus_OK false d (more_input p n)
  = if decomp_starved r
    then switch (p_state r) GKeyStatus_OK false (p_decomp r)
           (more_input (p_params r) n)
    else Some (decomp_pass_more n r).
Proof.
  intros Hin Hn. unfold case_GetSize.
  rb_case d p (GKey_get_read_size_bits (history_log_2 d) (read_offset d)).
  rewrite (read_bits_extend _ _ _ n _ _ _ _ Hin Hn Erb).
  destruct ok.
  - destruct (_ || _).
    + intros H. injection H as <-. reflexivity.
    + rewrite case_CopyData_more. intros H. rewrite H. cbn [option_map].
      rewrite (fed_not_starved r (case_CopyData_fed _ _ _ _ H)).
      reflexivity.
  - intros H. injection H as <-.
    cbn [decomp_starved p_status p_state p_decomp p_params switch].
    unfold case_GetSize. subst d1. reflexivity.
Qed.

Lemma case_GetOffset_more (n : Z) d p r :
  0 <= in_size p -> 0 <= n ->
  case_GetOffset GKeyStatus_OK false d p = Some r ->
  case_GetOffset GKeyStatus_OK false d (more_input p n)
  = if decomp_starved r
    then switch (p_state r) GKeyStatus_OK false (p_decomp r)
           (more_input (p_params r) n)
    else Some (decomp_pass_more n r).
Proof.
  intros Hin Hn. unfold case_GetOffset.
  rb_case d p (history_log_2 d).
  rewrite (read_bits_extend _ _ _ n _ _ _ _ Hin Hn Erb).
  destruct ok.
  - apply case_GetSize_more; [|exact Hn].
    subst p1. cbn [in_size]. apply Hisz, Hin.
  - intros H. injection H as <-.
    cbn [decomp_starved p_status p_state p_decomp p_params switch].
    unfold case_GetOffset. subst d1. reflexivity.
Qed.

Lemma case_GetType_more (n : Z) d p r :
  0 <= in_size p -> 0 <= n ->
  case_GetType GKeyStatus_OK false d p = Some r ->
  case_GetType GKeyStatus_OK false d (more_input p n)
  = if decomp_starved r
    then switch (p_state r) GKeyStatus_OK false (p_decomp r)
           (more_input (p_params r) n)
    else Some (decomp_pass_more n r).
Proof.
  intros Hin Hn. unfold case_GetType.
  rb_case d p 1.
  rewrite (read_bits_extend _ _ _ n _ _ _ _ Hin Hn Erb).
  destruct ok.
  - destruct (negb _).
    + apply case_GetOffset_more; [|exact Hn].
      subst p1. cbn [in_size]. apply Hisz, Hin.
    + intros H. injection H as <-. reflexivity.
  - intros H. injection H as <-.
    cbn [decomp_starved p_status p_stop p_state p_decomp p_params switch].
    reflexivity.
Qed.

Lemma case_Progress_more (n : Z) d p r :
  0 <= in_size p -> 0 <= n ->
  case_Progress GKeyStatus_OK false d p = Some r ->
  case_Progress GKeyStatus_OK false d (more_input p n)
  = if decomp_starved r
    then switch (p_state r) GKeyStatus_OK false (p_decomp r)
           (more_input (p_params r) n)
    else Some (decomp_pass_more n r).
Proof.
  intros Hin Hn. unfold case_Progress. cbn [more_input prog_cb].
  destruct (prog_cb p) as [cb|];
    [destruct (cb (in_total d) (out_total d))|];
    try (apply case_GetType_more; assumption).
  intros H. injection H as <-. reflexivity.
Qed.

Lemma case_GetByte_more (n : Z) d p r :
  0 <= in_size p -> 0 <= n ->
  case_GetByte GKeyStatus_OK false d p = Some r ->
  case_GetByte GKeyStatus_OK false d (more_input p n)
  = if decomp_starved r
    then switch (p_state r) GKeyStatus_OK false (p_decomp r)
           (more_input (p_params r) n)
    else Some (decomp_pass_more n r).
Proof.
  intros Hin Hn. unfold case_GetByte.
  rb_case d p CHAR_BIT.
  rewrite (read_bits_extend _ _ _ n _ _ _ _ Hin Hn Erb).
  destruct ok.
  - rewrite case_PutByte_more. intros H. rewrite H. cbn [option_map].
    rewrite (fed_not_starved r (case_PutByte_fed _ _ _ _ H)).
    reflexivity.
  - destruct (acc d1 =? 0); intros H; injection H as <-;
      cbn [decomp_starved p_status p_stop p_state p_decomp p_params switch];
      reflexivity.
Qed.

(** One pass with more input behind the window: a pass that stopped for
    want of input is taken up where it stopped, any other pass is the
    same. *)
Lemma switch_more (n : Z) st d p r :
  0 <= in_size p -> 0 <= n ->
  switch st GKeyStatus_OK false d p = Some r ->
  switch st GKeyStatus_OK false d (more_input p n)
  = if decomp_starved r
    then switch (p_state r) GKeyStatus_OK false (p_decomp r)
           (more_input (p_params r) n)
    else Some (decomp_pass_more n r).
Proof.
  intros Hin Hn. destruct st; cbn [switch].
  - apply case_Progress_more; assumption.
  - apply case_GetType_more; assumption.
  - apply case_GetOffset_more; assumption.
  - apply case_GetSize_more; assumption.
  - rewrite case_CopyData_more. intros H. rewrite H. cbn [option_map].
    rewrite (fed_not_starved r (case_CopyData_fed _ _ _ _ H)). reflexivity.
  - apply case_GetByte_more; assumption.
  - rewrite case_PutByte_more. intros H. rewrite H. cbn [option_map].
    rewrite (fed_not_starved r (case_PutByte_fed _ _ _ _ H)). reflexivity.
Qed.

(** The field [state] of the decompressor is not read by a pass. *)
Lemma case_CopyData_state (s : GKeyDecompState) status stop d p :
  case_CopyData status stop (set_state d s) p
  = option_map (decomp_pass_state s) (case_CopyData status stop d p).
Proof.
  unfold case_CopyData, RingBuffer_copy.
  cbn [set_state history read_offset read_size].
  pose proof (copy_loop_map
                (fun st : GKeyDecomp * GKeyParameters =>
                   (set_state (fst st) s, snd st))
                ring_writer (read_offset d) (read_size d)
                (fun st l => ring_writer_set_state s st l)
                (S (Z.to_nat (read_size d))) (history d) (d, p) 0 0 0)
    as Hmap.
  cbv beta in Hmap. cbn [fst snd] in Hmap.
  rewrite Hmap. clear Hmap.
  destruct (RingBuffer_copy_loop _ _ _ _ _ _ _ _ _)
    as [[[ring [d1 p1]] copied]|]; cbn [obind fst snd]; [|reflexivity].
  cbn [set_state set_history read_size].
  destruct (copied >=? _); reflexivity.
Qed.

Lemma case_PutByte_state (s : GKeyDecompState) status stop d p :
  case_PutByte status stop (set_state d s) p
  = option_map (decomp_pass_state s) (case_PutByte status stop d p).
Proof.
  unfold case_PutByte.
  change (literal (set_state d s)) with (literal d).
  rewrite (ring_writer_set_state s (d, p)).
  destruct (ring_writer (d, p) [literal d]) as [[d1 p1] m]. cbn [fst snd].
  destruct (m =? 1); [|reflexivity].
  change (history (set_state d1 s)) with (history d1).
  change (literal (set_state d1 s)) with (literal d1).
  destruct (RingBuffer_write _ _ _); reflexivity.
Qed.

Lemma case_GetSize_state (s : GKeyDecompState) status stop d p :
  case_GetSize status stop (set_state d s) p
  = option_map (decomp_pass_state s) (case_GetSize status stop d p).
Proof.
  unfold case_GetSize.
  change (history_log_2 (set_state d s)) with (history_log_2 d).
  change (read_offset (set_state d s)) with (read_offset d).
  rewrite read_bits_set_state.
  destruct (read_bits d p _) as [[[ok out] d1] p1].
  destruct ok; [|reflexivity].
  change (history_log_2 (set_state d1 s)) with (history_log_2 d1).
  change (read_offset (set_state d1 s)) with (read_offset d1).
  destruct (_ || _); [reflexivity|].
  change (set_read_size (set_state d1 s) out)
    with (set_state (set_read_size d1 out) s).
  apply case_CopyData_state.
Qed.

Lemma case_GetOffset_state (s : GKeyDecompState) status stop d p :
  case_GetOffset status stop (set_state d s) p
  = option_map (decomp_pass_state s) (case_GetOffset status stop d p).
Proof.
  unfold case_GetOffset.
  change (history_log_2 (set_state d s)) with (history_log_2 d).
  rewrite read_bits_set_state.
  destruct (read_bits d p _) as [[[ok out] d1] p1].
  destruct ok; [|reflexivity].
  change (set_read_offset (set_state d1 s) out)
    with (set_state (set_read_offset d1 out) s).
  apply case_GetSize_state.
Qed.

Lemma case_GetType_state (s : GKeyDecompState) status stop d p :
  case_GetType status stop (set_state d s) p
  = option_map (decomp_pass_state s) (case_GetType status stop d p).
Proof.
  unfold case_GetType.
  rewrite read_bits_set_state.
  destruct (read_bits d p 1) as [[[ok out] d1] p1].
  destruct ok; [|reflexivity].
  destruct (negb _); [|reflexivity].
  apply case_GetOffset_state.
Qed.

Lemma case_Progress_state (s : GKeyDecompState) status stop d p :
  case_Progress status stop (set_state d s) p
  = option_map (decomp_pass_state s) (case_Progress status stop d p).
Proof.
  unfold case_Progress.
  change (in_total (set_state d s)) with (in_total d).
  change (out_total (set_state d s)) with (out_total d).
  destruct (prog_cb p) as [cb|];
    [destruct (cb (in_total d) (out_total d))|];
    try apply case_GetType_state.
  reflexivity.
Qed.

Lemma case_GetByte_state (s : GKeyDecompState) status stop d p :
  case_GetByte status stop (set_state d s) p
  = option_map (decomp_pass_state s) (case_GetByte status stop d p).
Proof.
  unfold case_GetByte.
  rewrite read_bits_set_state.
  destruct (read_bits d p CHAR_BIT) as [[[ok out] d1] p1].
  destruct ok.
  - change (set_literal (set_state d1 s) (byte.of_Z out))
      with (set_state (set_literal d1 (byte.of_Z out)) s).
    apply case_PutByte_state.
  - change (acc (set_state d1 s)) with (acc d1).
    destruct (acc d1 =? 0); reflexivity.
Qed.

Lemma switch_state (s : GKeyDecompState) st status stop d p :
  switch st status stop (set_state d s) p
  = option_map (decomp_pass_state s) (switch st status stop d p).
Proof.
  destruct st; cbn [switch].
  - apply case_Progress_state.
  - apply case_GetType_state.
  - apply case_GetOffset_state.
  - apply case_GetSize_state.
  - apply case_CopyData_state.
  - apply case_GetByte_state.
  - apply case_PutByte_state.
Qed.

Lemma decompress_loop_state (s : GKeyDecompState) (fuel : nat) :
  forall st d p,
    decompress_loop fuel st (set_state d s) p
    = option_map (decomp_pass_state s) (decompress_loop fuel st d p).
Proof.
  induction fuel as [|fuel IH]; intros st d p; cbn [decompress_loop];
    [reflexivity|].
  rewrite switch_state.
  destruct (switch st GKeyStatus_OK false d p) as [r|];
    cbn [option_map obind]; [|reflexivity].
  cbn [decomp_pass_state p_status p_stop p_state p_decomp p_params].
  destruct (GKeyStatus_eqb (p_status r) GKeyStatus_OK && negb (p_stop r));
    [apply IH | reflexivity].
Qed.

(** More fuel does not change the result of the loop. *)
Lemma decompress_loop_mono (f : nat) :
  forall st d p r f',
    decompress_loop f st d p = Some r -> (f <= f')%nat ->
    decompress_loop f' st d p = Some r.
Proof.
  induction f as [|f IH]; intros st d p r f' Hrun Hle;
    cbn [decompress_loop] in Hrun; [discriminate|].
  destruct f' as [|f']; [lia|]. cbn [decompress_loop].
  destruct (switch st GKeyStatus_OK false d p) as [r0|]; cbn [obind] in *;
    [|discriminate].
  destruct (GKeyStatus_eqb (p_status r0) GKeyStatus_OK && negb (p_stop r0));
    [|exact Hrun].
  apply (IH _ _ _ _ f' Hrun). lia.
Qed.

(** The loop with more input behind the window. *)
Lemma decompress_loop_more (k n : Z) (fuel : nat) :
  0 <= n ->
  forall st d p r,
    decomp_ok k st d p ->
    decompress_loop fuel st d p = Some r ->
    if decomp_starved r
    then forall f2 r2,
        decompress_loop f2 (p_state r) (p_decomp r)
          (more_input (p_params r) n) = Some r2 ->
        decompress_loop (fuel + f2) st d (more_input p n) = Some r2
    else decompress_loop fuel st d (more_input p n)
         = Some (decomp_pass_more n r).
Proof.
  intros Hn. induction fuel as [|fuel IH]; intros st d p r Hok Hrun;
    cbn [decompress_loop] in Hrun; [discriminate|].
  destruct (switch_total_dec k st d p Hok) as (r0 & E & Hok0 & _).
  rewrite E in Hrun. cbn [obind] in Hrun.
  pose proof Hok as [(_ & _ & _ & _ & (_ & Hin & _) & _) _].
  pose proof (switch_more n st d p r0 Hin Hn E) as Hm.
  destruct (GKeyStatus_eqb (p_status r0) GKeyStatus_OK && negb (p_stop r0))
    eqn:Hgo.
  - assert (Hfed : decomp_starved r0 = false).
    { apply andb_true_iff in Hgo. destruct Hgo as [Hs Hstop].
      apply status_eqb_OK in Hs. apply negb_true_iff in Hstop.
      unfold decomp_starved. rewrite Hs. exact Hstop. }
    rewrite Hfed in Hm.
    specialize (IH _ _ _ _ Hok0 Hrun).
    destruct (decomp_starved r).
    + intros f2 r2 H2. cbn [Nat.add decompress_loop].
      rewrite Hm. cbn [obind decomp_pass_more p_status p_stop p_state
                       p_decomp p_params].
      rewrite Hgo. apply IH, H2.
    + cbn [decompress_loop]. rewrite Hm.
      cbn [obind decomp_pass_more p_status p_stop p_state p_decomp
           p_params].
      rewrite Hgo. exact IH.
  - injection Hrun as <-.
    destruct (decomp_starved r0).
    + intros f2 r2 H2. cbn [Nat.add decompress_loop]. rewrite Hm.
      destruct f2 as [|f2]; cbn [decompress_loop] in H2; [discriminate|].
      destruct (switch (p_state r0) GKeyStatus_OK false (p_decomp r0)
                  (more_input (p_params r0) n)) as [r'|];
        cbn [obind] in *; [|discriminate].
      destruct (GKeyStatus_eqb (p_status r') GKeyStatus_OK
                && negb (p_stop r')); [|exact H2].
      apply (decompress_loop_mono _ _ _ _ _ _ H2). lia.
    + cbn [decompress_loop]. rewrite Hm.
      cbn [obind decomp_pass_more p_status p_stop p_state p_decomp
           p_params].
      rewrite Hgo. reflexivity.
Qed.

(** A call does not change the input block. *)
Lemma ring_writer_in_mem (st : GKeyDecomp * GKeyParameters) (l : list byte) :
  in_mem (snd (fst (ring_writer st l))) = in_mem (snd st).
Proof.
  destruct st as [d p].
  destruct (ring_writer_shape d p l) as (ot & mem & ob & os & m & E & _).
  rewrite E. reflexivity.
Qed.

Lemma case_CopyData_in_mem status stop d p r :
  case_CopyData status stop d p = Some r -> in_mem (p_params r) = in_mem p.
Proof.
  unfold case_CopyData, RingBuffer_copy.
  destruct (RingBuffer_copy_loop _ _ _ _ _ _ _ _ _)
    as [[[ring [d1 p1]] copied]|] eqn:E; [|discriminate].
  apply (copy_loop_invariant (fun st => in_mem (snd st) = in_mem p)) in E.
  - cbn [snd] in E. cbn [obind].
    destruct (copied >=? _); intros H; injection H as <-; exact E.
  - intros cb Hcb st l HQ. injection Hcb as <-.
    rewrite ring_writer_in_mem. exact HQ.
  - reflexivity.
Qed.

Lemma case_PutByte_in_mem status stop d p r :
  case_PutByte status stop d p = Some r -> in_mem (p_params r) = in_mem p.
Proof.
  unfold case_PutByte.
  destruct (ring_writer_shape d p [literal d])
    as (ot & mem & ob & os & m & E & _).
  rewrite E.
  destruct (m =? 1).
  - destruct (RingBuffer_write _ _ _) as [ring|]; [|discriminate].
    cbn [obind]. intros H. injection H as <-. reflexivity.
  - intros H. injection H as <-. reflexivity.
Qed.

Ltac rb_shape d p n :=
  let ok := fresh "ok" in
  let E := fresh "Erb" in
  destruct (read_bits_shape d p n)
    as (ok & ?out & ?ib & ?isz & ?it & ?a & ?nb & E & _);
  rewrite E; clear E.

Lemma case_GetSize_in_mem status stop d p r :
  case_GetSize status stop d p = Some r -> in_mem (p_params r) = in_mem p.
Proof.
  unfold case_GetSize.
  rb_shape d p (GKey_get_read_size_bits (history_log_2 d) (read_offset d)).
  destruct ok.
  - destruct (_ || _).
    + intros H. injection H as <-. reflexivity.
    + intros H. apply case_CopyData_in_mem in H. exact H.
  - intros H. injection H as <-. reflexivity.
Qed.

Lemma case_GetOffset_in_mem status stop d p r :
  case_GetOffset status stop d p = Some r -> in_mem (p_params r) = in_mem p.
Proof.
  unfold case_GetOffset.
  rb_shape d p (history_log_2 d).
  destruct ok.
  - intros H. apply case_GetSize_in_mem in H. exact H.
  - intros H. injection H as <-. reflexivity.
Qed.

Lemma case_GetType_in_mem status stop d p r :
  case_GetType status stop d p = Some r -> in_mem (p_params r) = in_mem p.
Proof.
  unfold case_GetType.
  rb_shape d p 1.
  destruct ok.
  - destruct (negb _).
    + intros H. apply case_GetOffset_in_mem in H. exact H.
    + intros H. injection H as <-. reflexivity.
  - intros H. injection H as <-. reflexivity.
Qed.

Lemma case_GetByte_in_mem status stop d p r :
  case_GetByte status stop d p = Some r -> in_mem (p_params r) = in_mem p.
Proof.
  unfold case_GetByte.
  rb_shape d p CHAR_BIT.
  destruct ok.
  - intros H. apply case_PutByte_in_mem in H. exact H.
  - destruct (_ =? 0); intros H; injection H as <-; reflexivity.
Qed.

Lemma switch_in_mem st status stop d p r :
  switch st status stop d p = Some r -> in_mem (p_params r) = in_mem p.
Proof.
  destruct st; cbn [switch].
  - unfold case_Progress.
    destruct (prog_cb p) as [cb|];
      [destruct (cb (in_total d) (out_total d))|];
      try apply case_GetType_in_mem.
    intros H. injection H as <-. reflexivity.
  - apply case_GetType_in_mem.
  - apply case_GetOffset_in_mem.
  - apply case_GetSize_in_mem.
  - apply case_CopyData_in_mem.
  - apply case_GetByte_in_mem.
  - apply case_PutByte_in_mem.
Qed.

Lemma decompress_loop_in_mem (fuel : nat) :
  forall st d p r,
    decompress_loop fuel st d p = Some r -> in_mem (p_params r) = in_mem p.
Proof.
  induction fuel as [|fuel IH]; intros st d p r Hrun;
    cbn [decompress_loop] in Hrun; [discriminate|].
  destruct (switch st GKeyStatus_OK false d p) as [r0|] eqn:E;
    [|discriminate].
  cbn [obind] in Hrun. apply switch_in_mem in E.
  destruct (GKeyStatus_eqb (p_status r0) GKeyStatus_OK && negb (p_stop r0)).
  - apply IH in Hrun. congruence.
  - injection Hrun as <-. exact E.
Qed.

Lemma decomp_ok_more (k n : Z) st d p :
  decomp_ok k st d p -> 0 <= n ->
  in_buffer p + in_size p + n <= Z.of_nat (length (in_mem p)) ->
  decomp_ok k st d (more_input p n).
Proof.
  intros [(Hk & Hkr & Hwf & Hnb & (Hi1 & Hi2 & Hi3) & Hout) Hst] Hn Hfit.
  split; [|exact Hst].
  split; [exact Hk|]. split; [exact Hkr|]. split; [exact Hwf|].
  split; [exact Hnb|]. split; [|exact Hout].
  unfold in_window_ok. cbn [more_input in_buffer in_size in_mem]. lia.
Qed.

Lemma decomp_ok_state (k : Z) st s d p :
  decomp_ok k st (set_state d s) p <-> decomp_ok k st d p.
Proof. destruct st; reflexivity. Qed.

(** The call with more input behind the window, in terms of the loop. *)
Lemma decompress_more (k n : Z) (d : GKeyDecomp) (p : GKeyParameters)
    (r : pass) :
  decomp_wf k d p -> 0 <= n ->
  in_buffer p + in_size p + n <= Z.of_nat (length (in_mem p)) ->
  decompress_loop (decompress_fuel d p) (state d) d p = Some r ->
  gkeydecomp_decompress d (more_input p n)
  = if decomp_starved r
    then gkeydecomp_decompress (set_state (p_decomp r) (p_state r))
           (more_input (p_params r) n)
    else Some (p_status r, set_state (p_decomp r) (p_state r),
               more_input (p_params r) n).
Proof.
  intros Hok Hn Hfit Hrun.
  pose proof Hok as [(_ & _ & _ & Hnb & (_ & Hi & _) & _) _].
  assert (Hok' : decomp_wf k d (more_input p n))
    by (apply decomp_ok_more; assumption).
  destruct (decompress_total k d (more_input p n) Hok')
    as (s & d' & p' & E & _).
  rewrite E. unfold gkeydecomp_decompress in E.
  destruct (decompress_loop _ _ _ (more_input p n)) as [r'|] eqn:El;
    [|discriminate].
  cbn [obind] in E. injection E as <- <- <-.
  pose proof (decompress_loop_more k n _ Hn _ _ _ _ Hok Hrun) as Hmore.
  pose proof (decompress_loop_in_mem _ _ _ _ _ Hrun) as Hmem.
  destruct (decompress_loop_total k (decompress_fuel d p) (state d) d p Hok)
    as (r0 & E0 & Hok0).
  { unfold decompress_fuel, decomp_potential, decomp_bits, CHAR_BIT.
    destruct (state d); lia. }
  rewrite Hrun in E0. injection E0 as <-.
  pose proof (decompress_loop_accounted _ _ _ _ _ Hrun) as (Hacc & _).
  destruct (decomp_starved r).
  - assert (Hok2 : decomp_wf k (set_state (p_decomp r) (p_state r))
                     (more_input (p_params r) n)).
    { unfold decomp_wf. cbn [state set_state].
      apply decomp_ok_state. apply decomp_ok_more; [exact Hok0|exact Hn|].
      rewrite Hmem. lia. }
    destruct (decompress_total k _ _ Hok2) as (s2 & d2 & p2 & E2 & _).
    rewrite E2. unfold gkeydecomp_decompress in E2.
    cbn [state set_state] in E2.
    change (mkDecomp (p_state r) (in_total (p_decomp r))
              (out_total (p_decomp r)) (read_offset (p_decomp r))
              (read_size (p_decomp r)) (acc (p_decomp r))
              (acc_nbits (p_decomp r)) (literal (p_decomp r))
              (history_log_2 (p_decomp r)) (history (p_decomp r)))
      with (set_state (p_decomp r) (p_state r)) in E2.
    rewrite decompress_loop_state in E2.
    destruct (decompress_loop _ (p_state r) (p_decomp r) _) as [r2|] eqn:El2;
      cbn [option_map obind] in E2; [|discriminate].
    injection E2 as <- <- <-.
    specialize (Hmore _ _ El2).
    apply (decompress_loop_mono _ _ _ _ _
             (Nat.max (decompress_fuel d (more_input p n))
                (decompress_fuel d p + decompress_fuel
                   (set_state (p_decomp r) (p_state r))
                   (more_input (p_params r) n)))) in Hmore; [|lia].
    apply (decompress_loop_mono _ _ _ _ _
             (Nat.max (decompress_fuel d (more_input p n))
                (decompress_fuel d p + decompress_fuel
                   (set_state (p_decomp r) (p_state r))
                   (more_input (p_params r) n)))) in El; [|lia].
    rewrite Hmore in El. injection El as <-. reflexivity.
  - apply (decompress_loop_mono _ _ _ _ _
             (decompress_fuel d (more_input p n))) in Hmore.
    + rewrite Hmore in El. injection El as <-. reflexivity.
    + unfold decompress_fuel, CHAR_BIT. cbn [more_input in_size]. lia.
Qed.

(** X21: the decompressor takes its input in parts.  When a call stopped
    for want of input (status [OK] or [TruncatedInput]), its input window
    is empty, and calling again with the next [n] bytes in the window ends
    as one call on the whole input would have: same status, same
    decompressor, same parameter block.  When a call stopped for another
    reason, input behind the window would not have changed it. *)
Theorem decompress_resumes (k n : Z) (d : GKeyDecomp) (p : GKeyParameters)
    (s1 : GKeyStatus) (d1 : GKeyDecomp) (p1 : GKeyParameters) :
  decomp_wf k d p -> 0 <= n ->
  in_buffer p + in_size p + n <= Z.of_nat (length (in_mem p)) ->
  gkeydecomp_decompress d p = Some (s1, d1, p1) ->
  match s1 with
  | GKeyStatus_OK | GKeyStatus_TruncatedInput =>
      in_size p1 = 0
      /\ gkeydecomp_decompress d1 (more_input p1 n)
         = gkeydecomp_decompress d (more_input p n)
  | _ =>
      gkeydecomp_decompress d (more_input p n)
      = Some (s1, d1, more_input p1 n)
  end.
Proof.
  intros Hok Hn Hfit Hrun.
  unfold gkeydecomp_decompress in Hrun.
  destruct (decompress_loop (decompress_fuel d p) (state d) d p) as [r|]
    eqn:El; [|discriminate].
  cbn [obind] in Hrun. injection Hrun as <- <- <-.
  pose proof (decompress_more k n d p r Hok Hn Hfit El) as Hmore.
  apply (decompress_loop_reason k) in El; [|exact Hok].
  destruct El as (_ & Hreason & Hstop).
  unfold decomp_reason in Hreason. unfold decomp_starved in Hmore.
  destruct (p_status r).
  - rewrite (Hstop eq_refl) in Hmore.
    split; [apply Hreason, Hstop; reflexivity | symmetry; exact Hmore].
  - exact Hmore.
  - split; [apply Hreason | symmetry; exact Hmore].
  - exact Hmore.
  - exact Hmore.
  - exact Hmore.
Qed.

Lemma decompress_resumes_witness :
  exists d1 p1,
    gkeydecomp_decompress (gkeydecomp_make 2)
      (mkParams [Byte.x82; Byte.x1a] 0 1 (repeat Byte.x00 2) (Some 0) 2 None)
    = Some (GKeyStatus_TruncatedInput, d1, p1)
    /\ gkeydecomp_decompress d1 (more_input p1 1)
       = gkeydecomp_decompress (gkeydecomp_make 2)
           (mkParams [Byte.x82; Byte.x1a] 0 2 (repeat Byte.x00 2) (Some 0) 2
              None).
Proof.
  assert (Hk : 0 <= 2 <= MaxHistoryLog2)
    by (unfold MaxHistoryLog2, ULongMinBit, CHAR_BIT; lia).
  set (p := mkParams [Byte.x82; Byte.x1a] 0 1 (repeat Byte.x00 2) (Some 0)
              2 None).
  assert (Hin : in_window_ok p) by (unfold in_window_ok; cbn; lia).
  assert (Hout : out_window_ok p) by (unfold out_window_ok; cbn; lia).
  destruct (decompress_total 2 (gkeydecomp_make 2) p
              (decomp_make_wf 2 p Hk Hin Hout)) as (s1 & d1 & p1 & E & _).
  pose proof (decompress_resumes 2 1 (gkeydecomp_make 2) p s1 d1 p1
                (decomp_make_wf 2 p Hk Hin Hout) ltac:(lia)
                ltac:(cbn; lia) E) as H.
  assert (Hs : s1 = GKeyStatus_TruncatedInput).
  { vm_compute in E. injection E as <- _ _. reflexivity. }
  subst s1. destruct H as [_ H].
  exists d1, p1. split; [exact E | exact H].
Defined.

End DecoderResume.


(** ** What a call may write *)

Section Frame.

Lemma out_frame_refl (p : GKeyParameters) : out_frame p p.
Proof.
  split; [reflexivity|]. split; [reflexivity|].
  destruct (out_buffer p) as [ob|] eqn:E; [|split; reflexivity].
  exists ob. split; [reflexivity|]. split; [lia|]. split; [lia|].
  reflexivity.
Qed.

Lemma out_frame_trans (p1 p2 p3 : GKeyParameters) :
  out_frame p1 p2 -> out_frame p2 p3 -> out_frame p1 p3.
Proof.
  intros (A1 & A2 & A3) (B1 & B2 & B3).
  split; [congruence|]. split; [congruence|].
  destruct (out_buffer p1) as [ob|].
  - destruct A3 as (ob2 & E2 & Hle2 & Hsum2 & Hsame2). rewrite E2 in B3.
    destruct B3 as (ob3 & E3 & Hle3 & Hsum3 & Hsame3).
    exists ob3. split; [exact E3|]. split; [lia|]. split; [lia|].
    intros i Hi Hout. rewrite Hsame3 by lia. apply Hsame2; lia.
  - destruct A3 as [E2 M2]. rewrite E2 in B3. destruct B3 as [E3 M3].
    split; [exact E3 | congruence].
Qed.

(** A change of the input window only. *)
Lemma out_frame_input (p : GKeyParameters) (ib isz : Z) :
  out_frame p (mkParams (in_mem p) ib isz (out_mem p) (out_buffer p)
                 (out_size p) (prog_cb p)).
Proof.
  split; [reflexivity|]. split; [reflexivity|].
  cbn [out_buffer out_size out_mem].
  destruct (out_buffer p) as [ob|]; [|split; reflexivity].
  exists ob. split; [reflexivity|]. split; [lia|]. split; [lia|].
  reflexivity.
Qed.

(** Storing [data] at the output pointer, within the window. *)
Lemma out_frame_store (p : GKeyParameters) (ob : Z) (data : list byte) :
  out_buffer p = Some ob -> out_window_ok p ->
  Z.of_nat (length data) <= out_size p ->
  let p' := mkParams (in_mem p) (in_buffer p) (in_size p)
              (mem_write (out_mem p) ob data)
              (Some (ob + Z.of_nat (length data)))
              (out_size p - Z.of_nat (length data)) (prog_cb p) in
  out_window_ok p' /\ out_frame p p'.
Proof.
  intros Hob Hok Hfit p'. unfold out_window_ok in Hok. rewrite Hob in Hok.
  destruct Hok as (H0 & Hs & Hl).
  assert (Hlen : length (mem_write (out_mem p) ob data)
                 = length (out_mem p)) by (apply length_mem_write; lia).
  split.
  - unfold out_window_ok, p'. cbn [out_buffer out_size out_mem].
    rewrite Hlen. lia.
  - split; [reflexivity|]. split; [exact Hlen|].
    rewrite Hob. exists (ob + Z.of_nat (length data)).
    unfold p'. cbn [out_buffer out_size out_mem].
    split; [reflexivity|]. split; [lia|]. split; [lia|].
    intros i Hi Hout. rewrite mem_load_write by lia.
    destruct (Z.leb_spec ob i); destruct (Z.ltb_spec i
      (ob + Z.of_nat (length data))); cbn [andb]; try reflexivity; lia.
Qed.

(** The bytes stored so far stay, and the bytes stored by the call follow
    them. *)
Lemma out_frame_written (p p' : GKeyParameters) (ob ob' : Z) :
  out_frame p p' -> out_window_ok p -> out_window_ok p' ->
  out_buffer p = Some ob -> out_buffer p' = Some ob' ->
  written p' = written p ++ mem_read (out_mem p') ob (ob' - ob).
Proof.
  intros (_ & Hlen & Hf) Hok Hok' Hob Hob'.
  unfold out_window_ok in Hok, Hok'. rewrite Hob in *. rewrite Hob' in Hok'.
  destruct Hf as (o & Eo & Hle & Hsum & Hsame).
  rewrite Hob' in Eo. injection Eo as <-.
  unfold written. rewrite Hob, Hob'.
  replace (Z.to_nat ob') with (Z.to_nat ob + Z.to_nat (ob' - ob))%nat by lia.
  rewrite firstn_add. unfold mem_read. f_equal.
  apply (nth_ext _ _ Byte.x00 Byte.x00).
  - rewrite !length_firstn. lia.
  - intros i Hi. rewrite length_firstn in Hi.
    rewrite !nth_firstn.
    destruct (Nat.ltb_spec i (Z.to_nat ob)); [|reflexivity].
    specialize (Hsame (Z.of_nat i) ltac:(lia) ltac:(lia)).
    unfold mem_load in Hsame. rewrite Nat2Z.id in Hsame. exact Hsame.
Qed.

End Frame.

Section DecoderFrame.
Import GKeyDecomp.

Lemma framed_trans (p1 p2 p3 : GKeyParameters) :
  framed p1 p2 -> framed p2 p3 -> framed p1 p3.
Proof.
  intros [_ A] [B1 B2]. split; [exact B1|].
  eapply out_frame_trans; eassumption.
Qed.

Lemma framed_input (p : GKeyParameters) (ib isz : Z) :
  out_window_ok p ->
  framed p (mkParams (in_mem p) ib isz (out_mem p) (out_buffer p)
              (out_size p) (prog_cb p)).
Proof.
  intros Hok. split; [exact Hok | apply out_frame_input].
Qed.

Lemma ring_writer_frame (d : GKeyDecomp) (p : GKeyParameters)
    (l : list byte) :
  out_window_ok p -> framed p (snd (fst (ring_writer (d, p) l))).
Proof.
  intros Hok. unfold ring_writer.
  destruct (out_buffer p) as [ob|] eqn:Hob; cbn [fst snd].
  - pose proof Hok as Hok'. unfold out_window_ok in Hok'. rewrite Hob in Hok'.
    set (n := if out_size p <? Z.of_nat (length l) then out_size p
              else Z.of_nat (length l)).
    assert (Hn : 0 <= n <= out_size p /\ n <= Z.of_nat (length l)).
    { unfold n. destruct (Z.ltb_spec (out_size p) (Z.of_nat (length l)));
        lia. }
    assert (Hlen : Z.of_nat (length (firstn (Z.to_nat n) l)) = n).
    { rewrite length_firstn. lia. }
    pose proof (out_frame_store p ob (firstn (Z.to_nat n) l) Hob Hok
                  ltac:(lia)) as H.
    cbv zeta in H. rewrite Hlen in H. exact H.
  - split.
    + unfold out_window_ok. cbn [out_buffer]. exact I.
    + split; [reflexivity|]. split; [reflexivity|].
      rewrite Hob. split; reflexivity.
Qed.

Ltac rb_shape d p n :=
  let ok := fresh "ok" in
  let E := fresh "Erb" in
  destruct (read_bits_shape d p n)
    as (ok & ?out & ?ib & ?isz & ?it & ?a & ?nb & E & _);
  rewrite E; clear E.

Lemma case_CopyData_frame status stop d p r :
  out_window_ok p ->
  case_CopyData status stop d p = Some r -> framed p (p_params r).
Proof.
  intros Hok. unfold case_CopyData, RingBuffer_copy.
  destruct (RingBuffer_copy_loop _ _ _ _ _ _ _ _ _)
    as [[[ring [d1 p1]] copied]|] eqn:E; [|discriminate].
  apply (copy_loop_invariant (fun st => framed p (snd st))) in E.
  - cbn [snd] in E. cbn [obind].
    destruct (copied >=? _); intros H; injection H as <-; exact E.
  - intros cb Hcb [d2 p2] l HQ. injection Hcb as <-. cbn [snd] in HQ.
    exact (framed_trans _ _ _ HQ (ring_writer_frame d2 p2 l (proj1 HQ))).
  - split; [exact Hok | apply out_frame_refl].
Qed.

Lemma case_PutByte_frame status stop d p r :
  out_window_ok p ->
  case_PutByte status stop d p = Some r -> framed p (p_params r).
Proof.
  intros Hok. unfold case_PutByte.
  pose proof (ring_writer_frame d p [literal d] Hok) as Hf.
  destruct (ring_writer (d, p) [literal d]) as [[d1 p1] m].
  cbn [fst snd] in Hf.
  destruct (m =? 1).
  - destruct (RingBuffer_write _ _ _) as [ring|]; [|discriminate].
    cbn [obind]. intros H. injection H as <-. exact Hf.
  - intros H. injection H as <-. exact Hf.
Qed.

Lemma case_GetSize_frame status stop d p r :
  out_window_ok p ->
  case_GetSize status stop d p = Some r -> framed p (p_params r).
Proof.
  intros Hok. unfold case_GetSize.
  rb_shape d p (GKey_get_read_size_bits (history_log_2 d) (read_offset d)).
  pose proof (framed_input p ib isz Hok) as Hf.
  destruct ok.
  - destruct (_ || _).
    + intros H. injection H as <-. exact Hf.
    + intros H. apply case_CopyData_frame in H; [|apply Hf].
      exact (framed_trans _ _ _ Hf H).
  - intros H. injection H as <-. exact Hf.
Qed.

Lemma case_GetOffset_frame status stop d p r :
  out_window_ok p ->
  case_GetOffset status stop d p = Some r -> framed p (p_params r).
Proof.
  intros Hok. unfold case_GetOffset.
  rb_shape d p (history_log_2 d).
  pose proof (framed_input p ib isz Hok) as Hf.
  destruct ok.
  - intros H. apply case_GetSize_frame in H; [|apply Hf].
    exact (framed_trans _ _ _ Hf H).
  - intros H. injection H as <-. exact Hf.
Qed.

Lemma case_GetType_frame status stop d p r :
  out_window_ok p ->
  case_GetType status stop d p = Some r -> framed p (p_params r).
Proof.
  intros Hok. unfold case_GetType.
  rb_shape d p 1.
  pose proof (framed_input p ib isz Hok) as Hf.
  destruct ok.
  - destruct (negb _).
    + intros H. apply case_GetOffset_frame in H; [|apply Hf].
      exact (framed_trans _ _ _ Hf H).
    + intros H. injection H as <-. exact Hf.
  - intros H. injection H as <-. exact Hf.
Qed.

Lemma case_GetByte_frame status stop d p r :
  out_window_ok p ->
  case_GetByte status stop d p = Some r -> framed p (p_params r).
Proof.
  intros Hok. unfold case_GetByte.
  rb_shape d p CHAR_BIT.
  pose proof (framed_input p ib isz Hok) as Hf.
  destruct ok.
  - intros H. apply case_PutByte_frame in H; [|apply Hf].
    exact (framed_trans _ _ _ Hf H).
  - destruct (_ =? 0); intros H; injection H as <-; exact Hf.
Qed.

Lemma switch_frame st status stop d p r :
  out_window_ok p ->
  switch st status stop d p = Some r -> framed p (p_params r).
Proof.
  intros Hok. destruct st; cbn [switch].
  - unfold case_Progress.
    destruct (prog_cb p) as [cb|];
      [destruct (cb (in_total d) (out_total d))|];
      try (apply case_GetType_frame; exact Hok).
    intros H. injection H as <-. split; [exact Hok | apply out_frame_refl].
  - apply case_GetType_frame, Hok.
  - apply case_GetOffset_frame, Hok.
  - apply case_GetSize_frame, Hok.
  - apply case_CopyData_frame, Hok.
  - apply case_GetByte_frame, Hok.
  - apply case_PutByte_frame, Hok.
Qed.

Lemma decompress_loop_frame (fuel : nat) :
  forall st d p r,
    out_window_ok p ->
    decompress_loop fuel st d p = Some r -> framed p (p_params r).
Proof.
  induction fuel as [|fuel IH]; intros st d p r Hok Hrun;
    cbn [decompress_loop] in Hrun; [discriminate|].
  destruct (switch st GKeyStatus_OK false d p) as [r0|] eqn:E;
    [|discriminate].
  cbn [obind] in Hrun. apply switch_frame in E; [|exact Hok].
  destruct (GKeyStatus_eqb (p_status r0) GKeyStatus_OK && negb (p_stop r0)).
  - apply IH in Hrun; [|apply E]. exact (framed_trans _ _ _ E Hrun).
  - injection Hrun as <-. exact E.
Qed.

(** X22: what [gkeydecomp_decompress] may write.  A call leaves the input
    block and the length of the output block as they were; it only advances
    the output pointer, within the output window; the output block changes
    only between the old and the new output pointer, so the bytes stored by
    earlier calls stay and nothing outside the window is written; without
    an output buffer the output block is not touched at all. *)
Theorem decompress_frame (d : GKeyDecomp) (p : GKeyParameters)
    (s : GKeyStatus) (d' : GKeyDecomp) (p' : GKeyParameters) :
  out_window_ok p ->
  gkeydecomp_decompress d p = Some (s, d', p') ->
  in_mem p' = in_mem p
  /\ length (out_mem p') = length (out_mem p)
  /\ match out_buffer p with
     | Some ob =>
         exists ob',
           out_buffer p' = Some ob'
           /\ ob <= ob' <= ob + out_size p
           /\ ob' + out_size p' = ob + out_size p
           /\ (forall i, 0 <= i -> i < ob \/ ob' <= i ->
                         mem_load (out_mem p') i = mem_load (out_mem p) i)
           /\ written p' = written p ++ mem_read (out_mem p') ob (ob' - ob)
     | None => out_buffer p' = None /\ out_mem p' = out_mem p
     end.
Proof.
  intros Hok. unfold gkeydecomp_decompress.
  destruct (decompress_loop _ _ _ _) as [r|] eqn:E; [|discriminate].
  cbn [obind]. intros H. injection H as <- <- <-.
  apply decompress_loop_frame in E; [|exact Hok].
  destruct E as [Hok' Hf]. pose proof Hf as (Hmem & Hlen & Hout).
  split; [exact Hmem|]. split; [exact Hlen|].
  destruct (out_buffer p) as [ob|] eqn:Hob; [|exact Hout].
  destruct Hout as (ob' & Hob' & Hle & Hsum & Hsame).
  exists ob'. split; [exact Hob'|].
  pose proof Hok' as Hw. unfold out_window_ok in Hw. rewrite Hob' in Hw.
  split; [lia|]. split; [exact Hsum|]. split; [exact Hsame|].
  apply out_frame_written; assumption.
Qed.

Lemma decompress_frame_witness :
  exists s d' p',
    gkeydecomp_decompress (gkeydecomp_make 2)
      (stream_params [Byte.x82; Byte.x00] 4) = Some (s, d', p')
    /\ length (out_mem p') = 4%nat.
Proof.
  assert (Hk : 0 <= 2 <= MaxHistoryLog2)
    by (unfold MaxHistoryLog2, ULongMinBit, CHAR_BIT; lia).
  destruct (stream_params_ok [Byte.x82; Byte.x00] 4 ltac:(lia)) as [Hin Hout].
  destruct (decompress_total 2 (gkeydecomp_make 2)
              (stream_params [Byte.x82; Byte.x00] 4)
              (decomp_make_wf 2 _ Hk Hin Hout)) as (s & d' & p' & E & _).
  exists s, d', p'. split; [exact E|].
  destruct (decompress_frame _ _ _ _ _ Hout E) as (_ & Hlen & _).
  exact Hlen.
Defined.

End DecoderFrame.

Section EncoderFrame.
Import GKeyComp.

Lemma write_bits_loop_frame (im : list byte) (ib isz : Z)
    (cb : option GKeyProgressFn) (fuel : nat) :
  forall mem ob os ot a nb ok mem' ob' os' ot' a' nb',
    write_bits_loop fuel mem ob os ot a nb
    = (ok, (mem', ob', os', ot', a', nb')) ->
    out_window_ok (mkParams im ib isz mem ob os cb) ->
    framed (mkParams im ib isz mem ob os cb)
      (mkParams im ib isz mem' ob' os' cb).
Proof.
  induction fuel as [|fuel IH];
    intros mem ob os ot a nb ok mem' ob' os' ot' a' nb' Hrun Hok;
    cbn [write_bits_loop] in Hrun.
  - injection Hrun as <- <- <- <- <- <-.
    split; [exact Hok | apply out_frame_refl].
  - destruct (nb >=? CHAR_BIT).
    2:{ injection Hrun as <- <- <- <- <- <-.
        split; [exact Hok | apply out_frame_refl]. }
    destruct ob as [o|].
    + destruct (Z.eqb_spec os 0) as [Hz|Hnz].
      * injection Hrun as <- <- <- <- <- <-.
        split; [exact Hok | apply out_frame_refl].
      * pose proof Hok as Hw. unfold out_window_ok in Hw.
        cbn [out_buffer out_size out_mem] in Hw.
        pose proof (out_frame_store (mkParams im ib isz mem (Some o) os cb)
                      o [byte.of_Z a] eq_refl Hok
                      ltac:(cbn [length out_size]; lia)) as Hst.
        cbv zeta in Hst.
        cbn [in_mem in_buffer in_size out_mem out_size prog_cb length
             Z.of_nat Pos.of_succ_nat] in Hst.
        apply IH in Hrun; [|apply Hst].
        exact (framed_trans _ _ _ Hst Hrun).
    + apply IH in Hrun; [|exact I].
      refine (framed_trans _ _ _ _ Hrun).
      split; [exact I|].
      split; [reflexivity|]. split; [reflexivity|]. split; reflexivity.
Qed.

Lemma write_bits_frame (c : GKeyComp) (p : GKeyParameters) (n bits : Z) :
  out_window_ok p -> framed p (snd (write_bits c p n bits)).
Proof.
  intros Hok. unfold write_bits.
  destruct (if n =? UINT_MAX then _ else _) as [n1 nb1].
  destruct (write_bits_loop _ _ _ _ _ _ _)
    as [ok [[[[[mem ob] os] ot] a] nb]] eqn:E.
  apply (write_bits_loop_frame (in_mem p) (in_buffer p) (in_size p)
           (prog_cb p)) in E.
  - rewrite params_eta in E. destruct ok; exact E.
  - rewrite params_eta. exact Hok.
Qed.

Lemma ring_writer_loop_frame (l : list byte) :
  forall c p nout,
    out_window_ok p ->
    framed p (snd (fst (ring_writer_loop c p l nout))).
Proof.
  induction l as [|b l IH]; intros c p nout Hok; cbn [ring_writer_loop].
  - split; [exact Hok | apply out_frame_refl].
  - pose proof (write_bits_frame c p (CHAR_BIT + 1)
                  (Z.shiftl (byte.unsigned b) 1) Hok) as Hw.
    destruct (write_bits c p (CHAR_BIT + 1) (Z.shiftl (byte.unsigned b) 1))
      as [[ok c1] p1].
    cbn [fst snd] in Hw.
    destruct ok; [|exact Hw].
    exact (framed_trans _ _ _ Hw (IH c1 p1 (nout + 1) (proj1 Hw))).
Qed.

Ltac wb_frame c p n bits Hok :=
  let Hw := fresh "Hw" in
  pose proof (write_bits_frame c p n bits Hok) as Hw;
  destruct (write_bits c p n bits) as [[?ok ?c1] ?p1];
  cbn [fst snd] in Hw.

Lemma case_PutSize_frame status input c p r :
  out_window_ok p ->
  case_PutSize status input c p = Some r -> framed p (p_params r).
Proof.
  intros Hok. unfold case_PutSize.
  wb_frame c p (GKey_get_read_size_bits (history_log_2 c) (read_offset c))
    (read_size c) Hok.
  destruct ok.
  - destruct (RingBuffer_copy _ _ _ _ _) as [[[ring u] copied]|];
      [|discriminate].
    cbn [obind]. intros H. injection H as <-. exact Hw.
  - intros H. injection H as <-. exact Hw.
Qed.

Lemma case_PutOffset_frame status input c p r :
  out_window_ok p ->
  case_PutOffset status input c p = Some r -> framed p (p_params r).
Proof.
  intros Hok. unfold case_PutOffset.
  wb_frame c p (history_log_2 c + 1)
    (Z.lor (ulong (Z.shiftl (read_offset c) 1)) 1) Hok.
  destruct ok.
  - intros H. apply case_PutSize_frame in H; [|apply Hw].
    exact (framed_trans _ _ _ Hw H).
  - intros H. injection H as <-. exact Hw.
Qed.

Lemma find_sequence_frame (c : GKeyComp) (p : GKeyParameters)
    (found : bool) (c' : GKeyComp) (p' : GKeyParameters) :
  out_window_ok p ->
  find_sequence c p = Some (found, c', p') -> framed p p'.
Proof.
  intros Hok. unfold find_sequence.
  destruct (find_sequence_loop _ _ _ _ _) as [v|]; [|discriminate].
  cbn [obind].
  destruct (fs_best_read_size v >=? fs_max_read_size v);
    intros H; injection H as <- <- <-;
    (split; [exact Hok | apply out_frame_input]).
Qed.

Lemma case_FindSequence_frame flush state status input c p r :
  out_window_ok p ->
  case_FindSequence flush state status input c p = Some r ->
  framed p (p_params r).
Proof.
  intros Hok. unfold case_FindSequence.
  assert (Hfs : forall found c1 p1,
             (if flush then Some (true, c, p) else find_sequence c p)
             = Some (found, c1, p1) -> framed p p1).
  { intros found c1 p1. destruct flush.
    - intros H. injection H as <- <- <-.
      split; [exact Hok | apply out_frame_refl].
    - apply find_sequence_frame, Hok. }
  destruct (if flush then Some (true, c, p) else find_sequence c p)
    as [[[found c1] p1]|]; [|discriminate].
  specialize (Hfs found c1 p1 eq_refl). cbn [obind].
  destruct found.
  2:{ intros H. injection H as <-. exact Hfs. }
  destruct (read_size c1 =? 0).
  - destruct (in_size p1 >? 0); [|destruct flush];
      intros H; injection H as <-; exact Hfs.
  - destruct (_ <? _).
    + intros H; injection H as <-; exact Hfs.
    + intros H. apply case_PutOffset_frame in H; [|apply Hfs].
      exact (framed_trans _ _ _ Hfs H).
Qed.

Lemma case_Progress_frame flush state status input c p r :
  out_window_ok p ->
  case_Progress flush state status input c p = Some r ->
  framed p (p_params r).
Proof.
  intros Hok. unfold case_Progress.
  destruct (prog_cb p) as [cb|].
  - destruct (cb (in_total c) (out_total c)).
    + apply case_FindSequence_frame, Hok.
    + intros H. injection H as <-.
      split; [exact Hok | apply out_frame_refl].
  - apply case_FindSequence_frame, Hok.
Qed.

Lemma case_PutByte_frame_comp status input c p r :
  out_window_ok p ->
  case_PutByte status input c p = Some r -> framed p (p_params r).
Proof.
  intros Hok. unfold case_PutByte. cbv zeta.
  wb_frame c p (CHAR_BIT + 1)
    (Z.shiftl (byte.unsigned (mem_load (in_mem p) (in_buffer p))) 1) Hok.
  destruct ok.
  - destruct (RingBuffer_write _ _ _) as [ring|]; [|discriminate].
    cbn [obind]. intros H. injection H as <-. cbn [p_params].
    refine (framed_trans _ _ _ Hw _).
    apply framed_input, Hw.
  - intros H. injection H as <-. exact Hw.
Qed.

Lemma case_PutBytes_frame status input c p r :
  out_window_ok p ->
  case_PutBytes status input c p = Some r -> framed p (p_params r).
Proof.
  intros Hok. unfold case_PutBytes, RingBuffer_copy.
  destruct (RingBuffer_copy_loop _ _ _ _ _ _ _ _ _)
    as [[[ring [c1 p1]] copied]|] eqn:E; [|discriminate].
  apply (copy_loop_invariant (fun st => framed p (snd st))) in E.
  - cbn [snd] in E. cbn [obind].
    destruct (copied >=? _); intros H; injection H as <-; exact E.
  - intros cb Hcb [c2 p2] l HQ. injection Hcb as <-. cbn [snd] in HQ.
    cbn [ring_writer].
    exact (framed_trans _ _ _ HQ
             (ring_writer_loop_frame l c2 p2 0 (proj1 HQ))).
  - split; [exact Hok | apply out_frame_refl].
Qed.

Lemma case_Flush_frame status input c p r :
  out_window_ok p ->
  case_Flush status input c p = Some r -> framed p (p_params r).
Proof.
  intros Hok. unfold case_Flush.
  wb_frame c p UINT_MAX 0 Hok.
  destruct ok; intros H; injection H as <-; exact Hw.
Qed.

Lemma switch_frame_comp flush state status input c p r :
  out_window_ok p ->
  switch flush state status input c p = Some r -> framed p (p_params r).
Proof.
  intros Hok. destruct state; cbn [switch].
  - unfold case_NextSequence. apply case_Progress_frame, Hok.
  - apply case_Progress_frame, Hok.
  - apply case_FindSequence_frame, Hok.
  - apply case_PutOffset_frame, Hok.
  - apply case_PutSize_frame, Hok.
  - apply case_PutByte_frame_comp, Hok.
  - apply case_PutBytes_frame, Hok.
  - apply case_Flush_frame, Hok.
Qed.

Lemma compress_loop_frame (fuel : nat) :
  forall flush state c p r,
    out_window_ok p ->
    compress_loop fuel flush state c p = Some r -> framed p (p_params r).
Proof.
  induction fuel as [|fuel IH]; intros flush state c p r Hok Hrun;
    cbn [compress_loop] in Hrun; [discriminate|].
  destruct (switch flush state GKeyStatus_OK true c p) as [r0|] eqn:E;
    [|discriminate].
  cbn [obind] in Hrun. apply switch_frame_comp in E; [|exact Hok].
  destruct (GKeyStatus_eqb (p_status r0) GKeyStatus_OK && p_input r0).
  - apply IH in Hrun; [|apply E]. exact (framed_trans _ _ _ E Hrun).
  - injection Hrun as <-. exact E.
Qed.

(** X23: what [gkeycomp_compress] may write.  A call leaves the input block
    and the length of the output block as they were; it only advances the
    output pointer, within the output window; the output block changes only
    between the old and the new output pointer, so the bytes stored by
    earlier calls stay and nothing outside the window is written; without
    an output buffer the output block is not touched at all. *)
Theorem compress_frame (c : GKeyComp) (p : GKeyParameters)
    (s : GKeyStatus) (c' : GKeyComp) (p' : GKeyParameters) :
  out_window_ok p ->
  gkeycomp_compress c p = Some (s, c', p') ->
  in_mem p' = in_mem p
  /\ length (out_mem p') = length (out_mem p)
  /\ match out_buffer p with
     | Some ob =>
         exists ob',
           out_buffer p' = Some ob'
           /\ ob <= ob' <= ob + out_size p
           /\ ob' + out_size p' = ob + out_size p
           /\ (forall i, 0 <= i -> i < ob \/ ob' <= i ->
                         mem_load (out_mem p') i = mem_load (out_mem p) i)
           /\ written p' = written p ++ mem_read (out_mem p') ob (ob' - ob)
     | None => out_buffer p' = None /\ out_mem p' = out_mem p
     end.
Proof.
  intros Hok. unfold gkeycomp_compress.
  destruct (compress_loop _ _ _ _ _) as [r|] eqn:E; [|discriminate].
  cbn [obind]. intros H. injection H as <- <- <-.
  apply compress_loop_frame in E; [|exact Hok].
  destruct E as [Hok' Hf]. pose proof Hf as (Hmem & Hlen & Hout).
  split; [exact Hmem|]. split; [exact Hlen|].
  destruct (out_buffer p) as [ob|] eqn:Hob; [|exact Hout].
  destruct Hout as (ob' & Hob' & Hle & Hsum & Hsame).
  exists ob'. split; [exact Hob'|].
  pose proof Hok' as Hw. unfold out_window_ok in Hw. rewrite Hob' in Hw.
  split; [lia|]. split; [exact Hsum|]. split; [exact Hsame|].
  apply out_frame_written; assumption.
Qed.

Lemma compress_frame_witness :
  exists s c' p',
    gkeycomp_compress (gkeycomp_make 2)
      (stream_params [Byte.x61; Byte.x62] 4) = Some (s, c', p')
    /\ length (out_mem p') = 4%nat.
Proof.
  assert (Hk : 0 <= 2 <= MaxHistoryLog2)
    by (unfold MaxHistoryLog2, ULongMinBit, CHAR_BIT; lia).
  destruct (stream_params_ok [Byte.x61; Byte.x62] 4 ltac:(lia)) as [Hin Hout].
  destruct (compress_total 2 (gkeycomp_make 2)
              (stream_params [Byte.x61; Byte.x62] 4)
              (comp_make_wf 2 _ Hk Hin)) as (s & c' & p' & E & _).
  exists s, c', p'. split; [exact E|].
  destruct (compress_frame _ _ _ _ _ Hout E) as (_ & Hlen & _).
  exact Hlen.
Defined.

End EncoderFrame.


(** ** The compressor gives its output in parts *)

Section EncoderResume.
Import GKeyComp.

Lemma div8_step (nb : Z) : (nb - 8) / 8 = nb / 8 - 1.
Proof.
  replace (nb - 8) with (nb + (-1) * 8) by lia.
  rewrite Z.div_add by lia. lia.
Qed.

Lemma mod8_step (nb : Z) : (nb - 8) mod 8 = nb mod 8.
Proof.
  replace (nb - 8) with (nb + (-1) * 8) by lia.
  apply Z.mod_add. lia.
Qed.

Lemma div8_small (nb : Z) : nb / 8 <= 0 -> nb < 8.
Proof.
  intros H. pose proof (Z.div_mod nb 8 ltac:(lia)).
  pose proof (Z.mod_pos_bound nb 8 ltac:(lia)). lia.
Qed.

(** The loop of [write_bits] does the same with any fuel that suffices. *)
Lemma write_bits_loop_fuel (f1 : nat) :
  forall f2 mem ob os ot a nb,
    (Z.to_nat (nb / 8) <= f1)%nat -> (Z.to_nat (nb / 8) <= f2)%nat ->
    write_bits_loop f1 mem ob os ot a nb
    = write_bits_loop f2 mem ob os ot a nb.
Proof.
  induction f1 as [|f1 IH]; intros f2 mem ob os ot a nb H1 H2.
  - destruct f2 as [|f2]; [reflexivity|]. cbn [write_bits_loop].
    unfold CHAR_BIT.
    destruct (Z.geb_spec nb 8); [|reflexivity].
    pose proof (div8_small nb). lia.
  - destruct f2 as [|f2]; cbn [write_bits_loop]; unfold CHAR_BIT.
    + destruct (Z.geb_spec nb 8); [|reflexivity].
      pose proof (div8_small nb). lia.
    + destruct (Z.geb_spec nb 8); [|reflexivity].
      assert (Hs : (Z.to_nat ((nb - 8) / 8) <= f1)%nat
                   /\ (Z.to_nat ((nb - 8) / 8) <= f2)%nat).
      { rewrite div8_step.
        assert (1 <= nb / 8) by (apply Z.div_le_lower_bound; lia). lia. }
      destruct ob as [o|].
      * destruct (os =? 0); [reflexivity|]. apply IH; apply Hs.
      * apply IH; apply Hs.
Qed.

Lemma write_bits_loop_mod8 (fuel : nat) :
  forall mem ob os ot a nb ok mem' ob' os' ot' a' nb',
    write_bits_loop fuel mem ob os ot a nb
    = (ok, (mem', ob', os', ot', a', nb')) ->
    nb' mod 8 = nb mod 8.
Proof.
  induction fuel as [|fuel IH];
    intros mem ob os ot a nb ok mem' ob' os' ot' a' nb' Hrun;
    cbn [write_bits_loop] in Hrun.
  - injection Hrun as <- <- <- <- <- <- <-. reflexivity.
  - unfold CHAR_BIT in Hrun.
    destruct (nb >=? 8).
    2:{ injection Hrun as <- <- <- <- <- <- <-. reflexivity. }
    destruct ob as [o|].
    + destruct (os =? 0).
      * injection Hrun as <- <- <- <- <- <- <-. reflexivity.
      * apply IH in Hrun. rewrite Hrun. apply mod8_step.
    + apply IH in Hrun. rewrite Hrun. apply mod8_step.
Qed.

(** With more room behind the output window, the loop does the same when it
    succeeds, and goes on where it stopped when it fails. *)
Lemma write_bits_loop_room (extra : Z) (fuel : nat) :
  0 <= extra ->
  forall mem ob os ot a nb ok mem' ob' os' ot' a' nb',
    0 <= os -> (Z.to_nat (nb / 8) <= fuel)%nat ->
    write_bits_loop fuel mem ob os ot a nb
    = (ok, (mem', ob', os', ot', a', nb')) ->
    write_bits_loop fuel mem ob (os + extra) ot a nb
    = if ok then (true, (mem', ob', os' + extra, ot', a', nb'))
      else write_bits_loop (Z.to_nat (nb' / 8)) mem' ob' extra ot' a' nb'.
Proof.
  intros Hex. induction fuel as [|fuel IH];
    intros mem ob os ot a nb ok mem' ob' os' ot' a' nb' Hos Hfuel Hrun;
    cbn [write_bits_loop] in Hrun |- *.
  - injection Hrun as <- <- <- <- <- <- <-. reflexivity.
  - unfold CHAR_BIT in *.
    destruct (Z.geb_spec nb 8) as [Hge|Hlt].
    2:{ injection Hrun as <- <- <- <- <- <- <-. reflexivity. }
    assert (Hs : (Z.to_nat ((nb - 8) / 8) <= fuel)%nat).
    { rewrite div8_step.
      assert (1 <= nb / 8) by (apply Z.div_le_lower_bound; lia). lia. }
    destruct ob as [o|].
    + destruct (Z.eqb_spec os 0) as [Hz|Hnz].
      * injection Hrun as <- <- <- <- <- <- <-. subst os. rewrite Z.add_0_l.
        transitivity (write_bits_loop (S fuel) mem (Some o) extra ot a nb).
        -- cbn [write_bits_loop]. unfold CHAR_BIT.
           destruct (Z.geb_spec nb 8); [reflexivity | lia].
        -- apply write_bits_loop_fuel; lia.
      * destruct (Z.eqb_spec (os + extra) 0) as [Habs|_]; [lia|].
        replace (os + extra - 1) with (os - 1 + extra) by lia.
        apply IH; [lia | exact Hs | exact Hrun].
    + replace (os + extra + 1) with (os + 1 + extra) by lia.
      apply IH; [lia | exact Hs | exact Hrun].
Qed.

Lemma set_output_twice (c : GKeyComp) (ot a nb ot' a' nb' : Z) :
  set_output (set_output c ot a nb) ot' a' nb' = set_output c ot' a' nb'.
Proof. reflexivity. Qed.

(** [write_bits] with more room behind the output window. *)
Lemma write_bits_room (c : GKeyComp) (p : GKeyParameters) (n bits extra : Z)
    (ok : bool) (c1 : GKeyComp) (p1 : GKeyParameters) :
  0 <= out_size p -> 0 <= extra ->
  write_bits c p n bits = (ok, c1, p1) ->
  write_bits c (more_output p extra) n bits
  = if ok then (true, c1, more_output p1 extra)
    else write_bits c1 (more_output p1 extra) n bits.
Proof.
  intros Hos Hex. unfold write_bits.
  cbn [more_output in_mem in_buffer in_size out_mem out_buffer out_size
       prog_cb].
  set (nn := if n =? UINT_MAX
             then (0, if negb (acc_nbits c mod CHAR_BIT =? 0)
                      then acc_nbits c + (CHAR_BIT - acc_nbits c mod CHAR_BIT)
                      else acc_nbits c)
             else (n, acc_nbits c)).
  assert (Hround : n = UINT_MAX -> snd nn mod 8 = 0).
  { intros ->. unfold nn. rewrite Z.eqb_refl. cbn [snd]. unfold CHAR_BIT.
    destruct (Z.eqb_spec (acc_nbits c mod 8) 0) as [Hz|Hnz]; cbn [negb];
      [exact Hz|].
    replace (acc_nbits c + (8 - acc_nbits c mod 8))
      with (acc_nbits c - acc_nbits c mod 8 + 1 * 8) by lia.
    rewrite Z.mod_add by lia.
    rewrite Zminus_mod, Z.mod_mod, Z.sub_diag by lia. reflexivity. }
  assert (Hfst : fst nn = if n =? UINT_MAX then 0 else n)
    by (unfold nn; destruct (n =? UINT_MAX); reflexivity).
  assert (Hkeep : n <> UINT_MAX -> snd nn = acc_nbits c).
  { intros Hne. unfold nn. apply Z.eqb_neq in Hne. rewrite Hne.
    reflexivity. }
  destruct nn as [n1 nb1]. cbn [fst snd] in Hround, Hfst, Hkeep.
  destruct (write_bits_loop (Z.to_nat nb1) (out_mem p) (out_buffer p)
              (out_size p) (out_total c) (acc c) nb1)
    as [ok0 [[[[[mem ob] os] ot] a] nb]] eqn:E.
  assert (Hfuel : (Z.to_nat (nb1 / 8) <= Z.to_nat nb1)%nat).
  { destruct (Z.le_gt_cases 0 nb1) as [Hp|Hn].
    - apply Z2Nat.inj_le; [apply Z.div_pos; lia | lia |].
      apply Z.div_le_upper_bound; lia.
    - assert (nb1 / 8 < 0) by (apply Z.div_lt_upper_bound; lia). lia. }
  rewrite (write_bits_loop_room extra _ Hex _ _ _ _ _ _ _ _ _ _ _ _ _ Hos
             Hfuel E).
  pose proof (write_bits_loop_mod8 _ _ _ _ _ _ _ _ _ _ _ _ _ _ E) as Hmod.
  destruct ok0.
  - intros H. injection H as <- <- <-. reflexivity.
  - destruct (write_bits_loop_fail _ _ _ _ _ _ _ _ _ _ _ _ _ E) as [_ Hz].
    subst os.
    intros H. injection H as <- <- <-.
    cbn [set_output acc acc_nbits out_total in_mem in_buffer in_size out_mem
         out_buffer out_size prog_cb].
    assert (Hnn : (if n =? UINT_MAX
                   then (0, if negb (nb mod CHAR_BIT =? 0)
                            then nb + (CHAR_BIT - nb mod CHAR_BIT) else nb)
                   else (n, nb)) = (n1, nb)).
    { destruct (Z.eqb_spec n UINT_MAX) as [Hu|Hu].
      - specialize (Hround Hu). unfold CHAR_BIT.
        rewrite Hmod, Hround. cbn [Z.eqb negb]. congruence.
      - congruence. }
    rewrite Hnn. rewrite Z.add_0_l.
    rewrite (write_bits_loop_fuel (Z.to_nat (nb / 8)) (Z.to_nat nb)).
    + destruct (write_bits_loop _ _ _ _ _ _ _)
        as [ok2 [[[[[mem2 ob2] os2] ot2] a2] nb2]].
      destruct ok2; reflexivity.
    + lia.
    + destruct (Z.le_gt_cases 0 nb) as [Hp|Hn].
      * apply Z2Nat.inj_le; [apply Z.div_pos; lia | lia |].
        apply Z.div_le_upper_bound; lia.
      * assert (nb / 8 < 0) by (apply Z.div_lt_upper_bound; lia). lia.
Qed.

Lemma out_buffered_size (p : GKeyParameters) :
  out_buffered p -> 0 <= out_size p.
Proof.
  intros [Hok [ob Hob]]. unfold out_window_ok in Hok. rewrite Hob in Hok.
  lia.
Qed.

Lemma framed_buffered (p p' : GKeyParameters) :
  out_buffered p -> framed p p' -> out_buffered p'.
Proof.
  intros [_ [ob Hob]] [Hok' (_ & _ & Hf)]. split; [exact Hok'|].
  rewrite Hob in Hf. destruct Hf as (ob' & Hob' & _). eauto.
Qed.

(** [write_bits] and the callback under a change they do not see. *)
Lemma write_bits_map (f : GKeyComp -> GKeyComp) (c : GKeyComp)
    (p : GKeyParameters) (n bits : Z) :
  comp_blind f ->
  write_bits (f c) p n bits
  = let '(ok, c', p') := write_bits c p n bits in (ok, f c', p').
Proof.
  intros Hf. destruct (Hf c) as (Ha & Hnb & Hot & Hset).
  unfold write_bits. rewrite Ha, Hnb, Hot.
  destruct (if n =? UINT_MAX then _ else _) as [n1 nb1].
  destruct (write_bits_loop _ _ _ _ _ _ _)
    as [ok [[[[[mem ob] os] ot] a] nb]].
  destruct ok; rewrite Hset; reflexivity.
Qed.

Lemma ring_writer_loop_map (f : GKeyComp -> GKeyComp) (l : list byte) :
  comp_blind f ->
  forall c p nout,
    ring_writer_loop (f c) p l nout
    = let '(c', p', m) := ring_writer_loop c p l nout in (f c', p', m).
Proof.
  intros Hf. induction l as [|b l IH]; intros c p nout;
    cbn [ring_writer_loop]; [reflexivity|].
  rewrite (write_bits_map f) by exact Hf.
  destruct (write_bits c p _ _) as [[ok c1] p1].
  destruct ok; [apply IH | reflexivity].
Qed.

Lemma blind_set_history (h : RingBuffer) :
  comp_blind (fun c => set_history c h).
Proof. intros c. repeat split. Qed.

Lemma blind_set_read_size (x : Z) : comp_blind (fun c => set_read_size c x).
Proof. intros c. repeat split. Qed.

Lemma blind_set_state (s : GKeyCompState) :
  comp_blind (fun c => set_state c s).
Proof. intros c. repeat split. Qed.

(** The count of the callback starts where it is told to. *)
Lemma ring_writer_loop_from (l : list byte) :
  forall c p nout,
    ring_writer_loop c p l nout
    = let '(c', p', m) := ring_writer_loop c p l 0 in (c', p', nout + m).
Proof.
  induction l as [|b l IH]; intros c p nout; cbn [ring_writer_loop].
  - rewrite Z.add_0_r. reflexivity.
  - destruct (write_bits c p _ _) as [[ok c1] p1].
    destruct ok.
    + rewrite (IH c1 p1 (nout + 1)), (IH c1 p1 (0 + 1)).
      destruct (ring_writer_loop c1 p1 l 0) as [[c2 p2] m].
      f_equal. lia.
    + rewrite Z.add_0_r. reflexivity.
Qed.

(** The callback with more room behind the output window: when it stopped
    short, it goes on with the rest of the range. *)
Lemma ring_writer_loop_room (extra : Z) (l : list byte) :
  0 <= extra ->
  forall c p nout c1 p1 m,
    out_buffered p ->
    ring_writer_loop c p l nout = (c1, p1, m) ->
    ring_writer_loop c (more_output p extra) l nout
    = if m - nout <? Z.of_nat (length l)
      then ring_writer_loop c1 (more_output p1 extra)
             (skipn (Z.to_nat (m - nout)) l) m
      else (c1, more_output p1 extra, m).
Proof.
  intros Hex. induction l as [|b l IH]; intros c p nout c1 p1 m Hbuf Hrun;
    cbn [ring_writer_loop] in Hrun |- *.
  - injection Hrun as <- <- <-. rewrite Z.sub_diag. reflexivity.
  - pose proof (write_bits_frame c p (CHAR_BIT + 1)
                  (Z.shiftl (byte.unsigned b) 1) (proj1 Hbuf)) as Hw.
    destruct (write_bits c p (CHAR_BIT + 1) (Z.shiftl (byte.unsigned b) 1))
      as [[ok c' ] p'] eqn:E.
    cbn [fst snd] in Hw.
    rewrite (write_bits_room _ _ _ _ extra _ _ _
               (out_buffered_size p Hbuf) Hex E).
    destruct ok.
    + destruct (ring_writer_loop_shape l c' p' (nout + 1))
        as (ot & a & nb & mem & ob & os & m' & S & Hm).
      rewrite Hrun in S. injection S as _ _ Hmm. subst m'.
      rewrite (IH c' p' (nout + 1) c1 p1 m (framed_buffered _ _ Hbuf Hw)
                 Hrun).
      cbn [length]. rewrite Nat2Z.inj_succ.
      destruct (Z.ltb_spec (m - (nout + 1)) (Z.of_nat (length l)));
        destruct (Z.ltb_spec (m - nout) (Z.succ (Z.of_nat (length l))));
        try lia; [|reflexivity].
      replace (Z.to_nat (m - nout)) with (S (Z.to_nat (m - (nout + 1))))
        by lia.
      reflexivity.
    + injection Hrun as <- <- <-. rewrite Z.sub_diag.
      cbn [length]. rewrite Nat2Z.inj_succ.
      destruct (Z.ltb_spec 0 (Z.succ (Z.of_nat (length l)))); [|lia].
      change (Z.to_nat 0) with O. cbn [skipn ring_writer_loop].
      reflexivity.
Qed.

(** The match search does not look at the output window. *)
Lemma extend_loop_out (n : Z) (fuel : nat) :
  forall ring p ro rs consumed,
    extend_loop fuel ring (more_output p n) ro rs consumed
    = extend_loop fuel ring p ro rs consumed.
Proof.
  induction fuel as [|fuel IH]; intros ring p ro rs consumed;
    cbn [extend_loop]; [reflexivity|].
  cbn [more_output in_size in_mem in_buffer].
  destruct (consumed >=? in_size p); [reflexivity|].
  destruct (negb _); [reflexivity | apply IH].
Qed.

Lemma find_sequence_loop_out (n : Z) (fuel : nat) :
  forall k ring p v,
    find_sequence_loop fuel k ring (more_output p n) v
    = find_sequence_loop fuel k ring p v.
Proof.
  induction fuel as [|fuel IH]; intros k ring p v;
    cbn [find_sequence_loop]; [reflexivity|].
  assert (Hs : forall v', search_start k ring (more_output p n) v'
                          = search_start k ring p v') by reflexivity.
  assert (Hm : forall v', extend_match ring (more_output p n) v'
                          = extend_match ring p v').
  { intros v'. unfold extend_match. rewrite extend_loop_out. reflexivity. }
  destruct (fs_read_size v =? 0).
  - rewrite Hs. destruct (search_start k ring p v) as [[v1|v1|v1]|];
      cbn [obind]; try reflexivity.
    + apply IH.
    + rewrite Hm. destruct (extend_match ring p v1) as [stalled v2].
      destruct stalled; [reflexivity | apply IH].
  - rewrite Hm. destruct (extend_match ring p v) as [stalled v2].
    destruct stalled; [reflexivity | apply IH].
Qed.

Lemma find_sequence_more (n : Z) (c : GKeyComp) (p : GKeyParameters) :
  find_sequence c (more_output p n)
  = match find_sequence c p with
    | Some (found, c', p') => Some (found, c', more_output p' n)
    | None => None
    end.
Proof.
  unfold find_sequence. rewrite find_sequence_loop_out.
  destruct (find_sequence_loop _ _ _ _ _) as [v|]; cbn [obind];
    [|reflexivity].
  destruct (fs_best_read_size v >=? fs_max_read_size v); reflexivity.
Qed.

Ltac wb_room c p n bits extra Hbuf Hex :=
  let E := fresh "Ewb" in
  let S := fresh "Swb" in
  let Hw := fresh "Hw" in
  pose proof (write_bits_frame c p n bits (proj1 Hbuf)) as Hw;
  destruct (write_bits c p n bits) as [[?ok ?c1] ?p1] eqn:E;
  cbn [fst snd] in Hw;
  rewrite (write_bits_room _ _ _ _ extra _ _ _ (out_buffered_size p Hbuf)
             Hex E);
  destruct (write_bits_shape c p n bits)
    as (?ok' & ?ot & ?a & ?nb & ?mem & ?ob & ?os & S & _);
  rewrite E in S; injection S as ?Eok ?Ec1 ?Ep1.

Lemma case_PutSize_room flush (n : Z) c p r :
  out_buffered p -> 0 <= n ->
  case_PutSize GKeyStatus_OK true c p = Some r ->
  comp_resumed flush n r (case_PutSize GKeyStatus_OK true c (more_output p n)).
Proof.
  intros Hbuf Hn. unfold case_PutSize.
  wb_room c p (GKey_get_read_size_bits (history_log_2 c) (read_offset c))
    (read_size c) n Hbuf Hn.
  destruct ok.
  - destruct (RingBuffer_copy _ _ _ _ _) as [[[ring u] copied]|];
      cbn [obind]; [|discriminate].
    intros H. injection H as <-. reflexivity.
  - intros H. injection H as <-. unfold comp_resumed.
    cbn [p_status p_state p_comp p_params switch].
    intros r' H. left. unfold case_PutSize in H. subst c1. exact H.
Qed.

Lemma case_PutOffset_room flush (n : Z) c p r :
  out_buffered p -> 0 <= n ->
  case_PutOffset GKeyStatus_OK true c p = Some r ->
  comp_resumed flush n r
    (case_PutOffset GKeyStatus_OK true c (more_output p n)).
Proof.
  intros Hbuf Hn. unfold case_PutOffset.
  wb_room c p (history_log_2 c + 1)
    (Z.lor (ulong (Z.shiftl (read_offset c) 1)) 1) n Hbuf Hn.
  destruct ok.
  - apply case_PutSize_room; [|exact Hn].
    apply (framed_buffered p); assumption.
  - intros H. injection H as <-. unfold comp_resumed.
    cbn [p_status p_state p_comp p_params switch].
    intros r' H. left. unfold case_PutOffset in H. subst c1. exact H.
Qed.

Lemma case_FindSequence_room flush st (n : Z) c p r :
  out_buffered p -> 0 <= n ->
  case_FindSequence flush st GKeyStatus_OK true c p = Some r ->
  comp_resumed flush n r
    (case_FindSequence flush st GKeyStatus_OK true c (more_output p n)).
Proof.
  intros Hbuf Hn. unfold case_FindSequence.
  assert (Hfs : forall found c1 p1,
             (if flush then Some (true, c, p) else find_sequence c p)
             = Some (found, c1, p1) ->
             (if flush then Some (true, c, more_output p n)
              else find_sequence c (more_output p n))
             = Some (found, c1, more_output p1 n)
             /\ out_buffered p1).
  { intros found c1 p1. destruct flush.
    - intros H. injection H as <- <- <-. split; [reflexivity | exact Hbuf].
    - intros H. rewrite find_sequence_more, H. split; [reflexivity|].
      apply (framed_buffered p); [exact Hbuf|].
      apply (find_sequence_frame c p found c1 p1 (proj1 Hbuf) H). }
  destruct (if flush then Some (true, c, p) else find_sequence c p)
    as [[[found c1] p1]|]; [|discriminate].
  destruct (Hfs found c1 p1 eq_refl) as [Hmore Hbuf1]. rewrite Hmore.
  cbn [obind].
  destruct found.
  2:{ intros H. injection H as <-. reflexivity. }
  destruct (read_size c1 =? 0).
  - cbn [more_output in_size].
    destruct (in_size p1 >? 0); [|destruct flush];
      intros H; injection H as <-; reflexivity.
  - cbv zeta. destruct (_ <? _).
    + intros H; injection H as <-; reflexivity.
    + apply case_PutOffset_room; assumption.
Qed.

Lemma case_Progress_room flush st (n : Z) c p r :
  out_buffered p -> 0 <= n ->
  case_Progress flush st GKeyStatus_OK true c p = Some r ->
  comp_resumed flush n r
    (case_Progress flush st GKeyStatus_OK true c (more_output p n)).
Proof.
  intros Hbuf Hn. unfold case_Progress. cbn [more_output prog_cb].
  destruct (prog_cb p) as [cb|];
    [destruct (cb (in_total c) (out_total c))|];
    try (apply case_FindSequence_room; assumption).
  intros H. injection H as <-. reflexivity.
Qed.

Lemma case_PutByte_room flush (n : Z) c p r :
  out_buffered p -> 0 <= n ->
  case_PutByte GKeyStatus_OK true c p = Some r ->
  comp_resumed flush n r (case_PutByte GKeyStatus_OK true c (more_output p n)).
Proof.
  intros Hbuf Hn. unfold case_PutByte. cbv zeta.
  cbn [more_output in_mem in_buffer].
  wb_room c p (CHAR_BIT + 1)
    (Z.shiftl (byte.unsigned (mem_load (in_mem p) (in_buffer p))) 1) n
    Hbuf Hn.
  destruct ok.
  - cbn [more_output in_mem in_buffer in_size out_mem out_buffer out_size
         prog_cb].
    destruct (RingBuffer_write _ _ _) as [ring|]; cbn [obind];
      [|discriminate].
    intros H. injection H as <-. reflexivity.
  - intros H. injection H as <-. unfold comp_resumed.
    cbn [p_status p_state p_comp p_params switch].
    intros r' H. left. unfold case_PutByte in H. cbv zeta in H.
    subst p1. cbn [more_output in_mem in_buffer] in H |- *. exact H.
Qed.

Lemma case_Flush_room flush (n : Z) c p r :
  out_buffered p -> 0 <= n ->
  case_Flush GKeyStatus_OK true c p = Some r ->
  comp_resumed flush n r (case_Flush GKeyStatus_OK true c (more_output p n)).
Proof.
  intros Hbuf Hn. unfold case_Flush.
  wb_room c p UINT_MAX 0 n Hbuf Hn.
  destruct ok.
  - intros H. injection H as <-. reflexivity.
  - intros H. injection H as <-. unfold comp_resumed.
    cbn [p_status p_state p_comp p_params switch].
    intros r' H. left. unfold case_Flush in H. exact H.
Qed.

Lemma case_PutBytes_room (k : Z) flush (n : Z) c p r :
  ring_wf k (history c) -> copy_range_ok k (read_offset c) (read_size c) ->
  out_buffered p -> 0 <= n ->
  case_PutBytes GKeyStatus_OK true c p = Some r ->
  comp_resumed flush n r (case_PutBytes GKeyStatus_OK true c (more_output p n)).
Proof.
  intros Hwf (Hr1 & Hr2 & Hr3) Hbuf Hn.
  pose proof Hwf as (Hk0 & Hsz & _).
  unfold case_PutBytes.
  rewrite !(RingBuffer_copy_spec k (fun _ => True))
    by (try assumption; try exact I; try lia;
        apply comp_ring_writer_sequential).
  cbn [cb_or_all ring_writer].
  set (W := ring_window (history c) (read_offset c) (read_size c)).
  assert (HlW : Z.of_nat (length W) = read_size c).
  { unfold W. rewrite length_ring_window. lia. }
  destruct (ring_writer_loop c p W 0) as [[c1 p1] m] eqn:E.
  destruct (ring_writer_loop_shape W c p 0)
    as (ot & a & nb & mem & ob & os & m' & S & Hm).
  rewrite E in S. injection S as Ec1 Ep1 Em. subst m'.
  rewrite HlW in Hm.
  rewrite (ring_writer_loop_room n W Hn c p 0 c1 p1 m Hbuf E).
  rewrite Z.sub_0_r, HlW.
  cbn [obind].
  replace (read_size (set_history c1 _)) with (read_size c)
    by (subst c1; reflexivity).
  destruct (Z.ltb_spec m (read_size c)) as [Hshort|Hall].
  - (* the callback stopped short *)
    destruct (Z.geb_spec m (read_size c)) as [Habs|_]; [lia|].
    intros H. injection H as <-. unfold comp_resumed.
    cbn [p_status p_state p_comp p_params switch].
    set (R1 := ring_append (history c) (firstn (Z.to_nat m) W)).
    assert (HlenW : length (firstn (Z.to_nat m) W) = Z.to_nat m).
    { rewrite length_firstn. lia. }
    assert (Hwf1 : ring_wf k R1) by (apply ring_append_wf, Hwf).
    assert (Hsz1 : size R1 = size (history c)) by apply ring_append_size.
    assert (HW1 : ring_window R1 (read_offset c) (read_size c - m)
                  = skipn (Z.to_nat m) W).
    { unfold R1. rewrite (window_after_append k) by (try assumption; lia).
      rewrite HlenW, Z2Nat.id by lia.
      unfold W. rewrite skipn_ring_window by lia. reflexivity. }
    unfold case_PutBytes.
    cbn [history read_offset read_size set_read_size set_history].
    replace (read_offset c1) with (read_offset c) by (subst c1; reflexivity).
    rewrite (RingBuffer_copy_spec k (fun _ => True))
      by (try assumption; try exact I; try lia;
          apply comp_ring_writer_sequential).
    cbn [cb_or_all ring_writer]. rewrite HW1.
    rewrite (ring_writer_loop_map
               (fun c0 => set_read_size (set_history c0 R1)
                            (read_size c - m)))
      by (intros c0; repeat split).
    rewrite (ring_writer_loop_from (skipn (Z.to_nat m) W) c1
               (more_output p1 n) m).
    destruct (ring_writer_loop c1 (more_output p1 n) (skipn (Z.to_nat m) W)
                0) as [[c2 p2] m2] eqn:E2.
    destruct (ring_writer_loop_shape (skipn (Z.to_nat m) W) c1
                (more_output p1 n) 0)
      as (ot2 & a2 & nb2 & mem2 & ob2 & os2 & m2' & S2 & Hm2).
    rewrite E2 in S2. injection S2 as Ec2 Ep2 Em2. subst m2'.
    rewrite length_skipn in Hm2.
    cbn [obind set_history set_read_size read_size].
    assert (HR : ring_append R1 (firstn (Z.to_nat m2) (skipn (Z.to_nat m) W))
                 = ring_append (history c) (firstn (Z.to_nat (m + m2)) W)).
    { unfold R1. rewrite <- ring_append_app.
      replace (Z.to_nat (m + m2)) with (Z.to_nat m + Z.to_nat m2)%nat by lia.
      rewrite firstn_add. reflexivity. }
    rewrite HR.
    replace (read_size c2) with (read_size c) by (subst c2 c1; reflexivity).
    intros r' H.
    destruct (Z.geb_spec m2 (read_size c - m)) as [Hdone|Hagain].
    + destruct (Z.geb_spec (m + m2) (read_size c)) as [_|Habs]; [|lia].
      injection H as <-. right.
      split; [reflexivity|]. split; [reflexivity|]. split; [reflexivity|].
      exists (read_size c). subst c2 c1. reflexivity.
    + destruct (Z.geb_spec (m + m2) (read_size c)) as [Habs|_]; [lia|].
      injection H as <-. left.
      replace (read_size c - (m + m2)) with (read_size c - m - m2) by lia.
      subst c2 c1. reflexivity.
  - (* the callback took the whole range *)
    cbn [obind set_history read_size].
    replace (read_size c1) with (read_size c) by (subst c1; reflexivity).
    destruct (Z.geb_spec m (read_size c)) as [_|Habs]; [|lia].
    intros H. injection H as <-. reflexivity.
Qed.

(** One pass with more room behind the output window. *)
Lemma switch_room (k : Z) flush st (n : Z) c p r :
  comp_ok k st c p -> out_buffered p -> 0 <= n ->
  switch flush st GKeyStatus_OK true c p = Some r ->
  comp_resumed flush n r
    (switch flush st GKeyStatus_OK true c (more_output p n)).
Proof.
  intros Hok Hbuf Hn.
  pose proof Hok as (Hk & Hkmax & Hwf & Hin & Hst).
  destruct st; cbn [switch].
  - unfold case_NextSequence. apply case_Progress_room; assumption.
  - apply case_Progress_room; assumption.
  - apply case_FindSequence_room; assumption.
  - apply case_PutOffset_room; assumption.
  - apply case_PutSize_room; assumption.
  - apply case_PutByte_room; assumption.
  - apply (case_PutBytes_room k); assumption.
  - apply case_Flush_room; assumption.
Qed.

(** The field [state] of the compressor is not read by a pass. *)
Lemma find_sequence_state (s : GKeyCompState) c p :
  find_sequence (set_state c s) p
  = match find_sequence c p with
    | Some (found, c', p') => Some (found, set_state c' s, p')
    | None => None
    end.
Proof.
  unfold find_sequence.
  cbn [set_state history_log_2 read_offset read_size max_read_size
       best_read_size best_read_offset history in_total].
  destruct (find_sequence_loop _ _ _ _ _) as [v|]; cbn [obind];
    [|reflexivity].
  destruct (fs_best_read_size v >=? fs_max_read_size v); reflexivity.
Qed.

Ltac wb_state c s p n bits :=
  rewrite (write_bits_map (fun c0 => set_state c0 s) c p n bits
             (blind_set_state s));
  destruct (write_bits c p n bits) as [[?ok ?c1] ?p1].

Lemma case_PutSize_state (s : GKeyCompState) status input c p :
  case_PutSize status input (set_state c s) p
  = option_map (comp_pass_state s) (case_PutSize status input c p).
Proof.
  unfold case_PutSize.
  change (history_log_2 (set_state c s)) with (history_log_2 c).
  change (read_offset (set_state c s)) with (read_offset c).
  change (read_size (set_state c s)) with (read_size c).
  wb_state c s p (GKey_get_read_size_bits (history_log_2 c) (read_offset c))
    (read_size c).
  destruct ok; [|reflexivity].
  change (history (set_state c1 s)) with (history c1).
  change (read_offset (set_state c1 s)) with (read_offset c1).
  change (read_size (set_state c1 s)) with (read_size c1).
  destruct (RingBuffer_copy _ _ _ _ _) as [[[ring u] copied]|]; reflexivity.
Qed.

Lemma case_PutOffset_state (s : GKeyCompState) status input c p :
  case_PutOffset status input (set_state c s) p
  = option_map (comp_pass_state s) (case_PutOffset status input c p).
Proof.
  unfold case_PutOffset.
  change (history_log_2 (set_state c s)) with (history_log_2 c).
  change (read_offset (set_state c s)) with (read_offset c).
  wb_state c s p (history_log_2 c + 1)
    (Z.lor (ulong (Z.shiftl (read_offset c) 1)) 1).
  destruct ok; [apply case_PutSize_state | reflexivity].
Qed.

Lemma case_FindSequence_state (s : GKeyCompState) flush st status input c p :
  case_FindSequence flush st status input (set_state c s) p
  = option_map (comp_pass_state s)
      (case_FindSequence flush st status input c p).
Proof.
  unfold case_FindSequence.
  assert (Hfs : (if flush then Some (true, set_state c s, p)
                 else find_sequence (set_state c s) p)
                = match (if flush then Some (true, c, p)
                         else find_sequence c p) with
                  | Some (found, c', p') => Some (found, set_state c' s, p')
                  | None => None
                  end).
  { destruct flush; [reflexivity | apply find_sequence_state]. }
  rewrite Hfs.
  destruct (if flush then Some (true, c, p) else find_sequence c p)
    as [[[found c1] p1]|]; cbn [obind]; [|reflexivity].
  destruct found; [|reflexivity].
  change (read_size (set_state c1 s)) with (read_size c1).
  change (history_log_2 (set_state c1 s)) with (history_log_2 c1).
  change (read_offset (set_state c1 s)) with (read_offset c1).
  destruct (read_size c1 =? 0).
  - destruct (in_size p1 >? 0); [|destruct flush]; reflexivity.
  - cbv zeta. destruct (_ <? _); [reflexivity|].
    apply case_PutOffset_state.
Qed.

Lemma case_Progress_state_comp (s : GKeyCompState) flush st status input c
    p :
  case_Progress flush st status input (set_state c s) p
  = option_map (comp_pass_state s) (case_Progress flush st status input c p).
Proof.
  unfold case_Progress.
  change (in_total (set_state c s)) with (in_total c).
  change (out_total (set_state c s)) with (out_total c).
  destruct (prog_cb p) as [cb|];
    [destruct (cb (in_total c) (out_total c))|];
    try apply case_FindSequence_state.
  reflexivity.
Qed.

Lemma case_PutByte_state_comp (s : GKeyCompState) status input c p :
  case_PutByte status input (set_state c s) p
  = option_map (comp_pass_state s) (case_PutByte status input c p).
Proof.
  unfold case_PutByte. cbv zeta.
  wb_state c s p (CHAR_BIT + 1)
    (Z.shiftl (byte.unsigned (mem_load (in_mem p) (in_buffer p))) 1).
  destruct ok; [|reflexivity].
  change (history (set_state c1 s)) with (history c1).
  destruct (RingBuffer_write _ _ _) as [ring|]; reflexivity.
Qed.

Lemma case_PutBytes_state (s : GKeyCompState) status input c p :
  case_PutBytes status input (set_state c s) p
  = option_map (comp_pass_state s) (case_PutBytes status input c p).
Proof.
  unfold case_PutBytes, RingBuffer_copy.
  cbn [set_state history read_offset read_size].
  pose proof (copy_loop_map
                (fun st : GKeyComp * GKeyParameters =>
                   (set_state (fst st) s, snd st))
                ring_writer (read_offset c) (read_size c)) as Hmap.
  specialize (Hmap ltac:(intros [c0 p0] l; cbn [fst snd ring_writer];
                         rewrite (ring_writer_loop_map
                                    (fun c1 => set_state c1 s) l
                                    (blind_set_state s));
                         destruct (ring_writer_loop c0 p0 l 0)
                           as [[c2 p2] m]; reflexivity)
                (S (Z.to_nat (read_size c))) (history c) (c, p) 0 0 0).
  cbv beta in Hmap. cbn [fst snd] in Hmap. rewrite Hmap. clear Hmap.
  destruct (RingBuffer_copy_loop _ _ _ _ _ _ _ _ _)
    as [[[ring [c1 p1]] copied]|]; cbn [obind fst snd]; [|reflexivity].
  cbn [set_state set_history read_size].
  destruct (copied >=? _); reflexivity.
Qed.

Lemma case_Flush_state (s : GKeyCompState) status input c p :
  case_Flush status input (set_state c s) p
  = option_map (comp_pass_state s) (case_Flush status input c p).
Proof.
  unfold case_Flush.
  wb_state c s p UINT_MAX 0.
  destruct ok; reflexivity.
Qed.

Lemma switch_state_comp (s : GKeyCompState) flush st status input c p :
  switch flush st status input (set_state c s) p
  = option_map (comp_pass_state s) (switch flush st status input c p).
Proof.
  destruct st; cbn [switch].
  - unfold case_NextSequence.
    change (clear_sequence (set_state c s))
      with (set_state (clear_sequence c) s).
    apply case_Progress_state_comp.
  - apply case_Progress_state_comp.
  - apply case_FindSequence_state.
  - apply case_PutOffset_state.
  - apply case_PutSize_state.
  - apply case_PutByte_state_comp.
  - apply case_PutBytes_state.
  - apply case_Flush_state.
Qed.

Lemma compress_loop_state (s : GKeyCompState) (fuel : nat) :
  forall flush st c p,
    compress_loop fuel flush st (set_state c s) p
    = option_map (comp_pass_state s) (compress_loop fuel flush st c p).
Proof.
  induction fuel as [|fuel IH]; intros flush st c p; cbn [compress_loop];
    [reflexivity|].
  rewrite switch_state_comp.
  destruct (switch flush st GKeyStatus_OK true c p) as [r|];
    cbn [option_map obind]; [|reflexivity].
  cbn [comp_pass_state p_status p_input p_state p_comp p_params].
  destruct (GKeyStatus_eqb (p_status r) GKeyStatus_OK && p_input r);
    [apply IH | reflexivity].
Qed.

(** The case [NextSequence] clears the field [read_size]. *)
Lemma compress_loop_cleared (x : Z) (fuel : nat) flush c p :
  compress_loop fuel flush GKeyCompState_NextSequence (set_read_size c x) p
  = compress_loop fuel flush GKeyCompState_NextSequence c p.
Proof. destruct fuel; reflexivity. Qed.

(** More fuel does not change the result of the loop. *)
Lemma compress_loop_mono (f : nat) :
  forall flush st c p r f',
    compress_loop f flush st c p = Some r -> (f <= f')%nat ->
    compress_loop f' flush st c p = Some r.
Proof.
  induction f as [|f IH]; intros flush st c p r f' Hrun Hle;
    cbn [compress_loop] in Hrun; [discriminate|].
  destruct f' as [|f']; [lia|]. cbn [compress_loop].
  destruct (switch flush st GKeyStatus_OK true c p) as [r0|];
    cbn [obind] in *; [|discriminate].
  destruct (GKeyStatus_eqb (p_status r0) GKeyStatus_OK && p_input r0);
    [|exact Hrun].
  apply (IH _ _ _ _ _ f' Hrun). lia.
Qed.

Lemma comp_ok_more (k : Z) st c p (n : Z) :
  comp_ok k st c p -> comp_ok k st c (more_output p n).
Proof. intros H. exact H. Qed.

(** The loop with more room: a run that did not stop for want of room is
    the same run, and a run that did is continued by the loop started from
    where it stopped. *)
Lemma compress_loop_room (k : Z) (flush : bool) (n : Z) (fuel : nat) :
  0 <= n ->
  forall st c p r,
    comp_ok k st c p -> out_buffered p -> (flush = true -> in_size p = 0) ->
    compress_loop fuel flush st c p = Some r ->
    match p_status r with
    | GKeyStatus_BufferOverflow =>
        forall f2 r2,
          compress_loop f2 flush (p_state r) (p_comp r)
            (more_output (p_params r) n) = Some r2 ->
          compress_loop (fuel + f2) flush st c (more_output p n) = Some r2
    | _ =>
        compress_loop fuel flush st c (more_output p n)
        = Some (comp_pass_more n r)
    end.
Proof.
  intros Hn.
  induction fuel as [|fuel IH]; intros st c p r Hok Hbuf Hflush Hrun;
    cbn [compress_loop] in Hrun; [discriminate|].
  destruct (switch_total k flush st c p Hok Hflush)
    as (r0 & E & Hok0 & Hle & _).
  rewrite E in Hrun. cbn [obind] in Hrun.
  pose proof (switch_room k flush st n c p r0 Hok Hbuf Hn E) as Hres.
  assert (Hbuf0 : out_buffered (p_params r0)).
  { apply (framed_buffered p); [exact Hbuf|].
    apply (switch_frame_comp flush st GKeyStatus_OK true c p r0);
      [apply Hbuf | exact E]. }
  assert (Hflush0 : flush = true -> in_size (p_params r0) = 0).
  { intros Hf. specialize (Hflush Hf).
    pose proof Hok0 as (_ & _ & _ & (_ & Hi2 & _) & _). lia. }
  unfold comp_resumed in Hres.
  destruct (GKeyStatus_eqb (p_status r0) GKeyStatus_OK && p_input r0)
    eqn:Hgo.
  - apply andb_prop in Hgo as [Hs Hi].
    assert (Hs' : p_status r0 = GKeyStatus_OK)
      by (destruct (p_status r0); try discriminate; reflexivity).
    rewrite Hs' in Hres.
    pose proof (IH _ _ _ _ Hok0 Hbuf0 Hflush0 Hrun) as Hrec.
    assert (Hstep : forall f x,
               compress_loop f flush (p_state r0) (p_comp r0)
                 (more_output (p_params r0) n) = x ->
               compress_loop (S f) flush st c (more_output p n) = x).
    { intros f x Hx. cbn [compress_loop]. rewrite Hres. cbn [obind].
      cbn [comp_pass_more p_status p_input p_state p_comp p_params].
      rewrite Hs', Hi. exact Hx. }
    destruct (p_status r); try (apply Hstep; exact Hrec).
    intros f2 r2 H2. cbn [Nat.add]. apply Hstep, Hrec, H2.
  - injection Hrun as <-.
    assert (Hstop : forall x,
               switch flush st GKeyStatus_OK true c (more_output p n)
               = Some (comp_pass_more n r0) ->
               x = p_status r0 ->
               compress_loop (S fuel) flush st c (more_output p n)
               = Some (comp_pass_more n r0)).
    { intros x Hx _. cbn [compress_loop]. rewrite Hx. cbn [obind].
      cbn [comp_pass_more p_status p_input p_state p_comp p_params].
      rewrite Hgo. reflexivity. }
    destruct (p_status r0) eqn:Hs;
      try (eapply Hstop; [exact Hres | reflexivity]).
    intros f2 r2 H2.
    destruct f2 as [|f2]; [discriminate|]. cbn [compress_loop] in H2.
    destruct (switch flush (p_state r0) GKeyStatus_OK true (p_comp r0)
                (more_output (p_params r0) n)) as [r'|] eqn:E';
      [|discriminate].
    cbn [obind] in H2.
    destruct (Hres r' eq_refl) as [Hsame | (Hs1 & Hi1 & Hst1 & x & Hx)].
    + apply (compress_loop_mono (S f2)); [|lia].
      cbn [compress_loop]. rewrite Hsame. cbn [obind]. exact H2.
    + rewrite Hs1, Hi1 in H2. cbn [GKeyStatus_eqb andb] in H2.
      apply (compress_loop_mono (S f2)); [|lia].
      cbn [compress_loop]. rewrite Hx. cbn [obind].
      cbn [comp_pass_size p_status p_input p_state p_comp p_params].
      rewrite Hs1, Hi1. cbn [GKeyStatus_eqb andb].
      rewrite Hst1 in H2 |- *.
      rewrite compress_loop_cleared. exact H2.
Qed.

(** X24: output in parts.  When a call of the compressor stops for want of
    room in the output buffer, the window it leaves is empty, and calling
    again with [n] more bytes of room (and as before with or without input)
    gives what the first call would have given with that room from the
    start; a call that stops for another reason gives the same result with
    that room, which it leaves unused. *)
Theorem compress_resumes (k n : Z) (c : GKeyComp) (p : GKeyParameters)
    (s1 : GKeyStatus) (c1 : GKeyComp) (p1 : GKeyParameters) :
  comp_wf k c p -> out_buffered p -> 0 <= n ->
  gkeycomp_compress c p = Some (s1, c1, p1) ->
  match s1 with
  | GKeyStatus_BufferOverflow =>
      out_size p1 = 0
      /\ ((in_size p1 =? 0) = (in_size p =? 0) ->
          gkeycomp_compress c1 (more_output p1 n)
          = gkeycomp_compress c (more_output p n))
  | _ =>
      gkeycomp_compress c (more_output p n) = Some (s1, c1, more_output p1 n)
  end.
Proof.
  intros Hwf Hbuf Hn Hrun.
  destruct (compress_total k c p Hwf) as (s0 & c0 & p0 & E0 & Hwf1).
  rewrite Hrun in E0. injection E0 as <- <- <-.
  unfold gkeycomp_compress in Hrun. cbv zeta in Hrun.
  destruct (compress_loop (compress_fuel p) (in_size p =? 0) (state c) c p)
    as [r|] eqn:E; [|discriminate].
  cbn [obind] in Hrun. injection Hrun as <- <- <-.
  assert (Hflush : (in_size p =? 0) = true -> in_size p = 0)
    by (intros Hz; apply Z.eqb_eq in Hz; exact Hz).
  pose proof (compress_loop_room k (in_size p =? 0) n (compress_fuel p) Hn
                (state c) c p r Hwf Hbuf Hflush E) as Hroom.
  destruct (compress_loop_reason k (in_size p =? 0) (compress_fuel p)
              (state c) c p r Hwf Hflush E) as (_ & Hreason & _).
  unfold comp_reason in Hreason. cbv zeta in Hreason.
  assert (Hsame : forall x,
             compress_loop (compress_fuel p) (in_size p =? 0) (state c) c
               (more_output p n) = Some (comp_pass_more n r) ->
             x = p_status r ->
             gkeycomp_compress c (more_output p n)
             = Some (p_status r, set_state (p_comp r) (p_state r),
                     more_output (p_params r) n)).
  { intros x Hx _. unfold gkeycomp_compress. cbv zeta.
    change (compress_fuel (more_output p n)) with (compress_fuel p).
    change (in_size (more_output p n)) with (in_size p).
    rewrite Hx. reflexivity. }
  destruct (p_status r) eqn:Hs;
    try (eapply Hsame; [exact Hroom | reflexivity]).
  destruct Hreason as (_ & Hos & _). split; [exact Hos|].
  intros Hfl.
  destruct (compress_total k c (more_output p n) (comp_ok_more k _ c p n Hwf))
    as (sa & ca & pa & Ea & _).
  destruct (compress_total k (set_state (p_comp r) (p_state r))
              (more_output (p_params r) n)
              (comp_ok_more k _ _ _ n Hwf1))
    as (sb & cb & pb & Eb & _).
  rewrite Ea, Eb.
  unfold gkeycomp_compress in Ea, Eb. cbv zeta in Ea, Eb.
  change (compress_fuel (more_output p n)) with (compress_fuel p) in Ea.
  change (in_size (more_output p n)) with (in_size p) in Ea.
  change (in_size (more_output (p_params r) n))
    with (in_size (p_params r)) in Eb.
  rewrite Hfl in Eb.
  change (state (set_state (p_comp r) (p_state r))) with (p_state r) in Eb.
  rewrite compress_loop_state in Eb.
  destruct (compress_loop _ _ (state c) c (more_output p n)) as [ra|] eqn:La;
    [|discriminate].
  destruct (compress_loop _ _ (p_state r) (p_comp r) _) as [rb|] eqn:Lb;
    [|discriminate].
  cbn [option_map obind] in Ea, Eb.
  pose proof (Hroom _ _ Lb) as Hlong.
  apply (compress_loop_mono _ _ _ _ _ _
           (compress_fuel p
            + compress_fuel (more_output (p_params r) n))%nat) in La;
    [|lia].
  rewrite La in Hlong. injection Hlong as ->.
  rewrite <- Ea, <- Eb. reflexivity.
Qed.

Lemma compress_resumes_witness :
  exists c' p',
    gkeycomp_compress (gkeycomp_make 2) (stream_params [Byte.x61; Byte.x62] 0)
    = Some (GKeyStatus_BufferOverflow, c', p')
    /\ in_size p' = 1
    /\ gkeycomp_compress c' (more_output p' 3)
       = gkeycomp_compress (gkeycomp_make 2)
           (more_output (stream_params [Byte.x61; Byte.x62] 0) 3).
Proof.
  assert (Hk : 0 <= 2 <= MaxHistoryLog2)
    by (unfold MaxHistoryLog2, ULongMinBit, CHAR_BIT; lia).
  destruct (stream_params_ok [Byte.x61; Byte.x62] 0 ltac:(lia)) as [Hin Hout].
  assert (Hbuf : out_buffered (stream_params [Byte.x61; Byte.x62] 0)).
  { split; [exact Hout|]. exists 0. reflexivity. }
  eexists _, _. split; [vm_compute; reflexivity|]. split; [reflexivity|].
  refine (proj2 (compress_resumes 2 3 (gkeycomp_make 2)
                   (stream_params [Byte.x61; Byte.x62] 0)
                   GKeyStatus_BufferOverflow _ _
                   (comp_make_wf 2 _ Hk Hin) Hbuf ltac:(lia) _) _);
    [vm_compute; reflexivity | reflexivity].
Defined.

End EncoderResume.



(** ** Measuring calls *)

Section Measure.

Lemma length_mem_read_le (m : list byte) (pos n : Z) :
  Z.of_nat (length (mem_read m pos n)) <= Z.max 0 n.
Proof.
  unfold mem_read. rewrite length_firstn. lia.
Qed.

(** The copy loop under a change [f] of the callback's argument that the
    callback does not see as long as it accepts whole ranges: a copy that
    was not truncated is the same copy. *)
Lemma copy_loop_whole {St : Type} (P : St -> Prop) (f : St -> St)
    (cb : St -> list byte -> St * Z) (off n : Z) :
  (forall st l,
     P st ->
     P (fst (cb st l)) /\ 0 <= snd (cb st l) <= Z.of_nat (length l)
     /\ (snd (cb st l) = Z.of_nat (length l) ->
         cb (f st) l = (f (fst (cb st l)), snd (cb st l)))) ->
  forall fuel r st copied to_copy total r' st' m,
    P st ->
    RingBuffer_copy_loop fuel (Some cb) off n r st copied to_copy total
    = Some (r', st', m) ->
    n <= m ->
    RingBuffer_copy_loop fuel (Some cb) off n r (f st) copied to_copy total
    = Some (r', f st', m) /\ P st'.
Proof.
  intros Hcb. induction fuel as [|fuel IH];
    intros r st copied to_copy total r' st' m HP Hrun Hfull;
    cbn [RingBuffer_copy_loop] in Hrun |- *;
    destruct ((total <? n) && (copied >=? to_copy)) eqn:Hgo;
    try discriminate;
    try (injection Hrun as <- <- <-; split; [reflexivity | exact HP]).
  apply andb_prop in Hgo as [Hlt _]. apply Z.ltb_lt in Hlt.
  set (read_pos := Z.land (write_pos r + off) (size r - 1)) in *.
  set (tc := if size r - read_pos >? n - total then n - total
             else size r - read_pos) in *.
  assert (Htc : tc <= n - total).
  { subst tc. destruct (size r - read_pos >? n - total) eqn:Hc; lia. }
  pose proof (length_mem_read_le (buffer r) read_pos tc) as Hlen.
  destruct (Hcb st (mem_read (buffer r) read_pos tc) HP)
    as (HP1 & Hrange & Hsame).
  destruct (cb st (mem_read (buffer r) read_pos tc)) as [st1 copied1] eqn:Ecb.
  cbn [fst snd] in HP1, Hrange, Hsame.
  destruct (RingBuffer_write r (SrcRing read_pos) copied1) as [r1|] eqn:Ew;
    cbn [obind] in Hrun; [|discriminate].
  destruct (Z.eq_dec copied1
              (Z.of_nat (length (mem_read (buffer r) read_pos tc))))
    as [Heq | Hne].
  - rewrite (Hsame Heq). rewrite Ew. cbn [obind].
    apply (IH _ _ _ _ _ _ _ _ HP1 Hrun Hfull).
  - exfalso.
    assert (Hshort : copied1 < tc) by lia.
    destruct fuel as [|fuel']; cbn [RingBuffer_copy_loop] in Hrun.
    + assert (Hc : (copied1 >=? tc) = false) by lia.
      rewrite Hc, andb_false_r in Hrun. injection Hrun as _ _ <-. lia.
    + assert (Hc : (copied1 >=? tc) = false) by lia.
      rewrite Hc, andb_false_r in Hrun. injection Hrun as _ _ <-. lia.
Qed.

End Measure.

Section DecoderMeasure.

Import GKeyDecomp.

Lemma ring_writer_measure (m : list byte) (total : Z)
    (st : GKeyDecomp * GKeyParameters) (l : list byte) :
  out_buffered (snd st) ->
  out_buffered (snd (fst (ring_writer st l)))
  /\ 0 <= snd (ring_writer st l) <= Z.of_nat (length l)
  /\ (snd (ring_writer st l) = Z.of_nat (length l) ->
      ring_writer (fst st, measure m total (snd st)) l
      = ((fst (fst (ring_writer st l)),
          measure m total (snd (fst (ring_writer st l)))),
         snd (ring_writer st l))).
Proof.
  destruct st as [d p]. cbn [fst snd]. intros Hbuf.
  split; [|split].
  - apply (framed_buffered p); [exact Hbuf|].
    apply ring_writer_frame, Hbuf.
  - pose proof (out_buffered_size p Hbuf) as Hos.
    destruct Hbuf as [_ [ob Hob]].
    unfold ring_writer. rewrite Hob. cbn [snd].
    destruct (out_size p <? Z.of_nat (length l)) eqn:Hc; lia.
  - destruct Hbuf as [_ [ob Hob]].
    unfold ring_writer, measure, unbuffered.
    cbn [out_buffer out_size out_mem in_mem in_buffer in_size prog_cb].
    rewrite Hob. cbn [fst snd].
    destruct (out_size p <? Z.of_nat (length l)) eqn:Hc.
    + intros Hn. lia.
    + intros _.
      cbn [out_buffer out_size out_mem in_mem in_buffer in_size prog_cb].
      replace (total - out_size p + Z.of_nat (length l))
        with (total - (out_size p - Z.of_nat (length l))) by lia.
      reflexivity.
Qed.

Lemma read_bits_measure (m : list byte) (total : Z) (d : GKeyDecomp)
    (p : GKeyParameters) (n : Z) :
  read_bits d (measure m total p) n
  = let '(ok, out, d', p') := read_bits d p n in
    (ok, out, d', measure m total p').
Proof.
  unfold read_bits, measure, unbuffered.
  cbn [in_mem in_buffer in_size out_mem out_buffer out_size prog_cb].
  destruct (read_bits_loop _ _ _ _ _ _ _ _)
    as [ok [[[[ib isz] it] a] nb]].
  destruct (nb >=? n); reflexivity.
Qed.

Lemma read_bits_buffered (d : GKeyDecomp) (p : GKeyParameters) (n : Z) :
  out_buffered p -> out_buffered (snd (read_bits d p n)).
Proof.
  intros Hbuf.
  destruct (read_bits_shape d p n)
    as (ok & out & ib & isz & it & a & nb & S & _).
  rewrite S. cbn [snd]. exact Hbuf.
Qed.

Ltac rb_measure m total d p n Hbuf :=
  let Hb := fresh "Hb" in
  pose proof (read_bits_buffered d p n Hbuf) as Hb;
  rewrite (read_bits_measure m total d p n);
  destruct (read_bits d p n) as [[[?ok ?bits] ?d1] ?p1];
  cbn [snd] in Hb.

Lemma case_CopyData_measure (m : list byte) (total : Z) status stop d p r :
  out_buffered p ->
  case_CopyData status stop d p = Some r ->
  p_status r <> GKeyStatus_BufferOverflow ->
  case_CopyData status stop d (measure m total p)
  = Some (decomp_pass_measure m total r).
Proof.
  intros Hbuf. unfold case_CopyData, RingBuffer_copy.
  destruct (RingBuffer_copy_loop _ _ _ _ _ _ _ _ _)
    as [[[ring [d1 p1]] copied]|] eqn:E; cbn [obind]; [|discriminate].
  pose proof (copy_loop_whole
                (fun st : GKeyDecomp * GKeyParameters =>
                   out_buffered (snd st) /\ read_size (fst st) = read_size d)
                (fun st => (fst st, measure m total (snd st)))
                ring_writer (read_offset d) (read_size d)) as Hwhole.
  specialize (Hwhole ltac:(intros [d0 p0] l [Hb0 Hrs0];
                           destruct (ring_writer_measure m total (d0, p0) l
                                       Hb0) as (Hb1 & Hr1 & Hs1);
                           cbn [fst snd] in *;
                           split; [split; [exact Hb1|]|split; assumption];
                           unfold ring_writer;
                           destruct (out_buffer p0); cbn [fst];
                           exact Hrs0)
                (S (Z.to_nat (read_size d))) (history d) (d, p) 0 0 0
                ring (d1, p1) copied (conj Hbuf eq_refl) E).
  cbn [set_history read_size].
  destruct (copied >=? read_size d1) eqn:Hfull.
  - assert (Hrs : read_size d1 = read_size d).
    { apply (copy_loop_invariant
               (fun st : GKeyDecomp * GKeyParameters =>
                  read_size (fst st) = read_size d)
               (Some ring_writer) (read_offset d) (read_size d)) in E;
        [exact E | | reflexivity].
      intros cb Hcb [d0 p0] l H0. injection Hcb as <-.
      unfold ring_writer. destruct (out_buffer p0); cbn [fst]; exact H0. }
    destruct Hwhole as [Hrun _]; [lia|].
    cbn [fst snd] in Hrun. rewrite Hrun. cbn [obind set_history read_size].
    rewrite Hfull. intros H _. injection H as <-. reflexivity.
  - intros H Hs. injection H as <-. cbn [p_status] in Hs. contradiction.
Qed.

Lemma case_GetSize_measure (m : list byte) (total : Z) status stop d p r :
  out_buffered p ->
  case_GetSize status stop d p = Some r ->
  p_status r <> GKeyStatus_BufferOverflow ->
  case_GetSize status stop d (measure m total p)
  = Some (decomp_pass_measure m total r).
Proof.
  intros Hbuf. unfold case_GetSize.
  rb_measure m total d p
    (GKey_get_read_size_bits (history_log_2 d) (read_offset d)) Hbuf.
  destruct ok.
  - destruct (_ || _).
    + intros H _. injection H as <-. reflexivity.
    + apply case_CopyData_measure, Hb.
  - intros H _. injection H as <-. reflexivity.
Qed.

Lemma case_GetOffset_measure (m : list byte) (total : Z) status stop d p r :
  out_buffered p ->
  case_GetOffset status stop d p = Some r ->
  p_status r <> GKeyStatus_BufferOverflow ->
  case_GetOffset status stop d (measure m total p)
  = Some (decomp_pass_measure m total r).
Proof.
  intros Hbuf. unfold case_GetOffset.
  rb_measure m total d p (history_log_2 d) Hbuf.
  destruct ok.
  - apply case_GetSize_measure, Hb.
  - intros H _. injection H as <-. reflexivity.
Qed.

Lemma case_GetType_measure (m : list byte) (total : Z) status stop d p r :
  out_buffered p ->
  case_GetType status stop d p = Some r ->
  p_status r <> GKeyStatus_BufferOverflow ->
  case_GetType status stop d (measure m total p)
  = Some (decomp_pass_measure m total r).
Proof.
  intros Hbuf. unfold case_GetType.
  rb_measure m total d p 1 Hbuf.
  destruct ok.
  - destruct (negb _).
    + apply case_GetOffset_measure, Hb.
    + intros H _. injection H as <-. reflexivity.
  - intros H _. injection H as <-. reflexivity.
Qed.

Lemma case_Progress_measure (m : list byte) (total : Z) status stop d p r :
  out_buffered p ->
  case_Progress status stop d p = Some r ->
  p_status r <> GKeyStatus_BufferOverflow ->
  case_Progress status stop d (measure m total p)
  = Some (decomp_pass_measure m total r).
Proof.
  intros Hbuf. unfold case_Progress.
  change (prog_cb (measure m total p)) with (prog_cb p).
  destruct (prog_cb p) as [cb|];
    [destruct (cb (in_total d) (out_total d))|];
    try (apply case_GetType_measure, Hbuf).
  intros H _. injection H as <-. reflexivity.
Qed.

Lemma case_PutByte_measure (m : list byte) (total : Z) status stop d p r :
  out_buffered p ->
  case_PutByte status stop d p = Some r ->
  p_status r <> GKeyStatus_BufferOverflow ->
  case_PutByte status stop d (measure m total p)
  = Some (decomp_pass_measure m total r).
Proof.
  intros Hbuf. unfold case_PutByte.
  destruct (ring_writer_measure m total (d, p) [literal d] Hbuf)
    as (_ & _ & Hsame).
  cbn [fst snd] in Hsame.
  destruct (ring_writer (d, p) [literal d]) as [[d1 p1] n] eqn:E.
  cbn [fst snd length] in Hsame.
  destruct (n =? 1) eqn:Hn.
  - apply Z.eqb_eq in Hn. rewrite (Hsame ltac:(lia)).
    subst n. cbn [Z.eqb Pos.eqb].
    destruct (RingBuffer_write _ _ _) as [ring|]; cbn [obind];
      [|discriminate].
    intros H _. injection H as <-. reflexivity.
  - intros H Hs. injection H as <-. cbn [p_status] in Hs. contradiction.
Qed.

Lemma case_GetByte_measure (m : list byte) (total : Z) status stop d p r :
  out_buffered p ->
  case_GetByte status stop d p = Some r ->
  p_status r <> GKeyStatus_BufferOverflow ->
  case_GetByte status stop d (measure m total p)
  = Some (decomp_pass_measure m total r).
Proof.
  intros Hbuf. unfold case_GetByte.
  rb_measure m total d p CHAR_BIT Hbuf.
  destruct ok.
  - apply case_PutByte_measure, Hb.
  - destruct (acc d1 =? 0); intros H _; injection H as <-; reflexivity.
Qed.

Lemma switch_measure (m : list byte) (total : Z) st status stop d p r :
  out_buffered p ->
  switch st status stop d p = Some r ->
  p_status r <> GKeyStatus_BufferOverflow ->
  switch st status stop d (measure m total p)
  = Some (decomp_pass_measure m total r).
Proof.
  intros Hbuf. destruct st; cbn [switch].
  - apply case_Progress_measure, Hbuf.
  - apply case_GetType_measure, Hbuf.
  - apply case_GetOffset_measure, Hbuf.
  - apply case_GetSize_measure, Hbuf.
  - apply case_CopyData_measure, Hbuf.
  - apply case_GetByte_measure, Hbuf.
  - apply case_PutByte_measure, Hbuf.
Qed.

Lemma decompress_loop_measure (m : list byte) (total : Z) (fuel : nat) :
  forall st d p r,
    out_buffered p ->
    decompress_loop fuel st d p = Some r ->
    p_status r <> GKeyStatus_BufferOverflow ->
    decompress_loop fuel st d (measure m total p)
    = Some (decomp_pass_measure m total r).
Proof.
  induction fuel as [|fuel IH]; intros st d p r Hbuf Hrun Hs;
    cbn [decompress_loop] in Hrun |- *; [discriminate|].
  destruct (switch st GKeyStatus_OK false d p) as [r0|] eqn:E;
    cbn [obind] in Hrun; [|discriminate].
  assert (Hb0 : out_buffered (p_params r0)).
  { apply (framed_buffered p); [exact Hbuf|].
    apply (switch_frame st GKeyStatus_OK false d p r0); [apply Hbuf|exact E]. }
  destruct (GKeyStatus_eqb (p_status r0) GKeyStatus_OK && negb (p_stop r0))
    eqn:Hgo.
  - rewrite (switch_measure m total _ _ _ _ _ _ Hbuf E).
    + cbn [obind decomp_pass_measure p_status p_stop p_state p_decomp
           p_params].
      rewrite Hgo. apply (IH _ _ _ _ Hb0 Hrun Hs).
    + apply andb_prop in Hgo as [Hok _].
      destruct (p_status r0); try discriminate; intros H; discriminate.
  - injection Hrun as <-.
    rewrite (switch_measure m total _ _ _ _ _ _ Hbuf E Hs).
    cbn [obind decomp_pass_measure p_status p_stop p_state p_decomp p_params].
    rewrite Hgo. reflexivity.
Qed.

(** X25: measuring.  When a call of the decompressor with an output buffer
    ends without [GKeyStatus_BufferOverflow], the same call without output
    buffer (on the same input, with [size] in [out_size]) ends with the same
    status and the same decompressor and has consumed the same input; it
    leaves the output block alone and has added to [out_size] exactly the
    number of bytes the call with the buffer has taken from its window,
    provided the sum does not exceed [SIZE_MAX]. *)
Theorem decompress_measures (d : GKeyDecomp) (p : GKeyParameters)
    (s : GKeyStatus) (d' : GKeyDecomp) (p' : GKeyParameters)
    (m : list byte) (size : Z) :
  out_buffered p ->
  gkeydecomp_decompress d p = Some (s, d', p') ->
  s <> GKeyStatus_BufferOverflow ->
  0 <= size -> size + (out_size p - out_size p') <= SIZE_MAX ->
  gkeydecomp_decompress d (unbuffered p m size)
  = Some (s, d', unbuffered p' m (size + (out_size p - out_size p'))).
Proof.
  intros Hbuf Hrun Hs _ _. unfold gkeydecomp_decompress in Hrun |- *.
  change (decompress_fuel d (unbuffered p m size))
    with (decompress_fuel d p).
  destruct (decompress_loop (decompress_fuel d p) (state d) d p) as [r|] eqn:E;
    cbn [obind] in Hrun; [|discriminate].
  injection Hrun as <- <- <-.
  replace (unbuffered p m size)
    with (measure m (size + out_size p) p)
    by (unfold measure; f_equal; lia).
  rewrite (decompress_loop_measure m (size + out_size p) _ _ _ _ _ Hbuf E Hs).
  cbn [obind decomp_pass_measure p_status p_stop p_state p_decomp p_params].
  unfold measure.
  replace (size + out_size p - out_size (p_params r))
    with (size + (out_size p - out_size (p_params r))) by lia.
  reflexivity.
Qed.

Lemma decompress_measures_witness :
  exists d' p',
    gkeydecomp_decompress (gkeydecomp_make 2)
      (stream_params [Byte.xc2; Byte.x00] 4) = Some (GKeyStatus_OK, d', p')
    /\ out_size p' = 3
    /\ gkeydecomp_decompress (gkeydecomp_make 2)
         (unbuffered (stream_params [Byte.xc2; Byte.x00] 4) [] 5)
       = Some (GKeyStatus_OK, d', unbuffered p' [] 6).
Proof.
  destruct (stream_params_ok [Byte.xc2; Byte.x00] 4 ltac:(lia)) as [_ Hout].
  assert (Hbuf : out_buffered (stream_params [Byte.xc2; Byte.x00] 4)).
  { split; [exact Hout|]. exists 0. reflexivity. }
  eexists _, _. split; [vm_compute; reflexivity|]. split; [reflexivity|].
  refine (decompress_measures (gkeydecomp_make 2)
            (stream_params [Byte.xc2; Byte.x00] 4) GKeyStatus_OK _ _ [] 5
            Hbuf _ _ _ _);
    [vm_compute; reflexivity | discriminate | lia
    | vm_compute; intros H; discriminate H].
Defined.

End DecoderMeasure.

Section EncoderMeasure.

Import GKeyComp.

Lemma write_bits_loop_measure (m : list byte) (total : Z) (fuel : nat) :
  forall mem ob os ot a nb mem' ob' os' ot' a' nb',
    write_bits_loop fuel mem (Some ob) os ot a nb
    = (true, (mem', ob', os', ot', a', nb')) ->
    write_bits_loop fuel m None (total - os) ot a nb
    = (true, (m, None, total - os', ot', a', nb')).
Proof.
  induction fuel as [|fuel IH];
    intros mem ob os ot a nb mem' ob' os' ot' a' nb';
    cbn [write_bits_loop].
  - intros H. injection H as <- <- <- <- <- <-. reflexivity.
  - destruct (nb >=? CHAR_BIT).
    + destruct (os =? 0); [discriminate|].
      intros H. apply IH in H.
      replace (total - os + 1) with (total - (os - 1)) by lia. exact H.
    + intros H. injection H as <- <- <- <- <- <-. reflexivity.
Qed.

Lemma write_bits_measure (m : list byte) (total : Z) (c : GKeyComp)
    (p : GKeyParameters) (n bits : Z) (c1 : GKeyComp) (p1 : GKeyParameters) :
  out_buffered p ->
  write_bits c p n bits = (true, c1, p1) ->
  write_bits c (measure m total p) n bits = (true, c1, measure m total p1).
Proof.
  intros [_ [ob Hob]]. unfold write_bits, measure, unbuffered.
  cbn [in_mem in_buffer in_size out_mem out_buffer out_size prog_cb].
  rewrite Hob.
  destruct (if n =? UINT_MAX then _ else _) as [n1 nb1].
  destruct (write_bits_loop _ (out_mem p) _ _ _ _ _)
    as [ok [[[[[mem ob'] os] ot] a] nb]] eqn:E.
  destruct ok; [|discriminate].
  rewrite (write_bits_loop_measure m total _ _ _ _ _ _ _ _ _ _ _ _ _ E).
  intros H. injection H as <- <-. reflexivity.
Qed.

Lemma write_bits_buffered (c : GKeyComp) (p : GKeyParameters) (n bits : Z) :
  out_buffered p -> out_buffered (snd (write_bits c p n bits)).
Proof.
  intros Hbuf. apply (framed_buffered p); [exact Hbuf|].
  apply write_bits_frame, Hbuf.
Qed.

Lemma ring_writer_loop_measure (m : list byte) (total : Z) (l : list byte) :
  forall c p nout,
    out_buffered p ->
    out_buffered (snd (fst (ring_writer_loop c p l nout)))
    /\ nout <= snd (ring_writer_loop c p l nout) <= nout + Z.of_nat (length l)
    /\ (snd (ring_writer_loop c p l nout) = nout + Z.of_nat (length l) ->
        ring_writer_loop c (measure m total p) l nout
        = (fst (fst (ring_writer_loop c p l nout)),
           measure m total (snd (fst (ring_writer_loop c p l nout))),
           snd (ring_writer_loop c p l nout))).
Proof.
  induction l as [|b l IH]; intros c p nout Hbuf; cbn [ring_writer_loop].
  - cbn [fst snd length]. split; [exact Hbuf|]. split; [lia|]. reflexivity.
  - pose proof (write_bits_buffered c p (CHAR_BIT + 1)
                  (Z.shiftl (byte.unsigned b) 1) Hbuf) as Hb1.
    pose proof (write_bits_measure m total c p (CHAR_BIT + 1)
                  (Z.shiftl (byte.unsigned b) 1)) as Hm.
    destruct (write_bits c p (CHAR_BIT + 1) (Z.shiftl (byte.unsigned b) 1))
      as [[ok c1] p1].
    cbn [snd] in Hb1. cbn [length]. destruct ok.
    + rewrite (Hm c1 p1 Hbuf eq_refl).
      destruct (IH c1 p1 (nout + 1) Hb1) as (Hb2 & Hr & Hs).
      split; [exact Hb2|]. split; [lia|].
      intros Hn. apply Hs. lia.
    + cbn [fst snd]. split; [exact Hb1|]. split; [lia|]. intros Hn. lia.
Qed.

Lemma extend_loop_measure (m : list byte) (total : Z) (fuel : nat) :
  forall ring p ro rs consumed,
    extend_loop fuel ring (measure m total p) ro rs consumed
    = extend_loop fuel ring p ro rs consumed.
Proof.
  induction fuel as [|fuel IH]; intros ring p ro rs consumed;
    cbn [extend_loop]; [reflexivity|].
  cbn [measure unbuffered in_size in_mem in_buffer].
  destruct (consumed >=? in_size p); [reflexivity|].
  destruct (negb _); [reflexivity | apply IH].
Qed.

Lemma find_sequence_loop_measure (m : list byte) (total : Z) (fuel : nat) :
  forall k ring p v,
    find_sequence_loop fuel k ring (measure m total p) v
    = find_sequence_loop fuel k ring p v.
Proof.
  induction fuel as [|fuel IH]; intros k ring p v;
    cbn [find_sequence_loop]; [reflexivity|].
  assert (Hs : forall v', search_start k ring (measure m total p) v'
                          = search_start k ring p v') by reflexivity.
  assert (Hm : forall v', extend_match ring (measure m total p) v'
                          = extend_match ring p v').
  { intros v'. unfold extend_match. rewrite extend_loop_measure.
    reflexivity. }
  destruct (fs_read_size v =? 0).
  - rewrite Hs. destruct (search_start k ring p v) as [[v1|v1|v1]|];
      cbn [obind]; try reflexivity.
    + apply IH.
    + rewrite Hm. destruct (extend_match ring p v1) as [stalled v2].
      destruct stalled; [reflexivity | apply IH].
  - rewrite Hm. destruct (extend_match ring p v) as [stalled v2].
    destruct stalled; [reflexivity | apply IH].
Qed.

Lemma find_sequence_measure (m : list byte) (total : Z) (c : GKeyComp)
    (p : GKeyParameters) :
  find_sequence c (measure m total p)
  = match find_sequence c p with
    | Some (found, c', p') => Some (found, c', measure m total p')
    | None => None
    end.
Proof.
  unfold find_sequence. rewrite find_sequence_loop_measure.
  destruct (find_sequence_loop _ _ _ _ _) as [v|]; cbn [obind];
    [|reflexivity].
  destruct (fs_best_read_size v >=? fs_max_read_size v); reflexivity.
Qed.

Ltac wb_measure m total c p n bits Hbuf :=
  let Hb := fresh "Hb" in
  let Hm := fresh "Hm" in
  pose proof (write_bits_buffered c p n bits Hbuf) as Hb;
  pose proof (write_bits_measure m total c p n bits) as Hm;
  destruct (write_bits c p n bits) as [[?ok ?c1] ?p1];
  cbn [snd] in Hb;
  match goal with
  | |- context [if ?b then _ else _] =>
      destruct b;
      [rewrite (Hm _ _ Hbuf eq_refl); clear Hm
      |let H := fresh in
       let Hs := fresh in
       intros H Hs; injection H as <-; cbn [p_status] in Hs; contradiction]
  end.

Lemma case_PutSize_measure (m : list byte) (total : Z) status input c p r :
  out_buffered p ->
  case_PutSize status input c p = Some r ->
  p_status r <> GKeyStatus_BufferOverflow ->
  case_PutSize status input c (measure m total p)
  = Some (comp_pass_measure m total r).
Proof.
  intros Hbuf. unfold case_PutSize.
  wb_measure m total c p
    (GKey_get_read_size_bits (history_log_2 c) (read_offset c))
    (read_size c) Hbuf.
  destruct (RingBuffer_copy _ _ _ _ _) as [[[ring u] copied]|];
    cbn [obind]; [|discriminate].
  intros H _. injection H as <-. reflexivity.
Qed.

Lemma case_PutOffset_measure (m : list byte) (total : Z) status input c p r :
  out_buffered p ->
  case_PutOffset status input c p = Some r ->
  p_status r <> GKeyStatus_BufferOverflow ->
  case_PutOffset status input c (measure m total p)
  = Some (comp_pass_measure m total r).
Proof.
  intros Hbuf. unfold case_PutOffset.
  wb_measure m total c p (history_log_2 c + 1)
    (Z.lor (ulong (Z.shiftl (read_offset c) 1)) 1) Hbuf.
  apply case_PutSize_measure, Hb.
Qed.

Lemma case_FindSequence_measure (m : list byte) (total : Z) flush st status
    input c p r :
  out_buffered p ->
  case_FindSequence flush st status input c p = Some r ->
  p_status r <> GKeyStatus_BufferOverflow ->
  case_FindSequence flush st status input c (measure m total p)
  = Some (comp_pass_measure m total r).
Proof.
  intros Hbuf. unfold case_FindSequence.
  assert (Hfs : (if flush then Some (true, c, measure m total p)
                 else find_sequence c (measure m total p))
                = match (if flush then Some (true, c, p)
                         else find_sequence c p) with
                  | Some (found, c', p') =>
                      Some (found, c', measure m total p')
                  | None => None
                  end).
  { destruct flush; [reflexivity | apply find_sequence_measure]. }
  rewrite Hfs.
  assert (Hb1 : forall found c1 p1,
             (if flush then Some (true, c, p) else find_sequence c p)
             = Some (found, c1, p1) -> out_buffered p1).
  { intros found c1 p1. destruct flush.
    - intros H. injection H as _ _ <-. exact Hbuf.
    - intros H. apply (framed_buffered p); [exact Hbuf|].
      apply (find_sequence_frame c p found c1 p1); [apply Hbuf | exact H]. }
  destruct (if flush then Some (true, c, p) else find_sequence c p)
    as [[[found c1] p1]|]; cbn [obind]; [|discriminate].
  specialize (Hb1 _ _ _ eq_refl).
  destruct found; [|intros H _; injection H as <-; reflexivity].
  destruct (read_size c1 =? 0).
  - change (in_size (measure m total p1)) with (in_size p1).
    destruct (in_size p1 >? 0); [|destruct flush];
      intros H _; injection H as <-; reflexivity.
  - cbv zeta. destruct (_ <? _).
    + intros H _. injection H as <-. reflexivity.
    + apply case_PutOffset_measure, Hb1.
Qed.

Lemma case_Progress_measure_comp (m : list byte) (total : Z) flush st status
    input c p r :
  out_buffered p ->
  case_Progress flush st status input c p = Some r ->
  p_status r <> GKeyStatus_BufferOverflow ->
  case_Progress flush st status input c (measure m total p)
  = Some (comp_pass_measure m total r).
Proof.
  intros Hbuf. unfold case_Progress.
  change (prog_cb (measure m total p)) with (prog_cb p).
  destruct (prog_cb p) as [cb|];
    [destruct (cb (in_total c) (out_total c))|];
    try (apply case_FindSequence_measure, Hbuf).
  intros H _. injection H as <-. reflexivity.
Qed.

Lemma case_PutByte_measure_comp (m : list byte) (total : Z) status input c p
    r :
  out_buffered p ->
  case_PutByte status input c p = Some r ->
  p_status r <> GKeyStatus_BufferOverflow ->
  case_PutByte status input c (measure m total p)
  = Some (comp_pass_measure m total r).
Proof.
  intros Hbuf. unfold case_PutByte. cbv zeta.
  change (in_buffer (measure m total p)) with (in_buffer p).
  change (in_mem (measure m total p)) with (in_mem p).
  wb_measure m total c p (CHAR_BIT + 1)
    (Z.shiftl (byte.unsigned (mem_load (in_mem p) (in_buffer p))) 1) Hbuf.
  change (in_buffer (measure m total p1)) with (in_buffer p1).
  change (in_mem (measure m total p1)) with (in_mem p1).
  destruct (RingBuffer_write _ _ _) as [ring|]; cbn [obind]; [|discriminate].
  intros H _. injection H as <-. reflexivity.
Qed.

Lemma case_Flush_measure (m : list byte) (total : Z) status input c p r :
  out_buffered p ->
  case_Flush status input c p = Some r ->
  p_status r <> GKeyStatus_BufferOverflow ->
  case_Flush status input c (measure m total p)
  = Some (comp_pass_measure m total r).
Proof.
  intros Hbuf. unfold case_Flush.
  wb_measure m total c p UINT_MAX 0 Hbuf.
  intros H _. injection H as <-. reflexivity.
Qed.

Lemma case_PutBytes_measure (m : list byte) (total : Z) status input c p r :
  out_buffered p ->
  case_PutBytes status input c p = Some r ->
  p_status r <> GKeyStatus_BufferOverflow ->
  case_PutBytes status input c (measure m total p)
  = Some (comp_pass_measure m total r).
Proof.
  intros Hbuf. unfold case_PutBytes, RingBuffer_copy.
  destruct (RingBuffer_copy_loop _ _ _ _ _ _ _ _ _)
    as [[[ring [c1 p1]] copied]|] eqn:E; cbn [obind]; [|discriminate].
  assert (Hkeep : forall (c0 : GKeyComp) p0 l,
             read_size (fst (fst (ring_writer_loop c0 p0 l 0)))
             = read_size c0).
  { intros c0 p0 l.
    destruct (ring_writer_loop_shape l c0 p0 0)
      as (ot & a & nb & mem & ob & os & n & S & _).
    rewrite S. reflexivity. }
  pose proof (copy_loop_whole
                (fun st : GKeyComp * GKeyParameters =>
                   out_buffered (snd st) /\ read_size (fst st) = read_size c)
                (fun st => (fst st, measure m total (snd st)))
                ring_writer (read_offset c) (read_size c)) as Hwhole.
  specialize (Hwhole ltac:(intros [c0 p0] l [Hb0 Hrs0];
                           destruct (ring_writer_loop_measure m total l c0 p0
                                       0 Hb0) as (Hb1 & Hr1 & Hs1);
                           cbn [fst snd ring_writer] in *;
                           split; [split; [exact Hb1|]|split; assumption];
                           rewrite Hkeep; exact Hrs0)
                (S (Z.to_nat (read_size c))) (history c) (c, p) 0 0 0
                ring (c1, p1) copied (conj Hbuf eq_refl) E).
  cbn [set_history read_size].
  destruct (copied >=? read_size c1) eqn:Hfull.
  - assert (Hrs : read_size c1 = read_size c).
    { apply (copy_loop_invariant
               (fun st : GKeyComp * GKeyParameters =>
                  read_size (fst st) = read_size c)
               (Some ring_writer) (read_offset c) (read_size c)) in E;
        [exact E | | reflexivity].
      intros cb Hcb [c0 p0] l H0. injection Hcb as <-.
      cbn [ring_writer fst] in *. rewrite Hkeep. exact H0. }
    destruct Hwhole as [Hrun _]; [lia|].
    cbn [fst snd] in Hrun. rewrite Hrun. cbn [obind set_history read_size].
    rewrite Hfull. intros H _. injection H as <-. reflexivity.
  - intros H Hs. injection H as <-. cbn [p_status] in Hs. contradiction.
Qed.

Lemma switch_measure_comp (m : list byte) (total : Z) flush st status input
    c p r :
  out_buffered p ->
  switch flush st status input c p = Some r ->
  p_status r <> GKeyStatus_BufferOverflow ->
  switch flush st status input c (measure m total p)
  = Some (comp_pass_measure m total r).
Proof.
  intros Hbuf. destruct st; cbn [switch].
  - unfold case_NextSequence. apply case_Progress_measure_comp, Hbuf.
  - apply case_Progress_measure_comp, Hbuf.
  - apply case_FindSequence_measure, Hbuf.
  - apply case_PutOffset_measure, Hbuf.
  - apply case_PutSize_measure, Hbuf.
  - apply case_PutByte_measure_comp, Hbuf.
  - apply case_PutBytes_measure, Hbuf.
  - apply case_Flush_measure, Hbuf.
Qed.

Lemma compress_loop_measure (m : list byte) (total : Z) (fuel : nat) :
  forall flush st c p r,
    out_buffered p ->
    compress_loop fuel flush st c p = Some r ->
    p_status r <> GKeyStatus_BufferOverflow ->
    compress_loop fuel flush st c (measure m total p)
    = Some (comp_pass_measure m total r).
Proof.
  induction fuel as [|fuel IH]; intros flush st c p r Hbuf Hrun Hs;
    cbn [compress_loop] in Hrun |- *; [discriminate|].
  destruct (switch flush st GKeyStatus_OK true c p) as [r0|] eqn:E;
    cbn [obind] in Hrun; [|discriminate].
  assert (Hb0 : out_buffered (p_params r0)).
  { apply (framed_buffered p); [exact Hbuf|].
    apply (switch_frame_comp flush st GKeyStatus_OK true c p r0);
      [apply Hbuf | exact E]. }
  destruct (GKeyStatus_eqb (p_status r0) GKeyStatus_OK && p_input r0)
    eqn:Hgo.
  - rewrite (switch_measure_comp m total _ _ _ _ _ _ _ Hbuf E).
    + cbn [obind comp_pass_measure p_status p_input p_state p_comp p_params].
      rewrite Hgo. apply (IH _ _ _ _ _ Hb0 Hrun Hs).
    + apply andb_prop in Hgo as [Hok _].
      destruct (p_status r0); try discriminate; intros H; discriminate.
  - injection Hrun as <-.
    rewrite (switch_measure_comp m total _ _ _ _ _ _ _ Hbuf E Hs).
    cbn [obind comp_pass_measure p_status p_input p_state p_comp p_params].
    rewrite Hgo. reflexivity.
Qed.

(** X26: measuring.  When a call of the compressor with an output buffer
    ends without [GKeyStatus_BufferOverflow], the same call without output
    buffer (on the same input, with [size] in [out_size]) ends with the same
    status and the same compressor and has consumed the same input; it
    leaves the output block alone and has added to [out_size] exactly the
    number of bytes the call with the buffer has taken from its window,
    provided the sum does not exceed [SIZE_MAX]. *)
Theorem compress_measures (c : GKeyComp) (p : GKeyParameters)
    (s : GKeyStatus) (c' : GKeyComp) (p' : GKeyParameters)
    (m : list byte) (size : Z) :
  out_buffered p ->
  gkeycomp_compress c p = Some (s, c', p') ->
  s <> GKeyStatus_BufferOverflow ->
  0 <= size -> size + (out_size p - out_size p') <= SIZE_MAX ->
  gkeycomp_compress c (unbuffered p m size)
  = Some (s, c', unbuffered p' m (size + (out_size p - out_size p'))).
Proof.
  intros Hbuf Hrun Hs _ _. unfold gkeycomp_compress in Hrun |- *.
  cbv zeta in Hrun |- *.
  change (compress_fuel (unbuffered p m size)) with (compress_fuel p).
  change (in_size (unbuffered p m size)) with (in_size p).
  destruct (compress_loop (compress_fuel p) (in_size p =? 0) (state c) c p)
    as [r|] eqn:E; cbn [obind] in Hrun; [|discriminate].
  injection Hrun as <- <- <-.
  replace (unbuffered p m size)
    with (measure m (size + out_size p) p)
    by (unfold measure; f_equal; lia).
  rewrite (compress_loop_measure m (size + out_size p) _ _ _ _ _ _ Hbuf E Hs).
  cbn [obind comp_pass_measure p_status p_input p_state p_comp p_params].
  unfold measure.
  replace (size + out_size p - out_size (p_params r))
    with (size + (out_size p - out_size (p_params r))) by lia.
  reflexivity.
Qed.

Lemma compress_measures_witness :
  exists c' p',
    gkeycomp_compress (gkeycomp_make 2)
      (stream_params [Byte.x61; Byte.x62] 4) = Some (GKeyStatus_OK, c', p')
    /\ out_size p' = 3
    /\ gkeycomp_compress (gkeycomp_make 2)
         (unbuffered (stream_params [Byte.x61; Byte.x62] 4) [] 5)
       = Some (GKeyStatus_OK, c', unbuffered p' [] 6).
Proof.
  destruct (stream_params_ok [Byte.x61; Byte.x62] 4 ltac:(lia)) as [_ Hout].
  assert (Hbuf : out_buffered (stream_params [Byte.x61; Byte.x62] 4)).
  { split; [exact Hout|]. exists 0. reflexivity. }
  eexists _, _. split; [vm_compute; reflexivity|]. split; [reflexivity|].
  refine (compress_measures (gkeycomp_make 2)
            (stream_params [Byte.x61; Byte.x62] 4) GKeyStatus_OK _ _ [] 5
            Hbuf _ _ _ _);
    [vm_compute; reflexivity | discriminate | lia
    | vm_compute; intros H; discriminate H].
Defined.

End EncoderMeasure.
